(** * EvalML pipeline utilities: a shallow embedding and its properties

    The development follows [evalml/pipelines/utils.py] and
    [evalml/model_understanding/metrics.py]:

    - [ProblemType]: the closed enumeration of problem types and its predicates;
    - [Selector]: the rule-based preprocessing selector
      ([_get_preprocessing_components] and its rule functions);
    - [Actions]: the data-check action translator
      ([_make_component_list_from_actions]);
    - [Metrics]: [normalize_confusion_matrix] and [check_distribution];
    - [Assembler]: the multi-graph assembler and the stacked-ensemble assembler,
      over a store of dictionary objects;
    - [Multiseries]: [unstack_multiseries], [stack_data] and [stack_X] over a
      small model of data frames;
    - [Baseline]: [make_timeseries_baseline_pipeline];
    - [RowsOfInterest]: [rows_of_interest] over labelled probabilities.

    Python exceptions are values of [exn]; a computation that may raise has
    type [result A].  What the two files import and call (the component
    registry [handle_component_class], the pipeline classes, the model family
    of a component graph, scipy's tests, the selector's helpers) is a
    parameter of the definitions that call it. *)

From Stdlib Require Import String Ascii List ZArith QArith Qabs Lia Lqa Permutation Bool Arith.
From Stdlib Require Import Sorted DecimalString DecimalNat.
From stdpp Require Import gmap strings sorting.
Import ListNotations.

Open Scope string_scope.
Open Scope list_scope.
Open Scope nat_scope.

(** ** Exceptions *)

Inductive exn : Type :=
| KeyError
| ValueError
| AttributeError
| IndexError
| NameError
| TypeError
| MissingComponentError.

Inductive result (A : Type) : Type :=
| Ok (a : A)
| Raise (e : exn).

Arguments Ok {A} a.
Arguments Raise {A} e.

Definition rbind {A B : Type} (r : result A) (k : A -> result B) : result B :=
  match r with
  | Ok a => k a
  | Raise e => Raise e
  end.

Declare Scope result_scope.
Delimit Scope result_scope with result.
Notation "x <- r ;; k" := (rbind r (fun x => k))
  (at level 100, r at next level, right associativity) : result_scope.

(** ** Problem types *)

Module ProblemType.

(** The members of [ProblemTypes] that [_get_pipeline_base_class] and
    [make_timeseries_baseline_pipeline] dispatch on. *)
Inductive ProblemTypes : Type :=
| BINARY
| MULTICLASS
| REGRESSION
| TIME_SERIES_REGRESSION
| TIME_SERIES_BINARY
| TIME_SERIES_MULTICLASS
| MULTISERIES_TIME_SERIES_REGRESSION.

Definition eqb (a b : ProblemTypes) : bool :=
  match a, b with
  | BINARY, BINARY | MULTICLASS, MULTICLASS | REGRESSION, REGRESSION
  | TIME_SERIES_REGRESSION, TIME_SERIES_REGRESSION
  | TIME_SERIES_BINARY, TIME_SERIES_BINARY
  | TIME_SERIES_MULTICLASS, TIME_SERIES_MULTICLASS
  | MULTISERIES_TIME_SERIES_REGRESSION, MULTISERIES_TIME_SERIES_REGRESSION => true
  | _, _ => false
  end.

(** Modelled from the spec: [is_classification] of [evalml.problem_types]
    is not part of the sources at hand; the enumeration of section 6 names
    the classification members (binary, multiclass and their time-series
    variants). *)
Definition is_classification (p : ProblemTypes) : bool :=
  match p with
  | BINARY | MULTICLASS | TIME_SERIES_BINARY | TIME_SERIES_MULTICLASS => true
  | _ => false
  end.

(** Modelled from the spec: [is_regression] of [evalml.problem_types];
    regression, time-series regression and multiseries time-series
    regression. *)
Definition is_regression (p : ProblemTypes) : bool :=
  match p with
  | REGRESSION | TIME_SERIES_REGRESSION | MULTISERIES_TIME_SERIES_REGRESSION => true
  | _ => false
  end.

(** Modelled from the spec: [is_time_series] of [evalml.problem_types];
    every member whose name carries the time-series prefix, the multiseries
    one included (the multiseries branch of [_get_decomposer] sits under
    [is_time_series(problem_type) and is_regression(problem_type)]). *)
Definition is_time_series (p : ProblemTypes) : bool :=
  match p with
  | TIME_SERIES_REGRESSION | TIME_SERIES_BINARY | TIME_SERIES_MULTICLASS
  | MULTISERIES_TIME_SERIES_REGRESSION => true
  | _ => false
  end.

(** Modelled from the spec: [is_multiseries] of [evalml.problem_types]. *)
Definition is_multiseries (p : ProblemTypes) : bool :=
  match p with
  | MULTISERIES_TIME_SERIES_REGRESSION => true
  | _ => false
  end.

End ProblemType.
Export ProblemType.

(** ** The preprocessing selector *)

Module Selector.

(** Woodwork's logical types; a column of the feature schema carries one. *)
Inductive LogicalType : Type :=
| Address | Age | AgeFractional | AgeNullable | Boolean | BooleanNullable
| Categorical | CountryCode | CurrencyCode | Datetime | Double | EmailAddress
| Filepath | Integer | IntegerNullable | IPAddress | LatLong | NaturalLanguage
| Ordinal | PersonFullName | PhoneNumber | PostalCode | SubRegionCode
| Timedelta | Unknown | URL.

#[global] Instance LogicalType_eq_dec : EqDecision LogicalType.
Proof. solve_decision. Defined.

(** A column of [X]: its woodwork typing information and whether every one of
    its values is null ([isnull().all()]). *)
Record Column : Type := mkColumn {
  col_name : string;
  logical_type : LogicalType;
  semantic_tags : list string;
  all_null : bool
}.

(** What a string handed to [X.ww.select] denotes: the name of a registered
    logical type, or else a semantic tag. *)
Inductive Selector : Type :=
| ByLogicalType (lt : LogicalType)
| ByTag (tag : string).

Definition col_matches (c : Column) (s : Selector) : bool :=
  match s with
  | ByLogicalType lt => bool_decide (logical_type c = lt)
  | ByTag t => existsb (String.eqb t) (semantic_tags c)
  end.

Definition ww_select (include : list Selector) (X : list Column) : list Column :=
  List.filter (fun c => existsb (col_matches c) include) X.

Definition ww_select_exclude (exclude : list Selector) (X : list Column) : list Column :=
  List.filter (fun c => negb (existsb (col_matches c) exclude)) X.

Inductive ModelFamily : Type :=
| ARIMA
| PROPHET
| LINEAR_MODEL
| CATBOOST
| OtherFamily (name : string).

#[global] Instance ModelFamily_eq_dec : EqDecision ModelFamily.
Proof. solve_decision. Defined.

(** Estimator classes: the two the selector compares against by identity, and
    any other class with its declared model family. *)
Inductive EstimatorClass : Type :=
| CatBoostClassifier
| CatBoostRegressor
| OtherEstimator (name : string) (family : ModelFamily).

#[global] Instance EstimatorClass_eq_dec : EqDecision EstimatorClass.
Proof. solve_decision. Defined.

Definition model_family (e : EstimatorClass) : ModelFamily :=
  match e with
  | CatBoostClassifier | CatBoostRegressor => CATBOOST
  | OtherEstimator _ f => f
  end.

(** The component classes the selector can recommend. *)
Inductive Component : Type :=
| LabelEncoder
| DropNullColumns
| DropColumns
| URLFeaturizer
| EmailFeaturizer
| DateTimeFeaturizer
| NaturalLanguageFeaturizer
| Imputer
| TimeSeriesFeaturizer
| STLDecomposer
| OrdinalEncoder
| OneHotEncoder
| DropNaNRowsTransformer
| Undersampler
| Oversampler
| StandardScaler.

#[global] Instance Component_eq_dec : EqDecision Component.
Proof. solve_decision. Defined.

Definition DECOMPOSER_PERIOD_CAP : Z := 1000.

(** [needle in haystack] on Python strings. *)
Definition str_contains (needle haystack : string) : bool :=
  match String.index 0 needle haystack with
  | Some _ => true
  | None => false
  end.

(** The rule functions, as the values stored in [components_functions] and
    [functions_to_exclude]. *)
Inductive Rule : Type :=
| get_label_encoder
| get_drop_all_null
| get_drop_index_unknown
| get_url
| get_email
| get_datetime
| get_natural_language
| get_imputer
| get_time_series_featurizer
| get_decomposer
| get_ordinal_encoder
| get_ohe
| get_drop_nan_rows_transformer
| get_sampler
| get_standard_scaler.

#[global] Instance Rule_eq_dec : EqDecision Rule.
Proof. solve_decision. Defined.

Section Rules.

(** The target [y]; the selector only hands it on. *)
Context {Target : Type}.

(** Iteration order of a Python [set] of classes: it depends on the hashes of
    the run, so it is a parameter. *)
Variable set_iter : list LogicalType -> list LogicalType.

(** [get_time_index(X, y, None).freq]: the name of the inferred frequency, or
    [None] when it cannot be inferred; the lookup of the time index may raise. *)
Variable get_time_index_freq : list Column -> Target -> result (option string).

(** [STLDecomposer.is_freq_valid] and [STLDecomposer.determine_periodicity]. *)
Variable is_freq_valid : string -> bool.
Variable determine_periodicity : list Column -> Target -> Z -> option Z.

(** [estimator_unable_to_handle_nans] of [evalml.pipelines.components.utils]. *)
Variable estimator_unable_to_handle_nans : option EstimatorClass -> result bool.

Definition py_set (l : list LogicalType) : list LogicalType :=
  set_iter (nodup LogicalType_eq_dec l).

Definition py_set_intersection (a b : list LogicalType) : list LogicalType :=
  set_iter (List.filter (fun x => bool_decide (x ∈ b)) a).

Definition _get_label_encoder (X : list Column) (y : Target) (problem_type : ProblemTypes)
    (estimator_class : option EstimatorClass) (sampler_name : option string)
  : result (list Component) :=
  Ok (if is_classification problem_type then [LabelEncoder] else []).

Definition _get_drop_all_null (X : list Column) (y : Target) (problem_type : ProblemTypes)
    (estimator_class : option EstimatorClass) (sampler_name : option string)
  : result (list Component) :=
  let non_index_unknown := ww_select_exclude [ByTag "index"; ByLogicalType Unknown] X in
  let all_null_cols := List.filter all_null non_index_unknown in
  Ok (if (0 <? length all_null_cols)%nat then [DropNullColumns] else []).

Definition _get_drop_index_unknown (X : list Column) (y : Target) (problem_type : ProblemTypes)
    (estimator_class : option EstimatorClass) (sampler_name : option string)
  : result (list Component) :=
  let index_and_unknown_columns := ww_select [ByTag "index"; ByLogicalType Unknown] X in
  Ok (if (0 <? length index_and_unknown_columns)%nat then [DropColumns] else []).

Definition _get_email (X : list Column) (y : Target) (problem_type : ProblemTypes)
    (estimator_class : option EstimatorClass) (sampler_name : option string)
  : result (list Component) :=
  let email_columns := ww_select [ByLogicalType EmailAddress] X in
  Ok (if (0 <? length email_columns)%nat then [EmailFeaturizer] else []).

Definition _get_url (X : list Column) (y : Target) (problem_type : ProblemTypes)
    (estimator_class : option EstimatorClass) (sampler_name : option string)
  : result (list Component) :=
  let url_columns := ww_select [ByLogicalType URL] X in
  Ok (if (0 <? length url_columns)%nat then [URLFeaturizer] else []).

(** [estimator_class.model_family] is only evaluated when a datetime column
    exists; on [None] the attribute access raises. *)
Definition _get_datetime (X : list Column) (y : Target) (problem_type : ProblemTypes)
    (estimator_class : option EstimatorClass) (sampler_name : option string)
  : result (list Component) :=
  let datetime_cols := ww_select [ByLogicalType Datetime] X in
  let add_datetime_featurizer := (0 <? length datetime_cols)%nat in
  if add_datetime_featurizer then
    match estimator_class with
    | None => Raise AttributeError
    | Some e =>
        Ok (if negb (bool_decide (model_family e ∈ [ARIMA; PROPHET]))
            then [DateTimeFeaturizer] else [])
    end
  else Ok [].

Definition _get_natural_language (X : list Column) (y : Target) (problem_type : ProblemTypes)
    (estimator_class : option EstimatorClass) (sampler_name : option string)
  : result (list Component) :=
  let text_columns := ww_select [ByLogicalType NaturalLanguage] X in
  Ok (if (0 <? length text_columns)%nat then [NaturalLanguageFeaturizer] else []).

Definition types_imputer_handles : list LogicalType :=
  [AgeNullable; Boolean; BooleanNullable; Categorical; Double; Integer;
   IntegerNullable; URL; EmailAddress; Datetime].

Definition _get_imputer (X : list Column) (y : Target) (problem_type : ProblemTypes)
    (estimator_class : option EstimatorClass) (sampler_name : option string)
  : result (list Component) :=
  let input_logical_types := py_set (map logical_type X) in
  let text_columns := ww_select [ByLogicalType NaturalLanguage] X in
  Ok (if (negb (length (py_set_intersection input_logical_types types_imputer_handles) =? 0)%nat)
         || (negb (length text_columns =? 0)%nat)
      then [Imputer] else []).

Definition _get_ohe (X : list Column) (y : Target) (problem_type : ProblemTypes)
    (estimator_class : option EstimatorClass) (sampler_name : option string)
  : result (list Component) :=
  let categorical_cols :=
    ww_select [ByTag "category"; ByLogicalType URL; ByLogicalType EmailAddress] X in
  Ok (if (0 <? length categorical_cols)%nat
         && negb (bool_decide (estimator_class ∈ [Some CatBoostClassifier; Some CatBoostRegressor]))
      then [OneHotEncoder] else []).

Definition _get_ordinal_encoder (X : list Column) (y : Target) (problem_type : ProblemTypes)
    (estimator_class : option EstimatorClass) (sampler_name : option string)
  : result (list Component) :=
  let ordinal_cols := ww_select [ByLogicalType Ordinal] X in
  Ok (if (0 <? length ordinal_cols)%nat then [OrdinalEncoder] else []).

Definition sampler_components : list (string * Component) :=
  [("Undersampler", Undersampler); ("Oversampler", Oversampler)].

Fixpoint dict_get {V : Type} (d : list (string * V)) (k : string) : result V :=
  match d with
  | [] => Raise KeyError
  | (k', v) :: d' => if String.eqb k k' then Ok v else dict_get d' k
  end.

Definition _get_sampler (X : list Column) (y : Target) (problem_type : ProblemTypes)
    (estimator_class : option EstimatorClass) (sampler_name : option string)
  : result (list Component) :=
  match sampler_name with
  | Some name => (c <- dict_get sampler_components name ;; Ok [c])%result
  | None => Ok []
  end.

Definition _get_standard_scaler (X : list Column) (y : Target) (problem_type : ProblemTypes)
    (estimator_class : option EstimatorClass) (sampler_name : option string)
  : result (list Component) :=
  Ok (match estimator_class with
      | Some e => if bool_decide (model_family e = LINEAR_MODEL) then [StandardScaler] else []
      | None => []
      end).

Definition _get_time_series_featurizer (X : list Column) (y : Target)
    (problem_type : ProblemTypes) (estimator_class : option EstimatorClass)
    (sampler_name : option string) : result (list Component) :=
  Ok (if is_time_series problem_type then [TimeSeriesFeaturizer] else []).

Definition _get_decomposer (X : list Column) (y : Target) (problem_type : ProblemTypes)
    (estimator_class : option EstimatorClass) (sampler_name : option string)
  : result (list Component) :=
  if is_time_series problem_type && is_regression problem_type then
    if is_multiseries problem_type then Ok [STLDecomposer]
    else
      (time_index_freq <- get_time_index_freq X y ;;
       match time_index_freq with
       | None => Ok []
       | Some freq =>
           if is_freq_valid freq then
             let order := if str_contains "Q" freq then 3%Z else 5%Z in
             match determine_periodicity X y order with
             | Some seasonal_period =>
                 if (seasonal_period <=? DECOMPOSER_PERIOD_CAP)%Z
                 then Ok [STLDecomposer] else Ok []
             | None => Ok []
             end
           else Ok []
       end)%result
  else Ok [].

(** Truthiness of [sampler_name]: neither [None] nor the empty string. *)
Definition truthy_name (sampler_name : option string) : bool :=
  match sampler_name with
  | Some s => negb (String.eqb s "")
  | None => false
  end.

Definition _get_drop_nan_rows_transformer (X : list Column) (y : Target)
    (problem_type : ProblemTypes) (estimator_class : option EstimatorClass)
    (sampler_name : option string) : result (list Component) :=
  if is_time_series problem_type then
    (unable <- estimator_unable_to_handle_nans estimator_class ;;
     Ok (if unable || truthy_name sampler_name then [DropNaNRowsTransformer] else []))%result
  else Ok [].

Definition run_rule (f : Rule) (X : list Column) (y : Target) (problem_type : ProblemTypes)
    (estimator_class : option EstimatorClass) (sampler_name : option string)
  : result (list Component) :=
  match f with
  | get_label_encoder => _get_label_encoder X y problem_type estimator_class sampler_name
  | get_drop_all_null => _get_drop_all_null X y problem_type estimator_class sampler_name
  | get_drop_index_unknown => _get_drop_index_unknown X y problem_type estimator_class sampler_name
  | get_url => _get_url X y problem_type estimator_class sampler_name
  | get_email => _get_email X y problem_type estimator_class sampler_name
  | get_datetime => _get_datetime X y problem_type estimator_class sampler_name
  | get_natural_language => _get_natural_language X y problem_type estimator_class sampler_name
  | get_imputer => _get_imputer X y problem_type estimator_class sampler_name
  | get_time_series_featurizer =>
      _get_time_series_featurizer X y problem_type estimator_class sampler_name
  | get_decomposer => _get_decomposer X y problem_type estimator_class sampler_name
  | get_ordinal_encoder => _get_ordinal_encoder X y problem_type estimator_class sampler_name
  | get_ohe => _get_ohe X y problem_type estimator_class sampler_name
  | get_drop_nan_rows_transformer =>
      _get_drop_nan_rows_transformer X y problem_type estimator_class sampler_name
  | get_sampler => _get_sampler X y problem_type estimator_class sampler_name
  | get_standard_scaler => _get_standard_scaler X y problem_type estimator_class sampler_name
  end.

(** [exclude_featurizers and name in exclude_featurizers]. *)
Definition excluded (exclude_featurizers : option (list string)) (name : string) : bool :=
  match exclude_featurizers with
  | Some l => existsb (String.eqb name) l
  | None => false
  end.

Definition functions_to_exclude (exclude_featurizers : option (list string)) : list Rule :=
  (if excluded exclude_featurizers "DatetimeFeaturizer" then [get_datetime] else [])
  ++ (if excluded exclude_featurizers "EmailFeaturizer" then [get_email] else [])
  ++ (if excluded exclude_featurizers "URLFeaturizer" then [get_url] else [])
  ++ (if excluded exclude_featurizers "NaturalLanguageFeaturizer"
      then [get_natural_language] else [])
  ++ (if excluded exclude_featurizers "TimeSeriesFeaturizer"
      then [get_time_series_featurizer] else []).

(** The loop [for function in components_functions], with [components] as the
    accumulator. *)
Fixpoint run_functions (fs to_exclude : list Rule) (X : list Column) (y : Target)
    (problem_type : ProblemTypes) (estimator_class : option EstimatorClass)
    (sampler_name : option string) (components : list Component)
  : result (list Component) :=
  match fs with
  | [] => Ok components
  | function :: fs' =>
      if negb (bool_decide (function ∈ to_exclude)) then
        (cs <- run_rule function X y problem_type estimator_class sampler_name ;;
         run_functions fs' to_exclude X y problem_type estimator_class sampler_name
           (components ++ cs))%result
      else
        run_functions fs' to_exclude X y problem_type estimator_class sampler_name components
  end.

Definition time_series_functions (include_decomposer : bool) : list Rule :=
  [get_label_encoder; get_drop_all_null; get_drop_index_unknown; get_url; get_email;
   get_natural_language; get_imputer; get_time_series_featurizer]
  ++ (if include_decomposer then [get_decomposer] else [])
  ++ [get_datetime; get_ordinal_encoder; get_ohe; get_drop_nan_rows_transformer;
      get_sampler; get_standard_scaler].

Definition default_functions : list Rule :=
  [get_label_encoder; get_drop_all_null; get_drop_index_unknown; get_url; get_email;
   get_datetime; get_natural_language; get_imputer; get_ordinal_encoder; get_ohe;
   get_sampler; get_standard_scaler].

Definition _get_preprocessing_components (X : list Column) (y : Target)
    (problem_type : ProblemTypes) (estimator_class : option EstimatorClass)
    (sampler_name : option string) (exclude_featurizers : option (list string))
    (include_decomposer : bool) : result (list Component) :=
  if is_multiseries problem_type && negb include_decomposer then Ok []
  else
    let components_functions :=
      if is_multiseries problem_type then [get_decomposer]
      else if is_time_series problem_type then time_series_functions include_decomposer
      else default_functions in
    run_functions components_functions (functions_to_exclude exclude_featurizers)
      X y problem_type estimator_class sampler_name [].

(** The argument checks at the head of [make_pipeline]; [get_estimators] lists
    the estimator classes valid for a problem type. *)
Variable get_estimators : ProblemTypes -> list EstimatorClass.

Definition make_pipeline_checks (estimator : option EstimatorClass)
    (problem_type : ProblemTypes) (sampler_name : option string) : result unit :=
  match estimator with
  | Some e =>
      if negb (bool_decide (e ∈ get_estimators problem_type)) then Raise ValueError
      else if negb (is_classification problem_type) && bool_decide (sampler_name <> None)
      then Raise ValueError
      else Ok tt
  | None => Ok tt
  end.

End Rules.

(** The components a rule function can return. *)
Definition rule_components (f : Rule) : list Component :=
  match f with
  | get_label_encoder => [LabelEncoder]
  | get_drop_all_null => [DropNullColumns]
  | get_drop_index_unknown => [DropColumns]
  | get_url => [URLFeaturizer]
  | get_email => [EmailFeaturizer]
  | get_datetime => [DateTimeFeaturizer]
  | get_natural_language => [NaturalLanguageFeaturizer]
  | get_imputer => [Imputer]
  | get_time_series_featurizer => [TimeSeriesFeaturizer]
  | get_decomposer => [STLDecomposer]
  | get_ordinal_encoder => [OrdinalEncoder]
  | get_ohe => [OneHotEncoder]
  | get_drop_nan_rows_transformer => [DropNaNRowsTransformer]
  | get_sampler => [Undersampler; Oversampler]
  | get_standard_scaler => [StandardScaler]
  end.

(** The fixed order in which recommended components can appear, per kind of
    problem type: the rule lists of [_get_preprocessing_components] read
    through [rule_components]. *)
Definition fixed_order (problem_type : ProblemTypes) : list Component :=
  if is_multiseries problem_type then [STLDecomposer]
  else if is_time_series problem_type then
    [LabelEncoder; DropNullColumns; DropColumns; URLFeaturizer; EmailFeaturizer;
     NaturalLanguageFeaturizer; Imputer; TimeSeriesFeaturizer; STLDecomposer;
     DateTimeFeaturizer; OrdinalEncoder; OneHotEncoder; DropNaNRowsTransformer;
     Undersampler; Oversampler; StandardScaler]
  else
    [LabelEncoder; DropNullColumns; DropColumns; URLFeaturizer; EmailFeaturizer;
     DateTimeFeaturizer; NaturalLanguageFeaturizer; Imputer; OrdinalEncoder;
     OneHotEncoder; Undersampler; Oversampler; StandardScaler].

Definition has_sampler (components : list Component) : bool :=
  bool_decide (Undersampler ∈ components) || bool_decide (Oversampler ∈ components).

(** The period condition of the non-multiseries branch of [_get_decomposer]:
    the frequency of the time index is inferred, the decomposer accepts it and
    a seasonal period of at most [DECOMPOSER_PERIOD_CAP] is determined. *)
Definition valid_capped_period {Target : Type}
    (get_time_index_freq : list Column -> Target -> result (option string))
    (is_freq_valid : string -> bool)
    (determine_periodicity : list Column -> Target -> Z -> option Z)
    (X : list Column) (y : Target) : Prop :=
  exists freq seasonal_period,
    get_time_index_freq X y = Ok (Some freq)
    /\ is_freq_valid freq = true
    /\ determine_periodicity X y (if str_contains "Q" freq then 3%Z else 5%Z)
        = Some seasonal_period
    /\ (seasonal_period <= DECOMPOSER_PERIOD_CAP)%Z.

(** The decomposer condition as the specification words it: regression, not
    multiseries, and a valid capped period. *)
Definition decomposer_only_if_stated {Target : Type}
    (get_time_index_freq : list Column -> Target -> result (option string))
    (is_freq_valid : string -> bool)
    (determine_periodicity : list Column -> Target -> Z -> option Z)
    (X : list Column) (y : Target) (problem_type : ProblemTypes)
    (components : list Component) : Prop :=
  STLDecomposer ∈ components ->
  is_regression problem_type = true
  /\ is_multiseries problem_type = false
  /\ valid_capped_period get_time_index_freq is_freq_valid determine_periodicity X y.

(** The sampler condition as the specification words it. *)
Definition sampler_iff_stated (problem_type : ProblemTypes) (sampler_name : option string)
    (components : list Component) : Prop :=
  has_sampler components = true
  <-> (sampler_name <> None /\ is_classification problem_type = true).

(** Concrete stand-ins for the data lookups, used to run the selector on
    examples: a daily time index with a weekly seasonal period. *)
Definition example_freq (X : list Column) (y : list Z) : result (option string) :=
  Ok (Some "D").

Definition example_is_freq_valid (freq : string) : bool :=
  String.eqb freq "D".

Definition example_periodicity (X : list Column) (y : list Z) (order : Z) : option Z :=
  Some 7%Z.

Definition example_unable_to_handle_nans (e : option EstimatorClass) : result bool :=
  match e with
  | Some _ => Ok false
  | None => Raise ValueError
  end.

Definition example_X : list Column :=
  [mkColumn "date" Datetime [] false; mkColumn "amount" Double ["numeric"] false].

Definition example_estimator : EstimatorClass :=
  OtherEstimator "Random Forest Regressor" (OtherFamily "random_forest").

End Selector.

(** ** The data-check action translator *)

Module Actions.

(** The action codes [_make_component_list_from_actions] branches on; any
    other code of the enumeration falls through every branch. *)
Inductive DataCheckActionCode : Type :=
| DROP_COL
| DROP_ROWS
| IMPUTE_COL
| REGULARIZE_AND_IMPUTE_DATASET
| OtherActionCode (name : string).

(** [metadata["parameters"]]: each field is [None] when the key is absent
    (for ["time_index"], also when it maps to [None]). *)
Record Parameters : Type := mkParameters {
  time_index : option string;
  frequency_payload : option (list string);
  impute_strategy : option string;
  impute_strategies : option (list (string * string))
}.

Definition no_parameters : Parameters := mkParameters None None None None.

(** [action.metadata].  [DataCheckAction] seeds the dictionary with the keys
    ["columns"] and ["rows"], both holding [None], before it takes the
    caller's entries: the two keys are always there, and the fields [columns]
    and [rows] are [None] when the value is Python's [None].  The keys
    ["is_target"] and ["parameters"] are the caller's: these fields are [None]
    when the key is absent. *)
Record Metadata : Type := mkMetadata {
  columns : option (list string);
  rows : option (list Z);
  is_target : option bool;
  parameters : option Parameters
}.

Record DataCheckAction : Type := mkAction {
  action_code : DataCheckActionCode;
  metadata : Metadata
}.

(** The component instances the translator builds, with their parameters. *)
Inductive ComponentInstance : Type :=
| TimeSeriesRegularizer (time_index : option string) (frequency_payload : list string)
| TimeSeriesImputer
| TargetImputer (impute_strategy : string)
| PerColumnImputer (impute_strategies : list (string * string))
| DropColumns (columns : list string)
| DropRowsTransformer (indices_to_drop : list Z).

(** [d[key]] on a key that may be absent. *)
Definition getitem {A : Type} (field : option A) : result A :=
  match field with
  | Some v => Ok v
  | None => Raise KeyError
  end.

(** [l.extend(value)] iterates over its argument, and [None] is not
    iterable. *)
Definition iterate {A : Type} (value : option (list A)) : result (list A) :=
  match value with
  | Some l => Ok l
  | None => Raise TypeError
  end.

(** [sorted(set(l))]: the distinct elements in ascending order. *)
Definition sorted_set_str (l : list string) : list string :=
  merge_sort String.le (remove_dups l).

Definition sorted_set_int (l : list Z) : list Z :=
  merge_sort Z.le (remove_dups l).

(** The three accumulators of the loop. *)
Record LoopState : Type := mkState {
  components : list ComponentInstance;
  cols_to_drop : list string;
  indices_to_drop : list Z
}.

(** One iteration of [for action in actions]. *)
Definition step (st : LoopState) (action : DataCheckAction) : result LoopState :=
  match action_code action with
  | REGULARIZE_AND_IMPUTE_DATASET =>
      let metadata := metadata action in
      let parameters := default no_parameters (parameters metadata) in
      (payload <- getitem (frequency_payload parameters) ;;
       Ok (mkState (components st
                      ++ [TimeSeriesRegularizer (time_index parameters) payload;
                          TimeSeriesImputer])
                   (cols_to_drop st) (indices_to_drop st)))%result
  | DROP_COL =>
      (cols <- iterate (columns (metadata action)) ;;
       Ok (mkState (components st) (cols_to_drop st ++ cols) (indices_to_drop st)))%result
  | IMPUTE_COL =>
      let metadata := metadata action in
      let parameters := default no_parameters (parameters metadata) in
      (target <- getitem (is_target metadata) ;;
       if target : bool then
         strategy <- getitem (impute_strategy parameters) ;;
         Ok (mkState (components st ++ [TargetImputer strategy])
                     (cols_to_drop st) (indices_to_drop st))
       else
         strategies <- getitem (impute_strategies parameters) ;;
         Ok (mkState (components st ++ [PerColumnImputer strategies])
                     (cols_to_drop st) (indices_to_drop st)))%result
  | DROP_ROWS =>
      (rows <- iterate (rows (metadata action)) ;;
       Ok (mkState (components st) (cols_to_drop st) (indices_to_drop st ++ rows)))%result
  | OtherActionCode _ => Ok st
  end.

Fixpoint loop (st : LoopState) (actions : list DataCheckAction) : result LoopState :=
  match actions with
  | [] => Ok st
  | action :: rest => (st' <- step st action ;; loop st' rest)%result
  end.

Definition _make_component_list_from_actions (actions : list DataCheckAction)
  : result (list ComponentInstance) :=
  (st <- loop (mkState [] [] []) actions ;;
   let components :=
     match cols_to_drop st with
     | [] => components st
     | _ :: _ => components st ++ [DropColumns (sorted_set_str (cols_to_drop st))]
     end in
   let components :=
     match indices_to_drop st with
     | [] => components
     | _ :: _ => components ++ [DropRowsTransformer (sorted_set_int (indices_to_drop st))]
     end in
   Ok components)%result.

(** What an action must carry for its branch not to raise: a list under the
    key a drop branch iterates over, the keys an impute or regularize branch
    reads. *)
Definition well_formed (action : DataCheckAction) : Prop :=
  match action_code action with
  | REGULARIZE_AND_IMPUTE_DATASET =>
      exists p payload, parameters (metadata action) = Some p
                        /\ frequency_payload p = Some payload
  | DROP_COL => exists cols, columns (metadata action) = Some cols
  | DROP_ROWS => exists rows', rows (metadata action) = Some rows'
  | IMPUTE_COL =>
      exists p target, parameters (metadata action) = Some p
                       /\ is_target (metadata action) = Some target
                       /\ if target then exists s, impute_strategy p = Some s
                          else exists ss, impute_strategies p = Some ss
  | OtherActionCode _ => True
  end.

(** A drop action whose list is [None]. *)
Definition drop_without_list (action : DataCheckAction) : bool :=
  match action_code action with
  | DROP_COL => bool_decide (columns (metadata action) = None)
  | DROP_ROWS => bool_decide (rows (metadata action) = None)
  | _ => false
  end.

(** What the actions of a list mention: the columns of its [DROP_COL]
    actions and the rows of its [DROP_ROWS] actions, in encountered order. *)
Definition mentioned_columns (actions : list DataCheckAction) : list string :=
  flat_map (fun a => match action_code a with
                     | DROP_COL => default [] (columns (metadata a))
                     | _ => []
                     end) actions.

Definition mentioned_rows (actions : list DataCheckAction) : list Z :=
  flat_map (fun a => match action_code a with
                     | DROP_ROWS => default [] (rows (metadata a))
                     | _ => []
                     end) actions.

(** The components an impute-column or regularize-and-impute action stands
    for. *)
Definition own_components (a : DataCheckAction) : list ComponentInstance :=
  let p := default no_parameters (parameters (metadata a)) in
  match action_code a with
  | REGULARIZE_AND_IMPUTE_DATASET =>
      match frequency_payload p with
      | Some payload => [TimeSeriesRegularizer (time_index p) payload; TimeSeriesImputer]
      | None => []
      end
  | IMPUTE_COL =>
      match is_target (metadata a) with
      | Some true => match impute_strategy p with Some s => [TargetImputer s] | None => [] end
      | Some false =>
          match impute_strategies p with Some ss => [PerColumnImputer ss] | None => [] end
      | None => []
      end
  | _ => []
  end.

(** The column lists of the [DropColumns] components of a list, and the index
    lists of its [DropRowsTransformer] components. *)
Definition drop_columns_of (cs : list ComponentInstance) : list (list string) :=
  flat_map (fun c => match c with DropColumns cols => [cols] | _ => [] end) cs.

Definition drop_rows_of (cs : list ComponentInstance) : list (list Z) :=
  flat_map (fun c => match c with DropRowsTransformer r => [r] | _ => [] end) cs.

Definition is_drop (c : ComponentInstance) : bool :=
  match c with
  | DropColumns _ | DropRowsTransformer _ => true
  | _ => false
  end.

Definition has_code (code : DataCheckActionCode) (actions : list DataCheckAction) : Prop :=
  exists a, a ∈ actions /\ action_code a = code.

(** The coalescing of drop actions as the specification words it: when the
    list holds [DROP_COL] actions, the result holds exactly one [DropColumns],
    over the sorted distinct mentioned columns; likewise for rows. *)
Definition coalesced_stated (actions : list DataCheckAction)
    (cs : list ComponentInstance) : Prop :=
  (has_code DROP_COL actions ->
   drop_columns_of cs = [sorted_set_str (mentioned_columns actions)])
  /\ (has_code DROP_ROWS actions ->
      drop_rows_of cs = [sorted_set_int (mentioned_rows actions)]).

Definition drop_action (cols : list string) : DataCheckAction :=
  mkAction DROP_COL (mkMetadata (Some cols) None None None).

Definition drop_rows_action (rows : list Z) : DataCheckAction :=
  mkAction DROP_ROWS (mkMetadata None (Some rows) None None).

End Actions.

(** ** Model-understanding metrics *)

Module Metrics.

(** A Python float, as far as the metrics look at it: not-a-number, the two
    infinities, or a finite value given by the rational it denotes. *)
Inductive float : Type :=
| NaN
| PInf
| NInf
| Fin (q : Q).

(** [a < b] on floats; any comparison with NaN is false. *)
Definition flt (a b : float) : bool :=
  match a, b with
  | NaN, _ | _, NaN => false
  | PInf, _ => false
  | NInf, NInf => false
  | NInf, _ => true
  | Fin _, PInf => true
  | Fin _, NInf => false
  | Fin x, Fin y => negb (Qle_bool y x)
  end.

(** [a >= b] on floats. *)
Definition fge (a b : float) : bool :=
  match a, b with
  | NaN, _ | _, NaN => false
  | PInf, _ => true
  | _, NInf => true
  | NInf, _ => false
  | Fin _, PInf => false
  | Fin x, Fin y => Qle_bool y x
  end.

Definition is_nan (a : float) : bool :=
  match a with
  | NaN => true
  | _ => false
  end.

(** *** [check_distribution] *)

Inductive StatisticalTest : Type :=
| ChiSquare
| Wilcoxon
| KolmogorovSmirnov.

Section CheckDistribution.

(** The values of the target series. *)
Context {V : Type} {V_eq_dec : EqDecision V}.

(** The p-values of scipy's tests: [chisquare(f_obs, f_exp=...)] on two arrays
    of counts, [wilcoxon] and [kstest] on the two series.  A test may raise
    instead of yielding a p-value, as they do with [ValueError] on samples
    they cannot compare. *)
Variable chisquare : list nat -> list nat -> result float.
Variable wilcoxon : list V -> list V -> result float.
Variable kstest : list V -> list V -> result float.

(** [y.value_counts()], as the array of counts scipy reads off it: one count
    per distinct value, in descending order. *)
Definition value_counts (y : list V) : list nat :=
  merge_sort (flip Nat.le) (map (count_occ V_eq_dec y) (remove_dups y)).

(** [return 0 if p_value < threshold else 1]. *)
Definition verdict (p_value threshold : float) : Z :=
  if flt p_value threshold then 0%Z else 1%Z.

Definition check_distribution (y_true y_pred : list V) (problem_type : ProblemTypes)
    (threshold : float) : result Z :=
  if is_classification problem_type then
    let true_value_counts := value_counts y_true in
    let pred_value_counts := value_counts y_pred in
    if negb (length true_value_counts =? length pred_value_counts) then Ok 0%Z
    else
      (p_value <- chisquare pred_value_counts true_value_counts ;;
       Ok (verdict p_value threshold))%result
  else if is_time_series problem_type then
    (p_value <- wilcoxon y_true y_pred ;; Ok (verdict p_value threshold))%result
  else if is_regression problem_type then
    (p_value <- kstest y_true y_pred ;; Ok (verdict p_value threshold))%result
  else Raise NameError.

(** The outcome of a test on the two series. *)
Definition p_value_of (test : StatisticalTest) (y_true y_pred : list V) : result float :=
  match test with
  | ChiSquare => chisquare (value_counts y_pred) (value_counts y_true)
  | Wilcoxon => wilcoxon y_true y_pred
  | KolmogorovSmirnov => kstest y_true y_pred
  end.

(** The test the chain of branches reaches. *)
Definition selected_test (problem_type : ProblemTypes) : StatisticalTest :=
  if is_classification problem_type then ChiSquare
  else if is_time_series problem_type then Wilcoxon
  else KolmogorovSmirnov.

(** The verdict as the specification words it, the three kinds of problem
    being read in the order of the branches: on every input the function
    returns 1, the p-value of the test taken being at least the threshold, or
    it returns 0. *)
Definition verdict_stated (y_true y_pred : list V) (problem_type : ProblemTypes)
    (threshold : float) : Prop :=
  (check_distribution y_true y_pred problem_type threshold = Ok 1%Z
   /\ exists p_value,
        p_value_of (selected_test problem_type) y_true y_pred = Ok p_value
        /\ fge p_value threshold = true)
  \/ check_distribution y_true y_pred problem_type threshold = Ok 0%Z.

End CheckDistribution.

(** *** [normalize_confusion_matrix] *)

(** A sum of 64-bit integers wraps around. *)
Definition int64_wrap (z : Z) : Z := ((z + 2 ^ 63) mod 2 ^ 64 - 2 ^ 63)%Z.

(** The mathematical sums of a list of integers and of a list of rationals. *)
Definition zsum (l : list Z) : Z := fold_right Z.add 0%Z l.

Definition qsum (l : list Q) : Q := fold_right Qplus 0%Q l.

Definition int64_sum (l : list Z) : Z := int64_wrap (zsum l).

(** The confusion matrix handed in: its column labels and its rows of counts
    ([conf_mat.to_numpy()]). *)
Record ConfusionMatrix : Type := mkConfusionMatrix {
  columns : list string;
  values : list (list Z)
}.

(** The normalized matrix handed back: [pd.DataFrame(conf_mat, index=col_names,
    columns=col_names)]. *)
Record NormalizedMatrix : Type := mkNormalizedMatrix {
  norm_index : list string;
  norm_columns : list string;
  norm_values : list (list float)
}.

(** The two runtime warnings a division of arrays can record: "divide by zero
    encountered in divide" and "invalid value encountered in divide". *)
Inductive RuntimeWarning : Type :=
| DivideByZero
| InvalidValue.

Section Normalize.

(** Conversion of a 64-bit integer to a float ([astype("float")], and the
    promotion of the integer divisor), and the rounding of an exact quotient
    to the nearest float. *)
Variable to_float : Z -> Q.
Variable rnd : Q -> Q.

(** One division [a / b] of the array division, on the integers the two
    operands come from. *)
Definition true_divide (ab : Z * Z) : float :=
  let '(a, b) := ab in
  if (b =? 0)%Z then
    if (a =? 0)%Z then NaN else if (0 <? a)%Z then PInf else NInf
  else Fin (rnd (to_float a / to_float b)).

Definition divides_by_zero (ab : Z * Z) : bool :=
  let '(a, b) := ab in (b =? 0)%Z && negb (a =? 0)%Z.

Definition invalid_value (ab : Z * Z) : bool :=
  let '(a, b) := ab in (b =? 0)%Z && (a =? 0)%Z.

(** The warnings one array division records: one per kind that occurred, the
    division by zero first. *)
Definition recorded_warnings (operands : list (list (Z * Z))) : list RuntimeWarning :=
  (if existsb (existsb divides_by_zero) operands then [DivideByZero] else [])
  ++ (if existsb (existsb invalid_value) operands then [InvalidValue] else []).

(** [conf_mat.sum(axis=0)]: the sum of column [j] over the rows. *)
Definition column_sum (rows : list (list Z)) (j : nat) : Z :=
  int64_sum (map (fun row => nth j row 0%Z) rows).

(** The operands of [conf_mat.astype("float") / conf_mat.sum(axis=1)[:, np.newaxis]]:
    every entry with the sum of its row. *)
Definition true_operands (rows : list (list Z)) : list (list (Z * Z)) :=
  map (fun row => map (fun a => (a, int64_sum row)) row) rows.

(** The operands of the array division for each normalization method. *)
Definition division_operands (rows : list (list Z)) (normalize_method : string)
  : result (list (list (Z * Z))) :=
  if String.eqb normalize_method "true" then
    Ok (true_operands rows)
  else if String.eqb normalize_method "pred" then
    Ok (map (fun row => imap (fun j a => (a, column_sum rows j)) row) rows)
  else if String.eqb normalize_method "all" then
    Ok (map (fun row => map (fun a => (a, int64_sum (concat rows))) row) rows)
  else Raise ValueError.

Definition normalize_confusion_matrix (conf_mat : ConfusionMatrix)
    (normalize_method : string) : result NormalizedMatrix :=
  let col_names := columns conf_mat in
  (operands <- division_operands (values conf_mat) normalize_method ;;
   let w := recorded_warnings operands in
   let normalized := map (map true_divide) operands in
   match w with
   | InvalidValue :: _ => Raise ValueError
   | _ =>
       if length normalized =? length col_names
       then Ok (mkNormalizedMatrix col_names col_names normalized)
       else Raise ValueError
   end)%result.

End Normalize.

(** The sum of a row of finite floats, as the rational it denotes. *)
Fixpoint row_total (row : list float) : option Q :=
  match row with
  | [] => Some 0%Q
  | Fin q :: rest => option_map (Qplus q) (row_total rest)
  | _ :: _ => None
  end.

(** The unit roundoff of binary64. *)
Definition unit_roundoff : Q := 1 # (2 ^ 53).

(** A confusion matrix: square, with counts that a float holds exactly. *)
Definition is_confusion_matrix (conf_mat : ConfusionMatrix) : Prop :=
  length (values conf_mat) = length (columns conf_mat)
  /\ Forall (fun row => length row = length (columns conf_mat)) (values conf_mat)
  /\ Forall (Forall (fun a => (0 <= a)%Z)) (values conf_mat)
  /\ Forall (fun row => (zsum row <= 2 ^ 53)%Z) (values conf_mat).

Definition example_matrix : ConfusionMatrix :=
  mkConfusionMatrix ["0"; "1"] [[2; 1]; [0; 3]]%Z.

Definition example_zero_row_matrix : ConfusionMatrix :=
  mkConfusionMatrix ["0"; "1"] [[2; 1]; [0; 0]]%Z.

(** Stand-ins for the three tests, used to run [check_distribution] on
    examples.  They follow scipy where the examples take them: the chi-square
    test gives the p-value 1 on equal arrays of counts and raises [ValueError]
    on arrays of different sums, and the signed-rank test raises [ValueError]
    on samples of different lengths.  Elsewhere scipy has a p-value of its
    own, for which the stand-ins put 1/2; the examples get there only with
    the Kolmogorov-Smirnov test on [1, 2, 3] against [1, 2, 4], two samples
    that scipy does not tell apart either (its p-value is 1). *)
Definition example_chisquare (f_obs f_exp : list nat) : result float :=
  if bool_decide (f_obs = f_exp) then Ok (Fin 1)
  else if negb (list_sum f_obs =? list_sum f_exp) then Raise ValueError
  else Ok (Fin (1 # 2)).

Definition example_wilcoxon (y_true y_pred : list Z) : result float :=
  if negb (length y_true =? length y_pred) then Raise ValueError
  else Ok (Fin (1 # 2)).

Definition example_kstest (y_true y_pred : list Z) : result float := Ok (Fin (1 # 2)).

End Metrics.

(** ** The graph assemblers *)

Module Assembler.

(** [str(idx)] for a non-negative integer. *)
Definition str_of_nat (n : nat) : string :=
  NilEmpty.string_of_uint (Nat.to_uint n).

(** Truthiness of a Python string. *)
Definition truthy (s : string) : bool := negb (String.eqb s "").

(** [s.endswith(suffix)]. *)
Definition endswith (s suffix : string) : bool :=
  let n := String.length s in
  let m := String.length suffix in
  (m <=? n) && String.eqb (String.substring (n - m) m s) suffix.

(** A node of a component graph, [[component, *inputs]]. *)
Record Node : Type := mkNode {
  component : string;
  inputs : list string
}.

(** Python dictionaries with string keys whose insertion order matters
    (component graphs, name maps), as association lists without repeated
    keys. *)
Fixpoint dict_set {V : Type} (d : list (string * V)) (k : string) (v : V)
  : list (string * V) :=
  match d with
  | [] => [(k, v)]
  | (k', v') :: d' =>
      if String.eqb k k' then (k, v) :: d' else (k', v') :: dict_set d' k v
  end.

Definition dict_update {V : Type} (d other : list (string * V)) : list (string * V) :=
  fold_left (fun acc kv => dict_set acc (fst kv) (snd kv)) other d.

Fixpoint dict_lookup {V : Type} (d : list (string * V)) (k : string) : option V :=
  match d with
  | [] => None
  | (k', v) :: d' => if String.eqb k k' then Some v else dict_lookup d' k
  end.

Definition keys {V : Type} (d : list (string * V)) : list string := map fst d.

(** A parameter value. *)
Inductive Value : Type :=
| VNone
| VInt (z : Z)
| VStr (s : string).

(** Parameter dictionaries map a node name to the parameters of its component;
    they are objects of a store, and a variable holds a reference to one. *)
Abbreviation ParamDict := (gmap string (gmap string Value)).
Abbreviation Store := (gmap positive ParamDict).

Definition store_get (h : Store) (l : positive) : ParamDict := default ∅ (h !! l).

(** [d[k] = v] on the dictionary object at [l]. *)
Definition store_setitem (h : Store) (l : positive) (k : string) (v : gmap string Value)
  : Store :=
  <[l := <[k := v]> (store_get h l)]> h.

(** A new dictionary object with the given contents. *)
Definition store_alloc (h : Store) (d : ParamDict) : positive * Store :=
  let l := fresh (dom h) in (l, <[l := d]> h).

(** What the assemblers read of an input pipeline: its name, the component
    dictionary and the compute order of its component graph, its
    parameters. *)
Record Pipeline : Type := mkPipeline {
  name : string;
  component_dict : list (string * Node);
  compute_order : list string;
  parameters : ParamDict
}.

(** The class [handle_component_class] resolves a component to. *)
Record ComponentClass : Type := mkClass {
  class_name : string;
  modifies_target : bool
}.

(** [cached_component_instances]: hash, then new component name, to a trained
    component instance (here its name). *)
Abbreviation CachedInstances := (list (string * list (string * string))).

(** The call of a pipeline class both assemblers end on,
    [pipeline_class(component_graph, parameters=parameters,
    custom_name=pipeline_name, random_seed=random_seed)]: the class, the
    component graph, the reference to the parameter dictionary and the custom
    name.  The multi-graph assembler hands over the graph dictionary itself;
    the stacked-ensemble assembler first makes a [ComponentGraph] of it, with
    the cached component instances.  The random seed is passed on as it came
    and is left out. *)
Record PipelineCall : Type := mkPipelineCall {
  pipeline_class : string;
  pipeline_graph : list (string * Node);
  pipeline_cached_data : option CachedInstances;
  pipeline_parameters : positive;
  pipeline_custom_name : option string
}.

(** The two graph dictionaries a caller of the multi-graph assembler may pass,
    as they are when the assembler has built its graph: both are updated in
    place. *)
Record CallerGraphs : Type := mkCallerGraphs {
  pre_pipeline_components_after : option (list (string * Node));
  post_pipelines_components_after : option (list (string * Node))
}.

(** [l[-1]] and [l[i]] on lists. *)
Definition last_item {A : Type} (l : list A) : result A :=
  match List.rev l with
  | x :: _ => Ok x
  | [] => Raise IndexError
  end.

Definition item_at {A : Type} (l : list A) (i : nat) : result A :=
  match nth_error l i with
  | Some x => Ok x
  | None => Raise IndexError
  end.

(** [comp + ".x"] for the final component of a sub-pipeline, which is [None]
    when the sub-pipeline has no node. *)
Definition dot_x (final_component : option string) : result string :=
  match final_component with
  | Some comp => Ok (comp ++ ".x")%string
  | None => Raise TypeError
  end.

Fixpoint all_dot_x (final_components : list (option string)) : result (list string) :=
  match final_components with
  | [] => Ok []
  | c :: rest =>
      (x <- dot_x c ;; xs <- all_dot_x rest ;; Ok (x :: xs))%result
  end.

Section WithRegistry.

Variable handle_component_class : string -> result ComponentClass.

(** *** [_make_pipeline_from_multiple_graphs] *)

Definition _make_new_component_name (name component_name : string) (idx : option nat)
    (pipeline_name : option string) : string :=
  let idx := match idx with
             | Some i => (" " ++ str_of_nat i)%string
             | None => ""
             end in
  match pipeline_name with
  | Some pn =>
      if truthy pn then (pn ++ " Pipeline" ++ idx ++ " - " ++ component_name)%string
      else (name ++ " Pipeline" ++ idx ++ " - " ++ component_name)%string
  | None => (name ++ " Pipeline" ++ idx ++ " - " ++ component_name)%string
  end.

(** The variables the loops update. *)
Record BuildState : Type := mkBuild {
  st_component_graph : list (string * Node);
  st_store : Store;
  st_final_components : list (option string);
  st_used_names : list string;
  st_final_y : option string;
  st_final_y_candidate : option string
}.

(** The [elif] chain for one input reference ([i <> 0]); it returns the item
    appended to [new_component_list] and the new value of [final_y]. *)
Definition rewire_item (problem_type : ProblemTypes) (component_pipeline_name : string)
    (name_idx : option nat) (sub_pipeline_name : option string)
    (name first_x_component : string) (last_prior_component : option string)
    (item : string) (final_y : string) : string * string :=
  if negb (bool_decide (item ∈ ["X"; "y"])) then
    let renamed := _make_new_component_name component_pipeline_name item name_idx
                     sub_pipeline_name in
    (renamed, if endswith item ".y" then renamed else final_y)
  else if String.eqb item "y" then
    (if is_classification problem_type then "Label Encoder.y" else "y", final_y)
  else
    match last_prior_component with
    | Some prior =>
        if String.eqb name first_x_component && truthy prior
        then ((prior ++ ".x")%string, final_y)
        else (item, final_y)
    | None => (item, final_y)
    end.

Fixpoint rewire_items (problem_type : ProblemTypes) (component_pipeline_name : string)
    (name_idx : option nat) (sub_pipeline_name : option string)
    (name first_x_component : string) (last_prior_component : option string)
    (items : list string) (new_component_list : list string) (final_y : string)
  : list string * string :=
  match items with
  | [] => (new_component_list, final_y)
  | item :: rest =>
      let '(new_item, final_y) :=
        rewire_item problem_type component_pipeline_name name_idx sub_pipeline_name
          name first_x_component last_prior_component item final_y in
      rewire_items problem_type component_pipeline_name name_idx sub_pipeline_name
        name first_x_component last_prior_component rest
        (new_component_list ++ [new_item]) final_y
  end.

(** One iteration of [for name, component_list in ...component_dict.items()];
    the state carries the graph, the store, [final_component] and [final_y]. *)
Definition add_node (problem_type : ProblemTypes) (pipeline : Pipeline)
    (parameters_ref : positive) (name_idx : option nat) (sub_pipeline_name : option string)
    (last_prior_component : option string)
    (st : list (string * Node) * Store * option string * string)
    (entry : string * Node)
  : result (list (string * Node) * Store * option string * string) :=
  let '(component_graph, store, final_component, final_y) := st in
  let '(name, component_list) := entry in
  let new_component_name :=
    _make_new_component_name (Assembler.name pipeline) name name_idx sub_pipeline_name in
  (first <- item_at (compute_order pipeline) 0 ;;
   first_x_component <-
     (if negb (String.eqb first "Label Encoder") then Ok first
      else item_at (compute_order pipeline) 1) ;;
   fitted_comp <- handle_component_class (component component_list) ;;
   let store :=
     store_setitem store parameters_ref new_component_name
       (default ∅ (parameters pipeline !! name)) in
   let '(new_inputs, final_y) :=
     rewire_items problem_type (Assembler.name pipeline) name_idx sub_pipeline_name
       name first_x_component last_prior_component (inputs component_list) [] final_y in
   Ok (dict_set component_graph new_component_name
         (mkNode (class_name fitted_comp) new_inputs),
       store, Some new_component_name, final_y))%result.

Fixpoint add_nodes (problem_type : ProblemTypes) (pipeline : Pipeline)
    (parameters_ref : positive) (name_idx : option nat) (sub_pipeline_name : option string)
    (last_prior_component : option string)
    (st : list (string * Node) * Store * option string * string)
    (entries : list (string * Node))
  : result (list (string * Node) * Store * option string * string) :=
  match entries with
  | [] => Ok st
  | entry :: rest =>
      (st' <- add_node problem_type pipeline parameters_ref name_idx sub_pipeline_name
                last_prior_component st entry ;;
       add_nodes problem_type pipeline parameters_ref name_idx sub_pipeline_name
         last_prior_component st' rest)%result
  end.

(** The index given to a sub-pipeline name that was used before. *)
Definition name_index (used_names : list string) (component_pipeline_name : string)
  : option nat :=
  let n := count_occ string_dec used_names component_pipeline_name in
  if 0 <? n then Some (n + 1) else None.

(** [sub_pipeline_names[pipeline.name] if sub_pipeline_names else None]. *)
Definition sub_pipeline_name_of (sub_pipeline_names : option (list (string * string)))
    (pipeline_name : string) : result (option string) :=
  match sub_pipeline_names with
  | Some ((_ :: _) as names) =>
      match dict_lookup names pipeline_name with
      | Some alias => Ok (Some alias)
      | None => Raise KeyError
      end
  | _ => Ok None
  end.

(** One iteration of [for pipeline in input_pipelines]. *)
Definition add_pipeline (problem_type : ProblemTypes) (parameters_ref : positive)
    (sub_pipeline_names : option (list (string * string)))
    (last_prior_component : option string) (st : BuildState) (pipeline : Pipeline)
  : result BuildState :=
  let component_pipeline_name := name pipeline in
  let name_idx := name_index (st_used_names st) component_pipeline_name in
  let used_names := st_used_names st ++ [component_pipeline_name] in
  (sub_pipeline_name <- sub_pipeline_name_of sub_pipeline_names (name pipeline) ;;
   last <- last_item (compute_order pipeline) ;;
   last_class <- handle_component_class last ;;
   let final_y_candidate :=
     if negb (modifies_target last_class) then None
     else Some (_make_new_component_name component_pipeline_name last name_idx
                  sub_pipeline_name ++ ".y")%string in
   st' <- add_nodes problem_type pipeline parameters_ref name_idx sub_pipeline_name
            last_prior_component (st_component_graph st, st_store st, None, "y")
            (component_dict pipeline) ;;
   let '(component_graph, store, final_component, final_y) := st' in
   Ok (mkBuild component_graph store (st_final_components st ++ [final_component])
         used_names (Some final_y) final_y_candidate))%result.

Fixpoint add_pipelines (problem_type : ProblemTypes) (parameters_ref : positive)
    (sub_pipeline_names : option (list (string * string)))
    (last_prior_component : option string) (st : BuildState)
    (input_pipelines : list Pipeline) : result BuildState :=
  match input_pipelines with
  | [] => Ok st
  | pipeline :: rest =>
      (st' <- add_pipeline problem_type parameters_ref sub_pipeline_names
                last_prior_component st pipeline ;;
       add_pipelines problem_type parameters_ref sub_pipeline_names
         last_prior_component st' rest)%result
  end.

(** The lookup [{...}[problem_type]] of the pipeline class. *)
Definition multiple_graphs_pipeline_class (problem_type : ProblemTypes) : result string :=
  match problem_type with
  | BINARY => Ok "BinaryClassificationPipeline"
  | MULTICLASS => Ok "MulticlassClassificationPipeline"
  | REGRESSION => Ok "RegressionPipeline"
  | TIME_SERIES_BINARY => Ok "TimeSeriesBinaryClassificationPipeline"
  | TIME_SERIES_MULTICLASS => Ok "TimeSeriesMulticlassClassificationPipeline"
  | TIME_SERIES_REGRESSION => Ok "TimeSeriesRegressionPipeline"
  | MULTISERIES_TIME_SERIES_REGRESSION => Raise KeyError
  end.

(** The body of [_make_pipeline_from_multiple_graphs] up to the call of the
    pipeline class in its [return] statement: the call it arrives at, the
    store of parameter dictionaries, and the caller's two graph dictionaries
    by then.  The parameters are written to a copy in the store.  The
    component graph is the caller's [pre_pipeline_components] object itself
    when that is not empty ([component_graph = pre_pipeline_components]), so
    that object ends up holding the whole graph; a non-empty
    [post_pipelines_components] has its first entry overwritten.  What the
    objects hold when the body raises is not described. *)
Definition assemble_multiple_graphs (h : Store)
    (input_pipelines : list Pipeline) (estimator : string)
    (problem_type : ProblemTypes) (parameters : option positive)
    (pipeline_name : option string)
    (sub_pipeline_names : option (list (string * string)))
    (pre_pipeline_components post_pipelines_components : option (list (string * Node)))
  : result (PipelineCall * Store * CallerGraphs) :=
  let caller_pre := pre_pipeline_components in
  let caller_post := post_pipelines_components in
  let '(parameters, h) :=
    match parameters with
    | Some l =>
        if negb (bool_decide (store_get h l = ∅)) then store_alloc h (store_get h l)
        else store_alloc h ∅
    | None => store_alloc h ∅
    end in
  let pre_pipeline_components := default [] pre_pipeline_components in
  let last_prior_component :=
    match List.rev (keys pre_pipeline_components) with
    | k :: _ => Some k
    | [] => None
    end in
  let component_graph := pre_pipeline_components in
  let component_graph :=
    if is_classification problem_type
    then dict_update component_graph [("Label Encoder", mkNode "Label Encoder" ["X"; "y"])]
    else component_graph in
  (st <- add_pipelines problem_type parameters sub_pipeline_names last_prior_component
           (mkBuild component_graph h [] [] None None) input_pipelines ;;
   final_y <- match st_final_y st with
              | Some final_y => Ok (default final_y (st_final_y_candidate st))
              | None => Raise NameError
              end ;;
   st_last <-
     match post_pipelines_components with
     | Some (((first_pre_estimator_component, _) :: _) as post) =>
         xs <- all_dot_x (st_final_components st) ;;
         let post :=
           dict_set post first_pre_estimator_component
             (mkNode first_pre_estimator_component (xs ++ [final_y])) in
         last <- last_item (keys post) ;;
         Ok (dict_update (st_component_graph st) post, Some last, Some post)
     | _ => Ok (st_component_graph st, None, caller_post)
     end ;;
   let '(component_graph, last_pre_estimator_component, caller_post) := st_last in
   component_graph <-
     match last_pre_estimator_component with
     | Some last =>
         if truthy last then
           Ok (dict_set component_graph estimator
                 (mkNode estimator [last ++ ".x"; last ++ ".y"]%string))
         else
           xs <- all_dot_x (st_final_components st) ;;
           Ok (dict_set component_graph estimator (mkNode estimator (xs ++ [final_y])))
     | None =>
         xs <- all_dot_x (st_final_components st) ;;
         Ok (dict_set component_graph estimator (mkNode estimator (xs ++ [final_y])))
     end ;;
   pipeline_class <- multiple_graphs_pipeline_class problem_type ;;
   let caller_pre :=
     match caller_pre with
     | Some (_ :: _) => Some component_graph
     | _ => caller_pre
     end in
   Ok (mkPipelineCall pipeline_class component_graph None parameters pipeline_name,
       st_store st, mkCallerGraphs caller_pre caller_post))%result.

(** [_make_pipeline_from_multiple_graphs]: the body, and then the pipeline
    class called on what the body built.  The class is not part of this file:
    [pipeline_class_init] stands for its constructor, which returns a pipeline
    or raises, as it does on a component graph it does not accept. *)
Definition _make_pipeline_from_multiple_graphs {PipelineBase : Type}
    (pipeline_class_init : PipelineCall -> Store -> result (PipelineBase * Store))
    (h : Store) (input_pipelines : list Pipeline) (estimator : string)
    (problem_type : ProblemTypes) (parameters : option positive)
    (pipeline_name : option string)
    (sub_pipeline_names : option (list (string * string)))
    (pre_pipeline_components post_pipelines_components : option (list (string * Node)))
  : result (PipelineBase * Store) :=
  (built <- assemble_multiple_graphs h input_pipelines estimator problem_type parameters
              pipeline_name sub_pipeline_names pre_pipeline_components
              post_pipelines_components ;;
   let '(call, h, _) := built in
   pipeline_class_init call h)%result.

End WithRegistry.

(** *** [_make_stacked_ensemble_pipeline] *)

Module StackedEnsemble.

Section WithRegistry.

Variable handle_component_class : string -> result ComponentClass.

(** [pipeline.component_graph[-1].model_family], as a string: the model family
    of the last component of the pipeline's graph.  The component graph class
    is not part of this file; the attribute access raises on a graph whose last
    component has no model family. *)
Variable last_component_model_family : Pipeline -> result string.

Definition _make_new_component_name (model_type component_name : string)
    (idx : option nat) : string :=
  let idx := match idx with
             | Some i => (" " ++ str_of_nat i)%string
             | None => ""
             end in
  (model_type ++ " Pipeline" ++ idx ++ " - " ++ component_name)%string.

(** [cached_data]: model family, then hash, then component name, to a trained
    component instance (here its name). *)
Abbreviation CachedData := (list (string * list (string * list (string * string)))).

(** The loop of [_set_cache_data] over [cached_data[model_family].items()]. *)
Fixpoint set_cache_entries (by_hash : list (string * list (string * string)))
    (cached_component_instances : CachedInstances) (new_component_name name : string)
  : result CachedInstances :=
  match by_hash with
  | [] => Ok cached_component_instances
  | (hashes, component_instances) :: rest =>
      let cached_component_instances :=
        if negb (bool_decide (hashes ∈ keys cached_component_instances))
        then dict_set cached_component_instances hashes []
        else cached_component_instances in
      match dict_lookup component_instances name with
      | Some instance =>
          set_cache_entries rest
            (dict_set cached_component_instances hashes
               (dict_set (default [] (dict_lookup cached_component_instances hashes))
                  new_component_name instance))
            new_component_name name
      | None => Raise KeyError
      end
  end.

Definition _set_cache_data (cached_data : CachedData) (model_family : string)
    (cached_component_instances : CachedInstances) (new_component_name name : string)
  : result CachedInstances :=
  match dict_lookup cached_data model_family with
  | Some by_hash =>
      set_cache_entries by_hash cached_component_instances new_component_name name
  | None => Ok cached_component_instances
  end.

(** The variables the loops update. *)
Record EnsembleState : Type := mkEnsemble {
  es_component_graph : list (string * Node);
  es_store : Store;
  es_cached_component_instances : CachedInstances;
  es_final_components : list (option string);
  es_used_model_families : list string;
  es_ensemble_y : option string
}.

(** One input reference ([i <> 0]): the item appended to [new_component_list]
    and the new value of [ensemble_y]. *)
Definition rewire_item (problem_type : ProblemTypes) (model_family : string)
    (model_family_idx : option nat) (item : string) (ensemble_y : string)
  : string * string :=
  let new_item :=
    if negb (bool_decide (item ∈ ["X"; "y"])) then
      _make_new_component_name model_family item model_family_idx
    else if String.eqb item "y" then
      if is_classification problem_type then "Label Encoder.y" else "y"
    else item in
  (new_item,
   if endswith item ".y"
   then _make_new_component_name model_family item model_family_idx
   else ensemble_y).

Fixpoint rewire_items (problem_type : ProblemTypes) (model_family : string)
    (model_family_idx : option nat) (items : list string)
    (new_component_list : list string) (ensemble_y : string) : list string * string :=
  match items with
  | [] => (new_component_list, ensemble_y)
  | item :: rest =>
      let '(new_item, ensemble_y) :=
        rewire_item problem_type model_family model_family_idx item ensemble_y in
      rewire_items problem_type model_family model_family_idx rest
        (new_component_list ++ [new_item]) ensemble_y
  end.

Definition add_node (problem_type : ProblemTypes) (cached_data : CachedData)
    (pipeline : Pipeline) (model_family : string) (parameters_ref : positive)
    (model_family_idx : option nat)
    (st : list (string * Node) * Store * CachedInstances * option string * string)
    (entry : string * Node)
  : result (list (string * Node) * Store * CachedInstances * option string * string) :=
  let '(component_graph, store, cached_component_instances, final_component, ensemble_y) :=
    st in
  let '(name, component_list) := entry in
  let new_component_name :=
    _make_new_component_name model_family name model_family_idx in
  (cached_component_instances <-
     _set_cache_data cached_data model_family cached_component_instances
       new_component_name name ;;
   fitted_comp <- handle_component_class (component component_list) ;;
   let store :=
     store_setitem store parameters_ref new_component_name
       (default ∅ (parameters pipeline !! name)) in
   let '(new_inputs, ensemble_y) :=
     rewire_items problem_type model_family model_family_idx
       (inputs component_list) [] ensemble_y in
   Ok (dict_set component_graph new_component_name
         (mkNode (class_name fitted_comp) new_inputs),
       store, cached_component_instances, Some new_component_name, ensemble_y))%result.

Fixpoint add_nodes (problem_type : ProblemTypes) (cached_data : CachedData)
    (pipeline : Pipeline) (model_family : string) (parameters_ref : positive)
    (model_family_idx : option nat)
    (st : list (string * Node) * Store * CachedInstances * option string * string)
    (entries : list (string * Node))
  : result (list (string * Node) * Store * CachedInstances * option string * string) :=
  match entries with
  | [] => Ok st
  | entry :: rest =>
      (st' <- add_node problem_type cached_data pipeline model_family parameters_ref
                model_family_idx st entry ;;
       add_nodes problem_type cached_data pipeline model_family parameters_ref
         model_family_idx st' rest)%result
  end.

Definition add_pipeline (problem_type : ProblemTypes) (cached_data : CachedData)
    (parameters_ref : positive) (st : EnsembleState) (pipeline : Pipeline)
  : result EnsembleState :=
  (model_family <- last_component_model_family pipeline ;;
   let model_family_idx := name_index (es_used_model_families st) model_family in
   let used_model_families := es_used_model_families st ++ [model_family] in
   st' <- add_nodes problem_type cached_data pipeline model_family parameters_ref
            model_family_idx
            (es_component_graph st, es_store st, es_cached_component_instances st,
             None, "y")
            (component_dict pipeline) ;;
   let '(component_graph, store, cached_component_instances, final_component,
         ensemble_y) := st' in
   Ok (mkEnsemble component_graph store cached_component_instances
         (es_final_components st ++ [final_component]) used_model_families
         (Some ensemble_y)))%result.

Fixpoint add_pipelines (problem_type : ProblemTypes) (cached_data : CachedData)
    (parameters_ref : positive) (st : EnsembleState) (input_pipelines : list Pipeline)
  : result EnsembleState :=
  match input_pipelines with
  | [] => Ok st
  | pipeline :: rest =>
      (st' <- add_pipeline problem_type cached_data parameters_ref st pipeline ;;
       add_pipelines problem_type cached_data parameters_ref st' rest)%result
  end.

Definition stacked_ensemble_pipeline_class (problem_type : ProblemTypes) : result string :=
  match problem_type with
  | BINARY => Ok "BinaryClassificationPipeline"
  | MULTICLASS => Ok "MulticlassClassificationPipeline"
  | REGRESSION => Ok "RegressionPipeline"
  | _ => Raise KeyError
  end.

(** The body of [_make_stacked_ensemble_pipeline] up to the call of the
    pipeline class in its [return] statement: the call it arrives at and the
    store of parameter dictionaries by then.  [parameters =
    label_encoder_params or {}] binds [parameters] to the caller's dictionary
    object itself when that is not empty. *)
Definition assemble_stacked_ensemble (h : Store) (input_pipelines : list Pipeline)
    (problem_type : ProblemTypes) (n_jobs : Value) (cached_data : option CachedData)
    (label_encoder_params : option positive) : result (PipelineCall * Store) :=
  let component_graph :=
    if is_classification problem_type
    then [("Label Encoder", mkNode "Label Encoder" ["X"; "y"])]
    else [] in
  let '(parameters, h) :=
    match label_encoder_params with
    | Some l => if negb (bool_decide (store_get h l = ∅)) then (l, h) else store_alloc h ∅
    | None => store_alloc h ∅
    end in
  let cached_data := default [] cached_data in
  let '(parameters, h, estimator, pipeline_name) :=
    if is_classification problem_type then
      (parameters,
       store_setitem h parameters "Stacked Ensemble Classifier" {["n_jobs" := n_jobs]},
       "Stacked Ensemble Classifier", "Stacked Ensemble Classification Pipeline")
    else
      let '(parameters, h) :=
        store_alloc h {["Stacked Ensemble Regressor" := {["n_jobs" := n_jobs]}]} in
      (parameters, h, "Stacked Ensemble Regressor", "Stacked Ensemble Regression Pipeline")
  in
  (pipeline_class <- stacked_ensemble_pipeline_class problem_type ;;
   st <- add_pipelines problem_type cached_data parameters
           (mkEnsemble component_graph h [] [] [] None) input_pipelines ;;
   xs <- all_dot_x (es_final_components st) ;;
   ensemble_y <- match es_ensemble_y st with
                 | Some y => Ok y
                 | None => Raise NameError
                 end ;;
   let component_graph :=
     dict_set (es_component_graph st) estimator (mkNode estimator (xs ++ [ensemble_y])) in
   Ok (mkPipelineCall pipeline_class component_graph
         (Some (es_cached_component_instances st)) parameters (Some pipeline_name),
       es_store st))%result.

(** [_make_stacked_ensemble_pipeline]: the body, and then the component graph
    and the pipeline class made of what the body built.  Neither class is part
    of this file: [pipeline_class_init] stands for the two constructors, which
    return a pipeline or raise. *)
Definition _make_stacked_ensemble_pipeline {PipelineBase : Type}
    (pipeline_class_init : PipelineCall -> Store -> result (PipelineBase * Store))
    (h : Store) (input_pipelines : list Pipeline)
    (problem_type : ProblemTypes) (n_jobs : Value) (cached_data : option CachedData)
    (label_encoder_params : option positive) : result (PipelineBase * Store) :=
  (built <- assemble_stacked_ensemble h input_pipelines problem_type n_jobs cached_data
              label_encoder_params ;;
   pipeline_class_init (fst built) (snd built))%result.

End WithRegistry.

End StackedEnsemble.

(** *** What the multi-graph assembler is expected to produce *)

(** The alias a sub-pipeline name maps to, if any. *)
Definition alias_of (sub_pipeline_names : option (list (string * string)))
    (pipeline_name : string) : option string :=
  match sub_pipeline_names with
  | Some names => dict_lookup names pipeline_name
  | None => None
  end.

(** The key a node [k] of sub-pipeline [p] gets when the sub-pipelines
    [earlier] come before [p] in the input list: the renaming scheme, with the
    numeric suffix for a name that [earlier] already holds. *)
Definition new_key (sub_pipeline_names : option (list (string * string)))
    (earlier : list Pipeline) (p : Pipeline) (k : string) : string :=
  _make_new_component_name (name p) k (name_index (map name earlier) (name p))
    (alias_of sub_pipeline_names (name p)).

(** The new keys of the nodes of each input sub-pipeline, in order. *)
Definition renamed_blocks (sub_pipeline_names : option (list (string * string)))
    (earlier input_pipelines : list Pipeline) : list (list string) :=
  imap (fun i p => map (new_key sub_pipeline_names (earlier ++ take i input_pipelines) p)
                     (keys (component_dict p)))
       input_pipelines.

(** The nodes shared by all branches that come first in the graph (the
    pre-components and, for classification, the label encoder) and last (the
    post-components and the final estimator). *)
Definition shared_head (problem_type : ProblemTypes)
    (pre_pipeline_components : option (list (string * Node))) : list string :=
  keys (default [] pre_pipeline_components)
  ++ (if is_classification problem_type then ["Label Encoder"] else []).

Definition shared_tail (estimator : string)
    (post_pipelines_components : option (list (string * Node))) : list string :=
  keys (default [] post_pipelines_components) ++ [estimator].

(** The number of nodes the inputs bring: every node of every sub-pipeline
    plus the shared nodes. *)
Definition total_nodes (input_pipelines : list Pipeline) (estimator : string)
    (problem_type : ProblemTypes)
    (pre_pipeline_components post_pipelines_components : option (list (string * Node)))
  : nat :=
  length (shared_head problem_type pre_pipeline_components)
  + list_sum (map (fun p => length (component_dict p)) input_pipelines)
  + length (shared_tail estimator post_pipelines_components).

(** The inputs on which no lookup of the assembler raises. *)
Definition well_formed_pipeline (handle_component_class : string -> result ComponentClass)
    (sub_pipeline_names : option (list (string * string))) (p : Pipeline) : Prop :=
  component_dict p <> []
  /\ NoDup (keys (component_dict p))
  /\ (exists first, nth_error (compute_order p) 0 = Some first
                    /\ (first = "Label Encoder"
                        -> exists second, nth_error (compute_order p) 1 = Some second))
  /\ (exists last cls, last_item (compute_order p) = Ok last
                       /\ handle_component_class last = Ok cls)
  /\ (forall entry, entry ∈ component_dict p ->
                    exists cls, handle_component_class (component (snd entry)) = Ok cls)
  /\ (exists alias, sub_pipeline_name_of sub_pipeline_names (name p) = Ok alias).

(** No two nodes of sub-pipelines with different names are given the same
    key. *)
Definition differently_named_separated
    (sub_pipeline_names : option (list (string * string)))
    (input_pipelines : list Pipeline) : Prop :=
  forall i j p q k k',
    i < j -> input_pipelines !! i = Some p -> input_pipelines !! j = Some q ->
    name p <> name q ->
    k ∈ keys (component_dict p) -> k' ∈ keys (component_dict q) ->
    new_key sub_pipeline_names (take i input_pipelines) p k
    <> new_key sub_pipeline_names (take j input_pipelines) q k'.

(** The parts of a renamed key: the sub-pipeline name (or its alias, when one
    is given and not empty) and the numeric suffix. *)
Definition base_of (name : string) (alias : option string) : string :=
  match alias with
  | Some pn => if truthy pn then pn else name
  | None => name
  end.

Definition suffix_of (idx : option nat) : string :=
  match idx with
  | Some i => (" " ++ str_of_nat i)%string
  | None => ""
  end.

(** Decimal digits. *)
Definition is_digit (c : ascii) : bool :=
  (48 <=? nat_of_ascii c) && (nat_of_ascii c <=? 57).

Fixpoint all_digits (s : string) : bool :=
  match s with
  | EmptyString => true
  | String c s' => is_digit c && all_digits s'
  end.

(** The count of keys as the specification words it: the assembler builds a
    graph with as many keys as the inputs bring nodes. *)
Definition keys_count_stated (handle_component_class : string -> result ComponentClass)
    (h : Store) (input_pipelines : list Pipeline) (estimator : string)
    (problem_type : ProblemTypes) (parameters : option positive)
    (pipeline_name : option string) (sub_pipeline_names : option (list (string * string)))
    (pre_pipeline_components post_pipelines_components : option (list (string * Node)))
  : Prop :=
  exists out h' graphs,
    assemble_multiple_graphs handle_component_class h input_pipelines
      estimator problem_type parameters pipeline_name sub_pipeline_names
      pre_pipeline_components post_pipelines_components = Ok (out, h', graphs)
    /\ length (pipeline_graph out)
       = total_nodes input_pipelines estimator problem_type pre_pipeline_components
           post_pipelines_components.

(** Two sub-pipelines with different names whose nodes are given the same
    key: the first, named ["A"], has a node ["B Pipeline - Imputer"]; the
    second, named ["A Pipeline - B"], has a node ["Imputer"]. *)
Definition colliding_pipeline_1 : Pipeline :=
  mkPipeline "A"
    [("B Pipeline - Imputer", mkNode "Imputer" ["X"; "y"]);
     ("One Hot Encoder", mkNode "One Hot Encoder" ["B Pipeline - Imputer.x"; "y"])]
    ["B Pipeline - Imputer"; "One Hot Encoder"] ∅.

Definition colliding_pipeline_2 : Pipeline :=
  mkPipeline "A Pipeline - B" [("Imputer", mkNode "Imputer" ["X"; "y"])] ["Imputer"] ∅.

(** A stand-in for [handle_component_class]: the components of the examples,
    of which the label encoder alone modifies the target.  A name that is not
    the name of a component raises [MissingComponentError]. *)
Definition example_registry (component : string) : result ComponentClass :=
  if bool_decide (component ∈ ["Imputer"; "One Hot Encoder"; "Standard Scaler";
                               "Random Forest Classifier"; "Random Forest Regressor"])
  then Ok (mkClass component false)
  else if String.eqb component "Label Encoder" then Ok (mkClass component true)
  else Raise MissingComponentError.

(** A stand-in for [pipeline.component_graph[-1].model_family]: the family of
    the random forest estimators for a graph that ends on one of them; another
    last component has no model family. *)
Definition example_model_family (pipeline : Pipeline) : result string :=
  (last <- last_item (compute_order pipeline) ;;
   match dict_lookup (component_dict pipeline) last with
   | Some node =>
       if bool_decide (component node ∈ ["Random Forest Classifier";
                                         "Random Forest Regressor"])
       then Ok "Random Forest"
       else Raise AttributeError
   | None => Raise ValueError
   end)%result.

(** A preprocessing sub-pipeline, and a base pipeline that ends on an
    estimator. *)
Definition example_pipeline (name : string) : Pipeline :=
  mkPipeline name
    [("Imputer", mkNode "Imputer" ["X"; "y"]);
     ("One Hot Encoder", mkNode "One Hot Encoder" ["Imputer.x"; "y"])]
    ["Imputer"; "One Hot Encoder"]
    {["Imputer" := {["numeric_impute_strategy" := VStr "mean"]}]}.

Definition example_base_pipeline (name : string) : Pipeline :=
  mkPipeline name
    [("Imputer", mkNode "Imputer" ["X"; "y"]);
     ("Random Forest Classifier", mkNode "Random Forest Classifier" ["Imputer.x"; "y"])]
    ["Imputer"; "Random Forest Classifier"]
    {["Imputer" := {["numeric_impute_strategy" := VStr "mean"]}]}.

(** A pipeline class for the examples in which the assembler raises before it
    calls one. *)
Definition no_pipeline_class (call : PipelineCall) (h : Store) : result (unit * Store) :=
  Raise ValueError.

Definition example_store : Store :=
  {[1%positive := {["Label Encoder" := {["positive_label" := VInt 1]}]}]}.

(** The keys of a parameter dictionary, in ascending order. *)
Definition sorted_keys (d : ParamDict) : list string :=
  merge_sort String.le (elements (dom d)).

(** The body of each assembler run for a binary problem, with the dictionary
    object at reference 1 of [example_store] as the caller's parameters. *)
Definition example_multiple_graphs_call : result (PipelineCall * Store * CallerGraphs) :=
  assemble_multiple_graphs example_registry example_store
    [example_pipeline "A"; example_pipeline "A"] "Random Forest Classifier" BINARY
    (Some 1%positive) None None None None.

Definition example_stacked_ensemble_call : result (PipelineCall * Store) :=
  StackedEnsemble.assemble_stacked_ensemble example_registry example_model_family
    example_store [example_base_pipeline "A"] BINARY (VInt (-1)) None (Some 1%positive).

Definition colliding_call : result (PipelineCall * Store * CallerGraphs) :=
  assemble_multiple_graphs example_registry example_store
    [colliding_pipeline_1; colliding_pipeline_2] "Random Forest Regressor"
    REGRESSION None None None None None.

End Assembler.

(** ** Multiseries stack and unstack *)

Module Multiseries.

(** A cell of a series or data frame: a missing value, an integer or a string. *)
Inductive Cell : Type :=
| NaN
| Int (z : Z)
| Str (s : string).

#[global] Instance Cell_eq_dec : EqDecision Cell.
Proof. solve_decision. Defined.

(** [a == b] on cells: a missing value equals nothing. *)
Definition cell_eqb (a b : Cell) : bool :=
  match a with
  | NaN => false
  | _ => bool_decide (a = b)
  end.

Definition is_nan (a : Cell) : bool :=
  match a with
  | NaN => true
  | _ => false
  end.

(** [str(x)], as the f-string [f"{column_name}_{s_id}"] formats a series id. *)
Definition str_of_cell (a : Cell) : string :=
  match a with
  | NaN => "nan"
  | Int z => NilZero.string_of_int (Z.to_int z)
  | Str s => s
  end.

Record Series : Type := mkSeries {
  s_name : string;
  s_index : list Cell;
  s_values : list Cell
}.

Record DataFrame : Type := mkFrame {
  index : list Cell;
  columns : list (string * list Cell)
}.

(** [df[name]]. *)
Fixpoint get_column (cols : list (string * list Cell)) (name : string)
  : result (list Cell) :=
  match cols with
  | [] => Raise KeyError
  | (k, v) :: rest => if String.eqb name k then Ok v else get_column rest name
  end.

(** [df[name] = values] for values aligned with the frame. *)
Fixpoint set_column (cols : list (string * list Cell)) (name : string)
    (values : list Cell) : list (string * list Cell) :=
  match cols with
  | [] => [(name, values)]
  | (k, v) :: rest =>
      if String.eqb name k then (k, values) :: rest
      else (k, v) :: set_column rest name values
  end.

(** [series.unique()], and the elements of a set built by [add] in a loop:
    the distinct values in order of first appearance. *)
Fixpoint unique {A : Type} `{EqDecision A} (l : list A) : list A :=
  match l with
  | [] => []
  | x :: rest => x :: List.filter (fun y => negb (bool_decide (y = x))) (unique rest)
  end.

(** Boolean indexing [values[mask]]. *)
Fixpoint mask_select {A : Type} (mask : list bool) (values : list A) : list A :=
  match mask, values with
  | b :: mask', v :: values' =>
      if b then v :: mask_select mask' values' else mask_select mask' values'
  | _, _ => []
  end.

(** [pd.RangeIndex(start, start + n)]. *)
Definition range_index (start : Z) (n : nat) : list Cell :=
  map (fun i => Int (start + Z.of_nat i)) (seq 0 n).

(** The value a series holds at a label of its index, or a missing value. *)
Fixpoint value_at (labels values : list Cell) (label : Cell) : Cell :=
  match labels, values with
  | l :: labels', v :: values' =>
      if bool_decide (l = label) then v else value_at labels' values' label
  | _, _ => NaN
  end.

Definition has_duplicates (l : list Cell) : bool :=
  negb (bool_decide (NoDup l)).

(** [s.split("_")] and ["_".join(parts)]. *)
Fixpoint split_underscore (s : string) : list string :=
  match s with
  | EmptyString => [""]
  | String c rest =>
      if Ascii.eqb c "_" then "" :: split_underscore rest
      else match split_underscore rest with
           | first :: others => String c first :: others
           | [] => [String c ""]
           end
  end.

Fixpoint join_underscore (parts : list string) : string :=
  match parts with
  | [] => ""
  | [p] => p
  | p :: rest => (p ++ "_" ++ join_underscore rest)%string
  end.

(** ["_".join(name.split("_")[:-1])] and [name.split("_")[-1]]. *)
Definition original_column_of (name : string) : string :=
  join_underscore (removelast (split_underscore name)).

Definition series_id_of (name : string) : string :=
  List.last (split_underscore name) "".

(** [needle in haystack]. *)
Definition contains (needle haystack : string) : bool :=
  match String.index 0 needle haystack with
  | Some _ => true
  | None => false
  end.

(** [values.repeat(n)]: every element [n] times in a row. *)
Definition repeat_each {A : Type} (n : nat) (l : list A) : list A :=
  flat_map (fun x => repeat x n) l.

(** [l * n]: the list [n] times in a row. *)
Definition repeat_list {A : Type} (n : nat) (l : list A) : list A :=
  concat (repeat l n).

(** The row at position [i] of a stack of columns. *)
Definition row_at (cols : list (string * list Cell)) (i : nat) : list (string * Cell) :=
  map (fun '(name, values) => (name, nth i values NaN)) cols.

Section Pandas.

(** The order in which [pd.concat(..., axis=1)] lays out the union of indexes
    that are not all equal, and the order in which a Python set of strings is
    iterated. *)
Variable union_order : list Cell -> list Cell.
Variable set_order : list string -> list string.

(** [pd.concat(series, axis=1)]: the columns side by side when all indexes are
    equal, and otherwise realigned on the union of the indexes, which must
    then be free of duplicates: pandas refuses to reindex an axis with
    duplicate labels, with a [ValueError]. *)
Definition concat_axis1 (series : list Series) : result DataFrame :=
  match series with
  | [] => Raise ValueError
  | first :: _ =>
      if forallb (fun s => bool_decide (s_index s = s_index first)) series then
        Ok (mkFrame (s_index first) (map (fun s => (s_name s, s_values s)) series))
      else if existsb (fun s => has_duplicates (s_index s)) series then
        Raise ValueError
      else
        let labels := union_order (unique (concat (map s_index series))) in
        Ok (mkFrame labels
              (map (fun s => (s_name s, map (value_at (s_index s) (s_values s)) labels))
                   series))
  end.

(** The columns one series id contributes: every column but the two
    identifier columns, cut down to the rows of the series, indexed by its
    time index and renamed. *)
Definition unstack_series (full_columns : list (string * list Cell))
    (series_id time_index : string) (series_column new_time_index_of : list Cell)
    (s_id : Cell) : list (string * Series) :=
  let mask := map (fun c => cell_eqb c s_id) series_column in
  let new_time_index := mask_select mask new_time_index_of in
  flat_map (fun '(column_name, values) =>
              if String.eqb column_name time_index || String.eqb column_name series_id
              then []
              else [(column_name,
                     mkSeries (column_name ++ "_" ++ str_of_cell s_id)%string
                       new_time_index (mask_select mask values))])
           full_columns.

(** [df.reset_index()] on a frame whose index goes by [index_name]: the index
    becomes the first column, under its name, which no column may have
    already. *)
Definition reset_index (index_name : string) (df : DataFrame) : result DataFrame :=
  if bool_decide (index_name ∈ map fst (columns df)) then Raise ValueError
  else Ok (mkFrame (range_index 0 (length (index df)))
             ((index_name, index df) :: columns df)).

Definition unstack_multiseries (X : DataFrame) (y : Series)
    (series_id time_index target_name : string) : result (DataFrame * DataFrame) :=
  if negb (length (s_values y) =? length (index X)) then Raise ValueError
  else
    let full_columns := columns X ++ [(s_name y, s_values y)] in
    (series_column <- get_column full_columns series_id ;;
     let series_id_unique := unique series_column in
     time_column <-
       match series_id_unique with
       | [] => Ok []
       | _ :: _ => get_column full_columns time_index
       end ;;
     let unstacked :=
       flat_map (unstack_series full_columns series_id time_index series_column time_column)
                series_id_unique in
     let y_unstacked_cols :=
       map snd (List.filter (fun c => String.eqb (fst c) target_name) unstacked) in
     let X_unstacked_cols :=
       map snd (List.filter (fun c => negb (String.eqb (fst c) target_name)) unstacked) in
     y_unstacked <- concat_axis1 y_unstacked_cols ;;
     X_unstacked <-
       match X_unstacked_cols with
       | [] => Ok (mkFrame (index y_unstacked) [])
       | _ :: _ => concat_axis1 X_unstacked_cols
       end ;;
     X_reset <- reset_index time_index X_unstacked ;;
     Ok (X_reset,
         mkFrame (range_index 0 (length (index y_unstacked))) (columns y_unstacked)))%result.

(** [data.stack(0)]: the cells row by row, each with the name of its column,
    without the missing ones. *)
Definition stack (data : DataFrame) : list (string * Cell) :=
  List.filter (fun entry => negb (is_nan (snd entry)))
         (flat_map (row_at (columns data)) (seq 0 (length (index data)))).

(** [starting_index or data.index[0]]. *)
Definition start_index_of (starting_index : option Z) (labels : list Cell) : result Z :=
  match starting_index with
  | Some (Zpos p) => Ok (Zpos p)
  | Some (Zneg p) => Ok (Zneg p)
  | _ =>
      match labels with
      | [] => Raise IndexError
      | Int z :: _ => Ok z
      | _ :: _ => Raise TypeError
      end
  end.

(** [data.index.is_numeric()]. *)
Definition is_numeric (labels : list Cell) : bool :=
  forallb (fun c => match c with Int _ => true | _ => false end) labels.

(** [series_id_name or "series_id"]: the default stands in for [None] and for
    the empty string alike. *)
Definition name_or_default (series_id_name : option string) : string :=
  match series_id_name with
  | Some (String c rest) => String c rest
  | _ => "series_id"
  end.

(** [stack_data] on a data frame; the stacked series is returned as a frame of
    one column, or of two when the series id is asked for. *)
Definition stack_data (data : DataFrame) (include_series_id : bool)
    (series_id_name : option string) (starting_index : option Z) : result DataFrame :=
  let stacked_series := stack data in
  let series_id_with_name := map fst stacked_series in
  (first <- match series_id_with_name with
            | [] => Raise IndexError
            | first :: _ => Ok first
            end ;;
   let name := original_column_of first in
   new_time_index <-
     (if negb (is_numeric (index data)) && bool_decide (starting_index = None) then
        Ok (repeat_each (length (columns data)) (unique (index data)))
      else
        start_index <- start_index_of starting_index (index data) ;;
        Ok (range_index start_index (length stacked_series))) ;;
   if negb (length new_time_index =? length stacked_series) then Raise ValueError
   else if include_series_id then
     Ok (mkFrame new_time_index
           [(name_or_default series_id_name,
             map (fun col_name => Str (series_id_of col_name)) series_id_with_name);
            (name, map snd stacked_series)])
   else Ok (mkFrame new_time_index [(name, map snd stacked_series)]))%result.

(** The series a frame is made of, for [pd.concat] over frames. *)
Definition series_of_frame (df : DataFrame) : list Series :=
  map (fun '(name, values) => mkSeries name (index df) values) (columns df).

(** The loop [for i, original_col in enumerate(original_columns)]. *)
Fixpoint restack_columns (X : DataFrame) (series_id_name : string)
    (starting_index : option Z) (include_series_id : bool)
    (original_columns : list string) : result (list DataFrame) :=
  match original_columns with
  | [] => Ok []
  | original_col :: rest =>
      let subset_X := List.filter (fun c => contains original_col (fst c)) (columns X) in
      (stacked <- stack_data (mkFrame (index X) subset_X) include_series_id
                    (Some series_id_name) starting_index ;;
       others <- restack_columns X series_id_name starting_index false rest ;;
       Ok (stacked :: others))%result
  end.

Definition stack_X (X : DataFrame) (series_id_name time_index : string)
    (starting_index : option Z) (series_id_values : option (list string))
  : result DataFrame :=
  let names :=
    match series_id_values with
    | None => List.filter (fun col => negb (String.eqb col time_index)) (map fst (columns X))
    | Some _ => []
    end in
  let original_columns := set_order (unique (map original_column_of names)) in
  let series_ids :=
    match series_id_values with
    | None => unique (map series_id_of names)
    | Some values => values
    end in
  if length series_ids =? 0 then Raise ValueError
  else
    (time_column <- get_column (columns X) time_index ;;
     let time_index_col := repeat_each (length series_ids) time_column in
     if length original_columns =? 0 then
       start_index <- start_index_of starting_index (index X) ;;
       let stacked_index := range_index start_index (length time_index_col) in
       let ids := repeat_list (length (index X))
                    (map Str (merge_sort String.le series_ids)) in
       if negb (length ids =? length stacked_index) then Raise ValueError
       else Ok (mkFrame stacked_index
                  (set_column [(time_index, time_index_col)] series_id_name ids))
     else
       frames <- restack_columns X series_id_name starting_index true original_columns ;;
       restacked_X <- concat_axis1 (flat_map series_of_frame frames) ;;
       if negb (length time_index_col =? length (index restacked_X)) then Raise ValueError
       else Ok (mkFrame (index restacked_X)
                  (set_column (columns restacked_X) time_index time_index_col)))%result.

End Pandas.

(** The rows of a frame read through a list of column names: for each row
    position the cells of those columns, a missing value standing for a column
    the frame does not have. *)
Definition column_or_nan (cols : list (string * list Cell)) (name : string) : list Cell :=
  match get_column cols name with
  | Ok values => values
  | Raise _ => []
  end.

Definition rows_of (names : list string) (n : nat) (cols : list (string * list Cell))
  : list (list Cell) :=
  map (fun i => map (fun name => nth i (column_or_nan cols name) NaN) names) (seq 0 n).

(** The position of the first occurrence of [x] in [l], or the length of [l]. *)
Fixpoint position {A : Type} `{EqDecision A} (x : A) (l : list A) : nat :=
  match l with
  | [] => 0
  | y :: rest => if bool_decide (y = x) then 0 else S (position x rest)
  end.

(** The columns of [X] that [unstack_multiseries] renames: all but the two
    identifier columns. *)
Definition feature_columns (X : DataFrame) (series_id time_index : string)
  : list (string * list Cell) :=
  List.filter (fun c => negb (String.eqb (fst c) time_index || String.eqb (fst c) series_id))
              (columns X).

Fixpoint has_underscore (s : string) : bool :=
  match s with
  | EmptyString => false
  | String c rest => Ascii.eqb c "_" || has_underscore rest
  end.

(** A series id that survives the renaming: a string free of underscores. *)
Definition plain_id (c : Cell) : Prop :=
  match c with
  | Str s => has_underscore s = false
  | _ => False
  end.

(** A long-format data set: columns of the length of the index under distinct
    names, among them the series id column [S] and the time index column [T],
    and a target of the same length under a name of its own. *)
Definition long_format (X : DataFrame) (y : Series)
    (series_id time_index target_name : string) (S T : list Cell) : Prop :=
  NoDup (map fst (columns X))
  /\ Forall (fun c => length (snd c) = length (index X)) (columns X)
  /\ length (s_values y) = length (index X)
  /\ s_name y = target_name
  /\ (target_name ∉ map fst (columns X))
  /\ get_column (columns X) series_id = Ok S
  /\ get_column (columns X) time_index = Ok T
  /\ series_id <> time_index.

(** All series share one set of time index values: a time one series has,
    every series has. *)
Definition shared_time_grid (S T : list Cell) : Prop :=
  Forall (fun row => Forall (fun s' => (s', snd row) ∈ combine S T) S) (combine S T).

Definition no_missing (cols : list (string * list Cell)) : Prop :=
  Forall (fun c => Forall (fun v => v <> NaN) (snd c)) cols.

(** No feature name occurs inside the time index name or inside a renamed
    column of another feature. *)
Definition names_separated (features : list string) (time_index : string)
    (S : list Cell) : Prop :=
  Forall (fun c =>
            contains c time_index = false
            /\ Forall (fun c' =>
                         Forall (fun s =>
                                   contains c (c' ++ "_" ++ str_of_cell s)%string = true ->
                                   c = c') S)
                      features)
         features.

(** Unstacking and stacking again gives back the rows of [(X, y)], read
    through the names of the original columns, in some order. *)
Definition round_trip (union_order : list Cell -> list Cell)
    (set_order : list string -> list string) (X : DataFrame) (y : Series)
    (series_id time_index target_name : string) : Prop :=
  exists X_unstacked y_unstacked X_stacked y_stacked,
    unstack_multiseries union_order X y series_id time_index target_name
      = Ok (X_unstacked, y_unstacked)
    /\ stack_X union_order set_order X_unstacked series_id time_index None None
       = Ok X_stacked
    /\ stack_data y_unstacked false None None = Ok y_stacked
    /\ index X_stacked = index y_stacked
    /\ length (index X_stacked) = length (index X)
    /\ Permutation (map fst (columns X_stacked)) (map fst (columns X))
    /\ map fst (columns y_stacked) = [target_name]
    /\ Permutation
         (rows_of (map fst (columns X) ++ [target_name]) (length (index X))
                  (columns X_stacked ++ columns y_stacked))
         (rows_of (map fst (columns X) ++ [target_name]) (length (index X))
                  (columns X ++ [(s_name y, s_values y)])).

(** The round trip as stated for every data set on a shared time grid. *)
Definition round_trip_stated : Prop :=
  forall (union_order : list Cell -> list Cell) (set_order : list string -> list string),
    (forall l, Permutation (union_order l) l) ->
    (forall l, Permutation (set_order l) l) ->
    forall X y series_id time_index target_name S T,
      long_format X y series_id time_index target_name S T ->
      shared_time_grid S T ->
      round_trip union_order set_order X y series_id time_index target_name.

(** The index of the wide frame [pd.concat(..., axis=1)] builds from series
    whose indexes hold the same labels. *)
Definition wide_labels (union_order : list Cell -> list Cell)
    (indexes : list (list Cell)) : list Cell :=
  match indexes with
  | [] => []
  | first :: _ =>
      if forallb (fun i => bool_decide (i = first)) indexes then first
      else union_order first
  end.

(** The positions in the long data of the rows of the stacked result: for each
    time of the wide index and each series id in turn, the row of that series
    at that time. *)
Definition restacked_positions (S T labels series_ids : list Cell) : list nat :=
  map (fun p => position (snd p, fst p) (combine S T)) (list_prod labels series_ids).

(** Unstacking and then stacking, as one computation. *)
Definition unstack_then_stack (union_order : list Cell -> list Cell)
    (set_order : list string -> list string) (X : DataFrame) (y : Series)
    (series_id time_index target_name : string) : result (DataFrame * DataFrame) :=
  match unstack_multiseries union_order X y series_id time_index target_name with
  | Ok (X_unstacked, y_unstacked) =>
      (X_stacked <- stack_X union_order set_order X_unstacked series_id time_index
                      None None ;;
       y_stacked <- stack_data y_unstacked false None None ;;
       Ok (X_stacked, y_stacked))%result
  | Raise e => Raise e
  end.

(** Two series over two dates, the rows of the second series in the opposite
    order of dates. *)
Definition example_X : DataFrame :=
  mkFrame [Int 0; Int 1; Int 2; Int 3]
    [("date", [Int 10; Int 20; Int 20; Int 10]);
     ("series_id", [Str "a"; Str "b"; Str "a"; Str "b"]);
     ("feature", [Int 1; Int 4; Int 3; Int 2])].

Definition example_y : Series :=
  mkSeries "target" [Int 0; Int 1; Int 2; Int 3] [Int 100; Int 400; Int 300; Int 200].

(** Two series over two dates whose ids contain an underscore. *)
Definition underscore_X : DataFrame :=
  mkFrame [Int 0; Int 1; Int 2; Int 3]
    [("date", [Int 10; Int 10; Int 20; Int 20]);
     ("series_id", [Str "s_1"; Str "s_2"; Str "s_1"; Str "s_2"]);
     ("feature", [Int 1; Int 2; Int 3; Int 4])].

Definition underscore_y : Series :=
  mkSeries "target" [Int 0; Int 1; Int 2; Int 3] [Int 100; Int 200; Int 300; Int 400].

End Multiseries.

(** ** What the selector's heuristics look at *)

Module Heuristics.
Import Selector.

(** The component a name of [exclude_featurizers] switches off: the one the
    rule function put on [functions_to_exclude] for that name returns. *)
Definition excluded_featurizer (name : string) : option Component :=
  if String.eqb name "DatetimeFeaturizer" then Some DateTimeFeaturizer
  else if String.eqb name "EmailFeaturizer" then Some EmailFeaturizer
  else if String.eqb name "URLFeaturizer" then Some URLFeaturizer
  else if String.eqb name "NaturalLanguageFeaturizer" then Some NaturalLanguageFeaturizer
  else if String.eqb name "TimeSeriesFeaturizer" then Some TimeSeriesFeaturizer
  else None.


End Heuristics.

(** ** Action codes the translator has a branch for *)

Module ActionCodes.
Import Actions.

(** Whether one of the four branches of [_make_component_list_from_actions]
    tests for the code of the action. *)
Definition has_branch (action : DataCheckAction) : bool :=
  match action_code action with
  | OtherActionCode _ => false
  | _ => true
  end.

End ActionCodes.

(** ** Columns of a matrix *)

Module MatrixColumns.
Import Metrics.

(** Column [j] of a matrix of counts and of a matrix of floats. *)
Definition count_column (rows : list (list Z)) (j : nat) : list Z :=
  map (fun row => nth j row 0%Z) rows.

Definition float_column (rows : list (list float)) (j : nat) : list float :=
  map (fun row => nth j row NaN) rows.

End MatrixColumns.

(** ** Cells of the wide frames *)

Module WideFrames.
Import Multiseries.

(** The value a column [V] of the long data holds at the first row whose
    series id is [s] and whose time is [t]. *)
Definition long_cell (S T V : list Cell) (s t : Cell) : Cell :=
  nth (position (s, t) (combine S T)) V NaN.

(** The wide frames [unstack_multiseries] builds over the times [labels]: the
    time column and then, series by series, one column per feature in [X]; and
    one target column per series in [y]. *)
Definition wide_X (time_index : string) (features : list (string * list Cell))
    (S T labels : list Cell) : DataFrame :=
  mkFrame (range_index 0 (length labels))
    ((time_index, labels)
     :: flat_map (fun s =>
                    map (fun c => ((fst c ++ "_" ++ str_of_cell s)%string,
                                   map (long_cell S T (snd c) s) labels))
                        features)
                 (unique S)).

Definition wide_y (target_name : string) (values S T labels : list Cell) : DataFrame :=
  mkFrame (range_index 0 (length labels))
    (map (fun s => ((target_name ++ "_" ++ str_of_cell s)%string,
                    map (long_cell S T values s) labels))
         (unique S)).

(** No wide feature column takes the name of the time index. *)
Definition time_index_free (features : list string) (time_index : string)
    (S : list Cell) : Prop :=
  Forall (fun c => Forall (fun s => (c ++ "_" ++ str_of_cell s)%string <> time_index) S)
         features.

(** Long data whose time index column is called ["f_a"], with a feature ["f"]
    and a series ["a"]. *)
Definition clashing_X : DataFrame :=
  mkFrame [Int 0; Int 1]
    [("f_a", [Int 10; Int 20]);
     ("series_id", [Str "a"; Str "a"]);
     ("f", [Int 1; Int 2])].

Definition clashing_y : Series :=
  mkSeries "target" [Int 0; Int 1] [Int 100; Int 200].

End WideFrames.

(** ** The inputs of the final estimator *)

Module EstimatorInputs.
Import Assembler.

(** The X outputs of the branches: for each input sub-pipeline the new key of
    the last node of its component dictionary, with [".x"]. *)
Definition branch_outputs (sub_pipeline_names : option (list (string * string)))
    (input_pipelines : list Pipeline) : list string :=
  imap (fun i p =>
          (new_key sub_pipeline_names (take i input_pipelines) p
             (List.last (keys (component_dict p)) "") ++ ".x")%string)
       input_pipelines.

(** No node of the sub-pipeline reads the target output of another node. *)
Definition reads_no_target_output (p : Pipeline) : Prop :=
  forall entry item,
    In entry (component_dict p) -> In item (inputs (snd entry)) ->
    endswith item ".y" = false.

(** What the last sub-pipeline [p] leaves in the loop state: a value of
    [final_y], the candidate computed from the last component of its compute
    order, and ["y"] itself when no node reads a target output. *)
Definition final_y_of (handle_component_class : string -> result ComponentClass)
    (subs : option (list (string * string))) (earlier : list Pipeline)
    (p : Pipeline) (st : BuildState) : Prop :=
  exists fy,
    st_final_y st = Some fy
    /\ (forall last cls,
           last_item (compute_order p) = Ok last ->
           handle_component_class last = Ok cls ->
           st_final_y_candidate st
           = if modifies_target cls
             then Some (new_key subs earlier p last ++ ".y")%string
             else None)
    /\ (reads_no_target_output p -> fy = "y").

(** The inputs of the estimator node: the X and y outputs of the last
    post-component when there is one, and otherwise the X output of every
    branch followed by the chosen target. *)
Definition estimator_inputs (sub_pipeline_names : option (list (string * string)))
    (input_pipelines : list Pipeline)
    (post_pipelines_components : option (list (string * Node))) (final_y : string)
  : list string :=
  match post_pipelines_components with
  | Some ((_ :: _) as post) =>
      let last := List.last (keys post) "" in
      if truthy last then [(last ++ ".x")%string; (last ++ ".y")%string]
      else branch_outputs sub_pipeline_names input_pipelines ++ [final_y]
  | _ => branch_outputs sub_pipeline_names input_pipelines ++ [final_y]
  end.

End EstimatorInputs.
(** ** The inputs of the stacked ensemble estimator *)

Module EnsembleInputs.
Import Assembler.

(** The key the stacked-ensemble assembler gives to node [k] of pipeline [p]
    when the pipelines [earlier] come before it: the model family, with the
    occurrence number of a family seen before. *)
Definition ensemble_key (model_family : Pipeline -> string) (earlier : list Pipeline)
    (p : Pipeline) (k : string) : string :=
  StackedEnsemble._make_new_component_name (model_family p) k
    (name_index (map model_family earlier) (model_family p)).

(** The X outputs of the base pipelines: the last node of each, renamed. *)
Definition ensemble_outputs (model_family : Pipeline -> string)
    (input_pipelines : list Pipeline) : list string :=
  imap (fun i p =>
          (ensemble_key model_family (take i input_pipelines) p
             (List.last (keys (component_dict p)) "") ++ ".x")%string)
       input_pipelines.

(** The inputs on which no lookup of the stacked-ensemble assembler raises:
    the last component of the pipeline has the model family [model_family p],
    the pipeline has a node, every component resolves, and the cache holds
    nothing for its model family. *)
Definition ensemble_well_formed (handle_component_class : string -> result ComponentClass)
    (last_component_model_family : Pipeline -> result string)
    (model_family : Pipeline -> string)
    (cached_data : option (list (string * list (string * list (string * string)))))
    (p : Pipeline) : Prop :=
  last_component_model_family p = Ok (model_family p)
  /\ component_dict p <> []
  /\ (forall entry, In entry (component_dict p) ->
                    exists cls, handle_component_class (component (snd entry)) = Ok cls)
  /\ dict_lookup (default [] cached_data) (model_family p) = None.

(** The name of the estimator node. *)
Definition ensemble_estimator (problem_type : ProblemTypes) : string :=
  if is_classification problem_type then "Stacked Ensemble Classifier"
  else "Stacked Ensemble Regressor".

End EnsembleInputs.

(** ** The time series baseline pipeline *)

Module Baseline.
Import Assembler.






End Baseline.

(** ** [rows_of_interest] *)

Module RowsOfInterest.
Import Metrics Multiseries.

(** [a <= b] and [abs(a)] on floats, and the truth value of a float. *)
Definition fle (a b : float) : bool :=
  match a, b with
  | Metrics.NaN, _ | _, Metrics.NaN => false
  | NInf, _ => true
  | _, PInf => true
  | PInf, _ => false
  | Fin _, NInf => false
  | Fin x, Fin y => Qle_bool x y
  end.

Definition fabs (a : float) : float :=
  match a with
  | Metrics.NaN => Metrics.NaN
  | PInf | NInf => PInf
  | Fin x => Fin (Qabs x)
  end.

Definition float_truthy (a : float) : bool :=
  match a with
  | Fin x => negb (Qeq_bool x 0)
  | _ => true
  end.

(** The order [sort_values] sorts by: ascending, the missing values last. *)
Definition sorts_before (a b : float) : bool :=
  match a, b with
  | _, Metrics.NaN => true
  | Metrics.NaN, _ => false
  | _, _ => fle a b
  end.

(** A stable sort by a float key: an element goes before the first one that
    does not sort before it. *)
Fixpoint insert_sorted {A : Type} (key : A -> float) (x : A) (l : list A) : list A :=
  match l with
  | [] => [x]
  | y :: l' =>
      if sorts_before (key x) (key y) then x :: y :: l'
      else y :: insert_sorted key x l'
  end.

Definition sort_values {A : Type} (key : A -> float) (l : list A) : list A :=
  fold_right (insert_sorted key) [] l.

(** Positions in ascending order of a key, the earlier position first among
    equal keys. *)
Definition by_key (key : nat -> float) (i j : nat) : Prop :=
  sorts_before (key i) (key j) = true
  /\ (sorts_before (key j) (key i) = true -> i < j).

(** [series[mask]] with an array of booleans. *)
Definition select_by {A : Type} (mask : list bool) (l : list A) : result (list A) :=
  if length mask =? length l then Ok (mask_select mask l) else Raise IndexError.

Definition valid_types : list string :=
  ["incorrect"; "correct"; "true_positive"; "true_negative"; "all"].

Section WithData.

(** The feature data, which only [predict_proba] looks at, and the labels of
    the index. *)
Context {Features Label : Type} `{EqDecision Label}.

(** The rounding of an exact difference to the nearest float. *)
Variable rnd : Q -> Q.

Definition fsub (a b : float) : float :=
  match a, b with
  | Metrics.NaN, _ | _, Metrics.NaN => Metrics.NaN
  | PInf, PInf | NInf, NInf => Metrics.NaN
  | PInf, _ => PInf
  | NInf, _ => NInf
  | Fin _, PInf => NInf
  | Fin _, NInf => PInf
  | Fin x, Fin y => Fin (rnd (x - y))
  end.

(** What the function reads of the pipeline: whether it is an instance of
    [BinaryClassificationPipeline], [_is_fitted], [threshold], and
    [predict_proba(X).iloc[:, -1]] as the labelled probabilities of the
    positive class. *)
Record Pipeline : Type := mkPipeline {
  is_binary_classification_pipeline : bool;
  _is_fitted : bool;
  pipeline_threshold : option float;
  predict_proba : Features -> result (list (Label * float))
}.

(** The threshold the rows are measured against: the argument, or else
    [pipeline.threshold or 0.5]. *)
Definition threshold_used (pipeline : Pipeline) (threshold : option float) : float :=
  match threshold with
  | Some t => t
  | None =>
      match pipeline_threshold pipeline with
      | Some t => if float_truthy t then t else Fin (1 # 2)
      | None => Fin (1 # 2)
      end
  end.

(** [abs(pos_value_proba - threshold)] for one probability. *)
Definition distance (threshold probability : float) : float :=
  fabs (fsub probability threshold).

(** [preds == y], which pandas refuses for differently labelled series, and
    [mask.astype(bool)]; the target is a series of integers or booleans. *)
Definition mask_of (types : string) (preds : list (Label * bool))
    (y : option (list (Label * Z))) : result (list bool) :=
  match y with
  | Some y =>
      if bool_decide (types ∈ ["correct"; "incorrect"]) then
        if bool_decide (map fst preds = map fst y)
        then Ok (map (fun py : (Label * bool) * (Label * Z) =>
                        Z.eqb (if snd (fst py) then 1 else 0) (snd (snd py)))
                   (combine preds y))
        else Raise ValueError
      else Ok (map (fun v : Label * Z => negb (Z.eqb (snd v) 0)) y)
  | None =>
      if bool_decide (types ∈ ["correct"; "incorrect"])
      then Ok (map (fun _ : Label * bool => false) preds)
      else Ok (map snd preds)
  end.

Definition rows_of_interest (pipeline : Pipeline) (X : Features)
    (y : option (list (Label * Z))) (threshold : option float) (epsilon : float)
    (sort : bool) (types : string) : result (list Label) :=
  if negb (bool_decide (types ∈ valid_types)) then Raise ValueError
  else if negb (String.eqb types "all") && bool_decide (y = None) then Raise ValueError
  else if negb (is_binary_classification_pipeline pipeline) || negb (_is_fitted pipeline)
  then Raise ValueError
  else if match threshold with
          | Some t => flt t (Fin 0) || flt (Fin 1) t
          | None => false
          end
  then Raise ValueError
  else
    let threshold := threshold_used pipeline threshold in
    (pos_value_proba <- predict_proba pipeline X ;;
     let preds := map (fun r => (fst r, fge (snd r) threshold)) pos_value_proba in
     let preds_value_proba :=
       map (fun r => (fst r, distance threshold (snd r))) pos_value_proba in
     mask <- mask_of types preds y ;;
     preds_value_proba <-
       (if bool_decide (types ∈ ["correct"; "true_positive"])
        then select_by mask preds_value_proba
        else if bool_decide (types ∈ ["incorrect"; "true_negative"])
        then select_by (map negb mask) preds_value_proba
        else Ok preds_value_proba) ;;
     let preds_value_proba :=
       if sort then sort_values snd preds_value_proba else preds_value_proba in
     let preds_value_proba :=
       List.filter (fun r => fle (snd r) epsilon) preds_value_proba in
     Ok (map fst preds_value_proba))%result.

(** The distance of the row at position [i] of the probabilities, and the
    order in which two positions are listed: by position, or, when sorting,
    by distance and among equal distances by position. *)
Definition distance_at (pos_value_proba : list (Label * float)) (threshold : float)
    (i : nat) : float :=
  match pos_value_proba !! i with
  | Some row => distance threshold (snd row)
  | None => Metrics.NaN
  end.

Definition listed_before (sort : bool) (pos_value_proba : list (Label * float))
    (threshold : float) (i j : nat) : Prop :=
  if sort then by_key (distance_at pos_value_proba threshold) i j else i < j.

End WithData.

(** A fitted binary pipeline over three rows, labelled 10, 11 and 12, with its
    threshold left unset, and a target for them. *)
Definition example_binary_pipeline : @Pipeline unit nat :=
  mkPipeline true true None
    (fun _ => Ok [(10, Fin (1 # 2)); (11, Fin (9 # 10)); (12, Fin (45 # 100))]).

Definition example_binary_target : list (nat * Z) := [(10, 1%Z); (11, 0%Z); (12, 0%Z)].

End RowsOfInterest.

(** * Properties *)

Lemma rbind_ok {A B : Type} (r : result A) (k : A -> result B) (b : B) :
  rbind r k = Ok b -> exists a, r = Ok a /\ k a = Ok b.
Proof. destruct r as [a|e]; simpl; intros H; [eauto | discriminate]. Qed.

(** ** The preprocessing selector *)

Module SelectorProofs.
Import Selector.

(** Closed goals [l1 `sublist_of` l2] between duplicate-free literal lists. *)
Ltac solve_sublist :=
  repeat first [apply sublist_nil_l | apply sublist_skip | apply sublist_cons].

Section WithOracles.

Context {Target : Type}.
Variable set_iter : list LogicalType -> list LogicalType.
Variable get_time_index_freq : list Column -> Target -> result (option string).
Variable is_freq_valid : string -> bool.
Variable determine_periodicity : list Column -> Target -> Z -> option Z.
Variable estimator_unable_to_handle_nans : option EstimatorClass -> result bool.

Abbreviation rule := (run_rule set_iter get_time_index_freq is_freq_valid
                    determine_periodicity estimator_unable_to_handle_nans).
Abbreviation functions := (run_functions set_iter get_time_index_freq is_freq_valid
                         determine_periodicity estimator_unable_to_handle_nans).
Abbreviation select := (_get_preprocessing_components set_iter get_time_index_freq
                      is_freq_valid determine_periodicity
                      estimator_unable_to_handle_nans).

(** The loop returns the accumulator followed by what each rule that is not
    excluded returned, in the order of the rule list. *)
Lemma run_functions_spec fs ex X (y : Target) pt e s acc comps :
  functions fs ex X y pt e s acc = Ok comps ->
  exists outs,
    Forall2 (fun f cs => rule f X y pt e s = Ok cs)
            (List.filter (fun f => negb (bool_decide (f ∈ ex))) fs) outs
    /\ comps = acc ++ concat outs.
Proof.
  revert acc comps. induction fs as [|f fs IH]; intros acc comps H; simpl in H.
  - exists []. split; [constructor|]. injection H as <-. now rewrite app_nil_r.
  - simpl. destruct (negb (bool_decide (f ∈ ex))) eqn:Hex.
    + apply rbind_ok in H as (cs & Hcs & H).
      apply IH in H as (outs & Hall & ->).
      exists (cs :: outs). split; [now constructor|].
      simpl. now rewrite app_assoc.
    + now apply IH.
Qed.

Lemma rule_sublist f X (y : Target) pt e s cs :
  rule f X y pt e s = Ok cs -> cs `sublist_of` rule_components f.
Proof.
  destruct f; simpl;
    unfold _get_label_encoder, _get_drop_all_null, _get_drop_index_unknown, _get_url,
      _get_email, _get_datetime, _get_natural_language, _get_imputer,
      _get_time_series_featurizer, _get_decomposer, _get_ordinal_encoder, _get_ohe,
      _get_drop_nan_rows_transformer, _get_sampler, _get_standard_scaler;
    intros H;
    repeat match type of H with
      | rbind _ _ = Ok _ => apply rbind_ok in H as (? & ? & H)
      | context [match ?x with _ => _ end] => destruct x eqn:?
      end;
    try discriminate; try (injection H as <-);
    try (apply sublist_nil_l); try reflexivity.
  (* the sampler *)
  unfold sampler_components in *. simpl in *.
  repeat match goal with
    | H : context [if ?b then _ else _] |- _ => destruct b eqn:?
    end; try discriminate;
  match goal with H : Ok _ = Ok _ |- _ => injection H as <- end.
  all: solve_sublist.
Qed.

Lemma concat_sublist (fs : list Rule) (outs : list (list Component)) (P : Rule -> bool) :
  Forall2 (fun f cs => cs `sublist_of` rule_components f) (List.filter P fs) outs ->
  concat outs `sublist_of` concat (map rule_components fs).
Proof.
  revert outs. induction fs as [|f fs IH]; intros outs H; simpl in *.
  - inversion H; subst. constructor.
  - destruct (P f).
    + inversion H as [|? cs ? outs' Hcs Hrest]; subst. simpl.
      apply sublist_app; [exact Hcs | now apply IH].
    + apply sublist_inserts_l. now apply IH.
Qed.

Lemma functions_sublist pt incl ex X (y : Target) e s comps :
  select X y pt e s ex incl = Ok comps -> comps `sublist_of` fixed_order pt.
Proof.
  unfold _get_preprocessing_components.
  destruct (is_multiseries pt && negb incl) eqn:Hm.
  - intros [= <-]. apply sublist_nil_l.
  - intros H. apply run_functions_spec in H as (outs & Hall & ->).
    eapply Forall2_impl in Hall; [|intros f cs Hr; eapply rule_sublist, Hr].
    apply concat_sublist in Hall.
    etrans; [exact Hall|].
    destruct pt, incl; try discriminate; cbn; solve_sublist.
Qed.

Lemma elem_concat_Forall2 {A B : Type} (R : A -> list B -> Prop) fs outs (c : B) :
  Forall2 R fs outs -> c ∈ concat outs -> exists f cs, f ∈ fs /\ R f cs /\ c ∈ cs.
Proof.
  induction 1 as [|f cs fs outs HR HF IH]; simpl; intros Hc.
  - inversion Hc.
  - apply elem_of_app in Hc as [Hc|Hc].
    + exists f, cs. split; [left|]; auto.
    + destruct (IH Hc) as (f' & cs' & Hf' & HR' & Hc').
      exists f', cs'. split; [right|]; auto.
Qed.

Lemma Forall2_elem_l {A B : Type} (R : A -> list B -> Prop) fs outs f :
  Forall2 R fs outs -> f ∈ fs -> exists cs, R f cs /\ forall c, c ∈ cs -> c ∈ concat outs.
Proof.
  induction 1 as [|f' cs fs outs HR HF IH]; intros Hf.
  - inversion Hf.
  - apply elem_of_cons in Hf as [->|Hf].
    + exists cs. split; [exact HR|]. intros c Hc. simpl. apply elem_of_app. now left.
    + destruct (IH Hf) as (cs' & HR' & Hsub). exists cs'. split; [exact HR'|].
      intros c Hc. simpl. apply elem_of_app. right. now apply Hsub.
Qed.

Lemma elem_of_filter_list {A : Type} (P : A -> bool) (l : list A) (x : A) :
  x ∈ List.filter P l <-> x ∈ l /\ P x = true.
Proof. rewrite !list_elem_of_In. apply filter_In. Qed.

Lemma sampler_never_excluded ex : get_sampler ∉ functions_to_exclude ex.
Proof.
  unfold functions_to_exclude.
  repeat match goal with |- context [if ?b then _ else _] => destruct b end;
    simpl; rewrite ?elem_of_cons, elem_of_nil; intuition discriminate.
Qed.

Lemma decomposer_never_excluded ex : get_decomposer ∉ functions_to_exclude ex.
Proof.
  unfold functions_to_exclude.
  repeat match goal with |- context [if ?b then _ else _] => destruct b end;
    simpl; rewrite ?elem_of_cons, elem_of_nil; intuition discriminate.
Qed.

(** What [_get_preprocessing_components] iterates over. *)
Definition components_functions (pt : ProblemTypes) (incl : bool) : list Rule :=
  if is_multiseries pt then [get_decomposer]
  else if is_time_series pt then time_series_functions incl
  else default_functions.

(** A component of the result was returned by a rule of the list that is not
    excluded. *)
Lemma select_elem X (y : Target) pt e s ex incl comps c :
  select X y pt e s ex incl = Ok comps -> c ∈ comps ->
  exists f cs, f ∈ components_functions pt incl /\ (f ∉ functions_to_exclude ex)
               /\ ((is_multiseries pt && negb incl) = false)
               /\ rule f X y pt e s = Ok cs /\ c ∈ cs.
Proof.
  unfold _get_preprocessing_components.
  destruct (is_multiseries pt && negb incl) eqn:Hm.
  - intros [= <-] Hc. inversion Hc.
  - intros H Hc. apply run_functions_spec in H as (outs & Hall & ->).
    simpl in Hc. destruct (elem_concat_Forall2 _ _ _ _ Hall Hc) as (f & cs & Hf & HR & Hcs).
    apply elem_of_filter_list in Hf as [Hf Hex].
    exists f, cs. repeat split; auto.
    apply negb_true_iff, bool_decide_eq_false in Hex. exact Hex.
Qed.

(** Conversely, what a rule of the list that is not excluded returned is part
    of the result. *)
Lemma select_incl X (y : Target) pt e s ex incl comps f :
  select X y pt e s ex incl = Ok comps ->
  is_multiseries pt && negb incl = false ->
  f ∈ components_functions pt incl -> f ∉ functions_to_exclude ex ->
  exists cs, rule f X y pt e s = Ok cs /\ forall c, c ∈ cs -> c ∈ comps.
Proof.
  unfold _get_preprocessing_components. intros H Hm Hf Hex. rewrite Hm in H.
  apply run_functions_spec in H as (outs & Hall & ->). simpl.
  eapply Forall2_elem_l in Hall as (cs & HR & Hsub).
  - exists cs. split; [exact HR | exact Hsub].
  - apply elem_of_filter_list. split; [exact Hf|].
    apply negb_true_iff, bool_decide_eq_false. exact Hex.
Qed.

Lemma run_functions_ok fs ex X (y : Target) pt e s acc :
  (forall f, f ∈ fs -> exists cs, rule f X y pt e s = Ok cs) ->
  exists comps, functions fs ex X y pt e s acc = Ok comps.
Proof.
  revert acc. induction fs as [|f fs IH]; intros acc Hok; simpl.
  - eauto.
  - destruct (negb (bool_decide (f ∈ ex))).
    + destruct (Hok f) as (cs & ->); [left|]. simpl.
      apply IH. intros f' Hf'. apply Hok. now right.
    + apply IH. intros f' Hf'. apply Hok. now right.
Qed.

(** Every rule returns when the sampler name is a known one, an estimator
    class is given and the two lookups into the data return. *)
Lemma rule_ok f X (y : Target) pt est s :
  s = None \/ s = Some "Undersampler" \/ s = Some "Oversampler" ->
  (exists freq, get_time_index_freq X y = Ok freq) ->
  (exists unable, estimator_unable_to_handle_nans (Some est) = Ok unable) ->
  exists cs, rule f X y pt (Some est) s = Ok cs.
Proof.
  intros Hs (freq & Hfreq) (unable & Hnan).
  destruct f; simpl;
    unfold _get_label_encoder, _get_drop_all_null, _get_drop_index_unknown, _get_url,
      _get_email, _get_datetime, _get_natural_language, _get_imputer,
      _get_time_series_featurizer, _get_decomposer, _get_ordinal_encoder, _get_ohe,
      _get_drop_nan_rows_transformer, _get_sampler, _get_standard_scaler;
    rewrite ?Hfreq, ?Hnan; simpl;
    try (destruct Hs as [->|[->| ->]]; simpl);
    repeat match goal with
      | |- context [match ?x with _ => _ end] => destruct x
      end; eauto.
Qed.

Lemma decomposer_in_functions pt incl :
  is_multiseries pt && negb incl = false ->
  get_decomposer ∈ components_functions pt incl ->
  incl = true /\ is_time_series pt = true.
Proof.
  destruct pt, incl; cbn; intros Hm H; try discriminate; auto;
    repeat (apply elem_of_cons in H as [H|H]; [discriminate|]); inversion H.
Qed.

Lemma sampler_in_functions pt incl :
  get_sampler ∈ components_functions pt incl <-> is_multiseries pt = false.
Proof.
  destruct pt, incl; cbn; split; intros H; try reflexivity; try discriminate;
    try (apply list_elem_of_In; simpl; tauto);
    apply list_elem_of_singleton in H; discriminate.
Qed.

(** C10: for the multiseries time-series regression problem type the selector
    returns exactly [[STLDecomposer]] when [include_decomposer] is set and the
    empty list when it is not, whatever the feature schema, the estimator, the
    sampler name and the exclusion list are. *)
Theorem multiseries_selects_decomposer_only X (y : Target) e s ex :
  _get_preprocessing_components set_iter get_time_index_freq is_freq_valid
    determine_periodicity estimator_unable_to_handle_nans
    X y MULTISERIES_TIME_SERIES_REGRESSION e s ex true = Ok [STLDecomposer]
  /\ _get_preprocessing_components set_iter get_time_index_freq is_freq_valid
       determine_periodicity estimator_unable_to_handle_nans
       X y MULTISERIES_TIME_SERIES_REGRESSION e s ex false = Ok [].
Proof.
  split; [|reflexivity].
  unfold _get_preprocessing_components. simpl.
  rewrite bool_decide_eq_false_2 by apply decomposer_never_excluded.
  reflexivity.
Qed.

(** C4 (amended): [STLDecomposer] is among the selected components only if
    [include_decomposer] is set, the problem type is a time-series regression
    one, and either it is multiseries (the decomposer is then added without
    looking at the data) or it is not multiseries and the frequency of the
    time index is inferred, accepted by the decomposer and gives a seasonal
    period of at most 1000. *)
Theorem decomposer_only_if X (y : Target) pt e s ex incl comps :
  _get_preprocessing_components set_iter get_time_index_freq is_freq_valid
    determine_periodicity estimator_unable_to_handle_nans X y pt e s ex incl
  = Ok comps ->
  STLDecomposer ∈ comps ->
  incl = true
  /\ is_time_series pt = true
  /\ is_regression pt = true
  /\ (is_multiseries pt = true
      \/ (is_multiseries pt = false
          /\ valid_capped_period get_time_index_freq is_freq_valid
               determine_periodicity X y)).
Proof.
  intros H Hc.
  destruct (select_elem _ _ _ _ _ _ _ _ _ H Hc) as (f & cs & Hf & Hex & Hm & Hr & Hcs).
  assert (f = get_decomposer) as ->.
  { apply rule_sublist in Hr. apply (fun H => elem_of_sublist _ _ _ H Hr) in Hcs.
    destruct f; simpl in Hcs;
      repeat (apply elem_of_cons in Hcs as [Hcs|Hcs]; [discriminate|]);
      try (inversion Hcs; fail); reflexivity. }
  destruct (decomposer_in_functions _ _ Hm Hf) as [-> Hts].
  split; [reflexivity|]. split; [exact Hts|].
  simpl in Hr. unfold _get_decomposer in Hr. rewrite Hts in Hr. simpl in Hr.
  destruct (is_regression pt); [|injection Hr as <-; inversion Hcs].
  split; [reflexivity|].
  destruct (is_multiseries pt); [now left|right]. split; [reflexivity|].
  apply rbind_ok in Hr as (freq & Hfreq & Hr).
  destruct freq as [freq|]; [|injection Hr as <-; inversion Hcs].
  destruct (is_freq_valid freq) eqn:Hvalid; [|injection Hr as <-; inversion Hcs].
  destruct (determine_periodicity X y _) as [period|] eqn:Hperiod;
    [|injection Hr as <-; inversion Hcs].
  destruct (period <=? DECOMPOSER_PERIOD_CAP)%Z eqn:Hcap;
    [|injection Hr as <-; inversion Hcs].
  exists freq, period. repeat split; auto. now apply Z.leb_le.
Qed.

(** C5 (amended): when the sampler name is absent or one of the two known
    names, an estimator class is given and the lookups into the data return,
    the selector returns a list, and that list holds a sampler if and only if
    a sampler name is given and the problem type is not multiseries; whether
    the problem is a classification one plays no part in the selector.  That
    restriction is imposed by [make_pipeline]: when its argument checks pass
    for a given estimator and a sampler name is given, the problem type is a
    classification one. *)
Theorem sampler_iff_name_given (get_estimators : ProblemTypes -> list EstimatorClass)
    X (y : Target) pt est s ex incl :
  s = None \/ s = Some "Undersampler" \/ s = Some "Oversampler" ->
  (exists freq, get_time_index_freq X y = Ok freq) ->
  (exists unable, estimator_unable_to_handle_nans (Some est) = Ok unable) ->
  (exists comps,
      _get_preprocessing_components set_iter get_time_index_freq is_freq_valid
        determine_periodicity estimator_unable_to_handle_nans X y pt (Some est) s ex incl
      = Ok comps
      /\ (has_sampler comps = true <-> (s <> None /\ is_multiseries pt = false)))
  /\ (make_pipeline_checks get_estimators (Some est) pt s = Ok tt ->
      s <> None -> is_classification pt = true).
Proof.
  intros Hs Hfreq Hnan. split.
  - assert (Hret : exists comps, select X y pt (Some est) s ex incl = Ok comps).
    { unfold _get_preprocessing_components.
      destruct (is_multiseries pt && negb incl); [eauto|].
      apply run_functions_ok. intros f _. now apply rule_ok. }
    destruct Hret as (comps & Hsel). exists comps. split; [exact Hsel|].
    unfold has_sampler. rewrite orb_true_iff, !bool_decide_eq_true. split.
    + intros Hin.
      assert (exists c, c ∈ comps /\ (c = Undersampler \/ c = Oversampler))
        as (c & Hc & Hcs) by (destruct Hin; eauto).
      destruct (select_elem _ _ _ _ _ _ _ _ _ Hsel Hc) as (f & cs & Hf & Hex & Hm & Hr & Hccs).
      assert (f = get_sampler) as ->.
      { apply rule_sublist in Hr. apply (fun H => elem_of_sublist _ _ _ H Hr) in Hccs.
        destruct f; simpl in Hccs; try reflexivity;
          apply list_elem_of_singleton in Hccs; destruct Hcs; congruence. }
      split.
      * simpl in Hr. unfold _get_sampler in Hr. destruct s; [discriminate|].
        injection Hr as <-. inversion Hccs.
      * now apply sampler_in_functions in Hf.
    + intros [Hname Hmulti].
      destruct (select_incl _ _ _ _ _ _ _ _ get_sampler Hsel) as (cs & Hr & Hsub).
      * now rewrite Hmulti.
      * now apply sampler_in_functions.
      * apply sampler_never_excluded.
      * simpl in Hr. unfold _get_sampler in Hr.
        destruct Hs as [->|[->| ->]]; [congruence| |]; simpl in Hr; injection Hr as <-.
        -- left. apply Hsub. left.
        -- right. apply Hsub. left.
  - unfold make_pipeline_checks. intros Hchk Hname.
    destruct (negb (bool_decide (est ∈ get_estimators pt))); [discriminate|].
    destruct (is_classification pt); [reflexivity|]. simpl in Hchk.
    rewrite bool_decide_eq_true_2 in Hchk by exact Hname. discriminate.
Qed.

End WithOracles.

Section TwoRuns.

Context {Target : Type}.
Variables set_iter1 set_iter2 : list LogicalType -> list LogicalType.
Hypothesis set_iter1_perm : forall l, Permutation (set_iter1 l) l.
Hypothesis set_iter2_perm : forall l, Permutation (set_iter2 l) l.
Variable get_time_index_freq : list Column -> Target -> result (option string).
Variable is_freq_valid : string -> bool.
Variable determine_periodicity : list Column -> Target -> Z -> option Z.
Variable estimator_unable_to_handle_nans : option EstimatorClass -> result bool.

Lemma filter_perm_length {A : Type} (P : A -> bool) (l l' : list A) :
  Permutation l l' -> length (List.filter P l) = length (List.filter P l').
Proof.
  induction 1 as [|x l l' _ IH|x x' l|l l' l'' _ IH1 _ IH2]; simpl.
  - reflexivity.
  - destruct (P x); simpl; congruence.
  - destruct (P x), (P x'); reflexivity.
  - congruence.
Qed.

Lemma intersection_length_indep (a b : list LogicalType) :
  length (py_set_intersection set_iter1 (py_set set_iter1 a) b)
  = length (py_set_intersection set_iter2 (py_set set_iter2 a) b).
Proof.
  unfold py_set_intersection, py_set.
  rewrite (Permutation_length (set_iter1_perm _)), (Permutation_length (set_iter2_perm _)).
  rewrite (filter_perm_length _ _ _ (set_iter1_perm _)).
  rewrite (filter_perm_length _ _ _ (set_iter2_perm _)).
  reflexivity.
Qed.

Lemma run_rule_indep f X (y : Target) pt e s :
  run_rule set_iter1 get_time_index_freq is_freq_valid determine_periodicity
    estimator_unable_to_handle_nans f X y pt e s
  = run_rule set_iter2 get_time_index_freq is_freq_valid determine_periodicity
      estimator_unable_to_handle_nans f X y pt e s.
Proof.
  destruct f; try reflexivity.
  simpl. unfold _get_imputer. now rewrite intersection_length_indep.
Qed.

Lemma run_functions_indep fs ex X (y : Target) pt e s acc :
  run_functions set_iter1 get_time_index_freq is_freq_valid determine_periodicity
    estimator_unable_to_handle_nans fs ex X y pt e s acc
  = run_functions set_iter2 get_time_index_freq is_freq_valid determine_periodicity
      estimator_unable_to_handle_nans fs ex X y pt e s acc.
Proof.
  revert acc. induction fs as [|f fs IH]; intros acc; simpl; [reflexivity|].
  destruct (negb (bool_decide (f ∈ ex))); [|apply IH].
  rewrite run_rule_indep.
  destruct (run_rule set_iter2 _ _ _ _ f X y pt e s); simpl; [apply IH | reflexivity].
Qed.

(** C9: two runs of the selector on the same input return the same result,
    whatever order each run iterates its sets of logical-type classes in (the
    one thing that varies between runs); and a returned list follows the fixed
    rule order of its kind of problem type, without repetition. *)
Theorem selector_deterministic X (y : Target) pt e s ex incl :
  _get_preprocessing_components set_iter1 get_time_index_freq is_freq_valid
    determine_periodicity estimator_unable_to_handle_nans X y pt e s ex incl
  = _get_preprocessing_components set_iter2 get_time_index_freq is_freq_valid
      determine_periodicity estimator_unable_to_handle_nans X y pt e s ex incl
  /\ (forall comps,
        _get_preprocessing_components set_iter1 get_time_index_freq is_freq_valid
          determine_periodicity estimator_unable_to_handle_nans X y pt e s ex incl
        = Ok comps ->
        comps `sublist_of` fixed_order pt /\ NoDup comps).
Proof.
  split.
  - unfold _get_preprocessing_components.
    destruct (is_multiseries pt && negb incl); [reflexivity|].
    apply run_functions_indep.
  - intros comps H. apply functions_sublist in H. split; [exact H|].
    eapply sublist_NoDup; [|exact H].
    destruct pt; cbn; apply (bool_decide_unpack _); vm_compute; exact I.
Qed.

End TwoRuns.

Lemma selector_deterministic_witness :
  _get_preprocessing_components (fun l => l) example_freq example_is_freq_valid
    example_periodicity example_unable_to_handle_nans example_X [1; 2; 3]%Z
    TIME_SERIES_REGRESSION (Some example_estimator) None None true
  = _get_preprocessing_components (@rev LogicalType) example_freq example_is_freq_valid
      example_periodicity example_unable_to_handle_nans example_X [1; 2; 3]%Z
      TIME_SERIES_REGRESSION (Some example_estimator) None None true
  /\ (forall comps,
        _get_preprocessing_components (fun l => l) example_freq example_is_freq_valid
          example_periodicity example_unable_to_handle_nans example_X [1; 2; 3]%Z
          TIME_SERIES_REGRESSION (Some example_estimator) None None true
        = Ok comps ->
        comps `sublist_of` fixed_order TIME_SERIES_REGRESSION /\ NoDup comps).
Proof.
  apply (selector_deterministic (fun l => l) (@rev LogicalType)).
  - intros l. apply Permutation_refl.
  - intros l. apply Permutation_sym, Permutation_rev.
Defined.

Example select_time_series_regression :
  _get_preprocessing_components (fun l => l) example_freq example_is_freq_valid
    example_periodicity example_unable_to_handle_nans example_X [1; 2; 3]%Z
    TIME_SERIES_REGRESSION (Some example_estimator) None None true
  = Ok [Imputer; TimeSeriesFeaturizer; STLDecomposer; DateTimeFeaturizer].
Proof. reflexivity. Qed.

Lemma decomposer_only_if_witness :
  true = true
  /\ is_time_series TIME_SERIES_REGRESSION = true
  /\ is_regression TIME_SERIES_REGRESSION = true
  /\ (is_multiseries TIME_SERIES_REGRESSION = true
      \/ (is_multiseries TIME_SERIES_REGRESSION = false
          /\ valid_capped_period example_freq example_is_freq_valid
               example_periodicity example_X [1; 2; 3]%Z)).
Proof.
  apply (decomposer_only_if (fun l => l) example_freq example_is_freq_valid
           example_periodicity example_unable_to_handle_nans example_X [1; 2; 3]%Z
           TIME_SERIES_REGRESSION (Some example_estimator) None None true
           [Imputer; TimeSeriesFeaturizer; STLDecomposer; DateTimeFeaturizer]).
  - reflexivity.
  - apply list_elem_of_In. simpl. tauto.
Defined.

(** C4 as stated fails: for the multiseries problem type the selector returns
    [[STLDecomposer]], although the stated condition asks for a problem type
    that is not multiseries. *)
Lemma decomposer_multiseries_counterexample :
  _get_preprocessing_components (fun l => l) example_freq example_is_freq_valid
    example_periodicity example_unable_to_handle_nans example_X [1; 2; 3]%Z
    MULTISERIES_TIME_SERIES_REGRESSION (Some example_estimator) None None true
  = Ok [STLDecomposer]
  /\ ~ decomposer_only_if_stated example_freq example_is_freq_valid example_periodicity
         example_X [1; 2; 3]%Z MULTISERIES_TIME_SERIES_REGRESSION [STLDecomposer].
Proof.
  split; [reflexivity|].
  intros H. destruct H as (_ & Hmulti & _); [left|]. discriminate Hmulti.
Qed.

Lemma sampler_iff_name_given_witness :
  (exists comps,
      _get_preprocessing_components (fun l => l) example_freq example_is_freq_valid
        example_periodicity example_unable_to_handle_nans example_X [1; 2; 3]%Z
        REGRESSION (Some example_estimator) (Some "Oversampler") None true = Ok comps
      /\ (has_sampler comps = true
          <-> (Some "Oversampler" <> None /\ is_multiseries REGRESSION = false)))
  /\ (make_pipeline_checks (fun _ => [example_estimator]) (Some example_estimator)
        REGRESSION (Some "Oversampler") = Ok tt ->
      Some "Oversampler" <> None -> is_classification REGRESSION = true).
Proof.
  apply (sampler_iff_name_given (fun l => l) example_freq example_is_freq_valid
           example_periodicity example_unable_to_handle_nans
           (fun _ => [example_estimator]) example_X [1; 2; 3]%Z REGRESSION
           example_estimator (Some "Oversampler") None true).
  - right. right. reflexivity.
  - exists (Some "D"). reflexivity.
  - exists false. reflexivity.
Defined.

(** C5 as stated fails: for a regression problem with the sampler name
    ["Oversampler"] the selector returns a list that holds the oversampler,
    although the problem type is not a classification one. *)
Lemma sampler_regression_counterexample :
  _get_preprocessing_components (fun l => l) example_freq example_is_freq_valid
    example_periodicity example_unable_to_handle_nans example_X [1; 2; 3]%Z
    REGRESSION (Some example_estimator) (Some "Oversampler") None true
  = Ok [DateTimeFeaturizer; Imputer; Oversampler]
  /\ ~ sampler_iff_stated REGRESSION (Some "Oversampler")
         [DateTimeFeaturizer; Imputer; Oversampler].
Proof.
  split; [reflexivity|].
  intros [H _]. destruct (H eq_refl) as [_ Hcls]. discriminate Hcls.
Qed.

End SelectorProofs.

(** ** The data-check action translator *)

Module ActionsProofs.
Import Actions.

Lemma sorted_set_str_spec (l : list string) :
  Sorted String.le (sorted_set_str l)
  /\ NoDup (sorted_set_str l)
  /\ forall c, c ∈ sorted_set_str l <-> c ∈ l.
Proof.
  unfold sorted_set_str. split; [|split].
  - apply Sorted_merge_sort. apply _.
  - rewrite merge_sort_Permutation. apply NoDup_remove_dups.
  - intros c. rewrite merge_sort_Permutation. apply elem_of_remove_dups.
Qed.

Lemma sorted_set_int_spec (l : list Z) :
  Sorted Z.le (sorted_set_int l)
  /\ NoDup (sorted_set_int l)
  /\ forall i, i ∈ sorted_set_int l <-> i ∈ l.
Proof.
  unfold sorted_set_int. split; [|split].
  - apply Sorted_merge_sort. apply _.
  - rewrite merge_sort_Permutation. apply NoDup_remove_dups.
  - intros c. rewrite merge_sort_Permutation. apply elem_of_remove_dups.
Qed.

(** One iteration appends the action's own components, columns and rows. *)
Lemma step_spec st a st' :
  step st a = Ok st' ->
  components st' = components st ++ own_components a
  /\ cols_to_drop st' = cols_to_drop st ++ mentioned_columns [a]
  /\ indices_to_drop st' = indices_to_drop st ++ mentioned_rows [a].
Proof.
  unfold step, own_components, mentioned_columns, mentioned_rows. simpl.
  destruct (action_code a); simpl; intros H;
    repeat match type of H with
      | rbind (getitem ?f) _ = Ok _ =>
          let v := fresh "v" in destruct f as [v|]; simpl in H; [|discriminate]
      | rbind (iterate ?f) _ = Ok _ =>
          let v := fresh "v" in destruct f as [v|]; simpl in H; [|discriminate]
      | (if ?b then _ else _) = Ok _ => destruct b
      end;
    injection H as <-; simpl; rewrite ?app_nil_r; auto.
Qed.

Lemma loop_spec actions : forall st st',
  loop st actions = Ok st' ->
  components st' = components st ++ flat_map own_components actions
  /\ cols_to_drop st' = cols_to_drop st ++ mentioned_columns actions
  /\ indices_to_drop st' = indices_to_drop st ++ mentioned_rows actions.
Proof.
  induction actions as [|a actions IH]; intros st st' H; simpl in H.
  - injection H as <-. unfold mentioned_columns, mentioned_rows. simpl.
    now rewrite !app_nil_r.
  - apply rbind_ok in H as (st1 & Hstep & Hloop).
    apply step_spec in Hstep as (Hc & Hcols & Hrows).
    apply IH in Hloop as (Hc' & Hcols' & Hrows').
    rewrite Hc', Hcols', Hrows', Hc, Hcols, Hrows.
    unfold mentioned_columns, mentioned_rows. simpl.
    rewrite !app_nil_r, <- !app_assoc. auto.
Qed.

Lemma step_ok st a : well_formed a -> exists st', step st a = Ok st'.
Proof.
  unfold well_formed, step. destruct (action_code a); simpl.
  - intros (cols & ->). simpl. eauto.
  - intros (rows' & ->). simpl. eauto.
  - intros (p & target & Hp & Ht & H). rewrite Hp, Ht. simpl.
    destruct target; destruct H as (v & Hv); rewrite Hv; simpl; eauto.
  - intros (p & payload & Hp & Hpay). rewrite Hp. simpl. rewrite Hpay. simpl. eauto.
  - eauto.
Qed.

Lemma loop_ok actions : forall st,
  Forall well_formed actions -> exists st', loop st actions = Ok st'.
Proof.
  induction actions as [|a actions IH]; intros st Hwf; simpl; [eauto|].
  inversion Hwf as [|? ? Ha Hrest]; subst.
  destruct (step_ok st a Ha) as (st1 & ->). simpl. now apply IH.
Qed.

(** C3 (amended): on a list of actions that carry the keys their branches
    read, the translator returns the own components of the impute-column and
    regularize-and-impute actions in encountered order (one imputer for an
    impute-column action, the pair regularizer and imputer for a
    regularize-and-impute action), followed by at most one [DropColumns] and
    at most one [DropRowsTransformer]: the [DropColumns] is there exactly when
    some column is mentioned and then takes the sorted, duplicate-free union
    of the mentioned columns, and likewise for the rows.  In particular two
    [DROP_COL] actions for ["a"] and ["b", "a"] with one [DROP_ROWS] action
    for [3] give one [DropColumns] over ["a", "b"] and one
    [DropRowsTransformer] over [3]. *)
Theorem translator_coalesces_drops (actions : list DataCheckAction) :
  Forall well_formed actions ->
  (exists cs,
      _make_component_list_from_actions actions = Ok cs
      /\ cs = flat_map own_components actions
              ++ match mentioned_columns actions with
                 | [] => []
                 | _ :: _ => [DropColumns (sorted_set_str (mentioned_columns actions))]
                 end
              ++ match mentioned_rows actions with
                 | [] => []
                 | _ :: _ => [DropRowsTransformer (sorted_set_int (mentioned_rows actions))]
                 end
      /\ List.filter (fun c => negb (is_drop c)) cs = flat_map own_components actions
      /\ drop_columns_of cs
         = match mentioned_columns actions with
           | [] => []
           | _ :: _ => [sorted_set_str (mentioned_columns actions)]
           end
      /\ drop_rows_of cs
         = match mentioned_rows actions with
           | [] => []
           | _ :: _ => [sorted_set_int (mentioned_rows actions)]
           end)
  /\ (Sorted String.le (sorted_set_str (mentioned_columns actions))
      /\ NoDup (sorted_set_str (mentioned_columns actions))
      /\ forall c, c ∈ sorted_set_str (mentioned_columns actions)
                   <-> c ∈ mentioned_columns actions)
  /\ (Sorted Z.le (sorted_set_int (mentioned_rows actions))
      /\ NoDup (sorted_set_int (mentioned_rows actions))
      /\ forall i, i ∈ sorted_set_int (mentioned_rows actions)
                   <-> i ∈ mentioned_rows actions)
  /\ _make_component_list_from_actions
       [drop_action ["a"]; drop_action ["b"; "a"]; drop_rows_action [3%Z]]
     = Ok [DropColumns ["a"; "b"]; DropRowsTransformer [3%Z]].
Proof.
  intros Hwf.
  split; [|split; [apply sorted_set_str_spec|split; [apply sorted_set_int_spec|reflexivity]]].
  destruct (loop_ok actions (mkState [] [] []) Hwf) as (st & Hloop).
  unfold _make_component_list_from_actions. rewrite Hloop. simpl.
  apply loop_spec in Hloop as (Hc & Hcols & Hrows). simpl in Hc, Hcols, Hrows.
  rewrite Hc, Hcols, Hrows.
  assert (Hown : forall l, List.filter (fun c => negb (is_drop c)) (flat_map own_components l)
                           = flat_map own_components l
                           /\ drop_columns_of (flat_map own_components l) = []
                           /\ drop_rows_of (flat_map own_components l) = []).
  { unfold drop_columns_of, drop_rows_of.
    induction l as [|a l (IH1 & IH2 & IH3)]; [auto|]. simpl.
    rewrite List.filter_app, !flat_map_app, IH1, IH2, IH3.
    unfold own_components.
    repeat match goal with |- context [match ?x with _ => _ end] => destruct x end;
      auto. }
  destruct (Hown actions) as (Hf & Hdc & Hdr).
  unfold drop_columns_of, drop_rows_of in *.
  eexists. split; [reflexivity|].
  destruct (mentioned_columns actions) as [|c cols], (mentioned_rows actions) as [|r rows'];
    rewrite ?app_nil_r, ?List.filter_app, ?flat_map_app, ?Hf, ?Hdc, ?Hdr;
    simpl; rewrite ?app_nil_r, <- ?app_assoc; auto.
Qed.

Lemma translator_coalesces_drops_witness :
  (exists cs,
      _make_component_list_from_actions
        [drop_action ["a"]; drop_action ["b"; "a"]; drop_rows_action [3%Z]] = Ok cs
      /\ drop_columns_of cs = [["a"; "b"]]
      /\ drop_rows_of cs = [[3%Z]]).
Proof.
  destruct (translator_coalesces_drops
              [drop_action ["a"]; drop_action ["b"; "a"]; drop_rows_action [3%Z]])
    as ((cs & Hcs & _ & _ & Hcols & Hrows) & _).
  - repeat (constructor; [unfold well_formed; simpl; eauto|]). constructor.
  - exists cs. split; [exact Hcs|]. split; [exact Hcols | exact Hrows].
Defined.

(** C3 as stated fails: a single [DROP_COL] action whose column list is empty
    makes the translator return no component at all, where one [DropColumns]
    over the empty union is stated. *)
Lemma empty_drop_counterexample :
  _make_component_list_from_actions [drop_action []] = Ok []
  /\ ~ coalesced_stated [drop_action []] [].
Proof.
  split; [reflexivity|].
  intros [H _].
  assert (Hcode : has_code DROP_COL [drop_action []]).
  { exists (drop_action []). split; [left | reflexivity]. }
  specialize (H Hcode). discriminate H.
Qed.

End ActionsProofs.

(** ** Model-understanding metrics *)

Module MetricsProofs.
Import Metrics.

Section CheckDistribution.

Context {V : Type} {V_eq_dec : EqDecision V}.
Variable chisquare : list nat -> list nat -> result float.
Variable wilcoxon : list V -> list V -> result float.
Variable kstest : list V -> list V -> result float.

Lemma verdict_ge (p threshold : float) :
  is_nan p = false -> is_nan threshold = false ->
  (verdict p threshold = 1%Z <-> fge p threshold = true)
  /\ (verdict p threshold = 0%Z <-> fge p threshold = false).
Proof.
  unfold verdict. destruct p as [| | |x], threshold as [| | |t]; simpl;
    try discriminate; intros _ _; try (split; split; congruence).
  destruct (Qle_bool t x); simpl; split; split; congruence.
Qed.

(** C7 (amended): [check_distribution] takes the chi-square test for every
    classification problem type, the time-series ones included, the Wilcoxon
    signed-rank test for the time-series problem types that are not
    classification ones (time-series and multiseries regression), and the
    Kolmogorov-Smirnov test for plain regression.  For classification it
    returns 0 as soon as the numbers of distinct true and predicted classes
    differ, without running a test.  Otherwise it runs the test taken: when
    that raises, so does [check_distribution]; when it yields a p-value, the
    result is 0 if the p-value is below the threshold and 1 if not, which for
    a p-value and a threshold that are numbers is 1 exactly when the p-value
    is at least the threshold.  When the predicted and true value counts are
    identical, the chi-square p-value of equal frequencies is 1 or undefined,
    and the threshold is at most 1, it returns 1. *)
Theorem check_distribution_dispatch (y_true y_pred : list V) (pt : ProblemTypes)
    (threshold : float) :
  check_distribution chisquare wilcoxon kstest y_true y_pred pt threshold
  = (if is_classification pt
        && negb (length (value_counts y_true) =? length (value_counts y_pred))
     then Ok 0%Z
     else
       (p_value <- p_value_of chisquare wilcoxon kstest (selected_test pt) y_true y_pred ;;
        Ok (verdict p_value threshold))%result)
  /\ (selected_test pt = ChiSquare <-> is_classification pt = true)
  /\ (selected_test pt = Wilcoxon
      <-> is_classification pt = false /\ is_time_series pt = true)
  /\ (selected_test pt = KolmogorovSmirnov
      <-> is_classification pt = false /\ is_time_series pt = false
          /\ is_regression pt = true)
  /\ (forall p, is_nan p = false -> is_nan threshold = false ->
        (verdict p threshold = 1%Z <-> fge p threshold = true)
        /\ (verdict p threshold = 0%Z <-> fge p threshold = false))
  /\ (is_classification pt = true ->
      length (value_counts y_true) <> length (value_counts y_pred) ->
      check_distribution chisquare wilcoxon kstest y_true y_pred pt threshold = Ok 0%Z)
  /\ (is_classification pt = true ->
      value_counts y_pred = value_counts y_true ->
      (forall counts, chisquare counts counts = Ok NaN
                      \/ exists q, chisquare counts counts = Ok (Fin q) /\ (q == 1)%Q) ->
      fge (Fin 1) threshold = true ->
      check_distribution chisquare wilcoxon kstest y_true y_pred pt threshold = Ok 1%Z).
Proof.
  split; [|split; [|split; [|split; [|split; [|split]]]]].
  - unfold check_distribution, selected_test.
    destruct pt; simpl;
      try reflexivity;
      destruct (length (value_counts y_true) =? length (value_counts y_pred));
      reflexivity.
  - destruct pt; cbv; intuition congruence.
  - destruct pt; cbv; intuition congruence.
  - destruct pt; cbv; intuition congruence.
  - intros p. apply verdict_ge.
  - intros Hcls Hlen. unfold check_distribution. rewrite Hcls.
    apply Nat.eqb_neq in Hlen. now rewrite Hlen.
  - intros Hcls Hsame Hchi Hthr. unfold check_distribution. rewrite Hcls, Hsame.
    rewrite Nat.eqb_refl. cbn [negb].
    destruct (Hchi (value_counts y_true)) as [->|(q & -> & Hq)]; [reflexivity|].
    cbn [rbind]. f_equal. unfold verdict.
    destruct threshold as [| | |t]; simpl in *; try discriminate; try reflexivity.
    apply Qle_bool_iff in Hthr.
    assert (Hle : Qle_bool t q = true).
    { apply Qle_bool_iff. rewrite Hq. exact Hthr. }
    now rewrite Hle.
Qed.

End CheckDistribution.

Example check_distribution_identical_counts :
  check_distribution example_chisquare example_wilcoxon example_kstest
    [0; 0; 1; 1; 1]%Z [0; 0; 1; 1; 1]%Z BINARY (Fin (1 # 10)) = Ok 1%Z.
Proof. reflexivity. Qed.

Example check_distribution_cardinalities_differ :
  check_distribution example_chisquare example_wilcoxon example_kstest
    [0; 0; 1; 1; 1]%Z [1; 1; 1; 1; 1]%Z BINARY (Fin (1 # 10)) = Ok 0%Z.
Proof. reflexivity. Qed.

Lemma check_distribution_dispatch_witness :
  is_classification BINARY = true
  /\ value_counts [0; 0; 1; 1; 1]%Z = value_counts [0; 0; 1; 1; 1]%Z
  /\ fge (Fin 1) (Fin (1 # 10)) = true
  /\ check_distribution example_chisquare example_wilcoxon example_kstest
       [0; 0; 1; 1; 1]%Z [0; 0; 1; 1; 1]%Z BINARY (Fin (1 # 10)) = Ok 1%Z.
Proof.
  split; [reflexivity|]. split; [reflexivity|]. split; [reflexivity|].
  apply (check_distribution_dispatch example_chisquare example_wilcoxon example_kstest
           [0; 0; 1; 1; 1]%Z [0; 0; 1; 1; 1]%Z BINARY (Fin (1 # 10))).
  - reflexivity.
  - reflexivity.
  - intros counts. right. exists 1%Q. unfold example_chisquare.
    rewrite bool_decide_eq_true_2 by reflexivity. split; reflexivity.
  - reflexivity.
Defined.

(** C7 as stated fails: the statement has a verdict for every input, but for
    a time-series regression problem with a true series of three values and
    two predictions the signed-rank test raises [ValueError], the samples
    being of different lengths, and [check_distribution] raises with it. *)
Lemma different_lengths_counterexample :
  check_distribution example_chisquare example_wilcoxon example_kstest
    [1; 2; 3]%Z [1; 2]%Z TIME_SERIES_REGRESSION (Fin (1 # 10)) = Raise ValueError
  /\ ~ verdict_stated example_chisquare example_wilcoxon example_kstest
         [1; 2; 3]%Z [1; 2]%Z TIME_SERIES_REGRESSION (Fin (1 # 10)).
Proof.
  split; [reflexivity|].
  intros [[Hone _] | Hzero]; [discriminate Hone | discriminate Hzero].
Qed.

Section Normalize.

Variable to_float : Z -> Q.
Variable rnd : Q -> Q.

(** Integers up to [2 ^ 53] in absolute value convert to floats exactly, and a
    quotient is rounded with a relative error of at most the unit roundoff. *)
Hypothesis to_float_exact :
  forall z, (Z.abs z <= 2 ^ 53)%Z -> (to_float z == inject_Z z)%Q.
Hypothesis rnd_accurate :
  forall q, (Qabs (rnd q - q) <= unit_roundoff * Qabs q)%Q.

Lemma int64_wrap_small z : (- 2 ^ 63 <= z < 2 ^ 63)%Z -> int64_wrap z = z.
Proof. intros H. unfold int64_wrap. rewrite Z.mod_small; lia. Qed.

Lemma zsum_nonneg l : Forall (fun a => (0 <= a)%Z) l -> (0 <= zsum l)%Z.
Proof. induction 1; simpl; lia. Qed.

Lemma zsum_zero l :
  Forall (fun a => (0 <= a)%Z) l -> zsum l = 0%Z -> Forall (fun a => a = 0%Z) l.
Proof.
  induction 1 as [|a l Ha Hl IH]; simpl; intros Hs; constructor.
  - pose proof (zsum_nonneg l Hl). unfold zsum in *. lia.
  - apply IH. pose proof (zsum_nonneg l Hl). unfold zsum in *. lia.
Qed.

Lemma zsum_bound l a :
  Forall (fun a => (0 <= a)%Z) l -> In a l -> (0 <= a <= zsum l)%Z.
Proof.
  induction 1 as [|b l Hb Hl IH]; simpl; [tauto|].
  pose proof (zsum_nonneg l Hl). unfold zsum in *.
  intros [->|Hin]; [lia|]. specialize (IH Hin). lia.
Qed.

Lemma rounded_sum_bound (qs : list Q) :
  Forall (fun q => (0 <= q)%Q) qs ->
  (Qabs (qsum (map rnd qs) - qsum qs) <= unit_roundoff * qsum qs)%Q.
Proof.
  pose proof rnd_accurate as Hacc. revert Hacc.
  generalize unit_roundoff. intros u Hacc.
  induction 1 as [|q qs Hq Hqs IH]; cbn [qsum map fold_right].
  - apply Qabs_Qle_condition. split; lra.
  - pose proof (Hacc q) as Hr.
    rewrite (Qabs_pos q Hq) in Hr.
    apply Qabs_Qle_condition in Hr, IH. apply Qabs_Qle_condition.
    fold (qsum (map rnd qs)) (qsum qs) in *.
    split; lra.
Qed.

Lemma exact_quotient_sum (s : Z) (l : list Z) :
  (0 < s <= 2 ^ 53)%Z ->
  Forall (fun a => (0 <= a <= s)%Z) l ->
  let qs := map (fun a => (to_float a / to_float s)%Q) l in
  Forall (fun q => (0 <= q)%Q) qs
  /\ (qsum qs == inject_Z (zsum l) / inject_Z s)%Q.
Proof.
  intros Hs Hl. simpl.
  assert (Hfs : (to_float s == inject_Z s)%Q) by (apply to_float_exact; lia).
  assert (Hspos : (0 < inject_Z s)%Q).
  { change 0%Q with (inject_Z 0). rewrite <- Zlt_Qlt. lia. }
  induction Hl as [|a l Ha Hl IH]; simpl.
  - split; [constructor|]. unfold Qdiv. change (inject_Z 0) with 0%Q. lra.
  - destruct IH as [IHpos IHsum].
    assert (Hfa : (to_float a == inject_Z a)%Q) by (apply to_float_exact; lia).
    assert (Hapos : (0 <= inject_Z a)%Q).
    { change 0%Q with (inject_Z 0). rewrite <- Zle_Qle. lia. }
    split.
    + constructor; [|exact IHpos].
      rewrite Hfa, Hfs. apply Qle_shift_div_l; [exact Hspos|]. lra.
    + rewrite IHsum, Hfa, Hfs, inject_Z_plus. field. lra.
Qed.

Lemma row_total_fin (qs : list Q) : row_total (map Fin qs) = Some (qsum qs).
Proof. induction qs as [|q qs IH]; simpl; [reflexivity|]. now rewrite IH. Qed.

Lemma true_divide_row (s : Z) (row : list Z) :
  s <> 0%Z ->
  map (true_divide to_float rnd) (map (fun a => (a, s)) row)
  = map Fin (map rnd (map (fun a => (to_float a / to_float s)%Q) row)).
Proof.
  intros Hs. rewrite !map_map. apply map_ext. intros a. simpl.
  apply Z.eqb_neq in Hs. now rewrite Hs.
Qed.

Lemma normalized_row_sums_to_one (row : list Z) :
  Forall (fun a => (0 <= a)%Z) row ->
  (zsum row <= 2 ^ 53)%Z -> zsum row <> 0%Z ->
  exists total,
    row_total (map (true_divide to_float rnd) (map (fun a => (a, int64_sum row)) row))
    = Some total
    /\ (Qabs (total - 1) <= unit_roundoff)%Q.
Proof.
  intros Hnonneg Hbound Hnz.
  pose proof (zsum_nonneg row Hnonneg) as Hs0.
  assert (Hwrap : int64_sum row = zsum row).
  { unfold int64_sum. apply int64_wrap_small. lia. }
  rewrite Hwrap, true_divide_row by exact Hnz. rewrite row_total_fin.
  eexists. split; [reflexivity|].
  destruct (exact_quotient_sum (zsum row) row) as [Hpos Hsum].
  - lia.
  - apply List.Forall_forall. intros a Ha. now apply zsum_bound.
  - pose proof (rounded_sum_bound _ Hpos) as Hr.
    assert (Hone : (qsum (map (fun a => to_float a / to_float (zsum row)) row) == 1)%Q).
    { rewrite Hsum. field. change 0%Q with (inject_Z 0). rewrite inject_Z_injective. exact Hnz. }
    rewrite Hone in Hr. rewrite Qmult_1_r in Hr. exact Hr.
Qed.

Lemma int64_sum_small row :
  Forall (fun a => (0 <= a)%Z) row -> (zsum row <= 2 ^ 53)%Z -> int64_sum row = zsum row.
Proof.
  intros Hnonneg Hbound. pose proof (zsum_nonneg row Hnonneg).
  unfold int64_sum. apply int64_wrap_small. lia.
Qed.

Lemma row_no_divide (s : Z) (row : list Z) :
  (s = 0%Z -> Forall (fun a => a = 0%Z) row) ->
  existsb divides_by_zero (map (fun a => (a, s)) row) = false.
Proof.
  intros Hz. destruct (Z.eqb_spec s 0) as [->|Hnz].
  - specialize (Hz eq_refl). induction Hz as [|a l -> _ IH]; simpl; [reflexivity|exact IH].
  - apply Z.eqb_neq in Hnz. clear Hz.
    induction row as [|a l IH]; simpl; [reflexivity|]. rewrite Hnz. exact IH.
Qed.

Lemma row_no_invalid (s : Z) (row : list Z) :
  s <> 0%Z -> existsb invalid_value (map (fun a => (a, s)) row) = false.
Proof.
  intros Hnz. apply Z.eqb_neq in Hnz.
  induction row as [|a l IH]; simpl; [reflexivity|]. rewrite Hnz. exact IH.
Qed.

Lemma no_divide_by_zero rows :
  Forall (Forall (fun a => (0 <= a)%Z)) rows ->
  Forall (fun row => (zsum row <= 2 ^ 53)%Z) rows ->
  existsb (existsb divides_by_zero) (true_operands rows) = false.
Proof.
  intros Hnonneg Hbound. unfold true_operands.
  induction rows as [|row rows IH]; simpl; [reflexivity|].
  inversion Hnonneg as [|? ? Hrow Hrest]; subst.
  inversion Hbound as [|? ? Hb Hbrest]; subst.
  rewrite IH by assumption. rewrite orb_false_r.
  rewrite (int64_sum_small row Hrow Hb).
  apply row_no_divide. now apply zsum_zero.
Qed.

Lemma invalid_value_absent rows :
  Forall (Forall (fun a => (0 <= a)%Z)) rows ->
  Forall (fun row => (zsum row <= 2 ^ 53)%Z) rows ->
  Forall (fun row => zsum row <> 0%Z) rows ->
  existsb (existsb invalid_value) (true_operands rows) = false.
Proof.
  intros Hnonneg Hbound Hnz. unfold true_operands.
  induction rows as [|row rows IH]; simpl; [reflexivity|].
  inversion Hnonneg as [|? ? Hrow Hrest]; subst.
  inversion Hbound as [|? ? Hb Hbrest]; subst.
  inversion Hnz as [|? ? Hz Hzrest]; subst.
  rewrite IH by assumption. rewrite orb_false_r.
  rewrite (int64_sum_small row Hrow Hb).
  now apply row_no_invalid.
Qed.

Lemma invalid_value_present rows :
  Forall (Forall (fun a => (0 <= a)%Z)) rows ->
  Forall (fun row => (zsum row <= 2 ^ 53)%Z) rows ->
  Exists (fun row => zsum row = 0%Z /\ row <> []) rows ->
  existsb (existsb invalid_value) (true_operands rows) = true.
Proof.
  intros Hnonneg Hbound Hex. unfold true_operands.
  induction Hex as [row rows [Hz Hne]|row rows Hex IH]; simpl;
    inversion Hnonneg as [|? ? Hrow Hrest]; subst;
    inversion Hbound as [|? ? Hb Hbrest]; subst.
  - rewrite (int64_sum_small row Hrow Hb).
    pose proof (zsum_zero row Hrow Hz) as Hall. rewrite Hz.
    destruct row as [|a l]; [congruence|].
    inversion Hall; subst. reflexivity.
  - rewrite IH by assumption. apply orb_true_r.
Qed.

(** C6: for a confusion matrix (square, with counts a float holds exactly),
    [normalize_confusion_matrix] with method ["true"] returns, when no row
    sums to zero, a matrix each row of which is made of finite floats whose
    sum is within the unit roundoff of 1; when some row sums to zero it raises
    [ValueError]; and a method other than ["true"], ["pred"] and ["all"]
    raises [ValueError] on any matrix. *)
Theorem normalize_true_rows_sum_to_one (conf_mat : ConfusionMatrix) :
  is_confusion_matrix conf_mat ->
  (Forall (fun row => zsum row <> 0%Z) (values conf_mat) ->
   exists out,
     normalize_confusion_matrix to_float rnd conf_mat "true" = Ok out
     /\ norm_index out = columns conf_mat
     /\ norm_columns out = columns conf_mat
     /\ length (norm_values out) = length (values conf_mat)
     /\ Forall (fun row => exists total,
                  row_total row = Some total
                  /\ (Qabs (total - 1) <= unit_roundoff)%Q)
               (norm_values out))
  /\ (Exists (fun row => zsum row = 0%Z) (values conf_mat) ->
      normalize_confusion_matrix to_float rnd conf_mat "true" = Raise ValueError)
  /\ (forall (any_matrix : ConfusionMatrix) (normalize_method : string),
        normalize_method <> "true" -> normalize_method <> "pred" ->
        normalize_method <> "all" ->
        normalize_confusion_matrix to_float rnd any_matrix normalize_method
        = Raise ValueError).
Proof.
  intros (Hsquare & Hrect & Hnonneg & Hbound). split; [|split].
  - intros Hnz. unfold normalize_confusion_matrix. simpl.
    unfold recorded_warnings.
    rewrite no_divide_by_zero, invalid_value_absent by assumption. simpl.
    unfold true_operands at 1. rewrite !length_map, Hsquare, Nat.eqb_refl.
    eexists. split; [reflexivity|]. simpl.
    repeat split; auto.
    + unfold true_operands. now rewrite !length_map.
    + clear Hsquare Hrect. unfold true_operands.
      induction (values conf_mat) as [|row rows IH]; simpl; constructor;
        inversion Hnonneg; inversion Hbound; inversion Hnz; subst.
      * now apply normalized_row_sums_to_one.
      * now apply IH.
  - intros Hex. unfold normalize_confusion_matrix. simpl.
    unfold recorded_warnings.
    rewrite no_divide_by_zero by assumption.
    rewrite invalid_value_present; [reflexivity|assumption|assumption|].
    apply Exists_exists. apply Exists_exists in Hex as (row & Hin & Hz).
    exists row. split; [exact Hin|]. split; [exact Hz|].
    intros ->. rewrite Forall_forall in Hrect. specialize (Hrect [] Hin).
    simpl in Hrect. rewrite <- Hrect in Hsquare.
    apply length_zero_iff_nil in Hsquare. rewrite Hsquare in Hin. inversion Hin.
  - intros any_matrix normalize_method Ht Hp Ha.
    unfold normalize_confusion_matrix, division_operands.
    apply String.eqb_neq in Ht, Hp, Ha. now rewrite Ht, Hp, Ha.
Qed.
End Normalize.

Lemma exact_rounding_accurate (q : Q) :
  (Qabs ((fun q => q) q - q) <= unit_roundoff * Qabs q)%Q.
Proof.
  apply Qabs_Qle_condition.
  pose proof (Qabs_nonneg q) as Hq.
  assert (Hu : (0 <= unit_roundoff * Qabs q)%Q)
    by (apply Qmult_le_0_compat; [discriminate | exact Hq]).
  revert Hu. generalize (unit_roundoff * Qabs q)%Q. intros b Hb. split; lra.
Qed.

Lemma example_matrix_is_confusion_matrix : is_confusion_matrix example_matrix.
Proof.
  unfold is_confusion_matrix, example_matrix. simpl.
  repeat split; repeat constructor; simpl; lia.
Qed.

Lemma normalize_true_rows_sum_to_one_witness :
  is_confusion_matrix example_matrix
  /\ Forall (fun row => zsum row <> 0%Z) (values example_matrix)
  /\ exists out,
       normalize_confusion_matrix inject_Z (fun q => q) example_matrix "true" = Ok out
       /\ Forall (fun row => exists total,
                    row_total row = Some total
                    /\ (Qabs (total - 1) <= unit_roundoff)%Q)
                 (norm_values out).
Proof.
  assert (Hnz : Forall (fun row => zsum row <> 0%Z) (values example_matrix))
    by (repeat constructor; discriminate).
  split; [exact example_matrix_is_confusion_matrix|]. split; [exact Hnz|].
  destruct (normalize_true_rows_sum_to_one inject_Z (fun q => q)
              (fun z _ => Qeq_refl (inject_Z z)) exact_rounding_accurate
              example_matrix example_matrix_is_confusion_matrix)
    as (Hsum & _ & _).
  destruct (Hsum Hnz) as (out & Hout & _ & _ & _ & Hrows).
  exists out. split; [exact Hout | exact Hrows].
Defined.

Example normalize_example_matrix :
  normalize_confusion_matrix inject_Z (fun q => q) example_matrix "true"
  = Ok (mkNormalizedMatrix ["0"; "1"] ["0"; "1"]
          [[Fin (2 # 3); Fin (1 # 3)]; [Fin (0 # 3); Fin (3 # 3)]]).
Proof. reflexivity. Qed.

Example normalize_zero_row_raises :
  normalize_confusion_matrix inject_Z (fun q => q) example_zero_row_matrix "true"
  = Raise ValueError.
Proof. reflexivity. Qed.

End MetricsProofs.

(** ** The graph assemblers: parameter dictionaries *)

Module StoreProofs.
Import Assembler.

Lemma store_setitem_other (h : Store) (l l' : positive) k v :
  l <> l' -> store_setitem h l k v !! l' = h !! l'.
Proof. intros Hne. unfold store_setitem. now rewrite lookup_insert_ne. Qed.

Lemma store_alloc_fresh (h : Store) (d : ParamDict) l h' :
  store_alloc h d = (l, h') ->
  (l ∉ dom h) /\ h' !! l = Some d /\ forall l', l' ∈ dom h -> h' !! l' = h !! l'.
Proof.
  unfold store_alloc. intros H. injection H as Hl Hh. subst l h'.
  pose proof (is_fresh (dom h)) as Hfresh.
  split; [exact Hfresh|]. split; [apply lookup_insert_eq|].
  intros l' Hl'. apply lookup_insert_ne. intros Heq. rewrite <- Heq in Hl'.
  contradiction.
Qed.

Section WithRegistry.

Variable handle_component_class : string -> result ComponentClass.

Lemma add_node_frame pt p ref idx alias prior g h fc fy entry g' h' fc' fy' :
  add_node handle_component_class pt p ref idx alias prior (g, h, fc, fy) entry
  = Ok (g', h', fc', fy') ->
  forall l, l <> ref -> h' !! l = h !! l.
Proof.
  unfold add_node. destruct entry as [k node]. intros H l Hl.
  repeat (apply rbind_ok in H as (? & _ & H)).
  destruct (rewire_items _ _ _ _ _ _ _ _ _ _) as [new_inputs fy1].
  injection H as _ <- _ _. apply store_setitem_other. congruence.
Qed.

Lemma add_nodes_frame pt p ref idx alias prior entries : forall g h fc fy g' h' fc' fy',
  add_nodes handle_component_class pt p ref idx alias prior (g, h, fc, fy) entries
  = Ok (g', h', fc', fy') ->
  forall l, l <> ref -> h' !! l = h !! l.
Proof.
  induction entries as [|entry entries IH]; intros g h fc fy g' h' fc' fy' H l Hl;
    cbn [add_nodes] in H.
  - now injection H as _ <- _ _.
  - apply rbind_ok in H as ([[[g1 h1] fc1] fy1] & Hnode & H).
    rewrite (IH _ _ _ _ _ _ _ _ H l Hl).
    exact (add_node_frame _ _ _ _ _ _ _ _ _ _ _ _ _ _ _ Hnode l Hl).
Qed.

Lemma add_pipeline_frame pt ref subs prior st p st' :
  add_pipeline handle_component_class pt ref subs prior st p = Ok st' ->
  forall l, l <> ref -> st_store st' !! l = st_store st !! l.
Proof.
  unfold add_pipeline. intros H l Hl.
  apply rbind_ok in H as (alias & _ & H).
  apply rbind_ok in H as (last & _ & H).
  apply rbind_ok in H as (cls & _ & H).
  apply rbind_ok in H as ([[[g1 h1] fc1] fy1] & Hnodes & H).
  injection H as <-. simpl.
  exact (add_nodes_frame _ _ _ _ _ _ _ _ _ _ _ _ _ _ _ Hnodes l Hl).
Qed.

Lemma add_pipelines_frame pt ref subs prior ps : forall st st',
  add_pipelines handle_component_class pt ref subs prior st ps = Ok st' ->
  forall l, l <> ref -> st_store st' !! l = st_store st !! l.
Proof.
  induction ps as [|p ps IH]; intros st st' H l Hl; cbn [add_pipelines] in H.
  - now injection H as <-.
  - apply rbind_ok in H as (st1 & Hp & H).
    rewrite (IH _ _ H l Hl). exact (add_pipeline_frame _ _ _ _ _ _ _ Hp l Hl).
Qed.

Lemma dict_set_has_key {V : Type} (d : list (string * V)) k v :
  k ∈ keys (dict_set d k v).
Proof.
  induction d as [|[k' v'] d IH]; simpl.
  - left.
  - destruct (String.eqb k k') eqn:E; simpl; [left|right; exact IH].
Qed.

(** X21: what the multi-graph assembler does to the caller's dictionaries by
    the time it calls the pipeline class, which is then all that is left to
    do.  The parameters are written to a copy: every parameter dictionary
    object that existed before the call is unchanged, the caller's included,
    and the class is handed a new object.  The graph dictionaries are not
    copied.  A [pre_pipeline_components] that is not empty is the graph handed
    to the class, so the caller's object has gained every node of the graph,
    the final estimator included.  A [post_pipelines_components] that is not
    empty has its first entry replaced: the component of the new entry is the
    entry's own key; the other entries are as they were. *)
Theorem multiple_graphs_leaves_store_unchanged (h : Store) ps estimator pt parameters
    pipeline_name subs pre post call h' graphs :
  assemble_multiple_graphs handle_component_class h ps estimator pt parameters
    pipeline_name subs pre post = Ok (call, h', graphs) ->
  (pipeline_parameters call ∉ dom h)
  /\ (forall l, l ∈ dom h -> h' !! l = h !! l)
  /\ (forall (PipelineBase : Type)
             (pipeline_class_init : PipelineCall -> Store -> result (PipelineBase * Store)),
        _make_pipeline_from_multiple_graphs handle_component_class pipeline_class_init
          h ps estimator pt parameters pipeline_name subs pre post
        = pipeline_class_init call h')
  /\ estimator ∈ keys (pipeline_graph call)
  /\ pre_pipeline_components_after graphs
     = match pre with
       | Some (_ :: _) => Some (pipeline_graph call)
       | _ => pre
       end
  /\ match post with
     | Some ((first, _) :: rest) =>
         exists node,
           post_pipelines_components_after graphs = Some ((first, node) :: rest)
           /\ component node = first
     | _ => post_pipelines_components_after graphs = post
     end.
Proof.
  intros Hbody.
  assert (Hcall : forall (PipelineBase : Type)
             (pipeline_class_init : PipelineCall -> Store -> result (PipelineBase * Store)),
        _make_pipeline_from_multiple_graphs handle_component_class pipeline_class_init
          h ps estimator pt parameters pipeline_name subs pre post
        = pipeline_class_init call h').
  { intros PipelineBase pipeline_class_init.
    unfold _make_pipeline_from_multiple_graphs. rewrite Hbody. reflexivity. }
  revert Hbody. unfold assemble_multiple_graphs.
  match goal with
  | |- context [let '(_, _) := ?alloc in _] => destruct alloc as [ref h1] eqn:Halloc
  end.
  assert (Hfresh : (ref ∉ dom h) /\ forall l', l' ∈ dom h -> h1 !! l' = h !! l').
  { destruct parameters as [l0|]; [destruct (negb (bool_decide (store_get h l0 = ∅)))|];
      apply store_alloc_fresh in Halloc; tauto. }
  destruct Hfresh as [Hfresh Hsame].
  intros H.
  apply rbind_ok in H as (st & Hst & H).
  apply rbind_ok in H as (fy & _ & H).
  apply rbind_ok in H as ([[g last] caller_post] & Hpost & H).
  apply rbind_ok in H as (g' & Hg' & H).
  apply rbind_ok in H as (cls & _ & H).
  injection H as <- <- <-. cbn [pipeline_parameters pipeline_graph
    pre_pipeline_components_after post_pipelines_components_after].
  split; [exact Hfresh|]. split.
  { intros l Hl. rewrite <- (Hsame l Hl).
    apply (add_pipelines_frame _ _ _ _ _ _ _ Hst). intros ->. contradiction. }
  split; [exact Hcall|]. split.
  { destruct last as [last|]; [destruct (truthy last)|];
      try (apply rbind_ok in Hg' as (xs & _ & Hg'));
      injection Hg' as <-; apply dict_set_has_key. }
  split; [reflexivity|].
  destruct post as [[|[first node] rest]|]; cbn [default] in Hpost.
  - now injection Hpost as _ _ <-.
  - apply rbind_ok in Hpost as (xs & _ & Hpost).
    apply rbind_ok in Hpost as (last' & _ & Hpost).
    injection Hpost as _ _ <-. cbn [dict_set]. rewrite String.eqb_refl.
    eexists. split; reflexivity.
  - now injection Hpost as _ _ <-.
Qed.

End WithRegistry.

Lemma example_multiple_graphs_call_returns :
  match example_multiple_graphs_call with
  | Ok (call, h', _) =>
      pipeline_parameters call = 2%positive
      /\ sorted_keys (store_get h' 1) = ["Label Encoder"]
      /\ sorted_keys (store_get h' 2)
         = ["A Pipeline - Imputer"; "A Pipeline - One Hot Encoder";
            "A Pipeline 2 - Imputer"; "A Pipeline 2 - One Hot Encoder"; "Label Encoder"]
  | Raise _ => False
  end.
Proof. vm_compute. repeat split. Qed.

Lemma multiple_graphs_leaves_store_unchanged_witness :
  exists call h' graphs,
    example_multiple_graphs_call = Ok (call, h', graphs)
    /\ (pipeline_parameters call ∉ dom example_store)
    /\ forall l, l ∈ dom example_store -> h' !! l = example_store !! l.
Proof.
  pose proof example_multiple_graphs_call_returns as Hret.
  destruct example_multiple_graphs_call as [[[call h'] graphs]|e] eqn:Hrun;
    [|contradiction].
  exists call, h', graphs. split; [reflexivity|].
  destruct (multiple_graphs_leaves_store_unchanged example_registry _ _ _ _ _ _ _ _ _
              _ _ _ Hrun) as (Hnew & Hsame & _).
  split; [exact Hnew | exact Hsame].
Defined.

(** The caller's graph dictionaries after a run with a scaler before the
    sub-pipelines and one after them: both have changed. *)
Example multiple_graphs_updates_caller_graphs :
  match assemble_multiple_graphs example_registry example_store
          [example_pipeline "A"] "Random Forest Regressor" REGRESSION None None None
          (Some [("Imputer", mkNode "Imputer" ["X"; "y"])])
          (Some [("Standard Scaler", mkNode "Standard Scaler" ["X"; "y"])]) with
  | Ok (call, _, graphs) =>
      option_map keys (pre_pipeline_components_after graphs)
      = Some ["Imputer"; "A Pipeline - Imputer"; "A Pipeline - One Hot Encoder";
              "Standard Scaler"; "Random Forest Regressor"]
      /\ post_pipelines_components_after graphs
         = Some [("Standard Scaler",
                  mkNode "Standard Scaler" ["A Pipeline - One Hot Encoder.x"; "y"])]
      /\ dict_lookup (pipeline_graph call) "Random Forest Regressor"
         = Some (mkNode "Random Forest Regressor"
                   ["Standard Scaler.x"; "Standard Scaler.y"])
  | Raise _ => False
  end.
Proof. vm_compute. repeat split. Qed.

Lemma example_stacked_ensemble_call_returns :
  match example_stacked_ensemble_call with
  | Ok (call, h') =>
      pipeline_parameters call = 1%positive
      /\ pipeline_class call = "BinaryClassificationPipeline"
      /\ sorted_keys (store_get example_store 1) = ["Label Encoder"]
      /\ sorted_keys (store_get h' 1)
         = ["Label Encoder"; "Random Forest Pipeline - Imputer";
            "Random Forest Pipeline - Random Forest Classifier";
            "Stacked Ensemble Classifier"]
  | Raise _ => False
  end.
Proof. vm_compute. repeat split. Qed.

(** C8: the stacked-ensemble assembler does not copy [label_encoder_params].
    Called for a binary problem with a base pipeline made of an imputer and a
    random forest classifier, and with a caller's dictionary that holds the
    label encoder's parameters, it arrives at the call of the pipeline class
    with that very object as the parameters, and by then the object also holds
    the entry of the stacked ensemble classifier and the entries of the
    renamed nodes, none of which it held before.  All that the assembler still
    does is to return what the pipeline class makes of the call. *)
Theorem stacked_ensemble_writes_to_label_encoder_params :
  exists call h',
    example_stacked_ensemble_call = Ok (call, h')
    /\ pipeline_class call = "BinaryClassificationPipeline"
    /\ pipeline_parameters call = 1%positive
    /\ sorted_keys (store_get example_store 1) = ["Label Encoder"]
    /\ sorted_keys (store_get h' 1)
       = ["Label Encoder"; "Random Forest Pipeline - Imputer";
          "Random Forest Pipeline - Random Forest Classifier";
          "Stacked Ensemble Classifier"]
    /\ h' !! 1%positive <> example_store !! 1%positive
    /\ forall (PipelineBase : Type)
              (pipeline_class_init : PipelineCall -> Store -> result (PipelineBase * Store)),
         StackedEnsemble._make_stacked_ensemble_pipeline example_registry
           example_model_family pipeline_class_init example_store
           [example_base_pipeline "A"] BINARY (VInt (-1)) None (Some 1%positive)
         = pipeline_class_init call h'.
Proof.
  pose proof example_stacked_ensemble_call_returns as Hret.
  assert (Hcall : forall (PipelineBase : Type)
              (pipeline_class_init : PipelineCall -> Store -> result (PipelineBase * Store)),
         StackedEnsemble._make_stacked_ensemble_pipeline example_registry
           example_model_family pipeline_class_init example_store
           [example_base_pipeline "A"] BINARY (VInt (-1)) None (Some 1%positive)
         = (built <- example_stacked_ensemble_call ;;
            pipeline_class_init (fst built) (snd built))%result)
    by reflexivity.
  destruct example_stacked_ensemble_call as [[call h']|e]; [|contradiction].
  destruct Hret as (Hout & Hclass & Hbefore & Hafter).
  exists call, h'. split; [reflexivity|]. split; [exact Hclass|]. split; [exact Hout|].
  split; [exact Hbefore|]. split; [exact Hafter|]. split.
  - intros Heq. unfold store_get in Hafter, Hbefore. rewrite Heq, Hbefore in Hafter.
    discriminate Hafter.
  - intros PipelineBase pipeline_class_init. rewrite Hcall. reflexivity.
Qed.

End StoreProofs.

(** ** The graph assemblers: keys of the merged graph *)

Module GraphProofs.
Import Assembler.

Lemma string_of_uint_digits (d : Decimal.uint) :
  all_digits (NilEmpty.string_of_uint d) = true.
Proof. induction d; simpl; auto. Qed.

Lemma str_of_nat_digits n : all_digits (str_of_nat n) = true.
Proof. apply string_of_uint_digits. Qed.

Lemma str_of_nat_inj n m : str_of_nat n = str_of_nat m -> n = m.
Proof.
  unfold str_of_nat. intros H.
  assert (Hu : Nat.to_uint n = Nat.to_uint m).
  { apply (f_equal NilEmpty.uint_of_string) in H.
    rewrite !NilEmpty.usu in H. congruence. }
  apply (f_equal Nat.of_uint) in Hu. now rewrite !Unsigned.of_to in Hu.
Qed.

Lemma str_of_nat_nonempty n : str_of_nat n <> "".
Proof.
  intros H.
  pose proof (NilEmpty.usu (Nat.to_uint n)) as Hu.
  fold (str_of_nat n) in Hu. rewrite H in Hu. simpl in Hu. injection Hu as Hu.
  apply (f_equal Nat.of_uint) in Hu. rewrite Unsigned.of_to in Hu. simpl in Hu.
  subst n. vm_compute in H. discriminate H.
Qed.

Lemma digits_prefix_unique (d1 d2 r1 r2 : string) :
  all_digits d1 = true -> all_digits d2 = true ->
  (d1 ++ String " " r1 = d2 ++ String " " r2)%string -> d1 = d2.
Proof.
  revert d2. induction d1 as [|c d1 IH]; intros [|c' d2] H1 H2 H; simpl in *.
  - reflexivity.
  - injection H as <- _. apply andb_true_iff in H2 as [H2 _]. discriminate H2.
  - injection H as -> _. apply andb_true_iff in H1 as [H1 _]. discriminate H1.
  - injection H as <- H. apply andb_true_iff in H1 as [_ H1].
    apply andb_true_iff in H2 as [_ H2]. f_equal. now apply IH.
Qed.

Lemma make_name_shape name k idx alias :
  _make_new_component_name name k idx alias
  = (base_of name alias ++ " Pipeline" ++ suffix_of idx ++ " - " ++ k)%string.
Proof.
  unfold _make_new_component_name, base_of, suffix_of.
  destruct alias as [pn|]; [destruct (truthy pn)|]; reflexivity.
Qed.

Lemma string_app_inv_head (s a b : string) : (s ++ a = s ++ b)%string -> a = b.
Proof. induction s as [|c s IH]; simpl; intros H; [exact H|]. injection H as H. auto. Qed.

Lemma suffix_ne (i j : option nat) (k k' : string) :
  i <> j -> (suffix_of i ++ " - " ++ k)%string <> (suffix_of j ++ " - " ++ k')%string.
Proof.
  intros Hij H. destruct i as [n|], j as [m|]; simpl in H.
  - injection H as H.
    apply digits_prefix_unique in H; try apply str_of_nat_digits.
    apply str_of_nat_inj in H. congruence.
  - injection H as H. pose proof (str_of_nat_nonempty n) as Hne.
    pose proof (str_of_nat_digits n) as Hd.
    destruct (str_of_nat n) as [|c s]; [congruence|]. simpl in H, Hd.
    injection H as -> _. discriminate Hd.
  - injection H as H. pose proof (str_of_nat_nonempty m) as Hne.
    pose proof (str_of_nat_digits m) as Hd.
    destruct (str_of_nat m) as [|c s]; [congruence|]. simpl in H, Hd.
    injection H as <- _. discriminate Hd.
  - congruence.
Qed.

Lemma make_name_idx_ne name alias i j k k' :
  i <> j ->
  _make_new_component_name name k i alias <> _make_new_component_name name k' j alias.
Proof.
  intros Hij. rewrite !make_name_shape. intros H.
  apply string_app_inv_head in H. apply (string_app_inv_head " Pipeline") in H.
  now apply suffix_ne in H.
Qed.

Lemma make_name_inj name alias i k k' :
  _make_new_component_name name k i alias = _make_new_component_name name k' i alias ->
  k = k'.
Proof.
  rewrite !make_name_shape. intros H.
  apply string_app_inv_head in H. apply (string_app_inv_head " Pipeline") in H.
  apply string_app_inv_head in H. now apply (string_app_inv_head " - ") in H.
Qed.

Lemma dict_set_keys_fresh {V : Type} (d : list (string * V)) k v :
  k ∉ keys d -> keys (dict_set d k v) = keys d ++ [k].
Proof.
  induction d as [|[k' v'] d IH]; simpl; intros Hk; [reflexivity|].
  apply not_elem_of_cons in Hk as [Hne Hk].
  destruct (String.eqb_spec k k') as [->|_]; [congruence|].
  simpl. f_equal. now apply IH.
Qed.

Lemma dict_update_keys_fresh {V : Type} (other : list (string * V)) : forall d,
  NoDup (keys d ++ keys other) -> keys (dict_update d other) = keys d ++ keys other.
Proof.
  unfold dict_update.
  induction other as [|[k v] other IH]; intros d Hnd; simpl.
  - now rewrite app_nil_r.
  - simpl in Hnd. rewrite IH.
    + rewrite dict_set_keys_fresh, <- app_assoc; [reflexivity|].
      apply NoDup_app in Hnd as (_ & Hdisj & _). intros Hk.
      apply (Hdisj k Hk). left.
    + rewrite dict_set_keys_fresh.
      * now rewrite <- app_assoc.
      * apply NoDup_app in Hnd as (_ & Hdisj & _). intros Hk.
        apply (Hdisj k Hk). left.
Qed.

Lemma all_dot_x_ok (fcs : list (option string)) :
  Forall is_Some fcs -> exists xs, all_dot_x fcs = Ok xs.
Proof.
  induction 1 as [|fc fcs [c ->] _ [xs IH]]; simpl; [eauto|].
  rewrite IH. simpl. eauto.
Qed.

Section WithRegistry.

Variable handle_component_class : string -> result ComponentClass.

Lemma add_nodes_keys pt p ref idx alias prior entries : forall g h fc fy,
  (exists first, nth_error (compute_order p) 0 = Some first
                 /\ (first = "Label Encoder"
                     -> exists second, nth_error (compute_order p) 1 = Some second)) ->
  (forall entry, entry ∈ entries ->
                 exists cls, handle_component_class (component (snd entry)) = Ok cls) ->
  NoDup (keys g
         ++ map (fun k => _make_new_component_name (name p) k idx alias) (keys entries)) ->
  exists g' h' fc' fy',
    add_nodes handle_component_class pt p ref idx alias prior (g, h, fc, fy) entries
    = Ok (g', h', fc', fy')
    /\ keys g'
       = keys g ++ map (fun k => _make_new_component_name (name p) k idx alias)
                      (keys entries)
    /\ (entries <> [] -> is_Some fc')
    /\ (is_Some fc -> is_Some fc').
Proof.
  intros g h fc fy Horder. revert g h fc fy.
  induction entries as [|[k node] entries IH]; intros g h fc fy Hcls Hnd;
    cbn [add_nodes].
  - exists g, h, fc, fy. simpl. rewrite app_nil_r. repeat split; auto. congruence.
  - destruct Horder as (first & Hfirst & Hsecond).
    destruct (Hcls (k, node)) as (cls & Hk); [left|]. simpl in Hk.
    unfold add_node at 1. unfold item_at. rewrite Hfirst. cbn [rbind].
    assert (Hfx : exists fx,
      (if negb (String.eqb first "Label Encoder") then Ok first
       else match nth_error (compute_order p) 1 with
            | Some x => Ok x
            | None => Raise IndexError
            end) = Ok fx).
    { destruct (String.eqb_spec first "Label Encoder") as [Heq|Hne]; cbn [negb]; [|eauto].
      destruct (Hsecond Heq) as (second & Hs). rewrite Hs. eauto. }
    destruct Hfx as (fx & ->). cbn [rbind]. rewrite Hk. cbn [rbind].
    destruct (rewire_items pt (name p) idx alias k fx prior (inputs node) [] fy)
      as [new_inputs fy1].
    cbn [rbind].
    simpl in Hnd.
    set (nk := _make_new_component_name (name p) k idx alias) in *.
    assert (Hfresh : nk ∉ keys g).
    { apply NoDup_app in Hnd as (_ & Hdisj & _). intros Hin.
      apply (Hdisj nk Hin). left. }
    destruct (IH (dict_set g nk (mkNode (class_name cls) new_inputs))
                 (store_setitem h ref nk (default ∅ (parameters p !! k)))
                 (Some nk) fy1) as (g' & h' & fc' & fy' & Hrun & Hkeys & _ & Hfc).
    + intros entry Hentry. apply Hcls. now right.
    + rewrite dict_set_keys_fresh by exact Hfresh. now rewrite <- app_assoc.
    + exists g', h', fc', fy'. split; [exact Hrun|]. split.
      * rewrite Hkeys, dict_set_keys_fresh by exact Hfresh. now rewrite <- app_assoc.
      * split; intros _; apply Hfc; eauto.
Qed.


Lemma renamed_blocks_cons subs earlier p rest :
  renamed_blocks subs earlier (p :: rest)
  = map (new_key subs earlier p) (keys (component_dict p))
    :: renamed_blocks subs (earlier ++ [p]) rest.
Proof.
  unfold renamed_blocks. rewrite imap_cons. simpl. rewrite app_nil_r. f_equal.
  apply imap_ext. intros i q _. simpl. now rewrite <- app_assoc.
Qed.

Lemma sub_pipeline_name_alias subs n alias :
  sub_pipeline_name_of subs n = Ok alias -> alias = alias_of subs n.
Proof.
  unfold sub_pipeline_name_of, alias_of.
  destruct subs as [[|entry names]|]; simpl; try congruence.
  destruct entry as [k v]. simpl.
  destruct (String.eqb n k); [congruence|].
  destruct (dict_lookup names n); congruence.
Qed.

Lemma add_pipelines_keys pt ref subs prior ps : forall earlier st,
  st_used_names st = map name earlier ->
  Forall (well_formed_pipeline handle_component_class subs) ps ->
  NoDup (keys (st_component_graph st) ++ concat (renamed_blocks subs earlier ps)) ->
  Forall is_Some (st_final_components st) ->
  exists st',
    add_pipelines handle_component_class pt ref subs prior st ps = Ok st'
    /\ keys (st_component_graph st')
       = keys (st_component_graph st) ++ concat (renamed_blocks subs earlier ps)
    /\ Forall is_Some (st_final_components st')
    /\ (ps <> [] \/ is_Some (st_final_y st) -> is_Some (st_final_y st')).
Proof.
  induction ps as [|p ps IH]; intros earlier st Hused Hwf Hnd Hfcs;
    cbn [add_pipelines].
  - exists st. unfold renamed_blocks. simpl. rewrite app_nil_r.
    repeat split; auto. intros [?|?]; [congruence|assumption].
  - inversion Hwf as [|? ? Hp Hrest]; subst.
    destruct Hp as (Hne & Hkeys & Horder & (last & cls & Hlast & Hcls) & Hnodes
                    & (alias & Halias)).
    rewrite renamed_blocks_cons in Hnd. cbn [concat] in Hnd.
    unfold add_pipeline at 1. rewrite Halias. cbn [rbind].
    rewrite Hlast. cbn [rbind]. rewrite Hcls. cbn [rbind].
    pose proof (sub_pipeline_name_alias _ _ _ Halias) as ->.
    destruct (add_nodes_keys pt p ref (name_index (st_used_names st) (name p))
                (alias_of subs (name p)) prior (component_dict p)
                (st_component_graph st) (st_store st) None "y" Horder Hnodes)
      as (g1 & h1 & fc1 & fy1 & Hrun & Hk1 & Hfc1 & _).
    { rewrite Hused. rewrite app_assoc in Hnd.
      apply NoDup_app in Hnd as (Hnd & _ & _). exact Hnd. }
    rewrite Hrun. cbn [rbind].
    match goal with
    | |- context [add_pipelines _ _ _ _ _ ?s ps] => set (st1 := s)
    end.
    destruct (IH (earlier ++ [p]) st1) as (st' & Hrun' & Hk' & Hfcs' & Hy').
    + subst st1. cbn [st_used_names]. now rewrite Hused, map_app.
    + exact Hrest.
    + subst st1. cbn [st_component_graph]. rewrite Hk1, Hused, <- app_assoc. exact Hnd.
    + subst st1. cbn [st_final_components]. apply Forall_app. split; [exact Hfcs|].
      constructor; [|constructor]. now apply Hfc1.
    + exists st'. split; [exact Hrun'|]. split.
      * rewrite Hk'. subst st1. cbn [st_component_graph].
        rewrite Hk1, Hused, renamed_blocks_cons. cbn [concat]. now rewrite <- app_assoc.
      * split; [exact Hfcs'|]. intros _. apply Hy'. right.
        subst st1. cbn [st_final_y]. eauto.
Qed.

End WithRegistry.

Lemma NoDup_concat_pairwise {A : Type} (bs : list (list A)) :
  (forall i b, bs !! i = Some b -> NoDup b) ->
  (forall i j b b' x, i < j -> bs !! i = Some b -> bs !! j = Some b' ->
                      x ∈ b -> x ∉ b') ->
  NoDup (concat bs).
Proof.
  induction bs as [|b bs IH]; intros Hblock Hcross; simpl; [constructor|].
  apply NoDup_app. split; [apply (Hblock 0 b eq_refl)|]. split.
  - intros x Hx Hin. apply list_elem_of_In, in_concat in Hin as (b' & Hb' & Hin).
    apply list_elem_of_In, list_elem_of_lookup in Hb' as (j & Hj).
    apply list_elem_of_In in Hin.
    exact (Hcross 0 (S j) b b' x ltac:(lia) eq_refl Hj Hx Hin).
  - apply IH.
    + intros i b' Hi. exact (Hblock (S i) b' Hi).
    + intros i j b1 b2 x Hij Hi Hj. exact (Hcross (S i) (S j) b1 b2 x ltac:(lia) Hi Hj).
Qed.

Lemma count_take_lt (ps : list Pipeline) i j p :
  i < j -> ps !! i = Some p ->
  count_occ string_dec (map name (take i ps)) (name p)
  < count_occ string_dec (map name (take j ps)) (name p).
Proof.
  intros Hij Hi.
  assert (Hsplit : take j ps = take i ps ++ p :: take (j - S i) (drop (S i) ps)).
  { rewrite <- (take_drop_middle ps i p Hi) at 1.
    apply lookup_lt_Some in Hi.
    rewrite take_app_ge by (rewrite length_take; lia).
    rewrite length_take, Nat.min_l by lia.
    replace (j - i) with (S (j - S i)) by lia. reflexivity. }
  rewrite Hsplit, map_app, count_occ_app. simpl.
  destruct (string_dec (name p) (name p)); [lia|congruence].
Qed.

Lemma name_index_lt_ne used1 used2 n :
  count_occ string_dec used1 n < count_occ string_dec used2 n ->
  name_index used1 n <> name_index used2 n.
Proof.
  unfold name_index. intros Hlt.
  destruct (Nat.ltb_spec 0 (count_occ string_dec used1 n)),
           (Nat.ltb_spec 0 (count_occ string_dec used2 n)); try congruence; try lia.
  intros [= Heq]. lia.
Qed.

Lemma map_new_key_NoDup subs earlier p :
  NoDup (keys (component_dict p)) ->
  NoDup (map (new_key subs earlier p) (keys (component_dict p))).
Proof.
  induction 1 as [|k ks Hk Hks IH]; simpl; constructor; [|exact IH].
  intros Hin. apply list_elem_of_In, in_map_iff in Hin as (k' & Heq & Hk').
  apply make_name_inj in Heq. subst k'. apply Hk. now apply list_elem_of_In.
Qed.

Lemma renamed_blocks_NoDup subs ps :
  Forall (fun p => NoDup (keys (component_dict p))) ps ->
  differently_named_separated subs ps ->
  NoDup (concat (renamed_blocks subs [] ps)).
Proof.
  intros Hkeys Hsep. apply NoDup_concat_pairwise.
  - intros i b Hi. unfold renamed_blocks in Hi. rewrite list_lookup_imap in Hi.
    destruct (ps !! i) as [p|] eqn:Hp; [|discriminate]. injection Hi as <-.
    apply map_new_key_NoDup. rewrite Forall_forall in Hkeys. apply Hkeys.
    eapply list_elem_of_lookup_2, Hp.
  - intros i j b b' x Hij Hi Hj Hx Hx'. unfold renamed_blocks in Hi, Hj.
    rewrite list_lookup_imap in Hi, Hj.
    destruct (ps !! i) as [p|] eqn:Hp; [|discriminate]. injection Hi as <-.
    destruct (ps !! j) as [q|] eqn:Hq; [|discriminate]. injection Hj as <-.
    simpl in Hx, Hx'.
    apply list_elem_of_In, in_map_iff in Hx as (k & <- & Hk).
    apply list_elem_of_In, in_map_iff in Hx' as (k' & Heq & Hk').
    apply list_elem_of_In in Hk, Hk'.
    destruct (string_dec (name p) (name q)) as [Hname|Hname].
    + unfold new_key in Heq. rewrite <- Hname in Heq.
      symmetry in Heq. apply make_name_idx_ne in Heq; [exact Heq|].
      apply name_index_lt_ne, count_take_lt; assumption.
    + symmetry in Heq. exact (Hsep i j p q k k' Hij Hp Hq Hname Hk Hk' Heq).
Qed.

Lemma renamed_blocks_length subs ps : forall earlier,
  length (concat (renamed_blocks subs earlier ps))
  = list_sum (map (fun p => length (component_dict p)) ps).
Proof.
  induction ps as [|p ps IH]; intros earlier; [reflexivity|].
  rewrite renamed_blocks_cons. cbn [concat map list_sum].
  rewrite length_app, IH. unfold keys. now rewrite !length_map.
Qed.

Lemma new_key_shape subs earlier p k :
  new_key subs earlier p k
  = (base_of (name p) (alias_of subs (name p)) ++ " Pipeline"
     ++ (if Nat.eqb (count_occ string_dec (map name earlier) (name p)) 0 then ""
         else " " ++ str_of_nat (count_occ string_dec (map name earlier) (name p) + 1))
     ++ " - " ++ k)%string.
Proof.
  unfold new_key. rewrite make_name_shape. unfold name_index, suffix_of.
  destruct (count_occ string_dec (map name earlier) (name p)); reflexivity.
Qed.

Lemma NoDup_app3_mid {A : Type} (a b c : list A) :
  NoDup (a ++ c) -> NoDup b -> (forall x, x ∈ a ++ c -> x ∉ b) -> NoDup (a ++ b ++ c).
Proof.
  intros Hac Hb Hdisj.
  apply NoDup_app in Hac as (Ha & Hac & Hc).
  apply NoDup_app. split; [exact Ha|]. split.
  - intros x Hx Hin. apply elem_of_app in Hin as [Hin|Hin].
    + apply (Hdisj x); [apply elem_of_app; now left | exact Hin].
    + exact (Hac x Hx Hin).
  - apply NoDup_app. split; [exact Hb|]. split; [|exact Hc].
    intros x Hx Hin. apply (Hdisj x); [apply elem_of_app; now right | exact Hx].
Qed.

Section Main.

Variable handle_component_class : string -> result ComponentClass.

(** C1 (amended): on a non-empty list of well-formed sub-pipelines, for a
    problem type the assembler has a pipeline class for, when no two nodes of
    differently named sub-pipelines are given the same key and the shared node
    names (pre-components, the label encoder of a classification problem,
    post-components, the final estimator) are distinct from each other and
    from the renamed keys, the multi-graph assembler arrives at the call of
    the pipeline class, which is all it still does, with a graph whose keys
    are the shared head, then the renamed keys of every node of every
    sub-pipeline in order, then the shared tail; they are pairwise distinct
    and as many as the inputs bring nodes.  Sub-pipelines that share a name,
    structurally identical ones included, never collide: the key of a node is
    the name (or alias), [" Pipeline"], for the occurrence number [n + 1] of a
    name seen [n > 0] times before the suffix [" "] and [n + 1] (so [" 2"],
    [" 3"], ...), [" - "] and the original node name. *)
Theorem merged_graph_keys_unique (h : Store) (ps : list Pipeline) (estimator : string)
    (pt : ProblemTypes) (parameters : option positive) (pipeline_name : option string)
    (subs : option (list (string * string)))
    (pre post : option (list (string * Node))) :
  ps <> [] ->
  pt <> MULTISERIES_TIME_SERIES_REGRESSION ->
  Forall (well_formed_pipeline handle_component_class subs) ps ->
  differently_named_separated subs ps ->
  NoDup (shared_head pt pre ++ shared_tail estimator post) ->
  (forall s, s ∈ shared_head pt pre ++ shared_tail estimator post ->
             s ∉ concat (renamed_blocks subs [] ps)) ->
  exists out h' graphs,
    assemble_multiple_graphs handle_component_class h ps estimator pt
      parameters pipeline_name subs pre post = Ok (out, h', graphs)
    /\ (forall (PipelineBase : Type)
               (pipeline_class_init : PipelineCall -> Store -> result (PipelineBase * Store)),
          _make_pipeline_from_multiple_graphs handle_component_class pipeline_class_init
            h ps estimator pt parameters pipeline_name subs pre post
          = pipeline_class_init out h')
    /\ keys (pipeline_graph out)
       = shared_head pt pre ++ concat (renamed_blocks subs [] ps)
         ++ shared_tail estimator post
    /\ NoDup (keys (pipeline_graph out))
    /\ length (pipeline_graph out) = total_nodes ps estimator pt pre post
    /\ (forall i p k, ps !! i = Some p -> k ∈ keys (component_dict p) ->
          let n := count_occ string_dec (map name (take i ps)) (name p) in
          new_key subs (take i ps) p k ∈ keys (pipeline_graph out)
          /\ new_key subs (take i ps) p k
             = (base_of (name p) (alias_of subs (name p)) ++ " Pipeline"
                ++ (if Nat.eqb n 0 then "" else " " ++ str_of_nat (n + 1))
                ++ " - " ++ k)%string).
Proof.
  intros Hne Hpt Hwf Hsep Hshared Hdisj.
  cut (exists out h' graphs,
    assemble_multiple_graphs handle_component_class h ps estimator pt
      parameters pipeline_name subs pre post = Ok (out, h', graphs)
    /\ keys (pipeline_graph out)
       = shared_head pt pre ++ concat (renamed_blocks subs [] ps)
         ++ shared_tail estimator post
    /\ NoDup (keys (pipeline_graph out))
    /\ length (pipeline_graph out) = total_nodes ps estimator pt pre post
    /\ (forall i p k, ps !! i = Some p -> k ∈ keys (component_dict p) ->
          let n := count_occ string_dec (map name (take i ps)) (name p) in
          new_key subs (take i ps) p k ∈ keys (pipeline_graph out)
          /\ new_key subs (take i ps) p k
             = (base_of (name p) (alias_of subs (name p)) ++ " Pipeline"
                ++ (if Nat.eqb n 0 then "" else " " ++ str_of_nat (n + 1))
                ++ " - " ++ k)%string)).
  { intros (out & h' & graphs & Hrun & Hrest). exists out, h', graphs.
    split; [exact Hrun|]. split; [|exact Hrest].
    intros PipelineBase pipeline_class_init.
    unfold _make_pipeline_from_multiple_graphs. rewrite Hrun. reflexivity. }
  assert (Hblocks : NoDup (concat (renamed_blocks subs [] ps))).
  { apply renamed_blocks_NoDup; [|exact Hsep].
    eapply Forall_impl; [exact Hwf|]. intros p Hp. apply Hp. }
  pose proof (NoDup_app3_mid _ _ _ Hshared Hblocks Hdisj) as Hall.
  unfold assemble_multiple_graphs.
  match goal with
  | |- context [let '(_, _) := ?alloc in _] => destruct alloc as [ref h1]
  end.
  set (g0 := if is_classification pt then dict_update (default [] pre) _ else _).
  assert (Hg0 : keys g0 = shared_head pt pre).
  { subst g0. unfold shared_head in *. destruct (is_classification pt).
    - rewrite dict_update_keys_fresh; [reflexivity|]. simpl.
      apply NoDup_app in Hall as (Hhead & _ & _). exact Hhead.
    - now rewrite app_nil_r. }
  destruct (add_pipelines_keys handle_component_class pt ref subs
              match List.rev (keys (default [] pre)) with
              | k :: _ => Some k
              | [] => None
              end ps [] (mkBuild g0 h1 [] [] None None))
    as (st & Hrun & Hkeys & Hfcs & Hy); try reflexivity; try assumption.
  { cbn [st_component_graph]. rewrite Hg0. rewrite app_assoc in Hall.
    apply NoDup_app in Hall as (Hall & _ & _). exact Hall. }
  { constructor. }
  cbn [st_component_graph] in Hkeys. rewrite Hg0 in Hkeys.
  rewrite Hrun. cbn [rbind].
  destruct (Hy (or_introl Hne)) as (fy & Hfy). rewrite Hfy. cbn [rbind].
  destruct (all_dot_x_ok _ Hfcs) as (xs & Hxs).
  set (final_y := default fy (st_final_y_candidate st)).
  assert (Hclass : exists c, multiple_graphs_pipeline_class pt = Ok c)
    by (destruct pt; simpl; eauto; congruence).
  destruct Hclass as (c & Hclass).
  (* the graph after the post-components *)
  assert (Hpost : exists g1 last caller_post,
    match post with
    | Some (((first_pre_estimator_component, _) :: _) as post) =>
        (xs <- all_dot_x (st_final_components st) ;;
         last <- last_item
                   (keys (dict_set post first_pre_estimator_component
                            (mkNode first_pre_estimator_component (xs ++ [final_y])))) ;;
         Ok (dict_update (st_component_graph st)
               (dict_set post first_pre_estimator_component
                  (mkNode first_pre_estimator_component (xs ++ [final_y]))),
             Some last,
             Some (dict_set post first_pre_estimator_component
                     (mkNode first_pre_estimator_component (xs ++ [final_y])))))%result
    | _ => Ok (st_component_graph st, None, post)
    end = Ok (g1, last, caller_post)
    /\ keys g1 = shared_head pt pre ++ concat (renamed_blocks subs [] ps)
                 ++ keys (default [] post)).
  { destruct post as [[|[first node] post]|]; cbn [default keys map app];
      try (eexists (st_component_graph st), None, _;
           split; [reflexivity|]; now rewrite Hkeys, app_nil_r).
    rewrite Hxs. cbn [rbind dict_set]. rewrite String.eqb_refl.
    assert (Hlast : exists last,
      last_item (keys ((first, mkNode first (xs ++ [final_y])) :: post)) = Ok last).
    { unfold last_item.
      destruct (List.rev (keys ((first, mkNode first (xs ++ [final_y])) :: post))) eqn:Hrev;
        [|eauto].
      apply (f_equal (@length string)) in Hrev. rewrite length_rev in Hrev.
      discriminate Hrev. }
    destruct Hlast as (last & ->). cbn [rbind].
    eexists _, _, _. split; [reflexivity|].
    rewrite dict_update_keys_fresh; rewrite Hkeys.
    - now rewrite <- app_assoc.
    - unfold shared_tail in Hall. cbn [default keys map fst] in Hall.
      rewrite !app_assoc in Hall. apply NoDup_app in Hall as (Hall & _ & _).
      rewrite <- !app_assoc in Hall. rewrite <- app_assoc. exact Hall. }
  destruct Hpost as (g1 & last & caller_post & Hpost & Hk1). cbv zeta.
  rewrite Hpost. cbn [rbind].
  assert (Hfresh : estimator ∉ keys g1).
  { rewrite Hk1. unfold shared_tail in Hall. rewrite !app_assoc in Hall.
    apply NoDup_app in Hall as (_ & Hd & _). intros Hin.
    rewrite !app_assoc in Hin. apply (Hd estimator Hin). left. }
  assert (Hest : exists g2,
    match last with
    | Some last =>
        if truthy last then
          Ok (dict_set g1 estimator (mkNode estimator [last ++ ".x"; last ++ ".y"]%string))
        else
          (xs <- all_dot_x (st_final_components st) ;;
           Ok (dict_set g1 estimator (mkNode estimator (xs ++ [final_y]))))%result
    | None =>
        (xs <- all_dot_x (st_final_components st) ;;
         Ok (dict_set g1 estimator (mkNode estimator (xs ++ [final_y]))))%result
    end = Ok g2
    /\ keys g2 = keys g1 ++ [estimator]).
  { destruct last as [last|]; [destruct (truthy last)|]; rewrite ?Hxs; cbn [rbind];
      eexists; (split; [reflexivity|]); now apply dict_set_keys_fresh. }
  destruct Hest as (g2 & Hest & Hk2). rewrite Hest. cbn [rbind].
  rewrite Hclass. cbn [rbind].
  eexists _, _, _. split; [reflexivity|]. cbn [pipeline_graph].
  assert (Hfinal : keys g2 = shared_head pt pre ++ concat (renamed_blocks subs [] ps)
                             ++ shared_tail estimator post).
  { rewrite Hk2, Hk1. unfold shared_tail. now rewrite <- !app_assoc. }
  split; [exact Hfinal|]. split; [rewrite Hfinal; exact Hall|]. split.
  - rewrite <- (length_map fst g2). fold (keys g2). rewrite Hfinal.
    rewrite !length_app, renamed_blocks_length. unfold total_nodes. lia.
  - intros i p k Hp Hk. cbv zeta. split; [|apply new_key_shape].
    rewrite Hfinal. apply elem_of_app. right. apply elem_of_app. left.
    apply list_elem_of_In, in_concat.
    exists (map (new_key subs (take i ps) p) (keys (component_dict p))). split.
    + apply list_elem_of_In. apply (list_elem_of_lookup_2 _ i).
      unfold renamed_blocks. rewrite list_lookup_imap, Hp. reflexivity.
    + apply in_map. now apply list_elem_of_In.
Qed.

End Main.

Example merge_identical_pipelines :
  match assemble_multiple_graphs example_registry example_store
          [example_pipeline "A"; example_pipeline "A"; example_pipeline "A"]
          "Random Forest Classifier" BINARY None None None None None with
  | Ok (out, _, _) =>
      keys (pipeline_graph out)
      = ["Label Encoder"; "A Pipeline - Imputer"; "A Pipeline - One Hot Encoder";
         "A Pipeline 2 - Imputer"; "A Pipeline 2 - One Hot Encoder";
         "A Pipeline 3 - Imputer"; "A Pipeline 3 - One Hot Encoder";
         "Random Forest Classifier"]
  | Raise _ => False
  end.
Proof. vm_compute. reflexivity. Qed.

Lemma example_pipeline_well_formed subs n :
  (exists alias, sub_pipeline_name_of subs n = Ok alias) ->
  well_formed_pipeline example_registry subs (example_pipeline n).
Proof.
  intros Halias. unfold well_formed_pipeline, example_pipeline. simpl.
  split; [discriminate|]. split.
  { apply (bool_decide_unpack _). vm_compute. exact I. }
  split; [exists "Imputer"; split; [reflexivity | discriminate]|].
  split; [eexists _, _; split; reflexivity|].
  split; [|exact Halias].
  intros entry Hentry.
  apply elem_of_cons in Hentry as [->|Hentry]; [eexists; reflexivity|].
  apply elem_of_cons in Hentry as [->|Hentry]; [eexists; reflexivity|].
  inversion Hentry.
Qed.

Lemma merged_graph_keys_unique_witness :
  exists out h' graphs,
    example_multiple_graphs_call = Ok (out, h', graphs)
    /\ keys (pipeline_graph out)
       = ["Label Encoder"; "A Pipeline - Imputer"; "A Pipeline - One Hot Encoder";
          "A Pipeline 2 - Imputer"; "A Pipeline 2 - One Hot Encoder";
          "Random Forest Classifier"]
    /\ NoDup (keys (pipeline_graph out))
    /\ length (pipeline_graph out) = 6.
Proof.
  destruct (merged_graph_keys_unique example_registry example_store
              [example_pipeline "A"; example_pipeline "A"] "Random Forest Classifier"
              BINARY (Some 1%positive) None None None None)
    as (out & h' & graphs & Hrun & _ & Hkeys & Hnodup & Hlen & _).
  - discriminate.
  - discriminate.
  - repeat (constructor; [apply example_pipeline_well_formed; simpl; eauto|]).
    constructor.
  - intros i j p q k k' Hij Hp Hq Hname.
    destruct i as [|[|i]], j as [|[|j]]; simpl in Hp, Hq; try discriminate; try lia;
      injection Hp as <-; injection Hq as <-; congruence.
  - apply (bool_decide_unpack _). vm_compute. exact I.
  - intros s Hs Hin. vm_compute in Hs, Hin.
    repeat (apply elem_of_cons in Hs as [->|Hs];
            [repeat (apply elem_of_cons in Hin as [Hin|Hin]; [discriminate Hin|]);
             inversion Hin|]).
    inversion Hs.
  - exists out, h', graphs. split; [exact Hrun|]. split; [exact Hkeys|].
    split; [exact Hnodup | exact Hlen].
Defined.

Lemma colliding_call_returns :
  match colliding_call with
  | Ok (out, _, _) =>
      pipeline_graph out
      = [("A Pipeline - B Pipeline - Imputer", mkNode "Imputer" ["X"; "y"]);
         ("A Pipeline - One Hot Encoder",
          mkNode "One Hot Encoder" ["A Pipeline - B Pipeline - Imputer.x"; "y"]);
         ("Random Forest Regressor",
          mkNode "Random Forest Regressor"
            ["A Pipeline - One Hot Encoder.x"; "A Pipeline - B Pipeline - Imputer.x"; "y"])]
  | Raise _ => False
  end.
Proof. vm_compute. reflexivity. Qed.

(** C1 as stated fails: the sub-pipeline named ["A"] with the nodes
    ["B Pipeline - Imputer"] and ["One Hot Encoder"], and the sub-pipeline
    named ["A Pipeline - B"] with the node ["Imputer"], are both given the key
    ["A Pipeline - B Pipeline - Imputer"].  The graph the assembler hands to
    the pipeline class of a regression problem has three keys where the
    inputs bring four nodes: the two imputers have become one. *)
Lemma colliding_names_counterexample :
  (exists out h' graphs,
      colliding_call = Ok (out, h', graphs)
      /\ keys (pipeline_graph out)
         = ["A Pipeline - B Pipeline - Imputer"; "A Pipeline - One Hot Encoder";
            "Random Forest Regressor"])
  /\ total_nodes [colliding_pipeline_1; colliding_pipeline_2] "Random Forest Regressor"
       REGRESSION None None = 4
  /\ new_key None [] colliding_pipeline_1 "B Pipeline - Imputer"
     = new_key None [colliding_pipeline_1] colliding_pipeline_2 "Imputer"
  /\ ~ keys_count_stated example_registry example_store
         [colliding_pipeline_1; colliding_pipeline_2] "Random Forest Regressor"
         REGRESSION None None None None None.
Proof.
  pose proof colliding_call_returns as Hret.
  split; [|split; [reflexivity|split; [reflexivity|]]].
  - destruct colliding_call as [[[out h'] graphs]|e]; [|contradiction].
    exists out, h', graphs. split; [reflexivity|]. now rewrite Hret.
  - intros (out & h' & graphs & Hrun & Hlen). fold colliding_call in Hrun.
    rewrite Hrun in Hret. rewrite Hret in Hlen. discriminate Hlen.
Qed.

End GraphProofs.


(** ** Multiseries stack and unstack *)

Module MultiseriesProofs.
Import Multiseries.

(** Lists: first occurrences and positions. *)

Section ListFacts.
Context {A : Type} `{EqDecision A}.

Lemma unique_In (l : list A) (x : A) : In x (unique l) <-> In x l.
Proof.
  induction l as [|a l IH]; simpl; [tauto|].
  rewrite filter_In, IH, negb_true_iff, bool_decide_eq_false.
  destruct (decide (a = x)) as [->|Hne]; [tauto|].
  split; [tauto|]. intros [Heq|Hin]; [tauto|]. right. split; [exact Hin|]. congruence.
Qed.

Lemma unique_NoDup (l : list A) : NoDup (unique l).
Proof.
  induction l as [|a l IH]; simpl; [constructor|].
  apply NoDup_cons. split.
  - rewrite list_elem_of_In, filter_In, negb_true_iff, bool_decide_eq_false. tauto.
  - apply NoDup_ListNoDup, List.NoDup_filter, NoDup_ListNoDup, IH.
Qed.

Lemma filter_all {B : Type} (p : B -> bool) (l : list B) :
  (forall x, In x l -> p x = true) -> List.filter p l = l.
Proof.
  induction l as [|a l IH]; simpl; intros Hp; [reflexivity|].
  rewrite (Hp a) by tauto. f_equal. apply IH. intros x Hx. apply Hp. tauto.
Qed.

Lemma filter_none {B : Type} (p : B -> bool) (l : list B) :
  (forall x, In x l -> p x = false) -> List.filter p l = [].
Proof.
  induction l as [|a l IH]; simpl; intros Hp; [reflexivity|].
  rewrite (Hp a) by tauto. apply IH. intros x Hx. apply Hp. tauto.
Qed.

Lemma unique_app (l l' : list A) :
  unique (l ++ l')
  = unique l ++ List.filter (fun y => negb (bool_decide (y ∈ l))) (unique l').
Proof.
  induction l as [|a l IH]; simpl.
  - symmetry. apply filter_all. intros x _. reflexivity.
  - f_equal. rewrite IH, List.filter_app. f_equal. clear IH.
    induction (unique l') as [|b u IHu]; simpl; [reflexivity|].
    destruct (decide (b ∈ l)) as [Hin|Hnin].
    + rewrite (bool_decide_eq_true_2 _ Hin). simpl.
      rewrite (bool_decide_eq_true_2 (b ∈ a :: l)) by (apply elem_of_cons; tauto).
      simpl. exact IHu.
    + rewrite (bool_decide_eq_false_2 _ Hnin). simpl.
      destruct (decide (b = a)) as [->|Hne].
      * rewrite (bool_decide_eq_true_2 (a = a)) by reflexivity. simpl.
        rewrite (bool_decide_eq_true_2 (a ∈ a :: l)) by (apply elem_of_cons; tauto).
        simpl. exact IHu.
      * rewrite (bool_decide_eq_false_2 (b = a)) by exact Hne. simpl.
        rewrite (bool_decide_eq_false_2 (b ∈ a :: l))
          by (rewrite elem_of_cons; tauto).
        simpl. f_equal. exact IHu.
Qed.

Lemma unique_id (l : list A) : NoDup l -> unique l = l.
Proof.
  induction 1 as [|a l Hnin Hnd IH]; simpl; [reflexivity|].
  rewrite IH. f_equal. apply filter_all. intros x Hx.
  apply negb_true_iff, bool_decide_eq_false. intros ->. apply Hnin.
  apply list_elem_of_In. exact Hx.
Qed.

Lemma unique_absorbs (l l' : list A) :
  NoDup l -> (forall x, In x l' -> In x l) -> unique (l ++ l') = l.
Proof.
  intros Hnd Hsub. rewrite unique_app, (unique_id l Hnd), filter_none.
  - apply app_nil_r.
  - intros x Hx. apply negb_false_iff, bool_decide_eq_true.
    apply list_elem_of_In, Hsub, unique_In, Hx.
Qed.

Lemma position_lt (x : A) (l : list A) : In x l -> position x l < length l.
Proof.
  induction l as [|a l IH]; simpl; [tauto|]. intros Hin.
  destruct (decide (a = x)) as [Heq|Hne].
  - rewrite (bool_decide_eq_true_2 _ Heq). lia.
  - rewrite (bool_decide_eq_false_2 _ Hne). apply -> Nat.succ_lt_mono. apply IH. tauto.
Qed.

Lemma nth_position (x d : A) (l : list A) : In x l -> nth (position x l) l d = x.
Proof.
  induction l as [|a l IH]; simpl; [tauto|]. intros Hin.
  destruct (decide (a = x)) as [Heq|Hne].
  - rewrite (bool_decide_eq_true_2 _ Heq). exact Heq.
  - rewrite (bool_decide_eq_false_2 _ Hne). apply IH. tauto.
Qed.

Lemma map_position_self (l : list A) :
  NoDup l -> map (fun x => position x l) l = seq 0 (length l).
Proof.
  induction 1 as [|a l Hnin Hnd IH]; simpl; [reflexivity|].
  rewrite (bool_decide_eq_true_2 (a = a)) by reflexivity. f_equal.
  rewrite <- seq_shift, <- IH, map_map. apply map_ext_in. intros x Hx.
  rewrite bool_decide_eq_false_2; [reflexivity|].
  intros ->. apply Hnin, list_elem_of_In, Hx.
Qed.

End ListFacts.

(** Rows of one series: boolean indexing and label lookup. *)

Lemma cell_eqb_decide (c s : Cell) : s <> NaN -> cell_eqb c s = bool_decide (c = s).
Proof.
  intros Hs. destruct c; simpl; [|reflexivity|reflexivity].
  symmetry. apply bool_decide_eq_false. congruence.
Qed.

Section Selection.
Variable s : Cell.
Hypothesis s_not_nan : s <> NaN.

Abbreviation mask_of S := (map (fun c => cell_eqb c s) S).

Lemma mask_select_In (S T : list Cell) (t : Cell) :
  length T = length S ->
  In t (mask_select (mask_of S) T) <-> In (s, t) (combine S T).
Proof.
  revert T. induction S as [|s0 S IH]; intros [|t0 T] Hlen; simpl in *; try tauto; try lia.
  rewrite (cell_eqb_decide _ _ s_not_nan).
  destruct (decide (s0 = s)) as [->|Hne].
  - rewrite (bool_decide_eq_true_2 _ eq_refl). simpl. rewrite IH by lia.
    split; (intros [Heq|Hin]; [left; congruence|right; exact Hin]).
  - rewrite (bool_decide_eq_false_2 _ Hne). rewrite IH by lia.
    split; [tauto|]. intros [Heq|Hin]; [congruence|exact Hin].
Qed.

Lemma mask_select_NoDup (S T : list Cell) :
  length T = length S -> NoDup (combine S T) -> NoDup (mask_select (mask_of S) T).
Proof.
  revert T. induction S as [|s0 S IH]; intros [|t0 T] Hlen; simpl in *;
    try (intros; constructor); try lia.
  rewrite NoDup_cons, list_elem_of_In. intros [Hnin Hnd].
  destruct (cell_eqb s0 s) eqn:Heq.
  - rewrite (cell_eqb_decide _ _ s_not_nan) in Heq. apply bool_decide_eq_true in Heq.
    subst s0. apply NoDup_cons. split.
    + rewrite list_elem_of_In, mask_select_In by lia. exact Hnin.
    + apply IH; [lia|exact Hnd].
  - apply IH; [lia|exact Hnd].
Qed.

Lemma mask_select_length (S T V : list Cell) :
  length T = length S -> length V = length S ->
  length (mask_select (mask_of S) T) = length (mask_select (mask_of S) V).
Proof.
  revert T V. induction S as [|s0 S IH]; intros [|t0 T] [|v0 V] HT HV; simpl in *;
    try reflexivity; try lia.
  destruct (cell_eqb s0 s); simpl; rewrite (IH T V) by lia; reflexivity.
Qed.

Lemma value_at_select (S T V : list Cell) (t : Cell) :
  length T = length S -> length V = length S ->
  value_at (mask_select (mask_of S) T) (mask_select (mask_of S) V) t
  = nth (position (s, t) (combine S T)) V NaN.
Proof.
  revert T V. induction S as [|s0 S IH]; intros [|t0 T] [|v0 V] HT HV; simpl in *;
    try reflexivity; try lia.
  rewrite (cell_eqb_decide _ _ s_not_nan).
  destruct (decide (s0 = s)) as [->|Hne].
  - rewrite (bool_decide_eq_true_2 _ eq_refl). simpl.
    destruct (decide (t0 = t)) as [->|Hnet].
    + rewrite !(bool_decide_eq_true_2 _ eq_refl). reflexivity.
    + rewrite (bool_decide_eq_false_2 _ Hnet).
      rewrite (bool_decide_eq_false_2 ((s, t0) = (s, t))) by congruence.
      apply IH; lia.
  - rewrite (bool_decide_eq_false_2 _ Hne).
    rewrite (bool_decide_eq_false_2 ((s0, t0) = (s, t))) by congruence.
    apply IH; lia.
Qed.

End Selection.

Lemma value_at_self (labels values : list Cell) :
  NoDup labels -> length labels = length values ->
  map (value_at labels values) labels = values.
Proof.
  intros Hnd. revert values.
  induction Hnd as [|l labels Hnin Hnd IH]; intros [|v values] Hlen; simpl in *;
    try reflexivity; try lia.
  rewrite (bool_decide_eq_true_2 _ eq_refl). f_equal.
  etrans; [|apply (IH values); lia]. apply map_ext_in. intros x Hx.
  rewrite bool_decide_eq_false_2; [reflexivity|].
  intros ->. apply Hnin, list_elem_of_In, Hx.
Qed.

(** [pd.concat] along the columns. *)

Lemma forallb_map_compose {A B : Type} (p : B -> bool) (f : A -> B) (l : list A) :
  forallb p (map f l) = forallb (fun x => p (f x)) l.
Proof. induction l as [|a l IH]; simpl; [reflexivity|]. rewrite IH. reflexivity. Qed.

Section Concat.
Variable union_order : list Cell -> list Cell.
Hypothesis union_order_perm : forall l, Permutation (union_order l) l.

Lemma concat_axis1_equal (labels : list Cell) (series : list Series) :
  series <> [] ->
  Forall (fun s => s_index s = labels) series ->
  concat_axis1 union_order series
  = Ok (mkFrame labels (map (fun s => (s_name s, s_values s)) series)).
Proof.
  intros Hne Hall. destruct series as [|first rest]; [congruence|].
  unfold concat_axis1.
  assert (Hfirst : s_index first = labels) by (inversion Hall; assumption).
  replace (forallb _ (first :: rest)) with true; [rewrite Hfirst; reflexivity|].
  symmetry. apply forallb_forall. intros s Hs. apply bool_decide_eq_true.
  rewrite List.Forall_forall in Hall. rewrite (Hall s Hs). congruence.
Qed.

Lemma concat_axis1_aligned (series : list Series) :
  series <> [] ->
  Forall (fun s => NoDup (s_index s) /\ length (s_index s) = length (s_values s)) series ->
  (forall s s' x, In s series -> In s' series -> In x (s_index s) -> In x (s_index s')) ->
  concat_axis1 union_order series
  = Ok (mkFrame (wide_labels union_order (map s_index series))
          (map (fun s => (s_name s,
                          map (value_at (s_index s) (s_values s))
                              (wide_labels union_order (map s_index series))))
               series)).
Proof.
  intros Hne Hall Hsame. destruct series as [|first rest]; [congruence|].
  rewrite List.Forall_forall in Hall.
  assert (Hw : forallb (fun i => bool_decide (i = s_index first))
                       (map s_index (first :: rest))
               = forallb (fun s => bool_decide (s_index s = s_index first)) (first :: rest))
    by apply forallb_map_compose.
  unfold concat_axis1, wide_labels. cbn [map] in Hw |- *. rewrite Hw.
  destruct (forallb _ (first :: rest)) eqn:Hequal.
  - f_equal. f_equal.
    apply (map_ext_in (fun s => (s_name s, s_values s))
             (fun s => (s_name s,
                        map (value_at (s_index s) (s_values s)) (s_index first)))
             (first :: rest)).
    intros s Hs. f_equal.
    rewrite forallb_forall in Hequal. specialize (Hequal s Hs).
    apply bool_decide_eq_true in Hequal. rewrite <- Hequal.
    symmetry. apply value_at_self; apply (Hall s Hs).
  - replace (existsb _ (first :: rest)) with false.
    + replace (unique (concat (map s_index (first :: rest)))) with (s_index first);
        [reflexivity|].
      symmetry. cbn [map concat]. apply unique_absorbs.
      * apply (Hall first). left. reflexivity.
      * intros x Hx. apply in_concat in Hx. destruct Hx as [labels [Hin Hx]].
        apply in_map_iff in Hin. destruct Hin as [s [<- Hs]].
        apply (Hsame s first); [right; exact Hs|left; reflexivity|exact Hx].
    + symmetry. apply not_true_is_false. intros Hex.
      apply existsb_exists in Hex. destruct Hex as [s [Hs Hdup]].
      unfold has_duplicates in Hdup. apply negb_true_iff, bool_decide_eq_false in Hdup.
      apply Hdup, (Hall s Hs).
Qed.

End Concat.

(** Wide column names: splitting at underscores. *)

Lemma split_underscore_nonempty (s : string) : split_underscore s <> [].
Proof.
  destruct s as [|c s]; simpl; [discriminate|].
  destruct (Ascii.eqb c "_"); [discriminate|].
  destruct (split_underscore s); discriminate.
Qed.

Lemma split_underscore_app (a b : string) :
  split_underscore (a ++ String "_" b) = split_underscore a ++ split_underscore b.
Proof.
  induction a as [|c a IH]; simpl; [reflexivity|].
  destruct (Ascii.eqb c "_"); [rewrite IH; reflexivity|].
  rewrite IH. destruct (split_underscore a) eqn:Hsplit; [|reflexivity].
  exfalso. exact (split_underscore_nonempty a Hsplit).
Qed.

Lemma split_underscore_plain (s : string) :
  has_underscore s = false -> split_underscore s = [s].
Proof.
  induction s as [|c s IH]; simpl; [reflexivity|].
  intros Hplain. apply orb_false_iff in Hplain. destruct Hplain as [Hc Hs].
  rewrite Hc, (IH Hs). reflexivity.
Qed.

Lemma join_split_underscore (s : string) : join_underscore (split_underscore s) = s.
Proof.
  induction s as [|c s IH]; simpl; [reflexivity|].
  destruct (Ascii.eqb c "_") eqn:Hc.
  - apply Ascii.eqb_eq in Hc. subst c.
    destruct (split_underscore s) eqn:Hsplit.
    + exfalso. exact (split_underscore_nonempty s Hsplit).
    + rewrite <- IH. reflexivity.
  - destruct (split_underscore s) as [|first others] eqn:Hsplit.
    + exfalso. exact (split_underscore_nonempty s Hsplit).
    + destruct others; rewrite <- IH; reflexivity.
Qed.

Lemma original_column_of_renamed (c sid : string) :
  has_underscore sid = false -> original_column_of (c ++ "_" ++ sid) = c.
Proof.
  intros Hplain. unfold original_column_of.
  change (c ++ "_" ++ sid)%string with (c ++ String "_" sid)%string.
  rewrite split_underscore_app, (split_underscore_plain sid Hplain), removelast_last.
  apply join_split_underscore.
Qed.

Lemma series_id_of_renamed (c sid : string) :
  has_underscore sid = false -> series_id_of (c ++ "_" ++ sid) = sid.
Proof.
  intros Hplain. unfold series_id_of.
  change (c ++ "_" ++ sid)%string with (c ++ String "_" sid)%string.
  rewrite split_underscore_app, (split_underscore_plain sid Hplain). apply last_last.
Qed.

Lemma prefix_app (c r : string) : String.prefix c (c ++ r) = true.
Proof.
  induction c as [|a c IH]; simpl; [destruct r; reflexivity|].
  destruct (ascii_dec a a); [exact IH|congruence].
Qed.

Lemma contains_renamed (c r : string) : contains c (c ++ r) = true.
Proof.
  unfold contains. assert (Hp := prefix_app c r).
  destruct (c ++ r)%string as [|b s].
  - destruct c; [reflexivity|discriminate].
  - cbn [String.index]. rewrite Hp. reflexivity.
Qed.

(** Columns by name, and flattening. *)

Lemma get_column_In (cols : list (string * list Cell)) (k : string) (v : list Cell) :
  get_column cols k = Ok v -> In (k, v) cols.
Proof.
  induction cols as [|[k0 v0] cols IH]; simpl; [discriminate|].
  destruct (String.eqb k k0) eqn:Hk.
  - apply String.eqb_eq in Hk. intros [= ->]. left. congruence.
  - intros Hget. right. exact (IH Hget).
Qed.

Lemma get_column_app (l r : list (string * list Cell)) (k : string) :
  get_column (l ++ r) k
  = match get_column l k with
    | Ok v => Ok v
    | Raise _ => get_column r k
    end.
Proof.
  induction l as [|[k0 v0] l IH]; simpl; [reflexivity|].
  destruct (String.eqb k k0); [reflexivity|exact IH].
Qed.

Lemma get_column_missing (cols : list (string * list Cell)) (k : string) :
  ~ In k (map fst cols) -> get_column cols k = Raise KeyError.
Proof.
  induction cols as [|[k0 v0] cols IH]; simpl; [reflexivity|]. intros Hnin.
  destruct (String.eqb k k0) eqn:Hk.
  - apply String.eqb_eq in Hk. subst k0. simpl in Hnin. tauto.
  - apply IH. tauto.
Qed.

Lemma get_column_found (cols : list (string * list Cell)) (k : string) (v : list Cell) :
  NoDup (map fst cols) -> In (k, v) cols -> get_column cols k = Ok v.
Proof.
  induction cols as [|[k0 v0] cols IH]; simpl; [tauto|].
  rewrite NoDup_cons, list_elem_of_In. intros [Hnin Hnd] [Heq|Hin].
  - injection Heq as -> ->. rewrite String.eqb_refl. reflexivity.
  - destruct (String.eqb k k0) eqn:Hk; [|exact (IH Hnd Hin)].
    apply String.eqb_eq in Hk. subst k0. exfalso. apply Hnin.
    apply in_map_iff. exists (k, v). split; [reflexivity|exact Hin].
Qed.

Lemma get_column_map (g : list Cell -> list Cell) (cols : list (string * list Cell))
    (k : string) :
  get_column (map (fun c => (fst c, g (snd c))) cols) k
  = match get_column cols k with
    | Ok v => Ok (g v)
    | Raise e => Raise e
    end.
Proof.
  induction cols as [|[k0 v0] cols IH]; simpl; [reflexivity|].
  destruct (String.eqb k k0); [reflexivity|exact IH].
Qed.

Lemma set_column_new (cols : list (string * list Cell)) (k : string) (v : list Cell) :
  ~ In k (map fst cols) -> set_column cols k v = cols ++ [(k, v)].
Proof.
  induction cols as [|[k0 v0] cols IH]; simpl; [reflexivity|]. intros Hnin.
  destruct (String.eqb k k0) eqn:Hk.
  - apply String.eqb_eq in Hk. subst k0. simpl in Hnin. tauto.
  - rewrite IH by tauto. reflexivity.
Qed.

Lemma flat_map_guard {A B : Type} (p : A -> bool) (f : A -> B) (l : list A) :
  flat_map (fun x => if p x then [] else [f x]) l
  = map f (List.filter (fun x => negb (p x)) l).
Proof.
  induction l as [|a l IH]; simpl; [reflexivity|].
  rewrite IH. destruct (p a); reflexivity.
Qed.

Lemma filter_flat_map {A B : Type} (p : B -> bool) (f : A -> list B) (l : list A) :
  List.filter p (flat_map f l) = flat_map (fun x => List.filter p (f x)) l.
Proof.
  induction l as [|a l IH]; simpl; [reflexivity|].
  rewrite List.filter_app, IH. reflexivity.
Qed.

Lemma map_flat_map {A B C : Type} (g : B -> C) (f : A -> list B) (l : list A) :
  map g (flat_map f l) = flat_map (fun x => map g (f x)) l.
Proof.
  induction l as [|a l IH]; simpl; [reflexivity|].
  rewrite map_app, IH. reflexivity.
Qed.

Lemma flat_map_ext_in {A B : Type} (f g : A -> list B) (l : list A) :
  (forall x, In x l -> f x = g x) -> flat_map f l = flat_map g l.
Proof.
  induction l as [|a l IH]; simpl; intros Hfg; [reflexivity|].
  rewrite (Hfg a) by tauto. f_equal. apply IH. intros x Hx. apply Hfg. tauto.
Qed.

Lemma flat_map_block_nonempty {A B C : Type} (g : A -> B -> C) (keys : list A)
    (feats : list B) :
  keys <> [] -> feats <> [] -> flat_map (fun k => map (g k) feats) keys <> [].
Proof.
  destruct keys as [|k keys]; [congruence|]. destruct feats as [|c feats]; [congruence|].
  discriminate.
Qed.

Lemma flat_map_singleton {A B : Type} (f : A -> B) (l : list A) :
  flat_map (fun x => [f x]) l = map f l.
Proof. induction l as [|a l IH]; simpl; [reflexivity|]. rewrite IH. reflexivity. Qed.

Lemma flat_map_shift {B : Type} (g : nat -> list B) (start len : nat) :
  flat_map g (seq (S start) len) = flat_map (fun j => g (S j)) (seq start len).
Proof.
  revert start. induction len as [|len IH]; intros start; simpl; [reflexivity|].
  rewrite IH. reflexivity.
Qed.

Lemma range_index_length (start : Z) (n : nat) : length (range_index start n) = n.
Proof. unfold range_index. rewrite length_map, length_seq. reflexivity. Qed.

Lemma range_index_numeric (start : Z) (n : nat) : is_numeric (range_index start n) = true.
Proof.
  unfold is_numeric, range_index. apply forallb_forall. intros c Hc.
  apply in_map_iff in Hc. destruct Hc as [i [<- _]]. reflexivity.
Qed.

(** The cells of a block of wide columns, row by row. *)
Lemma wide_block_rows {K : Type} (name : K -> string) (f : K -> Cell -> Cell)
    (keys : list K) (labels : list Cell) :
  flat_map (row_at (map (fun k => (name k, map (f k) labels)) keys))
           (seq 0 (length labels))
  = map (fun p => (name (snd p), f (snd p) (fst p))) (list_prod labels keys).
Proof.
  induction labels as [|t labels IH]; [reflexivity|].
  cbn [length seq flat_map list_prod]. rewrite map_app, flat_map_shift. f_equal.
  - unfold row_at. rewrite !map_map. reflexivity.
  - rewrite <- IH. apply flat_map_ext. intros j. unfold row_at. rewrite !map_map.
    reflexivity.
Qed.

Lemma filter_keys_NoDup {B : Type} (p : string * B -> bool) (l : list (string * B)) :
  NoDup (map fst l) -> NoDup (map fst (List.filter p l)).
Proof.
  induction l as [|a l IH]; simpl; [constructor|].
  rewrite NoDup_cons, list_elem_of_In. intros [Hnin Hnd].
  destruct (p a); [|exact (IH Hnd)].
  simpl. apply NoDup_cons. split; [|exact (IH Hnd)].
  rewrite list_elem_of_In. intros Hin. apply Hnin.
  apply in_map_iff in Hin. destruct Hin as [c [Hc Hin]].
  apply filter_In in Hin. apply in_map_iff. exists c. tauto.
Qed.

Lemma wide_labels_perm (union_order : list Cell -> list Cell) (first : list Cell)
    (rest : list (list Cell)) :
  (forall l, Permutation (union_order l) l) ->
  Permutation (wide_labels union_order (first :: rest)) first.
Proof.
  intros Hperm. unfold wide_labels.
  destruct (forallb _ (first :: rest)); [reflexivity|apply Hperm].
Qed.

Lemma grid_NoDup {A B : Type} (l : list A) (l' : list B) :
  NoDup l -> NoDup l' -> NoDup (map (fun p => (snd p, fst p)) (list_prod l l')).
Proof.
  intros Hl Hl'. induction Hl as [|a l Hnin Hnd IH]; [constructor|].
  cbn [list_prod]. rewrite map_app, map_map. apply NoDup_app. split; [|split].
  - apply NoDup_ListNoDup, Finite.Injective_map_NoDup_in.
    + intros x x' _ _ Heq. simpl in Heq. congruence.
    + apply NoDup_ListNoDup, Hl'.
  - intros x Hx Hx'. apply list_elem_of_In, in_map_iff in Hx. destruct Hx as [b [<- _]].
    apply list_elem_of_In, in_map_iff in Hx'. destruct Hx' as [[a' b'] [Heq Hin]].
    simpl in Heq. injection Heq as -> ->. apply in_prod_iff in Hin.
    apply Hnin, list_elem_of_In, Hin.
  - exact IH.
Qed.

Lemma forallb_constant_block {B K : Type} (p : list Cell -> bool) (f : K -> list Cell)
    (feats : list B) (keys : list K) :
  feats <> [] ->
  forallb p (flat_map (fun k => map (fun _ => f k) feats) keys) = forallb p (map f keys).
Proof.
  intros Hne. induction keys as [|k keys IH]; simpl; [reflexivity|].
  rewrite forallb_app, IH. f_equal.
  destruct feats as [|c feats]; [congruence|]. clear. simpl.
  induction feats as [|c' feats IH]; simpl; [apply andb_true_r|].
  rewrite IH. destruct (p (f k)); reflexivity.
Qed.

Lemma wide_labels_block {B K : Type} (union_order : list Cell -> list Cell)
    (f : K -> list Cell) (feats : list B) (keys : list K) :
  feats <> [] ->
  wide_labels union_order (flat_map (fun k => map (fun _ => f k) feats) keys)
  = wide_labels union_order (map f keys).
Proof.
  intros Hne. destruct keys as [|k keys]; [reflexivity|].
  assert (Hall := fun p => forallb_constant_block p f feats (k :: keys) Hne).
  destruct feats as [|c feats]; [congruence|].
  unfold wide_labels. cbn [flat_map map app] in *. rewrite Hall. reflexivity.
Qed.

Lemma start_index_range (n : nat) :
  n <> 0 -> start_index_of None (range_index 0 n) = Ok 0%Z.
Proof. destruct n as [|n]; [congruence|reflexivity]. Qed.

Lemma plain_id_str (s : Cell) :
  plain_id s -> has_underscore (str_of_cell s) = false /\ Str (str_of_cell s) = s.
Proof. destruct s; simpl; intros H; [tauto|tauto|split; [exact H|reflexivity]]. Qed.

Lemma filter_map_swap {A B : Type} (p : B -> bool) (g : A -> B) (l : list A) :
  List.filter p (map g l) = map g (List.filter (fun x => p (g x)) l).
Proof.
  induction l as [|a l IH]; simpl; [reflexivity|].
  rewrite IH. destruct (p (g a)); reflexivity.
Qed.

Lemma filter_single {B : Type} (q : B -> bool) (l : list B) (c : B) :
  NoDup l -> In c l -> (forall c', In c' l -> q c' = true <-> c' = c) ->
  List.filter q l = [c].
Proof.
  induction 1 as [|a l Hnin Hnd IH]; simpl; [tauto|]. intros Hin Hq.
  destruct (q a) eqn:Hqa.
  - assert (a = c) by (apply (Hq a); tauto). subst a. f_equal.
    apply filter_none. intros c' Hc'. apply not_true_is_false. intros Hqc'.
    apply (Hq c') in Hqc'; [|tauto]. subst c'. apply Hnin, list_elem_of_In, Hc'.
  - destruct Hin as [->|Hin].
    + assert (q c = true) by (apply (Hq c); tauto). congruence.
    + apply IH; [exact Hin|]. intros c' Hc'. apply Hq. tauto.
Qed.

Lemma keys_inj {B : Type} (l : list (string * B)) (c c' : string * B) :
  NoDup (map fst l) -> In c l -> In c' l -> fst c = fst c' -> c = c'.
Proof.
  induction l as [|a l IH]; simpl; [tauto|].
  rewrite NoDup_cons, list_elem_of_In. intros [Hnin Hnd] [->|Hc] [->|Hc'] Heq.
  - reflexivity.
  - exfalso. apply Hnin. rewrite Heq. apply in_map, Hc'.
  - exfalso. apply Hnin. rewrite <- Heq. apply in_map, Hc.
  - exact (IH Hnd Hc Hc' Heq).
Qed.

Lemma keys_NoDup {B : Type} (l : list (string * B)) : NoDup (map fst l) -> NoDup l.
Proof.
  induction l as [|a l IH]; simpl; [constructor|].
  rewrite !NoDup_cons, !list_elem_of_In. intros [Hnin Hnd]. split; [|exact (IH Hnd)].
  intros Hin. apply Hnin, in_map, Hin.
Qed.

Lemma series_of_frames_columns (frames : list DataFrame) :
  map (fun s => (s_name s, s_values s)) (flat_map series_of_frame frames)
  = flat_map columns frames.
Proof.
  rewrite map_flat_map. apply flat_map_ext. intros df. unfold series_of_frame.
  rewrite map_map. etrans; [|apply map_id]. apply map_ext. intros [k v]. reflexivity.
Qed.

Lemma series_of_frames_index (labels : list Cell) (frames : list DataFrame) :
  Forall (fun df => index df = labels) frames ->
  Forall (fun s => s_index s = labels) (flat_map series_of_frame frames).
Proof.
  intros Hall. rewrite List.Forall_forall in *. intros s Hs.
  apply in_flat_map in Hs. destruct Hs as [df [Hdf Hs]].
  unfold series_of_frame in Hs. apply in_map_iff in Hs. destruct Hs as [[k v] [<- _]].
  exact (Hall df Hdf).
Qed.

Lemma get_column_perm (l l' : list (string * list Cell)) (k : string) :
  NoDup (map fst l) -> Permutation l l' -> get_column l k = get_column l' k.
Proof.
  intros Hnd Hperm.
  assert (Hnd' : NoDup (map fst l')) by (rewrite <- Hperm; exact Hnd).
  destruct (in_dec string_dec k (map fst l)) as [Hin|Hnin].
  - apply in_map_iff in Hin. destruct Hin as [[k' v] [Hk Hin]]. simpl in Hk. subst k'.
    rewrite (get_column_found l k v Hnd Hin).
    symmetry. apply get_column_found; [exact Hnd'|].
    exact (Permutation_in _ Hperm Hin).
  - rewrite (get_column_missing l k Hnin). symmetry. apply get_column_missing.
    intros Hin. apply Hnin. rewrite Hperm. exact Hin.
Qed.

Lemma map_nth_all {A : Type} (l : list A) (d : A) :
  map (fun i => nth i l d) (seq 0 (length l)) = l.
Proof.
  induction l as [|a l IH]; simpl; [reflexivity|]. f_equal.
  rewrite <- seq_shift, map_map. exact IH.
Qed.

(** The round trip on a shared grid of times. *)

Lemma name_or_default_some (name : string) :
  name <> "" -> name_or_default (Some name) = name.
Proof. destruct name; [congruence|reflexivity]. Qed.

Section RoundTrip.

Variable union_order : list Cell -> list Cell.
Variable set_order : list string -> list string.
Hypothesis union_order_perm : forall l, Permutation (union_order l) l.
Hypothesis set_order_perm : forall l, Permutation (set_order l) l.

Variables (X : DataFrame) (y : Series) (series_id time_index target_name : string).
Variables (S T : list Cell).

Hypothesis Hlong : long_format X y series_id time_index target_name S T.
Hypothesis Hrows : index X <> [].
Hypothesis Hfeatures : feature_columns X series_id time_index <> [].
Hypothesis Hids : Forall plain_id S.
Hypothesis Hmissing : no_missing (columns X ++ [(s_name y, s_values y)]).
Hypothesis Hgrid : shared_time_grid S T.
Hypothesis Hunique : NoDup (combine S T).
Hypothesis Hseparated :
  names_separated (map fst (feature_columns X series_id time_index)) time_index S.
Hypothesis Hnamed : series_id <> "".

Abbreviation features := (feature_columns X series_id time_index).
Abbreviation sids := (unique S).
Abbreviation sel s V := (mask_select (map (fun c => cell_eqb c s) S) V).
Abbreviation times s := (sel s T).
Abbreviation L := (wide_labels union_order (map (fun s => times s) sids)).
Abbreviation P := (restacked_positions S T L sids).
Abbreviation col_at V := (map (fun i => nth i V NaN) P).

Lemma S_in : In (series_id, S) (columns X) /\ In (time_index, T) (columns X).
Proof. split; apply get_column_In; apply Hlong. Qed.

Lemma column_length (c : string * list Cell) :
  In c (columns X) -> length (snd c) = length (index X).
Proof.
  destruct Hlong as (_ & Hlen & _). rewrite List.Forall_forall in Hlen. apply Hlen.
Qed.

Lemma S_length : length S = length (index X) /\ length T = length (index X).
Proof. split; [apply (column_length (series_id, S))|apply (column_length (time_index, T))];
  apply S_in. Qed.

Lemma plain_id_not_nan (s : Cell) : plain_id s -> s <> NaN.
Proof. destruct s; simpl; intros H; [tauto|discriminate|discriminate]. Qed.

Lemma sids_spec (s : Cell) : In s sids <-> In s S.
Proof. apply unique_In. Qed.

Lemma sids_plain (s : Cell) : In s sids -> plain_id s.
Proof.
  intros Hs. apply sids_spec in Hs. rewrite List.Forall_forall in Hids. exact (Hids s Hs).
Qed.

Lemma some_row : exists s t, In (s, t) (combine S T).
Proof.
  destruct S_length as [HS HT].
  assert (Hlen : length (combine S T) = length (index X))
    by (rewrite length_combine; lia).
  destruct (combine S T) as [|[s t] rows].
  - destruct (index X); [congruence|discriminate].
  - exists s, t. left. reflexivity.
Qed.

Lemma sids_nonempty : sids <> [].
Proof.
  destruct some_row as (s & t & Hst). apply in_combine_l in Hst.
  apply sids_spec in Hst. intros Hnil. rewrite Hnil in Hst. destruct Hst.
Qed.

Lemma times_spec (s t : Cell) : In s sids -> In t (times s) <-> In (s, t) (combine S T).
Proof.
  intros Hs. apply mask_select_In.
  - apply plain_id_not_nan, sids_plain, Hs.
  - destruct S_length. congruence.
Qed.

Lemma grid (s s' t : Cell) :
  In (s, t) (combine S T) -> In s' S -> In (s', t) (combine S T).
Proof.
  intros Hst Hs'. unfold shared_time_grid in Hgrid.
  rewrite List.Forall_forall in Hgrid. specialize (Hgrid (s, t) Hst).
  rewrite List.Forall_forall in Hgrid. apply list_elem_of_In, (Hgrid s' Hs').
Qed.

Lemma times_NoDup (s : Cell) : In s sids -> NoDup (times s).
Proof.
  intros Hs. apply mask_select_NoDup.
  - apply plain_id_not_nan, sids_plain, Hs.
  - destruct S_length. congruence.
  - exact Hunique.
Qed.

Lemma labels_spec (s t : Cell) : In s sids -> In t L <-> In (s, t) (combine S T).
Proof.
  intros Hs. destruct sids as [|s1 rest] eqn:Hsids; [destruct Hs|].
  cbn [map].
  assert (Hs1 : In s1 sids) by (rewrite Hsids; left; reflexivity).
  rewrite <- Hsids in Hs.
  assert (Hperm := wide_labels_perm union_order (times s1) (map (fun s => times s) rest) union_order_perm).
  split.
  - intros Ht. apply (Permutation_in _ Hperm) in Ht. apply (times_spec s1 t Hs1) in Ht.
    apply (grid s1 s t Ht). apply sids_spec, Hs.
  - intros Hst. apply (Permutation_in _ (Permutation_sym Hperm)).
    apply (times_spec s1 t Hs1). apply (grid s s1 t Hst). apply sids_spec, Hs1.
Qed.

Lemma labels_NoDup : NoDup L.
Proof.
  destruct sids as [|s1 rest] eqn:Hsids; [constructor|]. cbn [map].
  rewrite (wide_labels_perm union_order (times s1) (map (fun s => times s) rest) union_order_perm).
  apply times_NoDup. rewrite Hsids. left. reflexivity.
Qed.

Lemma labels_nonempty : L <> [].
Proof.
  destruct some_row as (s & t & Hst).
  assert (Hs : In s sids) by (apply sids_spec; exact (in_combine_l _ _ _ _ Hst)).
  apply (labels_spec s t Hs) in Hst. intros HL. rewrite HL in Hst. destruct Hst.
Qed.

Lemma grid_spec (s t : Cell) :
  In (s, t) (map (fun p => (snd p, fst p)) (list_prod L sids)) <-> In (s, t) (combine S T).
Proof.
  rewrite in_map_iff. split.
  - intros [[t' s'] [Heq Hin]]. simpl in Heq. injection Heq as -> ->.
    apply in_prod_iff in Hin. destruct Hin as [Ht Hs]. apply (labels_spec s t Hs), Ht.
  - intros Hst. exists (t, s). split; [reflexivity|]. apply in_prod_iff.
    assert (Hs : In s sids) by (apply sids_spec; exact (in_combine_l _ _ _ _ Hst)).
    split; [apply (labels_spec s t Hs), Hst|exact Hs].
Qed.

Lemma grid_perm :
  Permutation (map (fun p => (snd p, fst p)) (list_prod L sids)) (combine S T).
Proof.
  apply NoDup_Permutation.
  - apply grid_NoDup; [apply labels_NoDup|apply unique_NoDup].
  - exact Hunique.
  - intros [s t]. rewrite !list_elem_of_In. apply grid_spec.
Qed.

Lemma positions_perm : Permutation P (seq 0 (length (index X))).
Proof.
  destruct S_length as [HS HT].
  replace (length (index X)) with (length (combine S T))
    by (rewrite length_combine; lia).
  rewrite <- (map_position_self (combine S T) Hunique).
  unfold restacked_positions.
  rewrite <- (Permutation_map (fun x => position x (combine S T)) grid_perm), map_map.
  reflexivity.
Qed.

Lemma positions_length : length P = length (index X).
Proof. rewrite (Permutation_length positions_perm). apply length_seq. Qed.

Lemma row_series (s t : Cell) :
  In (s, t) (combine S T) -> nth (position (s, t) (combine S T)) S NaN = s.
Proof.
  intros Hst. destruct S_length as [HS HT].
  assert (Hnth := nth_position (s, t) (NaN, NaN) (combine S T) Hst).
  rewrite combine_nth in Hnth by lia. congruence.
Qed.

Lemma row_time (s t : Cell) :
  In (s, t) (combine S T) -> nth (position (s, t) (combine S T)) T NaN = t.
Proof.
  intros Hst. destruct S_length as [HS HT].
  assert (Hnth := nth_position (s, t) (NaN, NaN) (combine S T) Hst).
  rewrite combine_nth in Hnth by lia. congruence.
Qed.

Lemma target_facts :
  s_name y = target_name
  /\ target_name <> series_id /\ target_name <> time_index
  /\ length (s_values y) = length (index X)
  /\ Forall (fun v => v <> NaN) (s_values y).
Proof.
  destruct Hlong as (_ & _ & Hy & Hname & Htarget & _).
  destruct S_in as [HS HT]. rewrite list_elem_of_In in Htarget.
  split; [exact Hname|]. split; [|split; [|split; [exact Hy|]]].
  - intros ->. apply Htarget. apply in_map_iff. exists (series_id, S). tauto.
  - intros ->. apply Htarget. apply in_map_iff. exists (time_index, T). tauto.
  - unfold no_missing in Hmissing. rewrite List.Forall_forall in Hmissing.
    apply (Hmissing (s_name y, s_values y)). apply in_or_app. right. left. reflexivity.
Qed.

Lemma feature_facts (c : string * list Cell) :
  In c features ->
  In c (columns X)
  /\ fst c <> time_index /\ fst c <> series_id /\ fst c <> target_name
  /\ length (snd c) = length (index X)
  /\ Forall (fun v => v <> NaN) (snd c).
Proof.
  intros Hc. apply filter_In in Hc. destruct Hc as [Hin Hid].
  apply negb_true_iff, orb_false_iff in Hid. destruct Hid as [Ht Hs].
  apply String.eqb_neq in Ht, Hs.
  destruct Hlong as (_ & _ & _ & _ & Htarget & _). rewrite list_elem_of_In in Htarget.
  split; [exact Hin|]. split; [exact Ht|]. split; [exact Hs|]. split; [|split].
  - intros Heq. apply Htarget. rewrite <- Heq. apply in_map. exact Hin.
  - apply column_length, Hin.
  - unfold no_missing in Hmissing. rewrite List.Forall_forall in Hmissing.
    apply (Hmissing c). apply in_or_app. left. exact Hin.
Qed.

Lemma features_NoDup : NoDup (map fst features).
Proof. apply filter_keys_NoDup. apply Hlong. Qed.

Abbreviation full := (columns X ++ [(s_name y, s_values y)]).
Abbreviation renamed name s := (String.append name (String.append "_" (str_of_cell s))).
Abbreviation wide V s :=
  (map (fun t => nth (position (s, t) (combine S T)) V NaN) L).
Abbreviation unstacked_column s c :=
  (fst c, mkSeries (renamed (fst c) s) (times s) (sel s (snd c))).

Lemma unstack_series_eq (s : Cell) :
  unstack_series full series_id time_index S T s
  = map (fun c => unstacked_column s c) (features ++ [(target_name, s_values y)]).
Proof.
  destruct target_facts as (Hname & Hns & Hnt & _).
  unfold unstack_series.
  rewrite (flat_map_ext _
             (fun c => if String.eqb (fst c) time_index || String.eqb (fst c) series_id
                       then [] else [unstacked_column s c]))
    by (intros [k v]; reflexivity).
  rewrite (flat_map_guard
             (fun c => String.eqb (fst c) time_index || String.eqb (fst c) series_id)).
  f_equal. rewrite List.filter_app. f_equal. simpl. rewrite Hname.
  apply String.eqb_neq in Hns, Hnt. rewrite Hns, Hnt. reflexivity.
Qed.

Lemma unstacked_target :
  map snd (List.filter (fun c => String.eqb (fst c) target_name)
             (flat_map (unstack_series full series_id time_index S T) sids))
  = map (fun s => mkSeries (renamed target_name s) (times s) (sel s (s_values y))) sids.
Proof.
  rewrite filter_flat_map, map_flat_map, <- flat_map_singleton.
  apply flat_map_ext. intros s. rewrite unstack_series_eq, map_app, List.filter_app.
  rewrite filter_none.
  - simpl. rewrite String.eqb_refl. reflexivity.
  - intros c' Hc'. apply in_map_iff in Hc'. destruct Hc' as [c [<- Hc]].
    apply String.eqb_neq. apply (feature_facts c Hc).
Qed.

Lemma unstacked_features :
  map snd (List.filter (fun c => negb (String.eqb (fst c) target_name))
             (flat_map (unstack_series full series_id time_index S T) sids))
  = flat_map (fun s => map (fun c => snd (unstacked_column s c)) features) sids.
Proof.
  rewrite filter_flat_map, map_flat_map.
  apply flat_map_ext. intros s. rewrite unstack_series_eq, map_app, List.filter_app.
  rewrite filter_all.
  - simpl. rewrite String.eqb_refl. simpl. rewrite app_nil_r, map_map. reflexivity.
  - intros c' Hc'. apply in_map_iff in Hc'. destruct Hc' as [c [<- Hc]].
    apply negb_true_iff, String.eqb_neq. apply (feature_facts c Hc).
Qed.

Lemma wide_values (s : Cell) (V : list Cell) :
  In s sids -> length V = length (index X) ->
  map (value_at (times s) (sel s V)) L = wide V s.
Proof.
  intros Hs HV. destruct S_length as [HS HT]. apply map_ext. intros t.
  apply value_at_select; [apply plain_id_not_nan, sids_plain, Hs|lia|lia].
Qed.

Lemma times_same (s s' : Cell) (t : Cell) :
  In s sids -> In s' sids -> In t (times s) -> In t (times s').
Proof.
  intros Hs Hs' Ht. apply (times_spec s' t Hs'). apply (times_spec s t Hs) in Ht.
  apply (grid s s' t Ht). apply sids_spec, Hs'.
Qed.

Lemma times_length (s : Cell) (V : list Cell) :
  length V = length (index X) -> length (times s) = length (sel s V).
Proof. intros HV. destruct S_length. apply mask_select_length; lia. Qed.

Abbreviation X_unstacked :=
  (mkFrame (range_index 0 (length L))
     ((time_index, L)
      :: flat_map (fun s => map (fun c => (renamed (fst c) s, wide (snd c) s)) features)
                  sids)).
Abbreviation y_unstacked :=
  (mkFrame (range_index 0 (length L))
     (map (fun s => (renamed target_name s, wide (s_values y) s)) sids)).

Lemma concat_target :
  concat_axis1 union_order
    (map (fun s => mkSeries (renamed target_name s) (times s) (sel s (s_values y))) sids)
  = Ok (mkFrame L (map (fun s => (renamed target_name s, wide (s_values y) s)) sids)).
Proof.
  destruct target_facts as (_ & _ & _ & HY & _).
  rewrite concat_axis1_aligned.
  - rewrite !map_map. cbn [s_index s_name s_values]. f_equal. f_equal.
    apply map_ext_in. intros s Hs. f_equal. apply wide_values; assumption.
  - intros Hnil. apply map_eq_nil in Hnil. exact (sids_nonempty Hnil).
  - apply List.Forall_forall. intros ser Hser. apply in_map_iff in Hser.
    destruct Hser as [s [<- Hs]]. cbn [s_index s_values]. split.
    + apply times_NoDup, Hs.
    + apply times_length, HY.
  - intros ser ser' t Hser Hser'. apply in_map_iff in Hser, Hser'.
    destruct Hser as [s [<- Hs]]. destruct Hser' as [s' [<- Hs']].
    cbn [s_index]. apply times_same; assumption.
Qed.

Lemma feature_series_in (ser : Series) :
  In ser (flat_map (fun s => map (fun c => snd (unstacked_column s c)) features) sids) ->
  exists s c, In s sids /\ In c features /\ ser = snd (unstacked_column s c).
Proof.
  intros Hser. apply in_flat_map in Hser. destruct Hser as [s [Hs Hser]].
  apply in_map_iff in Hser. destruct Hser as [c [<- Hc]]. exists s, c. tauto.
Qed.

Lemma concat_features :
  concat_axis1 union_order
    (flat_map (fun s => map (fun c => snd (unstacked_column s c)) features) sids)
  = Ok (mkFrame L
          (flat_map (fun s => map (fun c => (renamed (fst c) s, wide (snd c) s)) features)
                    sids)).
Proof.
  rewrite concat_axis1_aligned.
  - rewrite map_flat_map.
    rewrite (flat_map_ext _ (fun s => map (fun _ : string * list Cell => times s) features))
      by (intros s; rewrite map_map; reflexivity).
    rewrite (wide_labels_block union_order (fun s => times s) features sids Hfeatures).
    f_equal. f_equal. rewrite map_flat_map. apply flat_map_ext_in. intros s Hs.
    rewrite map_map. apply map_ext_in. intros c Hc. cbn [s_index s_name s_values snd].
    f_equal. apply wide_values; [exact Hs|apply (feature_facts c Hc)].
  - apply flat_map_block_nonempty; [exact sids_nonempty|exact Hfeatures].
  - apply List.Forall_forall. intros ser Hser.
    destruct (feature_series_in ser Hser) as (s & c & Hs & Hc & ->).
    cbn [s_index s_values snd]. split.
    + apply times_NoDup, Hs.
    + apply times_length, (feature_facts c Hc).
  - intros ser ser' t Hser Hser'.
    destruct (feature_series_in ser Hser) as (s & c & Hs & Hc & ->).
    destruct (feature_series_in ser' Hser') as (s' & c' & Hs' & Hc' & ->).
    cbn [s_index snd]. apply times_same; assumption.
Qed.

Lemma unstack_result_fresh :
  (forall c s, In c features -> In s sids -> renamed (fst c) s <> time_index) ->
  unstack_multiseries union_order X y series_id time_index target_name
  = Ok (X_unstacked, y_unstacked).
Proof.
  intros Hfresh.
  destruct target_facts as (_ & _ & _ & HY & _).
  destruct Hlong as (_ & _ & _ & _ & _ & HS & HT & _).
  unfold unstack_multiseries.
  rewrite HY, Nat.eqb_refl. cbn [negb].
  rewrite !get_column_app, HS, HT. cbn [rbind].
  destruct sids as [|s1 rest] eqn:Hsids; [exfalso; exact (sids_nonempty Hsids)|].
  rewrite <- Hsids. cbn [rbind].
  rewrite unstacked_target, unstacked_features, concat_target. cbn [rbind].
  destruct (flat_map _ sids) as [|ser others] eqn:Hcols.
  - exfalso. revert Hcols.
    apply flat_map_block_nonempty; [exact sids_nonempty|exact Hfeatures].
  - rewrite <- Hcols, concat_features. cbn [rbind index columns].
    unfold reset_index. cbn [index columns].
    rewrite bool_decide_eq_false_2; [reflexivity|].
    intros Hin. apply list_elem_of_In, in_map_iff in Hin.
    destruct Hin as [col [Hname Hcol]]. apply in_flat_map in Hcol.
    destruct Hcol as [s [Hs Hcol]]. apply in_map_iff in Hcol.
    destruct Hcol as [c [<- Hc]].
    apply (Hfresh c s Hc); [rewrite <- Hsids; exact Hs|exact Hname].
Qed.

Lemma grid_row (p : Cell * Cell) :
  In p (list_prod L sids) -> In (snd p) sids /\ In (snd p, fst p) (combine S T).
Proof.
  destruct p as [t s]. intros Hp. apply in_prod_iff in Hp. destruct Hp as [Ht Hs].
  split; [exact Hs|]. apply (labels_spec s t Hs), Ht.
Qed.

Lemma stack_block (name : string) (V : list Cell) :
  length V = length (index X) -> Forall (fun v => v <> NaN) V ->
  stack (mkFrame (range_index 0 (length L))
           (map (fun s => (renamed name s, wide V s)) sids))
  = map (fun p => (renamed name (snd p),
                   nth (position (snd p, fst p) (combine S T)) V NaN))
        (list_prod L sids).
Proof.
  intros HV Hnan. destruct S_length as [HS HT].
  unfold stack. cbn [index columns]. rewrite range_index_length.
  rewrite (wide_block_rows (fun s => renamed name s)
             (fun s t => nth (position (s, t) (combine S T)) V NaN)).
  apply filter_all. intros entry Hentry. apply in_map_iff in Hentry.
  destruct Hentry as [p [<- Hp]]. cbn [snd]. destruct (grid_row p Hp) as [_ Hst].
  apply position_lt in Hst. rewrite length_combine in Hst.
  rewrite List.Forall_forall in Hnan.
  assert (Hv : nth (position (snd p, fst p) (combine S T)) V NaN <> NaN)
    by (apply Hnan, nth_In; lia).
  destruct (nth _ V NaN); [congruence|reflexivity|reflexivity].
Qed.

Lemma id_column (name : string) :
  map (fun col_name => Str (series_id_of col_name))
      (map (fun p : Cell * Cell => renamed name (snd p)) (list_prod L sids))
  = col_at S.
Proof.
  unfold restacked_positions. rewrite !map_map. apply map_ext_in. intros p Hp.
  destruct (grid_row p Hp) as [Hs Hst].
  destruct (plain_id_str (snd p) (sids_plain _ Hs)) as [Hplain Hstr].
  rewrite (series_id_of_renamed name _ Hplain), Hstr. symmetry. apply row_series, Hst.
Qed.

Lemma stack_data_block (name : string) (V : list Cell) (include_series_id : bool)
    (series_id_name : option string) :
  length V = length (index X) -> Forall (fun v => v <> NaN) V ->
  stack_data (mkFrame (range_index 0 (length L))
                (map (fun s => (renamed name s, wide V s)) sids))
             include_series_id series_id_name None
  = Ok (mkFrame (range_index 0 (length P))
          (if include_series_id
           then [(name_or_default series_id_name, col_at S); (name, col_at V)]
           else [(name, col_at V)])).
Proof.
  intros HV Hnan. unfold stack_data. rewrite (stack_block name V HV Hnan).
  rewrite !map_map. cbn [fst snd index columns].
  assert (Hfirst : exists p, In p (list_prod L sids)
            /\ match map (fun x : Cell * Cell => renamed name (snd x)) (list_prod L sids) with
               | [] => Raise IndexError
               | first :: _ => Ok first
               end = Ok (renamed name (snd p))).
  { destruct (list_prod L sids) as [|p others] eqn:Hprod.
    - exfalso. assert (Hlen := length_prod L sids). rewrite Hprod in Hlen.
      assert (HL := labels_nonempty). assert (Hs := sids_nonempty).
      destruct L; [congruence|]. destruct sids; [congruence|]. discriminate.
    - exists p. split; [left; reflexivity|reflexivity]. }
  destruct Hfirst as (p & Hp & ->). cbn [rbind].
  destruct (grid_row p Hp) as [Hs _].
  destruct (plain_id_str (snd p) (sids_plain _ Hs)) as [Hplain _].
  rewrite (original_column_of_renamed name _ Hplain).
    rewrite range_index_numeric. cbn [negb andb].
    rewrite start_index_range
      by (intros H0; apply length_zero_iff_nil in H0; exact (labels_nonempty H0)).
    cbn [rbind]. rewrite range_index_length, !length_map, Nat.eqb_refl. cbn [negb].
    replace (length P) with (length (list_prod L sids))
      by (unfold restacked_positions; rewrite length_map; reflexivity).
  rewrite <- (id_column name). unfold restacked_positions. rewrite !map_map.
  destruct include_series_id; reflexivity.
Qed.

Lemma stack_target :
  stack_data y_unstacked false None None
  = Ok (mkFrame (range_index 0 (length P)) [(target_name, col_at (s_values y))]).
Proof.
  destruct target_facts as (_ & _ & _ & HY & Hnan).
  exact (stack_data_block target_name (s_values y) false None HY Hnan).
Qed.

Lemma separated_time (c : string * list Cell) :
  In c features -> contains (fst c) time_index = false.
Proof.
  intros Hc. unfold names_separated in Hseparated.
  rewrite List.Forall_forall in Hseparated.
  apply (Hseparated (fst c)). apply in_map, Hc.
Qed.

Lemma separated (c c' : string * list Cell) (s : Cell) :
  In c features -> In c' features -> In s sids ->
  contains (fst c) (renamed (fst c') s) = true -> c = c'.
Proof.
  intros Hc Hc' Hs Hsub. unfold names_separated in Hseparated.
  rewrite List.Forall_forall in Hseparated.
  destruct (Hseparated (fst c) (in_map fst _ _ Hc)) as [_ Hall].
  rewrite List.Forall_forall in Hall. specialize (Hall (fst c') (in_map fst _ _ Hc')).
  rewrite List.Forall_forall in Hall. apply sids_spec in Hs.
  apply (keys_inj features c c' features_NoDup Hc Hc'). exact (Hall s Hs Hsub).
Qed.

Lemma renamed_not_time_index (c : string * list Cell) (s : Cell) :
  In c features -> renamed (fst c) s <> time_index.
Proof.
  intros Hc Heq. assert (Hsub := contains_renamed (fst c) ("_" ++ str_of_cell s)).
  change (contains (fst c) (renamed (fst c) s) = true) in Hsub.
  rewrite Heq, (separated_time c Hc) in Hsub. discriminate.
Qed.

Lemma unstack_result :
  unstack_multiseries union_order X y series_id time_index target_name
  = Ok (X_unstacked, y_unstacked).
Proof.
  apply unstack_result_fresh. intros c s Hc _. exact (renamed_not_time_index c s Hc).
Qed.

Lemma subset_block (c : string * list Cell) :
  In c features ->
  List.filter (fun col => contains (fst c) (fst col)) (columns X_unstacked)
  = map (fun s => (renamed (fst c) s, wide (snd c) s)) sids.
Proof.
  intros Hc. cbn [columns List.filter fst]. rewrite (separated_time c Hc).
  rewrite filter_flat_map. etrans; [|apply flat_map_singleton].
  apply flat_map_ext_in. intros s Hs.
  rewrite filter_map_swap. cbn [fst].
  rewrite (filter_single _ features c); [reflexivity| | |].
  - apply keys_NoDup, features_NoDup.
  - exact Hc.
  - intros c' Hc'. split.
    + intros Hsub. symmetry. exact (separated c c' s Hc Hc' Hs Hsub).
    + intros ->. apply (contains_renamed (fst c) ("_" ++ str_of_cell s)).
Qed.

Abbreviation stacked_frame flag c :=
  (mkFrame (range_index 0 (length P))
     (if flag then [(series_id, col_at S); (fst c, col_at (snd c))]
      else [(fst c, col_at (snd c))])).

Lemma restack_one (flag : bool) (c : string * list Cell) :
  In c features ->
  stack_data (mkFrame (index X_unstacked)
                (List.filter (fun col => contains (fst c) (fst col)) (columns X_unstacked)))
             flag (Some series_id) None
  = Ok (stacked_frame flag c).
Proof.
  intros Hc. rewrite (subset_block c Hc). cbn [index].
  rewrite (stack_data_block (fst c) (snd c) flag (Some series_id))
    by apply (feature_facts c Hc).
  rewrite (name_or_default_some series_id Hnamed). reflexivity.
Qed.

Lemma restack_rest (feats : list (string * list Cell)) :
  (forall c, In c feats -> In c features) ->
  restack_columns X_unstacked series_id None false (map fst feats)
  = Ok (map (fun c => stacked_frame false c) feats).
Proof.
  induction feats as [|c feats IH]; intros Hsub; [reflexivity|].
  cbn [map restack_columns].
  rewrite (restack_one false c) by (apply Hsub; left; reflexivity). cbn [rbind].
  rewrite IH by (intros c' Hc'; apply Hsub; right; exact Hc'). reflexivity.
Qed.

Lemma restack_all (c : string * list Cell) (feats : list (string * list Cell)) :
  (forall c', In c' (c :: feats) -> In c' features) ->
  restack_columns X_unstacked series_id None true (map fst (c :: feats))
  = Ok (stacked_frame true c :: map (fun c' => stacked_frame false c') feats).
Proof.
  intros Hsub. cbn [map restack_columns].
  rewrite (restack_one true c) by (apply Hsub; left; reflexivity). cbn [rbind].
  rewrite restack_rest by (intros c' Hc'; apply Hsub; right; exact Hc'). reflexivity.
Qed.

Abbreviation wide_names :=
  (flat_map (fun s => map (fun c : string * list Cell => renamed (fst c) s) features) sids).

Lemma wide_names_eq :
  List.filter (fun col => negb (String.eqb col time_index))
              (map fst (columns X_unstacked))
  = wide_names.
Proof.
  cbn [columns map fst List.filter]. rewrite String.eqb_refl. cbn [negb].
  rewrite map_flat_map.
  rewrite (flat_map_ext _ (fun s => map (fun c : string * list Cell => renamed (fst c) s)
                                        features))
    by (intros s; rewrite map_map; reflexivity).
  apply filter_all. intros name Hname. apply in_flat_map in Hname.
  destruct Hname as [s [Hs Hname]]. apply in_map_iff in Hname.
  destruct Hname as [c [<- Hc]]. apply negb_true_iff, String.eqb_neq.
  apply renamed_not_time_index, Hc.
Qed.

Lemma wide_name_in (name : string) :
  In name wide_names <-> exists s c, In s sids /\ In c features /\ name = renamed (fst c) s.
Proof.
  rewrite in_flat_map. split.
  - intros [s [Hs Hname]]. apply in_map_iff in Hname. destruct Hname as [c [<- Hc]].
    exists s, c. tauto.
  - intros (s & c & Hs & Hc & ->). exists s. split; [exact Hs|].
    apply in_map_iff. exists c. tauto.
Qed.

Lemma some_sid : exists s, In s sids.
Proof.
  destruct some_row as (s & t & Hst). exists s.
  apply sids_spec. exact (in_combine_l _ _ _ _ Hst).
Qed.

Lemma some_feature : exists c, In c features.
Proof.
  destruct features as [|c feats] eqn:Hfeats; [exfalso; apply Hfeatures; reflexivity|].
  exists c. left. reflexivity.
Qed.

Lemma original_columns_perm :
  Permutation (set_order (unique (map original_column_of wide_names)))
              (map fst features).
Proof.
  rewrite set_order_perm. apply NoDup_Permutation.
  - apply unique_NoDup.
  - apply features_NoDup.
  - intros name. rewrite !list_elem_of_In, unique_In, !in_map_iff. split.
    + intros [wide_name [<- Hin]]. apply wide_name_in in Hin.
      destruct Hin as (s & c & Hs & Hc & ->). exists c. split; [|exact Hc].
      symmetry. apply original_column_of_renamed.
      apply (plain_id_str s (sids_plain s Hs)).
    + intros [c [<- Hc]]. destruct some_sid as [s Hs].
      exists (renamed (fst c) s). split.
      * apply original_column_of_renamed. apply (plain_id_str s (sids_plain s Hs)).
      * apply wide_name_in. exists s, c. tauto.
Qed.

Lemma series_ids_length :
  length (unique (map series_id_of wide_names)) = length sids.
Proof.
  rewrite <- (length_map str_of_cell sids). apply Permutation_length.
  apply NoDup_Permutation.
  - apply unique_NoDup.
  - apply NoDup_ListNoDup, Finite.Injective_map_NoDup_in.
    + intros s s' Hs Hs' Heq.
      destruct (plain_id_str s (sids_plain s Hs)) as [_ <-].
      destruct (plain_id_str s' (sids_plain s' Hs')) as [_ <-]. congruence.
    + apply NoDup_ListNoDup, unique_NoDup.
  - intros id. rewrite !list_elem_of_In, unique_In, !in_map_iff. split.
    + intros [wide_name [<- Hin]]. apply wide_name_in in Hin.
      destruct Hin as (s & c & Hs & Hc & ->). exists s. split; [|exact Hs].
      symmetry. apply series_id_of_renamed. apply (plain_id_str s (sids_plain s Hs)).
    + intros [s [<- Hs]]. destruct some_feature as [c Hc].
      exists (renamed (fst c) s). split.
      * apply series_id_of_renamed. apply (plain_id_str s (sids_plain s Hs)).
      * apply wide_name_in. exists s, c. tauto.
Qed.

Lemma time_column : repeat_each (length sids) L = col_at T.
Proof.
  unfold repeat_each, restacked_positions. rewrite <- fst_list_prod, map_map.
  apply map_ext_in. intros p Hp. destruct (grid_row p Hp) as [_ Hst].
  symmetry. apply row_time, Hst.
Qed.

Lemma stack_X_result :
  exists feats,
    Permutation features feats
    /\ stack_X union_order set_order X_unstacked series_id time_index None None
       = Ok (mkFrame (range_index 0 (length P))
               (((series_id, col_at S) :: map (fun c => (fst c, col_at (snd c))) feats)
                ++ [(time_index, col_at T)])).
Proof.
  destruct (Permutation_map_inv fst features original_columns_perm)
    as (feats & Horiginal & Hperm).
  exists feats. split; [exact Hperm|].
  assert (Hsub : forall c, In c feats -> In c features)
    by (intros c Hc; exact (Permutation_in c (Permutation_sym Hperm) Hc)).
  unfold stack_X. rewrite wide_names_eq, Horiginal, series_ids_length.
  destruct (length sids =? 0) eqn:Hsids.
  { apply Nat.eqb_eq, length_zero_iff_nil in Hsids. exfalso. exact (sids_nonempty Hsids). }
  replace (get_column (columns X_unstacked) time_index) with (Ok L)
    by (cbn [columns get_column]; rewrite String.eqb_refl; reflexivity).
  cbn [rbind]. rewrite time_column.
  destruct feats as [|c feats].
  { exfalso. apply Permutation_sym, Permutation_nil in Hperm. exact (Hfeatures Hperm). }
  replace (length (map fst (c :: feats)) =? 0) with false by reflexivity.
  rewrite (restack_all c feats Hsub). cbn [rbind].
  rewrite (concat_axis1_equal union_order (range_index 0 (length P))).
  - cbn [rbind index columns].
    rewrite range_index_length, length_map, Nat.eqb_refl. cbn [negb].
    rewrite series_of_frames_columns. cbn [flat_map columns app].
    replace (flat_map columns (map (fun c' => stacked_frame false c') feats))
      with (map (fun c' : string * list Cell => (fst c', col_at (snd c'))) feats)
      by (clear; induction feats as [|c' feats IH]; simpl; [reflexivity|];
          rewrite IH; reflexivity).
    change ((series_id, col_at S) :: (fst c, col_at (snd c))
            :: map (fun c' : string * list Cell => (fst c', col_at (snd c'))) feats)
      with ((series_id, col_at S)
            :: map (fun c' : string * list Cell => (fst c', col_at (snd c'))) (c :: feats)).
    rewrite set_column_new; [reflexivity|].
    cbn [map fst]. rewrite map_map. cbn [fst]. intros [Heq|Hin].
    + destruct Hlong as (_ & _ & _ & _ & _ & _ & _ & Hne). exact (Hne Heq).
    + change (In time_index (map fst (c :: feats))) in Hin. apply in_map_iff in Hin. destruct Hin as [c' [Heq Hc']].
      destruct (feature_facts c' (Hsub c' Hc')) as (_ & Hne & _). exact (Hne Heq).
  - discriminate.
  - apply series_of_frames_index. constructor; [reflexivity|].
    apply List.Forall_forall. intros df Hdf. apply in_map_iff in Hdf.
    destruct Hdf as [c' [<- _]]. reflexivity.
Qed.

Lemma columns_perm (feats : list (string * list Cell)) :
  Permutation features feats ->
  Permutation ((series_id, S) :: feats ++ [(time_index, T)]) (columns X).
Proof.
  intros Hperm. rewrite <- Hperm. clear feats Hperm.
  destruct S_in as [HS HT].
  assert (Hkeys : NoDup (map fst (columns X))) by apply Hlong.
  assert (Hne : series_id <> time_index) by apply Hlong.
  apply NoDup_Permutation.
  - apply NoDup_cons. split.
    + rewrite list_elem_of_In, in_app_iff. intros [Hin|[Heq|[]]].
      * destruct (feature_facts _ Hin) as (_ & _ & Hs & _). apply Hs. reflexivity.
      * congruence.
    + apply NoDup_app. split; [apply keys_NoDup, features_NoDup|]. split.
      * intros c Hc Hc'. apply list_elem_of_In in Hc, Hc'. destruct Hc' as [<-|[]].
        destruct (feature_facts _ Hc) as (_ & Ht & _). apply Ht. reflexivity.
      * apply NoDup_singleton.
  - apply keys_NoDup, Hkeys.
  - intros c. rewrite !list_elem_of_In. cbn [In]. rewrite in_app_iff. cbn [In]. split.
    + intros [<-|[Hin|[<-|[]]]]; [exact HS| |exact HT]. apply (feature_facts c Hin).
    + intros Hin.
      destruct (string_dec (fst c) series_id) as [Hs|Hs];
        [left; symmetry; apply (keys_inj (columns X) c (series_id, S) Hkeys Hin HS Hs)|].
      destruct (string_dec (fst c) time_index) as [Ht|Ht];
        [right; right; left; symmetry;
         apply (keys_inj (columns X) c (time_index, T) Hkeys Hin HT Ht)|].
      right. left. apply filter_In. split; [exact Hin|].
      apply negb_true_iff, orb_false_iff. split; apply String.eqb_neq; assumption.
Qed.

Lemma stacked_cell (feats : list (string * list Cell)) (name : string) (i : nat) :
  Permutation features feats -> i < length P ->
  nth i (column_or_nan
           ((((series_id, col_at S) :: map (fun c => (fst c, col_at (snd c))) feats)
             ++ [(time_index, col_at T)]) ++ [(target_name, col_at (s_values y))])
           name) NaN
  = nth (nth i P 0) (column_or_nan full name) NaN.
Proof.
  intros Hperm Hi. destruct target_facts as (Hname & _).
  assert (Hkeys : NoDup (map fst full)).
  { rewrite map_app. apply NoDup_app. split; [apply Hlong|]. split.
    - intros k Hk Hk'. apply list_elem_of_In in Hk'. destruct Hk' as [<-|[]].
      cbn [fst] in Hk. rewrite Hname in Hk.
      destruct Hlong as (_ & _ & _ & _ & Htarget & _). exact (Htarget Hk).
    - apply NoDup_singleton. }
  replace ((((series_id, col_at S) :: map (fun c => (fst c, col_at (snd c))) feats)
            ++ [(time_index, col_at T)]) ++ [(target_name, col_at (s_values y))])
    with (map (fun c : string * list Cell => (fst c, col_at (snd c)))
              (((series_id, S) :: feats ++ [(time_index, T)])
               ++ [(s_name y, s_values y)]))
    by (rewrite Hname, map_app; cbn [map]; rewrite map_app; reflexivity).
  unfold column_or_nan. rewrite (get_column_map (fun V => col_at V)).
  rewrite <- (get_column_perm full _ name Hkeys)
    by (apply Permutation_app_tail, Permutation_sym, columns_perm, Hperm).
  destruct (get_column full name) as [V|e].
  - rewrite (nth_indep _ NaN (nth 0 V NaN)) by (rewrite length_map; exact Hi).
    apply (map_nth (fun j => nth j V NaN)).
  - destruct i, (nth _ P 0); reflexivity.
Qed.

Lemma round_trip_on_grid :
  round_trip union_order set_order X y series_id time_index target_name.
Proof.
  destruct stack_X_result as (feats & Hperm & HX).
  unfold round_trip.
  eexists _, _, _, _.
  split; [exact unstack_result|]. split; [exact HX|]. split; [exact stack_target|].
  cbn [index columns]. split; [reflexivity|].
  split; [rewrite range_index_length; exact positions_length|].
  split.
  { rewrite <- (Permutation_map fst (columns_perm feats Hperm)).
    cbn [map fst]. rewrite !map_app. cbn [map fst]. rewrite map_map. reflexivity. }
  split; [reflexivity|].
  unfold rows_of.
  set (row := fun j => map (fun name => nth j (column_or_nan full name) NaN)
                           (map fst (columns X) ++ [target_name])).
  match goal with
  | |- Permutation ?rows _ => assert (Heq : rows = map row P)
  end.
  { etrans; [|apply f_equal, (map_nth_all P 0)].
    rewrite map_map, positions_length.
    apply map_ext_in. intros i Hi. apply in_seq in Hi. apply map_ext. intros name.
    apply (stacked_cell feats name i Hperm). rewrite positions_length. lia. }
  rewrite Heq. exact (Permutation_map row positions_perm).
Qed.

End RoundTrip.

(** C2 (amended): on a long table whose series share one grid of times, with
    one row per series and time, series ids that are strings free of
    underscores, no missing value, at least one row and one feature column,
    feature names that occur in no other wide column name nor in the time
    index name, and a series id column whose name is not the empty string,
    [unstack_multiseries] followed by [stack_X] and [stack_data] returns, and
    the stacked frames hold the rows of [(X, y)] in some order, under the
    original column names. *)
Theorem unstack_stack_round_trip
    (union_order : list Cell -> list Cell) (set_order : list string -> list string)
    (X : DataFrame) (y : Series) (series_id time_index target_name : string)
    (S T : list Cell) :
  (forall l, Permutation (union_order l) l) ->
  (forall l, Permutation (set_order l) l) ->
  long_format X y series_id time_index target_name S T ->
  shared_time_grid S T ->
  NoDup (combine S T) ->
  index X <> [] ->
  feature_columns X series_id time_index <> [] ->
  Forall plain_id S ->
  no_missing (columns X ++ [(s_name y, s_values y)]) ->
  names_separated (map fst (feature_columns X series_id time_index)) time_index S ->
  series_id <> "" ->
  round_trip union_order set_order X y series_id time_index target_name.
Proof.
  intros Hunion Hset Hlong Hgrid Hunique Hrows Hfeatures Hids Hmissing Hseparated Hnamed.
  exact (round_trip_on_grid union_order set_order Hunion Hset X y series_id time_index
           target_name S T Hlong Hrows Hfeatures Hids Hmissing Hgrid Hunique Hseparated
           Hnamed).
Qed.

Lemma unstack_stack_round_trip_witness :
  round_trip (@rev Cell) (fun names => names) example_X example_y
             "series_id" "date" "target".
Proof.
  apply (unstack_stack_round_trip (@rev Cell) (fun names => names) example_X example_y
           "series_id" "date" "target"
           [Str "a"; Str "b"; Str "a"; Str "b"] [Int 10; Int 20; Int 20; Int 10]).
  - intros l. symmetry. apply Permutation_rev.
  - intros l. reflexivity.
  - unfold long_format. repeat split; try reflexivity.
    + apply (bool_decide_unpack _). vm_compute. exact I.
    + repeat constructor.
    + apply (bool_decide_unpack _). vm_compute. exact I.
    + discriminate.
  - apply (bool_decide_unpack _). vm_compute. exact I.
  - apply (bool_decide_unpack _). vm_compute. exact I.
  - discriminate.
  - discriminate.
  - repeat constructor.
  - unfold no_missing. repeat (constructor; [repeat (constructor; [discriminate|])|]);
      constructor.
  - apply (bool_decide_unpack _). vm_compute. exact I.
  - discriminate.
Defined.

(** C2 as stated fails: with the series ids ["s_1"] and ["s_2"], which share
    their two dates, the restacked frame has a column ["feature_s"] and the
    series ids ["1"] and ["2"]. *)
Lemma underscore_ids_counterexample :
  unstack_then_stack (fun labels => labels) (fun names => names)
    underscore_X underscore_y "series_id" "date" "target"
  = Ok (mkFrame [Int 0; Int 1; Int 2; Int 3]
          [("series_id", [Str "1"; Str "2"; Str "1"; Str "2"]);
           ("feature_s", [Int 1; Int 2; Int 3; Int 4]);
           ("date", [Int 10; Int 10; Int 20; Int 20])],
        mkFrame [Int 0; Int 1; Int 2; Int 3]
          [("target_s", [Int 100; Int 200; Int 300; Int 400])])
  /\ ~ round_trip_stated.
Proof.
  split; [vm_compute; reflexivity|].
  intros Hstated.
  destruct (Hstated (fun labels => labels) (fun names => names)
              (fun l => Permutation_refl l) (fun l => Permutation_refl l)
              underscore_X underscore_y "series_id" "date" "target"
              [Str "s_1"; Str "s_2"; Str "s_1"; Str "s_2"]
              [Int 10; Int 10; Int 20; Int 20])
    as (Xu & yu & Xs & ys & Hunstack & HstackX & _ & _ & _ & Hnames & _).
  - unfold long_format. repeat split; try reflexivity.
    + apply (bool_decide_unpack _). vm_compute. exact I.
    + repeat constructor.
    + apply (bool_decide_unpack _). vm_compute. exact I.
    + discriminate.
  - apply (bool_decide_unpack _). vm_compute. exact I.
  - vm_compute in Hunstack. injection Hunstack as <- <-.
    vm_compute in HstackX. injection HstackX as <-.
    cbn [columns map fst] in Hnames.
    assert (Hin : In "feature_s" ["date"; "series_id"; "feature"])
      by (apply (Permutation_in _ Hnames); right; left; reflexivity).
    cbn [In] in Hin. destruct Hin as [H|[H|[H|[]]]]; discriminate H.
Qed.

End MultiseriesProofs.

(** ** The preprocessing selector: its heuristics *)

Module SelectorFacts.
Import Selector Heuristics SelectorProofs.

Section WithOracles.

Context {Target : Type}.
Variable set_iter : list LogicalType -> list LogicalType.
Variable get_time_index_freq : list Column -> Target -> result (option string).
Variable is_freq_valid : string -> bool.
Variable determine_periodicity : list Column -> Target -> Z -> option Z.
Variable estimator_unable_to_handle_nans : option EstimatorClass -> result bool.

Abbreviation rule := (run_rule set_iter get_time_index_freq is_freq_valid
                    determine_periodicity estimator_unable_to_handle_nans).
Abbreviation functions := (run_functions set_iter get_time_index_freq is_freq_valid
                         determine_periodicity estimator_unable_to_handle_nans).
Abbreviation select := (_get_preprocessing_components set_iter get_time_index_freq
                      is_freq_valid determine_periodicity
                      estimator_unable_to_handle_nans).

(** The rule a component of the result came from. *)
Lemma component_rule X (y : Target) pt e s ex incl comps c :
  select X y pt e s ex incl = Ok comps -> c ∈ comps ->
  exists f cs, f ∈ components_functions pt incl /\ (f ∉ functions_to_exclude ex)
               /\ rule f X y pt e s = Ok cs /\ c ∈ cs /\ c ∈ rule_components f.
Proof.
  intros H Hc.
  destruct (select_elem _ _ _ _ _ _ _ _ _ _ _ _ _ _ H Hc)
    as (f & cs & Hf & Hex & _ & Hr & Hcs).
  exists f, cs. repeat split; auto.
  apply rule_sublist in Hr. exact (elem_of_sublist _ _ _ Hcs Hr).
Qed.

Lemma excluded_in (names : list string) (name : string) :
  name ∈ names -> excluded (Some names) name = true.
Proof.
  intros Hin. simpl. apply existsb_exists. exists name.
  split; [apply list_elem_of_In, Hin|apply String.eqb_refl].
Qed.

(** X1: a featurizer named in [exclude_featurizers] is never among the
    components the selector returns, whatever the data, the problem type and
    the estimator are. *)
Theorem excluded_featurizer_never_selected X (y : Target) pt e s names incl comps name c :
  _get_preprocessing_components set_iter get_time_index_freq is_freq_valid
    determine_periodicity estimator_unable_to_handle_nans X y pt e s (Some names) incl
  = Ok comps ->
  name ∈ names ->
  excluded_featurizer name = Some c ->
  c ∉ comps.
Proof.
  intros H Hname Hc Hin.
  destruct (component_rule _ _ _ _ _ _ _ _ _ H Hin) as (f & cs & _ & Hex & _ & _ & Hrc).
  apply Hex. clear Hex H.
  unfold excluded_featurizer in Hc.
  repeat match type of Hc with
    | (if String.eqb ?a ?b then _ else _) = _ =>
        let E := fresh "E" in
        destruct (String.eqb a b) eqn:E;
        [apply String.eqb_eq in E; subst name; injection Hc as <-|]
    end; try discriminate;
    pose proof (excluded_in names _ Hname) as Hexcl;
    unfold functions_to_exclude; rewrite Hexcl;
    destruct f; simpl in Hrc;
    repeat (apply elem_of_cons in Hrc as [Hrc|Hrc]; [try discriminate|]);
    try (inversion Hrc; fail);
    rewrite !elem_of_app, !list_elem_of_singleton; tauto.
Qed.

Lemma label_encoder_never_excluded ex : get_label_encoder ∉ functions_to_exclude ex.
Proof.
  unfold functions_to_exclude.
  repeat match goal with |- context [if ?b then _ else _] => destruct b end;
    simpl; rewrite ?elem_of_cons, elem_of_nil; intuition discriminate.
Qed.

Lemma sublist_head {A : Type} (x : A) (l t : list A) :
  l `sublist_of` (x :: t) -> x ∈ l -> (x ∉ t) ->
  exists rest, l = x :: rest /\ rest `sublist_of` t.
Proof.
  intros Hsub Hin Hnin. apply sublist_cons_r in Hsub.
  destruct Hsub as [Hsub|(rest & -> & Hsub)].
  - exfalso. apply Hnin. exact (elem_of_sublist _ _ _ Hin Hsub).
  - exists rest. split; [reflexivity|exact Hsub].
Qed.

(** X2: the selector recommends a label encoder exactly for the classification
    problem types, and when it does the label encoder is the first component
    of the list and occurs once. *)
Theorem label_encoder_leads X (y : Target) pt e s ex incl comps :
  _get_preprocessing_components set_iter get_time_index_freq is_freq_valid
    determine_periodicity estimator_unable_to_handle_nans X y pt e s ex incl
  = Ok comps ->
  (LabelEncoder ∈ comps <-> is_classification pt = true)
  /\ (LabelEncoder ∈ comps ->
      exists rest, comps = LabelEncoder :: rest /\ (LabelEncoder ∉ rest)).
Proof.
  intros H.
  assert (Hiff : LabelEncoder ∈ comps <-> is_classification pt = true).
  { split.
    - intros Hin.
      destruct (component_rule _ _ _ _ _ _ _ _ _ H Hin) as (f & cs & _ & _ & Hr & Hcs & Hrc).
      assert (f = get_label_encoder) as ->.
      { destruct f; simpl in Hrc; try reflexivity;
          repeat (apply elem_of_cons in Hrc as [Hrc|Hrc]; [discriminate|]);
          inversion Hrc. }
      simpl in Hr. unfold _get_label_encoder in Hr.
      destruct (is_classification pt); [reflexivity|].
      injection Hr as <-. inversion Hcs.
    - intros Hcls.
      destruct (select_incl _ _ _ _ _ _ _ _ _ _ _ _ _ get_label_encoder H)
        as (cs & Hr & Hsub).
      + destruct pt; try discriminate Hcls; reflexivity.
      + destruct pt, incl; try discriminate Hcls; cbn;
          apply list_elem_of_In; simpl; tauto.
      + apply label_encoder_never_excluded.
      + simpl in Hr. unfold _get_label_encoder in Hr. rewrite Hcls in Hr.
        injection Hr as <-. apply Hsub. left. }
  split; [exact Hiff|]. intros Hin.
  pose proof (proj1 Hiff Hin) as Hcls.
  pose proof (functions_sublist _ _ _ _ _ _ _ _ _ _ _ _ _ H) as Hsub.
  assert (Hord : exists tail, fixed_order pt = LabelEncoder :: tail /\ NoDup (LabelEncoder :: tail)).
  { destruct pt; try discriminate Hcls; cbn; eexists; (split; [reflexivity|]);
      apply (bool_decide_unpack _); vm_compute; exact I. }
  destruct Hord as (tail & Hord & Hnd). rewrite Hord in Hsub.
  apply NoDup_cons in Hnd. destruct Hnd as [Hnin _].
  destruct (sublist_head _ _ _ Hsub Hin Hnin) as (rest & -> & Hrest).
  exists rest. split; [reflexivity|].
  intros Hin'. apply Hnin. exact (elem_of_sublist _ _ _ Hin' Hrest).
Qed.

Lemma time_series_featurizer_excluded ex :
  get_time_series_featurizer ∈ functions_to_exclude ex
  <-> excluded ex "TimeSeriesFeaturizer" = true.
Proof.
  unfold functions_to_exclude.
  destruct (excluded ex "TimeSeriesFeaturizer");
    repeat match goal with |- context [if ?b then _ else _] => destruct b end;
    simpl; rewrite ?elem_of_cons, elem_of_nil; intuition discriminate.
Qed.

(** X3: the selector recommends the time series featurizer exactly for the
    time series problem types other than multiseries, unless the featurizer
    is excluded by name; it never does for another problem type. *)
Theorem time_series_featurizer_iff X (y : Target) pt e s ex incl comps :
  _get_preprocessing_components set_iter get_time_index_freq is_freq_valid
    determine_periodicity estimator_unable_to_handle_nans X y pt e s ex incl
  = Ok comps ->
  (TimeSeriesFeaturizer ∈ comps
   <-> is_time_series pt = true /\ is_multiseries pt = false
       /\ excluded ex "TimeSeriesFeaturizer" = false).
Proof.
  intros H. split.
  - intros Hin.
    destruct (component_rule _ _ _ _ _ _ _ _ _ H Hin) as (f & cs & Hf & Hex & _ & _ & Hrc).
    assert (f = get_time_series_featurizer) as ->.
    { destruct f; simpl in Hrc; try reflexivity;
        repeat (apply elem_of_cons in Hrc as [Hrc|Hrc]; [discriminate|]);
        inversion Hrc. }
    split; [|split].
    + destruct pt, incl; cbn in Hf; try reflexivity;
        repeat (apply elem_of_cons in Hf as [Hf|Hf]; [discriminate|]); inversion Hf.
    + destruct pt, incl; cbn in Hf; try reflexivity;
        repeat (apply elem_of_cons in Hf as [Hf|Hf]; [discriminate|]); inversion Hf.
    + apply not_true_is_false. intros Hexcl. apply Hex.
      apply time_series_featurizer_excluded. exact Hexcl.
  - intros (Hts & Hms & Hexcl).
    destruct (select_incl _ _ _ _ _ _ _ _ _ _ _ _ _ get_time_series_featurizer H)
      as (cs & Hr & Hsub).
    + rewrite Hms. reflexivity.
    + destruct pt, incl; try discriminate Hts; try discriminate Hms; cbn;
        apply list_elem_of_In; simpl; tauto.
    + intros Hin. apply time_series_featurizer_excluded in Hin. congruence.
    + simpl in Hr. unfold _get_time_series_featurizer in Hr. rewrite Hts in Hr.
      injection Hr as <-. apply Hsub. left.
Qed.



(** A rule that raises stops the loop, when the rules before it return. *)
Lemma run_functions_raises before f after ex X (y : Target) pt e s err : forall acc,
  (forall g, g ∈ before -> exists cs, rule g X y pt e s = Ok cs) ->
  (f ∉ ex) ->
  rule f X y pt e s = Raise err ->
  functions (before ++ f :: after) ex X y pt e s acc = Raise err.
Proof.
  induction before as [|g before IH]; intros acc Hok Hex Hraise; simpl.
  - rewrite (bool_decide_eq_false_2 _ Hex). simpl. rewrite Hraise. reflexivity.
  - destruct (negb (bool_decide (g ∈ ex))).
    + destruct (Hok g) as (cs & ->); [left|]. simpl.
      apply IH; auto. intros g' Hg'. apply Hok. right. exact Hg'.
    + apply IH; auto. intros g' Hg'. apply Hok. right. exact Hg'.
Qed.

(** X5: for a problem type that is not a time series one and a given
    estimator class, a sampler name other than ["Undersampler"] and
    ["Oversampler"] makes the selector raise [KeyError]. *)
Theorem unknown_sampler_raises X (y : Target) pt est name ex incl :
  is_time_series pt = false ->
  name <> "Undersampler" -> name <> "Oversampler" ->
  _get_preprocessing_components set_iter get_time_index_freq is_freq_valid
    determine_periodicity estimator_unable_to_handle_nans X y pt (Some est) (Some name)
    ex incl
  = Raise KeyError.
Proof.
  intros Hts Hunder Hover.
  unfold _get_preprocessing_components.
  assert (Hms : is_multiseries pt = false) by (destruct pt; try discriminate; reflexivity).
  rewrite Hms, Hts. cbn [andb].
  change default_functions
    with ([get_label_encoder; get_drop_all_null; get_drop_index_unknown; get_url;
           get_email; get_datetime; get_natural_language; get_imputer;
           get_ordinal_encoder; get_ohe] ++ get_sampler :: [get_standard_scaler]).
  apply run_functions_raises.
  - intros g Hg.
    repeat (apply elem_of_cons in Hg as [->|Hg]); try (inversion Hg; fail);
      simpl;
      unfold _get_label_encoder, _get_drop_all_null, _get_drop_index_unknown, _get_url,
        _get_email, _get_datetime, _get_natural_language, _get_imputer,
        _get_ordinal_encoder, _get_ohe;
      repeat match goal with
        | |- context [if ?b then _ else _] => destruct b
        end; eauto.
  - apply sampler_never_excluded.
  - simpl. unfold _get_sampler, sampler_components. simpl.
    apply String.eqb_neq in Hunder, Hover. rewrite Hunder, Hover. reflexivity.
Qed.

End WithOracles.

Lemma excluded_featurizer_never_selected_witness :
  _get_preprocessing_components (fun l => l) example_freq example_is_freq_valid
    example_periodicity example_unable_to_handle_nans example_X ([] : list Z) REGRESSION
    (Some example_estimator) None (Some ["DatetimeFeaturizer"]) true
  = Ok [Imputer]
  /\ (DateTimeFeaturizer ∉ [Imputer]).
Proof.
  split; [reflexivity|].
  apply (excluded_featurizer_never_selected (fun l => l) example_freq
           example_is_freq_valid example_periodicity example_unable_to_handle_nans
           example_X ([] : list Z) REGRESSION (Some example_estimator) None
           ["DatetimeFeaturizer"] true [Imputer] "DatetimeFeaturizer" DateTimeFeaturizer).
  - reflexivity.
  - left.
  - reflexivity.
Defined.

Lemma label_encoder_leads_witness :
  (LabelEncoder ∈ [LabelEncoder; DateTimeFeaturizer; Imputer]
   <-> is_classification BINARY = true)
  /\ (LabelEncoder ∈ [LabelEncoder; DateTimeFeaturizer; Imputer] ->
      exists rest, [LabelEncoder; DateTimeFeaturizer; Imputer] = LabelEncoder :: rest
                   /\ (LabelEncoder ∉ rest)).
Proof.
  apply (label_encoder_leads (fun l => l) example_freq example_is_freq_valid
           example_periodicity example_unable_to_handle_nans example_X ([] : list Z)
           BINARY (Some example_estimator) None None true).
  reflexivity.
Defined.

Lemma time_series_featurizer_iff_witness :
  TimeSeriesFeaturizer ∈ [Imputer; TimeSeriesFeaturizer; STLDecomposer; DateTimeFeaturizer]
  <-> is_time_series TIME_SERIES_REGRESSION = true
      /\ is_multiseries TIME_SERIES_REGRESSION = false
      /\ excluded None "TimeSeriesFeaturizer" = false.
Proof.
  apply (time_series_featurizer_iff (fun l => l) example_freq example_is_freq_valid
           example_periodicity example_unable_to_handle_nans example_X ([] : list Z)
           TIME_SERIES_REGRESSION (Some example_estimator) None None true).
  reflexivity.
Defined.


Lemma unknown_sampler_raises_witness :
  _get_preprocessing_components (fun l => l) example_freq example_is_freq_valid
    example_periodicity example_unable_to_handle_nans example_X ([] : list Z) REGRESSION
    (Some example_estimator) (Some "SMOTE") None true
  = Raise KeyError.
Proof.
  apply (unknown_sampler_raises (fun l => l) example_freq example_is_freq_valid
           example_periodicity example_unable_to_handle_nans example_X ([] : list Z)
           REGRESSION example_estimator "SMOTE" None true).
  - reflexivity.
  - discriminate.
  - discriminate.
Defined.

End SelectorFacts.

(** ** The data-check action translator: errors and order *)

Module ActionsFacts.
Import Actions ActionCodes ActionsProofs.

(** The error an ill-formed action makes its iteration raise. *)
Abbreviation error_of a := (if drop_without_list a then TypeError else KeyError).

(** An iteration returns exactly on an action that carries what its branch
    reads.  On any other it raises: [TypeError] for a drop action without a
    list, [KeyError] for a missing key.  The accumulators play no part. *)
Lemma step_cases st a :
  (well_formed a /\ exists st', step st a = Ok st')
  \/ (~ well_formed a /\ step st a = Raise (error_of a)).
Proof.
  unfold well_formed, step, drop_without_list.
  destruct (action_code a); simpl.
  - destruct (columns (metadata a)) as [cols|]; simpl.
    + left. split; eauto.
    + right. split; [intros (cols & H); discriminate|reflexivity].
  - destruct (rows (metadata a)) as [rows'|]; simpl.
    + left. split; eauto.
    + right. split; [intros (rows' & H); discriminate|reflexivity].
  - destruct (is_target (metadata a)) as [[|]|] eqn:Ht; simpl.
    + destruct (parameters (metadata a)) as [p|] eqn:Hp; simpl.
      * destruct (impute_strategy p) as [v|] eqn:Hv; simpl.
        -- left. split; [exists p, true; eauto|eauto].
        -- right. split; [|reflexivity].
           intros (p' & t & [= <-] & [= <-] & (v & Hv')). congruence.
      * right. split; [intros (p' & t & Hp' & _); discriminate|reflexivity].
    + destruct (parameters (metadata a)) as [p|] eqn:Hp; simpl.
      * destruct (impute_strategies p) as [v|] eqn:Hv; simpl.
        -- left. split; [exists p, false; eauto|eauto].
        -- right. split; [|reflexivity].
           intros (p' & t & [= <-] & [= <-] & (v & Hv')). congruence.
      * right. split; [intros (p' & t & Hp' & _); discriminate|reflexivity].
    + right. split; [intros (p' & t & _ & Ht' & _); discriminate|reflexivity].
  - destruct (parameters (metadata a)) as [p|] eqn:Hp; simpl.
    + destruct (frequency_payload p) as [v|] eqn:Hv; simpl.
      * left. split; eauto.
      * right. split; [|reflexivity]. intros (p' & v & [= <-] & Hv'). congruence.
    + right. split; [intros (p' & v & Hp' & _); discriminate|reflexivity].
  - left. split; eauto.
Qed.

(** The loop returns on well-formed actions and stops at the first
    ill-formed one, with its error. *)
Lemma loop_cases actions : forall st,
  (Forall well_formed actions /\ exists st', loop st actions = Ok st')
  \/ (exists before a after,
        actions = before ++ a :: after
        /\ Forall well_formed before /\ ~ well_formed a
        /\ loop st actions = Raise (error_of a)).
Proof.
  induction actions as [|a actions IH]; intros st; simpl.
  - left. split; [constructor|eauto].
  - destruct (step_cases st a) as [(Hwf & st1 & ->)|(Hnwf & ->)]; simpl.
    + destruct (IH st1) as [(Hall & Hok)|(before & b & after & -> & Hall & Hb & Hraise)].
      * left. split; [constructor; assumption|exact Hok].
      * right. exists (a :: before), b, after.
        split; [reflexivity|]. split; [constructor; assumption|]. split; assumption.
    + right. exists [], a, actions.
      split; [reflexivity|]. split; [constructor|]. split; [assumption|reflexivity].
Qed.

Lemma loop_raises before a after : forall st,
  Forall well_formed before -> ~ well_formed a ->
  loop st (before ++ a :: after) = Raise (error_of a).
Proof.
  induction before as [|b before IH]; intros st Hall Ha; simpl.
  - destruct (step_cases st a) as [(Hwf & _)|(_ & ->)]; [contradiction|reflexivity].
  - inversion Hall as [|? ? Hb Hrest]; subst.
    destruct (step_ok st b Hb) as (st1 & ->). simpl. now apply IH.
Qed.

Lemma ill_formed_in before a after :
  ~ well_formed a -> ~ Forall well_formed (before ++ a :: after).
Proof.
  intros Ha Hall. apply Forall_app in Hall as (_ & Hall).
  inversion Hall; contradiction.
Qed.

(** X6: the translator returns a component list exactly when every action
    carries what its branch reads: a list of columns for a [DROP_COL]
    action, a list of rows for a [DROP_ROWS] action, the keys read for the
    impute and regularize actions.  On any other list of actions it raises at
    the first action that does not, whatever follows it: [TypeError] when
    that action is a drop action whose list is [None], [KeyError] when it is
    an impute or regularize action with a key missing.  It raises nothing
    else. *)
Theorem translator_returns_iff_well_formed (actions : list DataCheckAction) :
  (Forall well_formed actions
   <-> exists cs, _make_component_list_from_actions actions = Ok cs)
  /\ (forall e,
        _make_component_list_from_actions actions = Raise e
        <-> exists before a after,
              actions = before ++ a :: after
              /\ Forall well_formed before /\ ~ well_formed a
              /\ e = if drop_without_list a then TypeError else KeyError)
  /\ (~ Forall well_formed actions
      <-> _make_component_list_from_actions actions = Raise KeyError
          \/ _make_component_list_from_actions actions = Raise TypeError)
  /\ _make_component_list_from_actions [mkAction DROP_COL (mkMetadata None None None None)]
     = Raise TypeError
  /\ _make_component_list_from_actions [mkAction IMPUTE_COL (mkMetadata None None None None)]
     = Raise KeyError.
Proof.
  unfold _make_component_list_from_actions at 1 2 3 4.
  destruct (loop_cases actions (mkState [] [] []))
    as [(Hall & st & ->)|(before & a & after & -> & Hall & Ha & ->)]; simpl.
  - split; [|split; [|split; [|split; reflexivity]]].
    + split; intros; eauto.
    + intros e. split; [discriminate|].
      intros (before & a & after & -> & _ & Ha & _).
      exfalso. exact (ill_formed_in _ _ _ Ha Hall).
    + split; [contradiction|]. intros [H|H]; discriminate H.
  - pose proof (ill_formed_in before a after Ha) as Hnall.
    split; [|split; [|split; [|split; reflexivity]]].
    + split; [contradiction|]. intros (cs & H). discriminate H.
    + intros e. split.
      * intros [= <-]. exists before, a, after. auto.
      * intros (before' & a' & after' & Heq & Hall' & Ha' & ->).
        pose proof (loop_raises before' a' after' (mkState [] [] []) Hall' Ha') as H.
        rewrite <- Heq in H.
        rewrite (loop_raises before a after (mkState [] [] []) Hall Ha) in H.
        injection H as ->. reflexivity.
    + split; [|intros _; exact Hnall].
      intros _. destruct (drop_without_list a); auto.
Qed.

Lemma loop_skips_other_codes actions : forall st,
  loop st (List.filter has_branch actions) = loop st actions.
Proof.
  induction actions as [|a actions IH]; intros st; simpl; [reflexivity|].
  destruct (has_branch a) eqn:Hbranch; simpl.
  - destruct (step st a) as [st'|e]; simpl; [apply IH|reflexivity].
  - assert (Hstep : step st a = Ok st).
    { unfold has_branch in Hbranch. unfold step.
      destruct (action_code a); try discriminate Hbranch. reflexivity. }
    rewrite Hstep. simpl. apply IH.
Qed.

(** X7: an action whose code is none of the four the translator has a branch
    for is skipped: leaving such actions out of the list changes neither the
    components returned nor the error raised. *)
Theorem translator_skips_other_codes (actions : list DataCheckAction) :
  _make_component_list_from_actions (List.filter has_branch actions)
  = _make_component_list_from_actions actions
  /\ forall name metadata before after,
       _make_component_list_from_actions
         (before ++ mkAction (OtherActionCode name) metadata :: after)
       = _make_component_list_from_actions (before ++ after).
Proof.
  assert (Hfilter : forall l,
            _make_component_list_from_actions (List.filter has_branch l)
            = _make_component_list_from_actions l).
  { intros l. unfold _make_component_list_from_actions.
    rewrite loop_skips_other_codes. reflexivity. }
  split; [apply Hfilter|].
  intros name metadata before after.
  rewrite <- (Hfilter (before ++ _ :: after)), <- (Hfilter (before ++ after)).
  rewrite !List.filter_app. reflexivity.
Qed.

Lemma sorted_set_str_same (l l' : list string) :
  (forall c, c ∈ l <-> c ∈ l') -> sorted_set_str l = sorted_set_str l'.
Proof.
  intros Hsame.
  destruct (sorted_set_str_spec l) as (Hs & Hnd & Hin).
  destruct (sorted_set_str_spec l') as (Hs' & Hnd' & Hin').
  apply (Sorted_unique String.le); [exact Hs|exact Hs'|].
  apply NoDup_Permutation; [exact Hnd|exact Hnd'|].
  intros c. rewrite Hin, Hin'. apply Hsame.
Qed.

Lemma sorted_set_int_same (l l' : list Z) :
  (forall i, i ∈ l <-> i ∈ l') -> sorted_set_int l = sorted_set_int l'.
Proof.
  intros Hsame.
  destruct (sorted_set_int_spec l) as (Hs & Hnd & Hin).
  destruct (sorted_set_int_spec l') as (Hs' & Hnd' & Hin').
  apply (Sorted_unique Z.le); [exact Hs|exact Hs'|].
  apply NoDup_Permutation; [exact Hnd|exact Hnd'|].
  intros c. rewrite Hin, Hin'. apply Hsame.
Qed.

Lemma same_elements_nil {A : Type} (l l' : list A) :
  (forall x, x ∈ l <-> x ∈ l') -> l = [] -> l' = [].
Proof.
  intros Hsame ->. destruct l' as [|x l']; [reflexivity|].
  exfalso. assert (Hin : x ∈ []) by (apply Hsame; left). inversion Hin.
Qed.

(** X8: the translator reads the columns and rows to drop as sets.  Two lists
    of well-formed actions whose impute and regularize actions stand for the
    same components in the same order, and whose drop actions mention the
    same columns and the same rows - in any order, split over any number of
    actions, with any repetition - give the same component list. *)
Theorem translator_reads_drops_as_sets (actions actions' : list DataCheckAction) :
  Forall well_formed actions -> Forall well_formed actions' ->
  flat_map own_components actions = flat_map own_components actions' ->
  (forall c, c ∈ mentioned_columns actions <-> c ∈ mentioned_columns actions') ->
  (forall i, i ∈ mentioned_rows actions <-> i ∈ mentioned_rows actions') ->
  _make_component_list_from_actions actions = _make_component_list_from_actions actions'.
Proof.
  intros Hwf Hwf' Hown Hcols Hrows.
  destruct (loop_ok actions (mkState [] [] []) Hwf) as (st & Hloop).
  destruct (loop_ok actions' (mkState [] [] []) Hwf') as (st' & Hloop').
  unfold _make_component_list_from_actions. rewrite Hloop, Hloop'. simpl.
  apply loop_spec in Hloop as (Hc & Hcs & Hrs).
  apply loop_spec in Hloop' as (Hc' & Hcs' & Hrs').
  simpl in Hc, Hcs, Hrs, Hc', Hcs', Hrs'.
  rewrite Hc, Hcs, Hrs, Hc', Hcs', Hrs', <- Hown.
  rewrite (sorted_set_str_same _ _ Hcols), (sorted_set_int_same _ _ Hrows).
  assert (Hcols' : forall c, c ∈ mentioned_columns actions' <-> c ∈ mentioned_columns actions)
    by (intros c; symmetry; apply Hcols).
  assert (Hrows' : forall i, i ∈ mentioned_rows actions' <-> i ∈ mentioned_rows actions)
    by (intros i; symmetry; apply Hrows).
  destruct (mentioned_columns actions) as [|c cols] eqn:E1;
    destruct (mentioned_columns actions') as [|c' cols'] eqn:E1';
    try (discriminate (same_elements_nil _ _ Hcols eq_refl));
    try (discriminate (same_elements_nil _ _ Hcols' eq_refl));
    destruct (mentioned_rows actions) as [|r rs] eqn:E2;
    destruct (mentioned_rows actions') as [|r' rs'] eqn:E2';
    try (discriminate (same_elements_nil _ _ Hrows eq_refl));
    try (discriminate (same_elements_nil _ _ Hrows' eq_refl));
    reflexivity.
Qed.

Lemma translator_reads_drops_as_sets_witness :
  _make_component_list_from_actions [drop_action ["a"]; drop_action ["b"; "a"]]
  = _make_component_list_from_actions [drop_action ["b"; "a"; "b"]].
Proof.
  apply translator_reads_drops_as_sets.
  - repeat (constructor; [unfold well_formed; simpl; eauto|]). constructor.
  - repeat (constructor; [unfold well_formed; simpl; eauto|]). constructor.
  - reflexivity.
  - intros c. cbn. rewrite !elem_of_cons, !elem_of_nil. tauto.
  - intros i. cbn. tauto.
Defined.

End ActionsFacts.

(** ** Model-understanding metrics: the other normalizations, thresholds *)

Module MetricsFacts.
Import Metrics MatrixColumns MetricsProofs.

Section Normalize.

Variable to_float : Z -> Q.
Variable rnd : Q -> Q.
Hypothesis to_float_exact :
  forall z, (Z.abs z <= 2 ^ 53)%Z -> (to_float z == inject_Z z)%Q.
Hypothesis rnd_accurate :
  forall q, (Qabs (rnd q - q) <= unit_roundoff * Qabs q)%Q.

(** Every entry divided by one sum [s]. *)
Lemma no_divide_by_zero_by s (rows : list (list Z)) :
  (s = 0%Z -> Forall (Forall (fun a => a = 0%Z)) rows) ->
  existsb (existsb divides_by_zero) (map (fun row => map (fun a => (a, s)) row) rows)
  = false.
Proof.
  intros Hz. induction rows as [|row rows IH]; simpl; [reflexivity|].
  rewrite row_no_divide, IH; [reflexivity| |].
  - intros Hs. specialize (Hz Hs). inversion Hz; assumption.
  - intros Hs. specialize (Hz Hs). inversion Hz; assumption.
Qed.

Lemma no_invalid_by s (rows : list (list Z)) :
  s <> 0%Z ->
  existsb (existsb invalid_value) (map (fun row => map (fun a => (a, s)) row) rows)
  = false.
Proof.
  intros Hs. induction rows as [|row rows IH]; simpl; [reflexivity|].
  rewrite row_no_invalid, IH by exact Hs. reflexivity.
Qed.

Lemma invalid_by_zero (rows : list (list Z)) :
  Forall (Forall (fun a => a = 0%Z)) rows -> concat rows <> [] ->
  existsb (existsb invalid_value) (map (fun row => map (fun a => (a, 0%Z)) row) rows)
  = true.
Proof.
  induction 1 as [|row rows Hrow Hrows IH]; simpl; intros Hne; [congruence|].
  destruct row as [|a row]; simpl.
  - apply IH. exact Hne.
  - inversion Hrow; subst. reflexivity.
Qed.

Lemma zsum_app (l l' : list Z) : zsum (l ++ l') = (zsum l + zsum l')%Z.
Proof. unfold zsum. induction l as [|a l IH]; simpl; [reflexivity|]. rewrite IH. lia. Qed.

Lemma concat_nonneg (rows : list (list Z)) :
  Forall (Forall (fun a => (0 <= a)%Z)) rows -> Forall (fun a => (0 <= a)%Z) (concat rows).
Proof.
  induction 1 as [|row rows Hrow Hrows IH]; simpl; [constructor|].
  apply Forall_app. split; assumption.
Qed.

Lemma concat_zero (rows : list (list Z)) :
  Forall (fun a => a = 0%Z) (concat rows) -> Forall (Forall (fun a => a = 0%Z)) rows.
Proof.
  induction rows as [|row rows IH]; simpl; intros H; [constructor|].
  apply Forall_app in H. destruct H as [Hrow Hrest]. constructor; auto.
Qed.

Lemma all_operands (rows : list (list Z)) :
  division_operands rows "all"
  = Ok (map (fun row => map (fun a => (a, int64_sum (concat rows))) row) rows).
Proof. reflexivity. Qed.

(** X9: for a confusion matrix whose counts add up to at most [2 ^ 53],
    [normalize_confusion_matrix] with method ["all"] returns, when the counts
    do not add up to zero, a matrix of the same labels and shape whose entries
    are finite floats with a sum within the unit roundoff of 1; on a matrix of
    zeros it raises [ValueError]. *)
Theorem normalize_all_sums_to_one (conf_mat : ConfusionMatrix) :
  is_confusion_matrix conf_mat ->
  (zsum (concat (values conf_mat)) <= 2 ^ 53)%Z ->
  (zsum (concat (values conf_mat)) <> 0%Z ->
   exists out,
     normalize_confusion_matrix to_float rnd conf_mat "all" = Ok out
     /\ norm_index out = columns conf_mat
     /\ norm_columns out = columns conf_mat
     /\ map (@length float) (norm_values out) = map (@length Z) (values conf_mat)
     /\ exists total,
          row_total (concat (norm_values out)) = Some total
          /\ (Qabs (total - 1) <= unit_roundoff)%Q)
  /\ (zsum (concat (values conf_mat)) = 0%Z -> concat (values conf_mat) <> [] ->
      normalize_confusion_matrix to_float rnd conf_mat "all" = Raise ValueError).
Proof.
  intros (Hsquare & Hrect & Hnonneg & _) Hbound.
  pose proof (concat_nonneg _ Hnonneg) as Hall.
  assert (Hsum : int64_sum (concat (values conf_mat)) = zsum (concat (values conf_mat)))
    by (apply int64_sum_small; assumption).
  split.
  - intros Hnz.
    unfold normalize_confusion_matrix. rewrite all_operands. cbn [rbind].
    unfold recorded_warnings. rewrite Hsum.
    rewrite no_divide_by_zero_by by (intros Hz; contradiction).
    rewrite no_invalid_by by exact Hnz. cbn [app].
    rewrite !length_map, Hsquare, Nat.eqb_refl.
    eexists. split; [reflexivity|]. cbn [norm_index norm_columns norm_values].
    split; [reflexivity|]. split; [reflexivity|]. split.
    + rewrite !map_map. apply map_ext. intros row. rewrite !length_map. reflexivity.
    + rewrite <- !concat_map, <- Hsum.
      apply (normalized_row_sums_to_one to_float rnd to_float_exact rnd_accurate);
        assumption.
  - intros Hz Hne.
    unfold normalize_confusion_matrix. rewrite all_operands. cbn [rbind].
    unfold recorded_warnings. rewrite Hsum, Hz.
    pose proof (concat_zero _ (zsum_zero _ Hall Hz)) as Hzero.
    rewrite no_divide_by_zero_by by (intros _; exact Hzero).
    rewrite invalid_by_zero by assumption. reflexivity.
Qed.

Lemma nth_imap {A B : Type} (l : list A) (dA : A) (dB : B) : forall (f : nat -> A -> B) j,
  j < length l -> nth j (imap f l) dB = f j (nth j l dA).
Proof.
  induction l as [|a l IH]; intros f j Hj; simpl in *; [lia|].
  destruct j as [|j]; [reflexivity|]. apply (IH (f ∘ S)). lia.
Qed.

Lemma existsb_imap_false {A B : Type} (p : B -> bool) (dA : A) (l : list A) :
  forall (f : nat -> A -> B),
    (forall j, j < length l -> p (f j (nth j l dA)) = false) ->
    existsb p (imap f l) = false.
Proof.
  induction l as [|a l IH]; intros f Hp; simpl; [reflexivity|].
  assert (H0 : p (f 0 a) = false) by (apply (Hp 0); simpl; lia).
  rewrite H0. simpl. apply IH.
  intros j Hj. apply (Hp (S j)). simpl. lia.
Qed.

Lemma existsb_imap_true {A B : Type} (p : B -> bool) (dA : A) (l : list A) :
  forall (f : nat -> A -> B) j,
    j < length l -> p (f j (nth j l dA)) = true -> existsb p (imap f l) = true.
Proof.
  induction l as [|a l IH]; intros f j Hj Hp; simpl in *; [lia|].
  destruct j as [|j]; [rewrite Hp; reflexivity|].
  rewrite (IH (f ∘ S) j) by (auto; lia). apply orb_true_r.
Qed.

Lemma pred_operands (rows : list (list Z)) :
  division_operands rows "pred"
  = Ok (map (fun row => imap (fun j a => (a, int64_sum (count_column rows j))) row) rows).
Proof. reflexivity. Qed.

Lemma existsb_rows_false {A : Type} (p : A -> bool) (rows : list A) :
  (forall row, In row rows -> p row = false) -> existsb p rows = false.
Proof.
  intros Hp. apply not_true_is_false. intros Hex. apply existsb_exists in Hex.
  destruct Hex as (row & Hin & Hrow). rewrite (Hp row Hin) in Hrow. discriminate.
Qed.

Section Pred.

Variable conf_mat : ConfusionMatrix.
Hypothesis Hmatrix : is_confusion_matrix conf_mat.
Hypothesis Hbound :
  forall j, j < length (columns conf_mat) ->
            (zsum (count_column (values conf_mat) j) <= 2 ^ 53)%Z.

Abbreviation rows := (values conf_mat).
Abbreviation n := (length (columns conf_mat)).

Lemma row_length row : In row rows -> length row = n.
Proof.
  destruct Hmatrix as (_ & Hrect & _). rewrite List.Forall_forall in Hrect. apply Hrect.
Qed.

Lemma column_nonneg j : Forall (fun a => (0 <= a)%Z) (count_column rows j).
Proof.
  destruct Hmatrix as (_ & _ & Hnonneg & _). unfold count_column.
  apply List.Forall_forall. intros a Ha. apply in_map_iff in Ha.
  destruct Ha as (row & <- & Hrow).
  rewrite List.Forall_forall in Hnonneg. specialize (Hnonneg row Hrow).
  rewrite List.Forall_forall in Hnonneg.
  destruct (Nat.lt_ge_cases j (length row)) as [Hj|Hj].
  - apply Hnonneg, nth_In, Hj.
  - rewrite nth_overflow by exact Hj. lia.
Qed.

Lemma column_sum_exact j :
  j < n -> int64_sum (count_column rows j) = zsum (count_column rows j).
Proof. intros Hj. apply int64_sum_small; [apply column_nonneg|apply Hbound, Hj]. Qed.

Lemma column_entry row j :
  In row rows -> In (nth j row 0%Z) (count_column rows j).
Proof. intros Hrow. unfold count_column. apply in_map_iff. exists row. tauto. Qed.

Lemma pred_no_divide_by_zero :
  existsb (existsb divides_by_zero)
    (map (fun row => imap (fun j a => (a, int64_sum (count_column rows j))) row) rows)
  = false.
Proof.
  apply existsb_rows_false. intros ops Hops. apply in_map_iff in Hops.
  destruct Hops as (row & <- & Hrow).
  apply (existsb_imap_false _ 0%Z). intros j Hj. rewrite (row_length row Hrow) in Hj.
  unfold divides_by_zero. rewrite (column_sum_exact j Hj).
  destruct (Z.eqb_spec (zsum (count_column rows j)) 0) as [Hz|Hnz]; [|reflexivity].
  pose proof (zsum_zero _ (column_nonneg j) Hz) as Hzero.
  rewrite List.Forall_forall in Hzero. rewrite (Hzero _ (column_entry row j Hrow)).
  reflexivity.
Qed.

Lemma pred_no_invalid :
  (forall j, j < n -> zsum (count_column rows j) <> 0%Z) ->
  existsb (existsb invalid_value)
    (map (fun row => imap (fun j a => (a, int64_sum (count_column rows j))) row) rows)
  = false.
Proof.
  intros Hnz. apply existsb_rows_false. intros ops Hops. apply in_map_iff in Hops.
  destruct Hops as (row & <- & Hrow).
  apply (existsb_imap_false _ 0%Z). intros j Hj. rewrite (row_length row Hrow) in Hj.
  unfold invalid_value. rewrite (column_sum_exact j Hj).
  specialize (Hnz j Hj). apply Z.eqb_neq in Hnz. rewrite Hnz. reflexivity.
Qed.

Lemma pred_invalid j :
  j < n -> zsum (count_column rows j) = 0%Z ->
  existsb (existsb invalid_value)
    (map (fun row => imap (fun j a => (a, int64_sum (count_column rows j))) row) rows)
  = true.
Proof.
  intros Hj Hz. destruct Hmatrix as (Hsquare & _).
  assert (Hrow : In (nth 0 rows []) rows) by (apply nth_In; lia).
  revert Hrow. generalize (nth 0 rows []). intros row Hrow.
  apply existsb_exists.
  exists (imap (fun j a => (a, int64_sum (count_column rows j))) row). split.
  - apply in_map_iff. exists row. tauto.
  - apply (existsb_imap_true _ 0%Z _ _ j); [rewrite (row_length row Hrow); exact Hj|].
    unfold invalid_value. rewrite (column_sum_exact j Hj), Hz.
    pose proof (zsum_zero _ (column_nonneg j) Hz) as Hzero.
    rewrite List.Forall_forall in Hzero. rewrite (Hzero _ (column_entry row j Hrow)).
    reflexivity.
Qed.

Lemma pred_column j :
  j < n ->
  float_column
    (map (map (true_divide to_float rnd))
       (map (fun row => imap (fun j a => (a, int64_sum (count_column rows j))) row) rows))
    j
  = map (true_divide to_float rnd)
      (map (fun a => (a, int64_sum (count_column rows j))) (count_column rows j)).
Proof.
  intros Hj. unfold float_column. rewrite !map_map.
  unfold count_column at 3. rewrite !map_map.
  apply map_ext_in. intros row Hrow.
  assert (Hlen : j < length row) by (rewrite (row_length row Hrow); exact Hj).
  rewrite (nth_indep _ NaN (true_divide to_float rnd (0%Z, 0%Z)))
    by (rewrite length_map, length_imap; exact Hlen).
  rewrite map_nth. f_equal.
  exact (nth_imap row 0%Z (0%Z, 0%Z)
           (fun j a => (a, int64_sum (count_column rows j))) j Hlen).
Qed.

End Pred.

(** X10: for a confusion matrix whose columns each add up to at most
    [2 ^ 53], [normalize_confusion_matrix] with method ["pred"] returns, when
    no column adds up to zero, a matrix of the same labels and shape each
    column of which is made of finite floats with a sum within the unit
    roundoff of 1; when some column adds up to zero it raises [ValueError]. *)
Theorem normalize_pred_columns_sum_to_one (conf_mat : ConfusionMatrix) :
  is_confusion_matrix conf_mat ->
  (forall j, j < length (columns conf_mat) ->
             (zsum (count_column (values conf_mat) j) <= 2 ^ 53)%Z) ->
  ((forall j, j < length (columns conf_mat) ->
              zsum (count_column (values conf_mat) j) <> 0%Z) ->
   exists out,
     normalize_confusion_matrix to_float rnd conf_mat "pred" = Ok out
     /\ norm_index out = columns conf_mat
     /\ norm_columns out = columns conf_mat
     /\ map (@length float) (norm_values out) = map (@length Z) (values conf_mat)
     /\ forall j, j < length (columns conf_mat) ->
          exists total,
            row_total (float_column (norm_values out) j) = Some total
            /\ (Qabs (total - 1) <= unit_roundoff)%Q)
  /\ ((exists j, j < length (columns conf_mat)
                 /\ zsum (count_column (values conf_mat) j) = 0%Z) ->
      normalize_confusion_matrix to_float rnd conf_mat "pred" = Raise ValueError).
Proof.
  intros Hmatrix Hbound. split.
  - intros Hnz.
    unfold normalize_confusion_matrix. rewrite pred_operands. cbn [rbind].
    unfold recorded_warnings.
    rewrite (pred_no_divide_by_zero conf_mat Hmatrix Hbound).
    rewrite (pred_no_invalid conf_mat Hmatrix Hbound Hnz). cbn [app].
    destruct Hmatrix as (Hsquare & Hrest).
    rewrite !length_map, Hsquare, Nat.eqb_refl.
    eexists. split; [reflexivity|]. cbn [norm_index norm_columns norm_values].
    split; [reflexivity|]. split; [reflexivity|]. split.
    + rewrite !map_map. apply map_ext. intros row. rewrite length_map, length_imap.
      reflexivity.
    + intros j Hj.
      rewrite (pred_column conf_mat (conj Hsquare Hrest) j Hj).
      apply (normalized_row_sums_to_one to_float rnd to_float_exact rnd_accurate).
      * apply column_nonneg. exact (conj Hsquare Hrest).
      * apply Hbound, Hj.
      * apply Hnz, Hj.
  - intros (j & Hj & Hz).
    unfold normalize_confusion_matrix. rewrite pred_operands. cbn [rbind].
    unfold recorded_warnings.
    rewrite (pred_no_divide_by_zero conf_mat Hmatrix Hbound).
    rewrite (pred_invalid conf_mat Hmatrix Hbound j Hj Hz). reflexivity.
Qed.

End Normalize.

Lemma normalize_all_sums_to_one_witness :
  exists out,
    normalize_confusion_matrix inject_Z (fun q => q) example_matrix "all" = Ok out
    /\ exists total,
         row_total (concat (norm_values out)) = Some total
         /\ (Qabs (total - 1) <= unit_roundoff)%Q.
Proof.
  destruct (normalize_all_sums_to_one inject_Z (fun q => q)
              (fun z _ => Qeq_refl (inject_Z z)) exact_rounding_accurate
              example_matrix example_matrix_is_confusion_matrix)
    as (Hsum & _).
  - vm_compute. discriminate.
  - destruct Hsum as (out & Hout & _ & _ & _ & Htotal).
    + vm_compute. discriminate.
    + exists out. split; [exact Hout|exact Htotal].
Defined.

Lemma example_columns_bounded j :
  j < length (columns example_matrix) ->
  (zsum (count_column (values example_matrix) j) <= 2 ^ 53)%Z
  /\ zsum (count_column (values example_matrix) j) <> 0%Z.
Proof.
  intros Hj. destruct j as [|[|j]]; [| |simpl in Hj; lia];
    (split; [vm_compute; discriminate|vm_compute; discriminate]).
Qed.

Lemma normalize_pred_columns_sum_to_one_witness :
  exists out,
    normalize_confusion_matrix inject_Z (fun q => q) example_matrix "pred" = Ok out
    /\ forall j, j < length (columns example_matrix) ->
         exists total,
           row_total (float_column (norm_values out) j) = Some total
           /\ (Qabs (total - 1) <= unit_roundoff)%Q.
Proof.
  destruct (normalize_pred_columns_sum_to_one inject_Z (fun q => q)
              (fun z _ => Qeq_refl (inject_Z z)) exact_rounding_accurate
              example_matrix example_matrix_is_confusion_matrix)
    as (Hsum & _).
  - intros j Hj. apply (example_columns_bounded j Hj).
  - destruct Hsum as (out & Hout & _ & _ & _ & Htotal).
    + intros j Hj. apply (example_columns_bounded j Hj).
    + exists out. split; [exact Hout|exact Htotal].
Defined.

Section CheckDistribution.

Context {V : Type} {V_eq_dec : EqDecision V}.
Variable chisquare : list nat -> list nat -> result float.
Variable wilcoxon : list V -> list V -> result float.
Variable kstest : list V -> list V -> result float.

Lemma verdict_monotone (p : float) (t t' : Q) :
  (t' <= t)%Q -> verdict p (Fin t) = 1%Z -> verdict p (Fin t') = 1%Z.
Proof.
  intros Hle. unfold verdict. destruct p as [| | |x]; simpl; try (intros; assumption).
  destruct (Qle_bool t x) eqn:Htx; simpl; [|discriminate]. intros _.
  apply Qle_bool_iff in Htx.
  assert (Hle' : Qle_bool t' x = true) by (apply Qle_bool_iff; lra).
  rewrite Hle'. reflexivity.
Qed.

(** X11: [check_distribution] takes a p-value that is not a number for a
    match: when the test it selects yields NaN it returns 1 at every
    threshold (for a classification problem, provided the true and predicted
    values have equally many classes).  It is monotone in the threshold: a
    verdict of 1 at a threshold stays 1 at every smaller threshold. *)
Theorem check_distribution_lenient (y_true y_pred : list V) (pt : ProblemTypes) :
  (forall threshold,
      p_value_of chisquare wilcoxon kstest (selected_test pt) y_true y_pred = Ok NaN ->
      (is_classification pt = true ->
       length (value_counts y_true) = length (value_counts y_pred)) ->
      check_distribution chisquare wilcoxon kstest y_true y_pred pt threshold = Ok 1%Z)
  /\ (forall t t' : Q,
         (t' <= t)%Q ->
         check_distribution chisquare wilcoxon kstest y_true y_pred pt (Fin t) = Ok 1%Z ->
         check_distribution chisquare wilcoxon kstest y_true y_pred pt (Fin t') = Ok 1%Z).
Proof.
  split.
  - intros threshold Hnan Hlen. unfold check_distribution, selected_test in *.
    destruct (is_classification pt) eqn:Hcls.
    + rewrite (Hlen eq_refl), Nat.eqb_refl. cbn [negb].
      simpl in Hnan. rewrite Hnan. reflexivity.
    + destruct (is_time_series pt) eqn:Hts.
      * simpl in Hnan. rewrite Hnan. reflexivity.
      * destruct pt; try discriminate Hcls; try discriminate Hts.
        simpl in *. rewrite Hnan. reflexivity.
  - intros t t' Hle. unfold check_distribution.
    destruct (is_classification pt).
    + destruct (negb _); [discriminate|].
      destruct (chisquare _ _) as [p|e]; [|discriminate]. cbn [rbind].
      intros [= H]. f_equal. exact (verdict_monotone _ t t' Hle H).
    + destruct (is_time_series pt).
      * destruct (wilcoxon _ _) as [p|e]; [|discriminate]. cbn [rbind].
        intros [= H]. f_equal. exact (verdict_monotone _ t t' Hle H).
      * destruct (is_regression pt); [|discriminate].
        destruct (kstest _ _) as [p|e]; [|discriminate]. cbn [rbind].
        intros [= H]. f_equal. exact (verdict_monotone _ t t' Hle H).
Qed.

End CheckDistribution.

Lemma check_distribution_lenient_witness :
  check_distribution example_chisquare example_wilcoxon example_kstest
    [1; 2; 3]%Z [1; 2; 4]%Z REGRESSION (Fin (1 # 10)) = Ok 1%Z.
Proof.
  apply (proj2 (check_distribution_lenient example_chisquare example_wilcoxon
                  example_kstest [1; 2; 3]%Z [1; 2; 4]%Z REGRESSION)
           (1 # 2)%Q (1 # 10)%Q).
  - vm_compute. discriminate.
  - reflexivity.
Defined.

End MetricsFacts.

(** ** Multiseries stack and unstack: errors, shapes and names *)

Module MultiseriesFacts.
Import Multiseries WideFrames MultiseriesProofs.

(** X12: what [unstack_multiseries] raises.  A target of another length than
    the index of [X] gives [ValueError]; a series id column that is neither in
    [X] nor the target gives [KeyError]; data without rows gives [ValueError],
    there being nothing to concatenate; and with rows, a time index column
    that is neither in [X] nor the target gives [KeyError]. *)
Theorem unstack_multiseries_errors (union_order : list Cell -> list Cell)
    (X : DataFrame) (y : Series) (series_id time_index target_name : string) :
  (length (s_values y) <> length (index X) ->
   unstack_multiseries union_order X y series_id time_index target_name
   = Raise ValueError)
  /\ (length (s_values y) = length (index X) ->
      ~ In series_id (map fst (columns X)) -> series_id <> s_name y ->
      unstack_multiseries union_order X y series_id time_index target_name
      = Raise KeyError)
  /\ (length (s_values y) = length (index X) ->
      get_column (columns X) series_id = Ok [] ->
      unstack_multiseries union_order X y series_id time_index target_name
      = Raise ValueError)
  /\ (forall s S,
         length (s_values y) = length (index X) ->
         get_column (columns X) series_id = Ok (s :: S) ->
         ~ In time_index (map fst (columns X)) -> time_index <> s_name y ->
         unstack_multiseries union_order X y series_id time_index target_name
         = Raise KeyError).
Proof.
  unfold unstack_multiseries. split; [|split; [|split]].
  - intros Hlen. apply Nat.eqb_neq in Hlen. rewrite Hlen. reflexivity.
  - intros Hlen Hmissing Hne. rewrite Hlen, Nat.eqb_refl. cbn [negb].
    rewrite get_column_app, (get_column_missing _ _ Hmissing). cbn [get_column].
    apply String.eqb_neq in Hne. rewrite Hne. reflexivity.
  - intros Hlen Hseries. rewrite Hlen, Nat.eqb_refl. cbn [negb].
    rewrite get_column_app, Hseries. reflexivity.
  - intros s S Hlen Hseries Hmissing Hne. rewrite Hlen, Nat.eqb_refl. cbn [negb].
    rewrite !get_column_app, Hseries, (get_column_missing _ _ Hmissing).
    cbn [rbind unique get_column].
    apply String.eqb_neq in Hne. rewrite Hne. reflexivity.
Qed.

Lemma unstack_multiseries_errors_witness :
  unstack_multiseries (fun labels => labels) example_X
    (mkSeries "target" [] [Int 100]) "series_id" "date" "target"
  = Raise ValueError.
Proof.
  apply (proj1 (unstack_multiseries_errors (fun labels => labels) example_X
                  (mkSeries "target" [] [Int 100]) "series_id" "date" "target")).
  simpl. lia.
Defined.


Lemma time_in_grid (S T : list Cell) (t : Cell) :
  length S = length T -> In t T -> exists s, In (s, t) (combine S T).
Proof.
  revert T. induction S as [|s S IH]; intros [|t' T] Hlen Hin; simpl in *;
    try discriminate; try contradiction.
  destruct Hin as [-> | Hin].
  - exists s. now left.
  - destruct (IH T) as [s' Hs']; [lia | exact Hin |]. exists s'. now right.
Qed.

(** X13: on long data whose series share one time grid, and where no feature
    name followed by an underscore and a series id is the name of the time
    index, [unstack_multiseries] returns the wide frames over the distinct
    times: one row per time, one column per feature and series and one target
    column per series, the cell of series [s] at time [t] being read from the
    one row of the long data that holds [s] and [t].  With a time index
    called ["f_a"], a feature ["f"] and a series ["a"], it raises
    [ValueError] instead: the index cannot be reset into a column whose name
    is taken. *)
Theorem unstack_on_shared_grid (union_order : list Cell -> list Cell)
    (X : DataFrame) (y : Series) (series_id time_index target_name : string)
    (S T : list Cell) :
  (forall l, Permutation (union_order l) l) ->
  long_format X y series_id time_index target_name S T ->
  index X <> [] ->
  feature_columns X series_id time_index <> [] ->
  Forall plain_id S ->
  no_missing (columns X ++ [(s_name y, s_values y)]) ->
  shared_time_grid S T ->
  NoDup (combine S T) ->
  time_index_free (map fst (feature_columns X series_id time_index)) time_index S ->
  (exists labels,
    unstack_multiseries union_order X y series_id time_index target_name
    = Ok (wide_X time_index (feature_columns X series_id time_index) S T labels,
          wide_y target_name (s_values y) S T labels)
    /\ NoDup labels
    /\ (forall t, In t labels <-> In t T)
    /\ length labels * length (unique S) = length (index X)
    /\ forall s t, In s S -> In t T ->
         exists i, i < length (index X) /\ nth i S NaN = s /\ nth i T NaN = t
                   /\ forall V, long_cell S T V s t = nth i V NaN)
  /\ unstack_multiseries union_order clashing_X clashing_y "series_id" "f_a" "target"
     = Raise ValueError.
Proof.
  intros Hperm Hlong Hrows Hfeatures Hids Hmissing Hgrid Hunique Hfree.
  split; [|reflexivity].
  destruct (S_length X y series_id time_index target_name S T Hlong) as [HS HT].
  assert (Hrow : forall s t, In s S -> In t T -> In (s, t) (combine S T)).
  { intros s t Hs Ht.
    destruct (time_in_grid S T t) as [s' Hs']; [congruence | exact Ht |].
    exact (grid S T Hgrid s' s t Hs' Hs). }
  exists (wide_labels union_order
            (map (fun s => mask_select (map (fun c => cell_eqb c s) S) T) (unique S))).
  split; [|split; [|split; [|split]]].
  - apply (unstack_result_fresh union_order X y series_id time_index target_name S T
             Hlong Hrows Hfeatures Hids Hmissing Hgrid Hunique).
    intros c s' Hc Hs'. unfold time_index_free in Hfree.
    rewrite List.Forall_forall in Hfree.
    specialize (Hfree (fst c) (in_map fst _ _ Hc)).
    rewrite List.Forall_forall in Hfree. apply Hfree. now apply unique_In.
  - exact (labels_NoDup union_order Hperm X y series_id time_index target_name S T
             Hlong Hids Hunique).
  - intros t.
    destruct (some_sid X y series_id time_index target_name S T Hlong Hrows Hunique)
      as [s Hs].
    rewrite (labels_spec union_order Hperm X y series_id time_index target_name S T
               Hlong Hids Hgrid s t Hs).
    split.
    + intros Hin. exact (in_combine_r _ _ _ _ Hin).
    + intros Hin. apply Hrow; [|exact Hin]. now apply unique_In.
  - rewrite <- length_prod.
    rewrite <- (positions_length union_order Hperm X y series_id time_index target_name
                  S T Hlong Hids Hgrid Hunique).
    unfold restacked_positions. now rewrite length_map.
  - intros s t Hs Ht. pose proof (Hrow s t Hs Ht) as Hin.
    exists (position (s, t) (combine S T)). split; [|split; [|split]].
    + pose proof (position_lt (s, t) (combine S T) Hin) as Hlt.
      rewrite length_combine in Hlt. lia.
    + exact (row_series X y series_id time_index target_name S T Hlong s t Hin).
    + exact (row_time X y series_id time_index target_name S T Hlong s t Hin).
    + intros V. reflexivity.
Qed.

Lemma unstack_on_shared_grid_witness :
  exists labels,
    unstack_multiseries (@rev Cell) example_X example_y "series_id" "date" "target"
    = Ok (wide_X "date" (feature_columns example_X "series_id" "date")
            [Str "a"; Str "b"; Str "a"; Str "b"] [Int 10; Int 20; Int 20; Int 10] labels,
          wide_y "target" (s_values example_y)
            [Str "a"; Str "b"; Str "a"; Str "b"] [Int 10; Int 20; Int 20; Int 10] labels)
    /\ NoDup labels.
Proof.
  destruct (unstack_on_shared_grid (@rev Cell) example_X example_y
              "series_id" "date" "target"
              [Str "a"; Str "b"; Str "a"; Str "b"] [Int 10; Int 20; Int 20; Int 10])
    as [[labels [Hresult [Hnodup _]]] _].
  - intros l. symmetry. apply Permutation_rev.
  - unfold long_format. repeat split; try reflexivity.
    + apply (bool_decide_unpack _). vm_compute. exact I.
    + repeat constructor.
    + apply (bool_decide_unpack _). vm_compute. exact I.
    + discriminate.
  - discriminate.
  - discriminate.
  - repeat constructor.
  - unfold no_missing. repeat (constructor; [repeat (constructor; [discriminate|])|]);
      constructor.
  - apply (bool_decide_unpack _). vm_compute. exact I.
  - apply (bool_decide_unpack _). vm_compute. exact I.
  - repeat (constructor; [repeat (constructor; [discriminate|])|]); constructor.
  - exists labels. split; assumption.
Defined.







Lemma combine_fst_snd {A B : Type} (l : list (A * B)) :
  combine (map fst l) (map snd l) = l.
Proof. induction l as [|[a b] l IH]; simpl; congruence. Qed.

Lemma repeat_each_length {A : Type} (n : nat) (l : list A) :
  length (repeat_each n l) = length l * n.
Proof.
  unfold repeat_each. apply flat_map_constant_length.
  intros x _. apply repeat_length.
Qed.

Lemma repeat_list_length {A : Type} (n : nat) (l : list A) :
  length (repeat_list n l) = n * length l.
Proof.
  unfold repeat_list. induction n as [|n IH]; simpl; [reflexivity|].
  rewrite length_app, IH. reflexivity.
Qed.

Lemma filter_time_only (time_index : string) (names : list string) :
  (forall name, In name names -> name = time_index) ->
  List.filter (fun col => negb (String.eqb col time_index)) names = [].
Proof.
  intros Hall. induction names as [|n names IH]; simpl; [reflexivity|].
  rewrite (Hall n (or_introl eq_refl)), String.eqb_refl. simpl.
  apply IH. intros name Hin. apply Hall. now right.
Qed.

Lemma start_index_of_zero (labels : list Cell) :
  start_index_of (Some 0%Z) labels = start_index_of None labels.
Proof. reflexivity. Qed.

(** X15: [stack_X] on a frame without feature columns.  With neither feature
    columns nor series ids to go by it raises [ValueError], and so it does for
    an empty list of ids.  Given ids, it returns the times crossed with the
    sorted ids, every time next to every id, over a fresh integer index; a
    starting index of zero counts as none. *)
Theorem stack_X_without_features (union_order : list Cell -> list Cell)
    (set_order : list string -> list string)
    (X : DataFrame) (series_id_name time_index : string)
    (starting_index : option Z) (ids : list string) (T : list Cell) (start : Z) :
  (forall l, Permutation (set_order l) l) ->
  ((forall name, In name (map fst (columns X)) -> name = time_index) ->
   stack_X union_order set_order X series_id_name time_index starting_index None = Raise ValueError)
  /\ stack_X union_order set_order X series_id_name time_index starting_index (Some [])
     = Raise ValueError
  /\ stack_X union_order set_order X series_id_name time_index (Some 0%Z) (Some ids)
     = stack_X union_order set_order X series_id_name time_index None (Some ids)
  /\ (ids <> [] ->
      get_column (columns X) time_index = Ok T ->
      length T = length (index X) ->
      series_id_name <> time_index ->
      start_index_of starting_index (index X) = Ok start ->
      exists times series_ids,
        stack_X union_order set_order X series_id_name time_index starting_index (Some ids)
        = Ok (mkFrame (range_index start (length T * length ids))
                [(time_index, times); (series_id_name, series_ids)])
        /\ combine times series_ids
           = list_prod T (map Str (merge_sort String.le ids))).
Proof.
  intros Hperm.
  assert (Hempty : set_order (unique (map original_column_of [])) = []).
  { apply Permutation_nil. symmetry. apply Hperm. }
  split; [|split; [|split]].
  - intros Hall. unfold stack_X. rewrite (filter_time_only _ _ Hall). reflexivity.
  - reflexivity.
  - unfold stack_X. destruct (length ids =? 0); [reflexivity|].
    destruct (get_column (columns X) time_index); [|reflexivity]. cbn [rbind].
    rewrite Hempty. cbn [length Nat.eqb]. now rewrite start_index_of_zero.
  - intros Hids Htime Hlen Hname Hstart.
    assert (Hsorted : length (merge_sort String.le ids) = length ids).
    { apply Permutation_length, merge_sort_Permutation. }
    exists (map fst (list_prod T (map Str (merge_sort String.le ids)))),
           (map snd (list_prod T (map Str (merge_sort String.le ids)))).
    split; [|apply combine_fst_snd].
    unfold stack_X. destruct ids as [|id ids']; [contradiction|].
    cbn [length Nat.eqb]. rewrite Htime. cbn [rbind]. rewrite Hempty.
    cbn [length Nat.eqb]. rewrite Hstart. cbn [rbind].
    rewrite range_index_length, repeat_list_length, repeat_each_length, length_map.
    rewrite Hsorted, <- Hlen, Nat.eqb_refl. cbn [negb set_column].
    apply String.eqb_neq in Hname. rewrite Hname.
    rewrite fst_list_prod, snd_list_prod, length_map, Hsorted.
    reflexivity.
Qed.

Lemma stack_X_without_features_witness :
  exists times series_ids,
    stack_X (fun labels => labels) (fun names => names)
      (mkFrame [Int 5; Int 6] [("date", [Int 10; Int 20])])
      "series_id" "date" None (Some ["b"; "a"])
    = Ok (mkFrame (range_index 5 (2 * 2)) [("date", times); ("series_id", series_ids)])
    /\ combine times series_ids
       = list_prod [Int 10; Int 20] (map Str (merge_sort String.le ["b"; "a"])).
Proof.
  apply (proj2 (proj2 (proj2
           (stack_X_without_features (fun labels => labels) (fun names => names)
              (mkFrame [Int 5; Int 6] [("date", [Int 10; Int 20])])
              "series_id" "date" None ["b"; "a"] [Int 10; Int 20] 5%Z
              (fun l => Permutation_refl l))))).
  - discriminate.
  - reflexivity.
  - reflexivity.
  - discriminate.
  - reflexivity.
Defined.

Lemma pieces_plain (s : string) :
  Forall (fun piece => has_underscore piece = false) (split_underscore s).
Proof.
  induction s as [|c s IH]; simpl; [repeat constructor|].
  destruct (Ascii.eqb c "_") eqn:Ec.
  - constructor; [reflexivity | exact IH].
  - destruct (split_underscore s) as [|first others]; simpl.
    + repeat constructor. simpl. now rewrite Ec.
    + inversion IH; subst. constructor; [|assumption]. simpl. now rewrite Ec.
Qed.

Lemma last_In {A : Type} (l : list A) (d : A) : l <> [] -> In (List.last l d) l.
Proof.
  induction l as [|a l IH]; [contradiction|]. intros _.
  destruct l as [|b l]; [now left|]. right. apply IH. discriminate.
Qed.

Lemma series_id_of_plain (name : string) : has_underscore (series_id_of name) = false.
Proof.
  unfold series_id_of.
  pose proof (pieces_plain name) as Hall. rewrite List.Forall_forall in Hall.
  apply Hall, last_In, split_underscore_nonempty.
Qed.

Lemma split_underscore_two (s : string) :
  has_underscore s = true -> exists p q rest, split_underscore s = p :: q :: rest.
Proof.
  induction s as [|c s IH]; simpl; [discriminate|].
  destruct (Ascii.eqb c "_") eqn:Ec; simpl.
  - intros _. pose proof (split_underscore_nonempty s) as Hne.
    destruct (split_underscore s) as [|q rest]; [contradiction|]. now exists "", q, rest.
  - intros Hs. destruct (IH Hs) as (p & q & rest & ->). now exists (String c p), q, rest.
Qed.

Lemma append_assoc (a b c : string) :
  String.append (String.append a b) c = String.append a (String.append b c).
Proof.
  induction a as [|x a IH]; [reflexivity|].
  change (String x (String.append (String.append a b) c)
          = String x (String.append a (String.append b c))).
  now rewrite IH.
Qed.

Lemma append_length (a b : string) :
  String.length (String.append a b) = String.length a + String.length b.
Proof.
  induction a as [|x a IH]; [reflexivity|].
  change (S (String.length (String.append a b)) = S (String.length a) + String.length b).
  now rewrite IH.
Qed.

Lemma join_underscore_app (l r : list string) :
  l <> [] -> r <> [] ->
  join_underscore (l ++ r) = (join_underscore l ++ "_" ++ join_underscore r)%string.
Proof.
  intros Hl Hr. induction l as [|a l IH]; [contradiction|].
  destruct l as [|b l].
  - simpl. destruct r; [contradiction | reflexivity].
  - change (join_underscore ((a :: b :: l) ++ r))
      with (a ++ "_" ++ join_underscore ((b :: l) ++ r))%string.
    rewrite IH by discriminate.
    change (join_underscore (a :: b :: l))
      with (a ++ "_" ++ join_underscore (b :: l))%string.
    now rewrite !append_assoc.
Qed.

(** X16: the wide column name [column ++ "_" ++ s] that [unstack_multiseries]
    gives to a column of series [s] is split back by [stack_X] and
    [stack_data] at its last underscore: the column name and the series id are
    each recovered exactly when [s] holds no underscore, and the series id
    read back never holds one. *)
Theorem wide_name_round_trip (column s : string) :
  (original_column_of (column ++ "_" ++ s) = column <-> has_underscore s = false)
  /\ (series_id_of (column ++ "_" ++ s) = s <-> has_underscore s = false)
  /\ has_underscore (series_id_of (column ++ "_" ++ s)) = false.
Proof.
  split; [|split].
  - split; [|apply original_column_of_renamed].
    intros Hsame. destruct (has_underscore s) eqn:Hs; [exfalso | reflexivity].
    destruct (split_underscore_two s Hs) as (p & q & rest & Hsplit).
    unfold original_column_of in Hsame.
    change (column ++ "_" ++ s)%string with (column ++ String "_" s)%string in Hsame.
    rewrite split_underscore_app, Hsplit in Hsame.
    rewrite removelast_app in Hsame by discriminate.
    change (removelast (p :: q :: rest)) with (p :: removelast (q :: rest)) in Hsame.
    rewrite join_underscore_app in Hsame
      by (try apply split_underscore_nonempty; discriminate).
    rewrite join_split_underscore in Hsame.
    apply (f_equal String.length) in Hsame.
    rewrite !append_length in Hsame. simpl in Hsame. lia.
  - split; [|apply series_id_of_renamed].
    intros Hsame. rewrite <- Hsame. apply series_id_of_plain.
  - apply series_id_of_plain.
Qed.


Section Stacking.
Variable data : DataFrame.
Hypothesis Hshape :
  Forall (fun c => length (snd c) = length (index data)) (columns data).

Lemma cells_length :
  length (flat_map (row_at (columns data)) (seq 0 (length (index data))))
  = length (index data) * length (columns data).
Proof.
  rewrite (flat_map_constant_length (c := length (columns data))).
  - now rewrite length_seq.
  - intros i _. unfold row_at. apply length_map.
Qed.

Lemma cell_value (entry : string * Cell) :
  In entry (flat_map (row_at (columns data)) (seq 0 (length (index data)))) ->
  exists name values i,
    In (name, values) (columns data) /\ i < length values
    /\ entry = (name, nth i values NaN).
Proof.
  intros Hin. apply in_flat_map in Hin. destruct Hin as (i & Hi & Hin).
  apply in_seq in Hi. unfold row_at in Hin. apply in_map_iff in Hin.
  destruct Hin as ([name values] & <- & Hc).
  exists name, values, i. split; [exact Hc | split; [|reflexivity]].
  rewrite List.Forall_forall in Hshape. pose proof (Hshape _ Hc) as Hl.
  simpl in Hl. lia.
Qed.

Lemma value_cell (name : string) (values : list Cell) (v : Cell) :
  In (name, values) (columns data) -> In v values ->
  In (name, v) (flat_map (row_at (columns data)) (seq 0 (length (index data)))).
Proof.
  intros Hc Hv. destruct (In_nth values v NaN Hv) as (i & Hi & Hnth).
  apply in_flat_map. exists i. split.
  - apply in_seq. rewrite List.Forall_forall in Hshape.
    pose proof (Hshape _ Hc) as Hl. simpl in Hl. lia.
  - unfold row_at. apply in_map_iff. exists (name, values).
    split; [now rewrite Hnth | exact Hc].
Qed.

Lemma stack_full : no_missing (columns data) ->
  stack data = flat_map (row_at (columns data)) (seq 0 (length (index data))).
Proof.
  intros Hfull. unfold stack. apply filter_all. intros entry Hin.
  destruct (cell_value entry Hin) as (name & values & i & Hc & Hi & ->).
  unfold no_missing in Hfull. rewrite List.Forall_forall in Hfull.
  pose proof (Hfull _ Hc) as Hvalues. rewrite List.Forall_forall in Hvalues.
  simpl in Hvalues. pose proof (Hvalues _ (nth_In values NaN Hi)) as Hv.
  simpl. now destruct (nth i values NaN).
Qed.

Lemma stack_short : ~ no_missing (columns data) ->
  length (stack data) < length (index data) * length (columns data).
Proof.
  intros Hmissing. rewrite <- cells_length.
  pose proof (filter_length_le (fun entry => negb (is_nan (snd entry)))
                (flat_map (row_at (columns data)) (seq 0 (length (index data))))) as Hle.
  destruct (Nat.eq_dec (length (stack data))
              (length (flat_map (row_at (columns data)) (seq 0 (length (index data))))))
    as [Heq | Hne]; [|unfold stack in *; lia].
  exfalso. apply Hmissing. apply filter_length_forallb in Heq.
  rewrite forallb_forall in Heq.
  unfold no_missing. apply List.Forall_forall. intros [name values] Hc.
  apply List.Forall_forall. intros v Hv. simpl in Hv.
  pose proof (Heq _ (value_cell name values v Hc Hv)) as Hcell. simpl in Hcell.
  intros ->. discriminate.
Qed.

Lemma stack_empty :
  stack data = [] <->
  forallb (fun c => forallb is_nan (snd c)) (columns data) = true.
Proof.
  split.
  - intros Hempty. apply forallb_forall. intros [name values] Hc.
    apply forallb_forall. intros v Hv. simpl in Hv.
    destruct (is_nan v) eqn:Hnan; [reflexivity | exfalso].
    pose proof (value_cell name values v Hc Hv) as Hin.
    assert (Hstack : In (name, v) (stack data)).
    { unfold stack. apply filter_In. split; [exact Hin | simpl; now rewrite Hnan]. }
    rewrite Hempty in Hstack. contradiction.
  - intros Hall. rewrite forallb_forall in Hall.
    unfold stack. apply filter_none. intros entry Hin.
    destruct (cell_value entry Hin) as (name & values & i & Hc & Hi & ->).
    pose proof (Hall _ Hc) as Hvalues. simpl in Hvalues.
    rewrite forallb_forall in Hvalues.
    simpl. now rewrite (Hvalues _ (nth_In values NaN Hi)).
Qed.

Lemma first_cell : columns data <> [] -> index data <> [] ->
  exists v rest,
    flat_map (row_at (columns data)) (seq 0 (length (index data)))
    = (fst (nth 0 (columns data) ("", [])), v) :: rest.
Proof.
  intros Hcolumns Hrows.
  destruct (columns data) as [|[name values] others]; [contradiction|].
  destruct (index data) as [|label labels]; [contradiction|].
  simpl. eauto.
Qed.

End Stacking.

(** X17: [stack_data] on a frame indexed by distinct time labels, with no
    starting index.  A frame without missing values is stacked row by row, each
    label repeated once per column.  One with a missing value is refused: the
    stacked series has dropped the missing cells and no longer fits the
    repeated labels, a [ValueError]; when every cell is missing there is no
    first column name to read, an [IndexError]. *)
Theorem stack_data_time_index (data : DataFrame) (include_series_id : bool)
    (series_id_name : option string) :
  is_numeric (index data) = false ->
  NoDup (index data) ->
  columns data <> [] ->
  Forall (fun c => length (snd c) = length (index data)) (columns data) ->
  (no_missing (columns data) ->
   exists out,
     stack_data data include_series_id series_id_name None = Ok out
     /\ index out = repeat_each (length (columns data)) (index data)
     /\ List.last (columns out) ("", [])
        = (original_column_of (fst (nth 0 (columns data) ("", []))),
           map snd (flat_map (row_at (columns data)) (seq 0 (length (index data))))))
  /\ (~ no_missing (columns data) ->
      stack_data data include_series_id series_id_name None
      = Raise (if forallb (fun c => forallb is_nan (snd c)) (columns data)
               then IndexError else ValueError)).
Proof.
  intros Hnumeric Hlabels Hcolumns Hshape.
  assert (Hrows : index data <> []).
  { intros Hnil. rewrite Hnil in Hnumeric. discriminate. }
  assert (Hindex : length (repeat_each (length (columns data)) (unique (index data)))
                   = length (index data) * length (columns data)).
  { now rewrite (unique_id _ Hlabels), repeat_each_length. }
  split.
  - intros Hfull. unfold stack_data.
    rewrite (stack_full data Hshape Hfull).
    destruct (first_cell data Hshape Hcolumns Hrows) as (v & rest & Hfirst).
    assert (Hhead : map fst (flat_map (row_at (columns data))
                               (seq 0 (length (index data))))
                    = fst (nth 0 (columns data) ("", [])) :: map fst rest)
      by now rewrite Hfirst.
    rewrite Hhead. cbn [rbind]. rewrite <- Hhead.
    rewrite Hnumeric. cbn [negb andb].
    rewrite bool_decide_eq_true_2 by reflexivity. cbn [rbind].
    rewrite Hindex, (cells_length data), Nat.eqb_refl. cbn [negb].
    rewrite (unique_id _ Hlabels).
    destruct include_series_id; eexists; (split; [reflexivity|]);
      split; reflexivity.
  - intros Hmissing. unfold stack_data.
    pose proof (stack_short data Hshape Hmissing) as Hshort.
    pose proof (stack_empty data Hshape) as Hempty.
    destruct (forallb (fun c => forallb is_nan (snd c)) (columns data)).
    + rewrite (proj2 Hempty eq_refl). reflexivity.
    + destruct (stack data) as [|entry entries] eqn:Hs.
      * destruct Hempty as [Hempty _]. discriminate (Hempty eq_refl).
      * cbn [map rbind]. rewrite Hnumeric. cbn [negb andb].
        rewrite bool_decide_eq_true_2 by reflexivity. cbn [rbind].
        rewrite Hindex.
        destruct (Nat.eqb_spec (length (index data) * length (columns data))
                    (length (entry :: entries))) as [Heq | Hne]; [lia | reflexivity].
Qed.


Lemma stack_data_time_index_witness :
  stack_data
    (mkFrame [Str "monday"; Str "tuesday"]
       [("sales_a", [Int 1; NaN]); ("sales_b", [Int 3; Int 4])])
    false None None
  = Raise ValueError.
Proof.
  apply (proj2 (stack_data_time_index
                  (mkFrame [Str "monday"; Str "tuesday"]
                     [("sales_a", [Int 1; NaN]); ("sales_b", [Int 3; Int 4])])
                  false None eq_refl
                  ltac:(apply (bool_decide_unpack _); vm_compute; exact I)
                  ltac:(discriminate)
                  ltac:(repeat constructor))).
  unfold no_missing. intros Hfull.
  apply Forall_inv in Hfull. apply Forall_inv_tail in Hfull.
  apply Forall_inv in Hfull. now apply Hfull.
Defined.

End MultiseriesFacts.

(** ** The multi-graph assembler: when it returns and how it wires the estimator *)

Module AssemblerFacts.
Import Assembler EstimatorInputs.

Lemma dict_lookup_set {V : Type} (d : list (string * V)) (k : string) (v : V) :
  dict_lookup (dict_set d k v) k = Some v.
Proof.
  induction d as [|[k' v'] d IH]; simpl.
  - now rewrite String.eqb_refl.
  - destruct (String.eqb k k') eqn:E; simpl.
    + now rewrite String.eqb_refl.
    + now rewrite E.
Qed.

Lemma all_dot_x_some (names : list string) :
  all_dot_x (map Some names) = Ok (map (fun comp => (comp ++ ".x")%string) names).
Proof. induction names as [|n names IH]; simpl; [reflexivity | now rewrite IH]. Qed.

Lemma last_cons_cons {A : Type} (a b : A) (l : list A) (d : A) :
  List.last (a :: b :: l) d = List.last (b :: l) d.
Proof. reflexivity. Qed.

Section WithRegistry.

Variable handle_component_class : string -> result ComponentClass.

Lemma rewire_items_keeps_final_y pt n idx alias k fx prior items : forall acc fy,
  (forall item, In item items -> endswith item ".y" = false) ->
  snd (rewire_items pt n idx alias k fx prior items acc fy) = fy.
Proof.
  induction items as [|item items IH]; intros acc fy Hno; [reflexivity|].
  cbn [rewire_items].
  destruct (rewire_item pt n idx alias k fx prior item fy) as [new_item fy1] eqn:Hitem.
  assert (fy1 = fy) as ->.
  { unfold rewire_item in Hitem. rewrite (Hno item (or_introl eq_refl)) in Hitem.
    destruct (negb (bool_decide (item ∈ ["X"; "y"]))); [congruence|].
    destruct (String.eqb item "y"); [congruence|].
    destruct prior as [pr|]; [|congruence].
    destruct (String.eqb k fx && truthy pr); congruence. }
  apply IH. intros it Hit. apply Hno. now right.
Qed.

(** The nodes of one sub-pipeline: the loop returns, and leaves the new key
    of the last node as the final component. *)
Lemma add_nodes_final pt p ref idx alias prior entries : forall g h fc fy,
  (exists first, nth_error (compute_order p) 0 = Some first
                 /\ (first = "Label Encoder"
                     -> exists second, nth_error (compute_order p) 1 = Some second)) ->
  (forall entry, In entry entries ->
                 exists cls, handle_component_class (component (snd entry)) = Ok cls) ->
  exists g' h' fy',
    add_nodes handle_component_class pt p ref idx alias prior (g, h, fc, fy) entries
    = Ok (g', h',
          match entries with
          | [] => fc
          | _ :: _ => Some (_make_new_component_name (name p)
                              (List.last (keys entries) "") idx alias)
          end, fy')
    /\ ((forall entry item, In entry entries -> In item (inputs (snd entry)) ->
                            endswith item ".y" = false) -> fy' = fy).
Proof.
  intros g h fc fy Horder. revert g h fc fy.
  induction entries as [|[k node] entries IH]; intros g h fc fy Hcls; cbn [add_nodes].
  - exists g, h, fy. split; [reflexivity | auto].
  - destruct Horder as (first & Hfirst & Hsecond).
    destruct (Hcls (k, node) (or_introl eq_refl)) as (cls & Hk). simpl in Hk.
    unfold add_node at 1. unfold item_at. rewrite Hfirst. cbn [rbind].
    assert (Hfx : exists fx,
      (if negb (String.eqb first "Label Encoder") then Ok first
       else match nth_error (compute_order p) 1 with
            | Some x => Ok x
            | None => Raise IndexError
            end) = Ok fx).
    { destruct (String.eqb_spec first "Label Encoder") as [Heq|Hne]; cbn [negb]; [|eauto].
      destruct (Hsecond Heq) as (second & Hs). rewrite Hs. eauto. }
    destruct Hfx as (fx & ->). cbn [rbind]. rewrite Hk. cbn [rbind].
    pose proof (rewire_items_keeps_final_y pt (name p) idx alias k fx prior
                  (inputs node) [] fy) as Hkeep.
    destruct (rewire_items pt (name p) idx alias k fx prior (inputs node) [] fy)
      as [new_inputs fy1].
    cbn [rbind]. simpl in Hkeep.
    set (nk := _make_new_component_name (name p) k idx alias) in *.
    destruct (IH (dict_set g nk (mkNode (class_name cls) new_inputs))
                 (store_setitem h ref nk (default ∅ (parameters p !! k)))
                 (Some nk) fy1) as (g' & h' & fy' & Hrun & Hfy).
    { intros entry Hentry. apply Hcls. now right. }
    exists g', h', fy'. split.
    + rewrite Hrun. destruct entries as [|[k2 node2] entries']; reflexivity.
    + intros Hno. rewrite Hfy.
      * apply Hkeep. intros item Hitem. exact (Hno (k, node) item (or_introl eq_refl) Hitem).
      * intros entry item Hentry Hitem. apply (Hno entry item); [now right | exact Hitem].
Qed.

Lemma add_pipeline_final pt ref subs prior earlier st p :
  st_used_names st = map name earlier ->
  well_formed_pipeline handle_component_class subs p ->
  exists st',
    add_pipeline handle_component_class pt ref subs prior st p = Ok st'
    /\ st_used_names st' = map name (earlier ++ [p])
    /\ st_final_components st'
       = st_final_components st
         ++ [Some (new_key subs earlier p (List.last (keys (component_dict p)) ""))]
    /\ final_y_of handle_component_class subs earlier p st'.
Proof.
  intros Hused (Hne & _ & Horder & (last & cls & Hlast & Hcls) & Hnodes & (alias & Halias)).
  unfold add_pipeline. rewrite Halias. cbn [rbind]. rewrite Hlast. cbn [rbind].
  rewrite Hcls. cbn [rbind].
  pose proof (GraphProofs.sub_pipeline_name_alias _ _ _ Halias) as ->.
  destruct (add_nodes_final pt p ref (name_index (st_used_names st) (name p))
              (alias_of subs (name p)) prior (component_dict p)
              (st_component_graph st) (st_store st) None "y" Horder)
    as (g1 & h1 & fy1 & Hrun & Hfy).
  { intros entry Hentry. apply Hnodes. now apply list_elem_of_In. }
  rewrite Hrun. cbn [rbind].
  destruct (component_dict p) as [|entry entries] eqn:Hdict; [contradiction|].
  rewrite <- Hdict in *.
  eexists. split; [reflexivity|]. cbn [st_used_names st_final_components].
  split; [now rewrite Hused, map_app|].
  split; [unfold new_key; now rewrite Hused|].
  exists fy1. cbn [st_final_y st_final_y_candidate]. split; [reflexivity|]. split.
  - intros last' cls' Hlast' Hcls'.
    assert (last' = last) as -> by congruence.
    assert (cls' = cls) as -> by congruence.
    unfold new_key. rewrite Hused. now destruct (modifies_target cls).
  - intros Hno. apply Hfy. exact Hno.
Qed.

Lemma add_pipelines_final pt ref subs prior ps : forall earlier st,
  st_used_names st = map name earlier ->
  Forall (well_formed_pipeline handle_component_class subs) ps ->
  exists st',
    add_pipelines handle_component_class pt ref subs prior st ps = Ok st'
    /\ st_final_components st'
       = st_final_components st
         ++ imap (fun i p =>
                    Some (new_key subs (earlier ++ take i ps) p
                            (List.last (keys (component_dict p)) "")))
                 ps
    /\ (ps = [] -> st' = st)
    /\ (forall front p, ps = front ++ [p] -> final_y_of handle_component_class subs (earlier ++ front) p st').
Proof.
  induction ps as [|p ps IH]; intros earlier st Hused Hwf; cbn [add_pipelines].
  - exists st. split; [reflexivity|]. split; [now rewrite app_nil_r|].
    split; [reflexivity|]. intros [|? ?] ? H; discriminate H.
  - inversion Hwf as [|? ? Hp Hrest]; subst.
    destruct (add_pipeline_final pt ref subs prior earlier st p Hused Hp)
      as (st1 & Hstep & Hused1 & Hfc1 & Hy1).
    rewrite Hstep. cbn [rbind].
    destruct (IH (earlier ++ [p]) st1 Hused1 Hrest) as (st' & Hrun & Hfcs & Hnil & Hlast).
    exists st'. split; [exact Hrun|]. split; [|split].
    + rewrite Hfcs, Hfc1, <- app_assoc. f_equal. rewrite imap_cons. cbn [take].
      rewrite app_nil_r. cbn [app]. f_equal.
      apply imap_ext. intros i q _. cbn [take]. now rewrite <- app_assoc.
    + discriminate.
    + intros front q Hsplit. destruct front as [|p0 front].
      * simpl in Hsplit. injection Hsplit as -> ->.
        rewrite (Hnil eq_refl), app_nil_r. exact Hy1.
      * simpl in Hsplit. injection Hsplit as -> ->.
        replace (earlier ++ p0 :: front) with ((earlier ++ [p0]) ++ front)
          by now rewrite <- app_assoc.
        now apply Hlast.
Qed.

End WithRegistry.


Lemma imap_map {A B C : Type} (g : B -> C) (l : list A) : forall f : nat -> A -> B,
  imap (fun i a => g (f i a)) l = map g (imap f l).
Proof.
  induction l as [|a l IH]; intros f; [reflexivity|].
  rewrite !imap_cons. cbn [map]. f_equal. apply (IH (fun i => f (S i))).
Qed.

Lemma last_item_last {A : Type} (l : list A) (d : A) :
  l <> [] -> last_item l = Ok (List.last l d).
Proof.
  intros Hne. destruct (exists_last Hne) as (front & x & ->).
  unfold last_item. rewrite rev_app_distr, last_last. reflexivity.
Qed.

Section Calls.

Variable handle_component_class : string -> result ComponentClass.

(** The call on a non-empty list of well-formed sub-pipelines, up to the
    lookup of the pipeline class. *)
Lemma multiple_graphs_run (h : Store) (ps : list Pipeline) (estimator : string)
    (pt : ProblemTypes) (parameters : option positive) (pipeline_name : option string)
    (subs : option (list (string * string)))
    (pre post : option (list (string * Node))) :
  ps <> [] ->
  Forall (well_formed_pipeline handle_component_class subs) ps ->
  exists graph ref h' graphs final_y,
    assemble_multiple_graphs handle_component_class h ps estimator pt
      parameters pipeline_name subs pre post
    = (pipeline_class <- multiple_graphs_pipeline_class pt ;;
       Ok (mkPipelineCall pipeline_class
             (dict_set graph estimator
                (mkNode estimator (estimator_inputs subs ps post final_y)))
             None ref pipeline_name, h', graphs))%result
    /\ forall front p last cls,
         ps = front ++ [p] ->
         last_item (compute_order p) = Ok last ->
         handle_component_class last = Ok cls ->
         (modifies_target cls = true ->
          final_y = (new_key subs front p last ++ ".y")%string)
         /\ (modifies_target cls = false -> reads_no_target_output p -> final_y = "y").
Proof.
  intros Hne Hwf. unfold assemble_multiple_graphs. cbv zeta.
  match goal with
  | |- context [let '(_, _) := ?alloc in _] => destruct alloc as [ref h1]
  end.
  match goal with
  | |- context [add_pipelines _ _ _ _ ?prior ?st0 ps] =>
      destruct (add_pipelines_final handle_component_class pt ref subs prior ps [] st0
                  eq_refl Hwf) as (st & Hrun & Hfcs & _ & Hlast)
  end.
  rewrite Hrun. cbn [rbind].
  cbn [st_final_components app] in Hfcs.
  assert (Hxs : all_dot_x (st_final_components st) = Ok (branch_outputs subs ps)).
  { rewrite Hfcs, (imap_map Some), all_dot_x_some, <- imap_map. reflexivity. }
  assert (Hsplit : exists front p, ps = front ++ [p]).
  { destruct (exists_last Hne) as (front & p & ->). eauto. }
  destruct Hsplit as (front & p & Hps).
  destruct (Hlast front p Hps) as (fy & Hfy & Hcand & Hplain).
  rewrite Hfy. cbn [rbind].
  set (final_y := default fy (st_final_y_candidate st)).
  assert (Hfinal : forall front' p' last cls,
             ps = front' ++ [p'] ->
             last_item (compute_order p') = Ok last ->
             handle_component_class last = Ok cls ->
             (modifies_target cls = true ->
              final_y = (new_key subs front' p' last ++ ".y")%string)
             /\ (modifies_target cls = false -> reads_no_target_output p' ->
                 final_y = "y")).
  { intros front' p' last cls Hps' Hl Hc.
    rewrite Hps in Hps'. apply app_inj_tail in Hps' as [<- <-].
    subst final_y. rewrite (Hcand last cls Hl Hc).
    split; intros ->; simpl; auto. }
  destruct post as [[|[k0 n0] post']|].
  - cbn [rbind]. rewrite Hxs. cbn [rbind].
    eexists _, ref, (st_store st), _, final_y. split; [reflexivity | exact Hfinal].
  - rewrite Hxs. cbn [rbind dict_set]. rewrite String.eqb_refl.
    rewrite (last_item_last _ "") by discriminate. cbn [rbind].
    change (keys ((k0, mkNode k0 (branch_outputs subs ps ++ [final_y])) :: post'))
      with (keys ((k0, n0) :: post')).
    unfold estimator_inputs.
    destruct (truthy (List.last (keys ((k0, n0) :: post')) "")).
    + cbn [rbind]. eexists _, ref, (st_store st), _, final_y.
      split; [reflexivity | exact Hfinal].
    + cbn [rbind]. eexists _, ref, (st_store st), _, final_y.
      split; [reflexivity | exact Hfinal].
  - cbn [rbind]. rewrite Hxs. cbn [rbind].
    eexists _, ref, (st_store st), _, final_y. split; [reflexivity | exact Hfinal].
Qed.

Lemma multiple_graphs_call (PipelineBase : Type)
    (pipeline_class_init : PipelineCall -> Store -> result (PipelineBase * Store))
    (h : Store) ps estimator pt parameters pipeline_name subs pre post :
  _make_pipeline_from_multiple_graphs handle_component_class pipeline_class_init
    h ps estimator pt parameters pipeline_name subs pre post
  = (built <- assemble_multiple_graphs handle_component_class h ps estimator pt
                parameters pipeline_name subs pre post ;;
     pipeline_class_init (fst (fst built)) (snd (fst built)))%result.
Proof.
  unfold _make_pipeline_from_multiple_graphs.
  destruct (assemble_multiple_graphs _ _ _ _ _ _ _ _ _ _) as [[[call h'] graphs]|e];
    reflexivity.
Qed.

(** X18: how far [_make_pipeline_from_multiple_graphs] gets on well-formed
    sub-pipelines.  It arrives at the call of the pipeline class exactly when
    the list is not empty and the problem type is not the multiseries one, and
    then it returns what the pipeline class returns on the graph built, or
    raises what the class raises.  An empty list raises [NameError], the loop
    variables never having been bound, whatever the problem type; a
    multiseries problem raises [KeyError] at the lookup of the pipeline
    class. *)
Theorem multiple_graphs_returns_iff (PipelineBase : Type)
    (pipeline_class_init : PipelineCall -> Store -> result (PipelineBase * Store))
    (h : Store) (ps : list Pipeline) (estimator : string)
    (pt : ProblemTypes) (parameters : option positive) (pipeline_name : option string)
    (subs : option (list (string * string)))
    (pre post : option (list (string * Node))) :
  Forall (well_formed_pipeline handle_component_class subs) ps ->
  ((exists call h' graphs,
       assemble_multiple_graphs handle_component_class h ps estimator pt
         parameters pipeline_name subs pre post = Ok (call, h', graphs)
       /\ _make_pipeline_from_multiple_graphs handle_component_class
            pipeline_class_init h ps estimator pt parameters pipeline_name subs pre post
          = pipeline_class_init call h')
   <-> ps <> [] /\ pt <> MULTISERIES_TIME_SERIES_REGRESSION)
  /\ (ps = [] ->
      _make_pipeline_from_multiple_graphs handle_component_class pipeline_class_init
        h ps estimator pt parameters pipeline_name subs pre post = Raise NameError)
  /\ (ps <> [] -> pt = MULTISERIES_TIME_SERIES_REGRESSION ->
      _make_pipeline_from_multiple_graphs handle_component_class pipeline_class_init
        h ps estimator pt parameters pipeline_name subs pre post = Raise KeyError).
Proof.
  intros Hwf.
  assert (Hempty : ps = [] ->
            assemble_multiple_graphs handle_component_class h ps estimator pt
              parameters pipeline_name subs pre post = Raise NameError).
  { intros ->. unfold assemble_multiple_graphs.
    match goal with
    | |- context [let '(_, _) := ?alloc in _] => destruct alloc as [ref h1]
    end.
    reflexivity. }
  assert (Hmulti : ps <> [] -> pt = MULTISERIES_TIME_SERIES_REGRESSION ->
            assemble_multiple_graphs handle_component_class h ps estimator pt
              parameters pipeline_name subs pre post = Raise KeyError).
  { intros Hne ->.
    destruct (multiple_graphs_run h ps estimator MULTISERIES_TIME_SERIES_REGRESSION
                parameters pipeline_name subs pre post Hne Hwf)
      as (graph & ref & h' & graphs & final_y & -> & _).
    reflexivity. }
  split; [|split].
  - split.
    + intros (call & h' & graphs & Hrun & _). split.
      * intros Hnil. rewrite (Hempty Hnil) in Hrun. discriminate.
      * intros Hpt. destruct ps as [|p ps']; [now rewrite (Hempty eq_refl) in Hrun|].
        rewrite (Hmulti ltac:(discriminate) Hpt) in Hrun. discriminate.
    + intros [Hne Hpt].
      destruct (multiple_graphs_run h ps estimator pt parameters pipeline_name subs pre
                  post Hne Hwf) as (graph & ref & h' & graphs & final_y & Hrun & _).
      assert (Hok : exists call, assemble_multiple_graphs handle_component_class h ps
                      estimator pt parameters pipeline_name subs pre post
                    = Ok (call, h', graphs)).
      { rewrite Hrun.
        destruct pt; try contradiction; cbn [multiple_graphs_pipeline_class rbind]; eauto. }
      destruct Hok as (call & Hok). exists call, h', graphs. split; [exact Hok|].
      rewrite multiple_graphs_call, Hok. reflexivity.
  - intros Hnil. rewrite multiple_graphs_call, (Hempty Hnil). reflexivity.
  - intros Hne Hpt. rewrite multiple_graphs_call, (Hmulti Hne Hpt). reflexivity.
Qed.

(** X19: how the multi-graph assembler wires the final estimator in the graph
    it hands to the pipeline class.  Without post-components the estimator
    reads the X output of the last node of every sub-pipeline, in the order
    of the input list and under the node's new name, and then one target;
    with post-components it reads the X and y outputs of the last of them.
    The target is chosen from the last sub-pipeline: the y output of the last
    component of its compute order when that component modifies the target,
    and plain ["y"] when it does not and no node of the sub-pipeline reads a
    target output.  Whether a pipeline comes of the graph is up to the
    pipeline class. *)
Theorem multiple_graphs_estimator_inputs (h : Store) (ps : list Pipeline)
    (estimator : string) (pt : ProblemTypes) (parameters : option positive)
    (pipeline_name : option string) (subs : option (list (string * string)))
    (pre post : option (list (string * Node))) :
  ps <> [] ->
  pt <> MULTISERIES_TIME_SERIES_REGRESSION ->
  Forall (well_formed_pipeline handle_component_class subs) ps ->
  exists call h' graphs final_y,
    assemble_multiple_graphs handle_component_class h ps estimator pt
      parameters pipeline_name subs pre post = Ok (call, h', graphs)
    /\ (forall (PipelineBase : Type)
               (pipeline_class_init : PipelineCall -> Store -> result (PipelineBase * Store)),
          _make_pipeline_from_multiple_graphs handle_component_class pipeline_class_init
            h ps estimator pt parameters pipeline_name subs pre post
          = pipeline_class_init call h')
    /\ dict_lookup (pipeline_graph call) estimator
       = Some (mkNode estimator (estimator_inputs subs ps post final_y))
    /\ forall front p last cls,
         ps = front ++ [p] ->
         last_item (compute_order p) = Ok last ->
         handle_component_class last = Ok cls ->
         (modifies_target cls = true ->
          final_y = (new_key subs front p last ++ ".y")%string)
         /\ (modifies_target cls = false -> reads_no_target_output p -> final_y = "y").
Proof.
  intros Hne Hpt Hwf.
  destruct (multiple_graphs_run h ps estimator pt parameters pipeline_name subs pre post
              Hne Hwf) as (graph & ref & h' & graphs & final_y & Hrun & Hfinal).
  assert (Hclass : exists c, multiple_graphs_pipeline_class pt = Ok c)
    by (destruct pt; simpl; eauto; contradiction).
  destruct Hclass as (c & Hclass). rewrite Hclass in Hrun. cbn [rbind] in Hrun.
  eexists _, h', graphs, final_y.
  split; [exact Hrun|].
  split; [|split; [apply dict_lookup_set | exact Hfinal]].
  intros PipelineBase pipeline_class_init.
  rewrite multiple_graphs_call, Hrun. reflexivity.
Qed.

End Calls.


Lemma multiple_graphs_returns_iff_witness :
  _make_pipeline_from_multiple_graphs example_registry no_pipeline_class example_store
    [example_pipeline "A"; example_pipeline "B"] "Random Forest Regressor"
    MULTISERIES_TIME_SERIES_REGRESSION None None None None None
  = Raise KeyError.
Proof.
  apply (proj2 (proj2 (multiple_graphs_returns_iff example_registry unit no_pipeline_class
                         example_store
                         [example_pipeline "A"; example_pipeline "B"]
                         "Random Forest Regressor" MULTISERIES_TIME_SERIES_REGRESSION
                         None None None None None
                         ltac:(repeat (constructor;
                                       [apply GraphProofs.example_pipeline_well_formed;
                                        simpl; eauto|]); constructor)))).
  - discriminate.
  - reflexivity.
Defined.

Lemma multiple_graphs_estimator_inputs_witness :
  exists call h' graphs final_y,
    example_multiple_graphs_call = Ok (call, h', graphs)
    /\ dict_lookup (pipeline_graph call) "Random Forest Classifier"
       = Some (mkNode "Random Forest Classifier"
                 ["A Pipeline - One Hot Encoder.x"; "A Pipeline 2 - One Hot Encoder.x";
                  final_y]).
Proof.
  destruct (multiple_graphs_estimator_inputs example_registry example_store
              [example_pipeline "A"; example_pipeline "A"] "Random Forest Classifier"
              BINARY (Some 1%positive) None None None None)
    as (call & h' & graphs & final_y & Hrun & _ & Hnode & _).
  - discriminate.
  - discriminate.
  - repeat (constructor; [apply GraphProofs.example_pipeline_well_formed; simpl; eauto|]).
    constructor.
  - exists call, h', graphs, final_y. split; [exact Hrun | exact Hnode].
Defined.

End AssemblerFacts.

(** ** The stacked-ensemble assembler: when it returns and how it wires the estimator *)

Module EnsembleFacts.
Import Assembler Assembler.StackedEnsemble EstimatorInputs EnsembleInputs.

Section WithRegistry.

Variable handle_component_class : string -> result ComponentClass.
Variable last_component_model_family : Pipeline -> result string.

(** The model family of the last component of each pipeline, where it has
    one. *)
Variable model_family : Pipeline -> string.

Lemma ensemble_rewire_keeps_y pt family idx items : forall acc ey,
  (forall item, In item items -> endswith item ".y" = false) ->
  snd (StackedEnsemble.rewire_items pt family idx items acc ey) = ey.
Proof.
  induction items as [|item items IH]; intros acc ey Hno; [reflexivity|].
  cbn [StackedEnsemble.rewire_items]. unfold StackedEnsemble.rewire_item.
  rewrite (Hno item (or_introl eq_refl)).
  apply IH. intros it Hit. apply Hno. now right.
Qed.

Lemma ensemble_add_nodes_final pt cached p family ref idx entries : forall g h ci fc ey,
  dict_lookup cached family = None ->
  (forall entry, In entry entries ->
                 exists cls, handle_component_class (component (snd entry)) = Ok cls) ->
  exists g' h' ey',
    StackedEnsemble.add_nodes handle_component_class pt cached p family ref idx
      (g, h, ci, fc, ey) entries
    = Ok (g', h', ci,
          match entries with
          | [] => fc
          | _ :: _ => Some (StackedEnsemble._make_new_component_name family
                              (List.last (keys entries) "") idx)
          end, ey')
    /\ ((forall entry item, In entry entries -> In item (inputs (snd entry)) ->
                            endswith item ".y" = false) -> ey' = ey).
Proof.
  intros g h ci fc ey Hcache. revert g h fc ey.
  induction entries as [|[k node] entries IH]; intros g h fc ey Hcls;
    cbn [StackedEnsemble.add_nodes].
  - exists g, h, ey. split; [reflexivity | auto].
  - destruct (Hcls (k, node) (or_introl eq_refl)) as (cls & Hk). simpl in Hk.
    unfold StackedEnsemble.add_node at 1. unfold StackedEnsemble._set_cache_data.
    rewrite Hcache. cbn [rbind]. rewrite Hk. cbn [rbind].
    pose proof (ensemble_rewire_keeps_y pt family idx (inputs node) [] ey)
      as Hkeep.
    destruct (StackedEnsemble.rewire_items pt family idx (inputs node) [] ey)
      as [new_inputs ey1].
    cbn [rbind]. simpl in Hkeep.
    set (nk := StackedEnsemble._make_new_component_name family k idx) in *.
    destruct (IH (dict_set g nk (mkNode (class_name cls) new_inputs))
                 (store_setitem h ref nk (default ∅ (parameters p !! k)))
                 (Some nk) ey1) as (g' & h' & ey' & Hrun & Hey).
    { intros entry Hentry. apply Hcls. now right. }
    exists g', h', ey'. split.
    + rewrite Hrun. destruct entries as [|[k2 node2] entries']; reflexivity.
    + intros Hno. rewrite Hey.
      * apply Hkeep. intros item Hitem. exact (Hno (k, node) item (or_introl eq_refl) Hitem).
      * intros entry item Hentry Hitem. apply (Hno entry item); [now right | exact Hitem].
Qed.

Lemma ensemble_add_pipelines_final pt cached ref ps : forall earlier st,
  es_used_model_families st = map model_family earlier ->
  Forall (ensemble_well_formed handle_component_class last_component_model_family
            model_family cached) ps ->
  exists st',
    StackedEnsemble.add_pipelines handle_component_class last_component_model_family
      pt (default [] cached) ref st ps
    = Ok st'
    /\ es_final_components st'
       = es_final_components st
         ++ imap (fun i p =>
                    Some (ensemble_key model_family (earlier ++ take i ps) p
                            (List.last (keys (component_dict p)) "")))
                 ps
    /\ (ps = [] -> st' = st)
    /\ (forall front p, ps = front ++ [p] ->
          exists ey, es_ensemble_y st' = Some ey
                     /\ (reads_no_target_output p -> ey = "y")).
Proof.
  induction ps as [|p ps IH]; intros earlier st Hused Hwf;
    cbn [StackedEnsemble.add_pipelines].
  - exists st. split; [reflexivity|]. split; [now rewrite app_nil_r|].
    split; [reflexivity|]. intros [|? ?] ? H; discriminate H.
  - inversion Hwf as [|? ? Hp Hrest]; subst.
    destruct Hp as (Hfamily & Hne & Hcls & Hcache).
    unfold StackedEnsemble.add_pipeline at 1. rewrite Hfamily. cbn [rbind].
    destruct (ensemble_add_nodes_final pt (default [] cached) p (model_family p) ref
                (name_index (es_used_model_families st) (model_family p))
                (component_dict p) (es_component_graph st) (es_store st)
                (es_cached_component_instances st) None "y" Hcache Hcls)
      as (g1 & h1 & ey1 & Hrun & Hey).
    rewrite Hrun. cbn [rbind].
    match goal with
    | |- context [StackedEnsemble.add_pipelines _ _ _ _ _ ?s ps] => set (st1 := s)
    end.
    destruct (IH (earlier ++ [p]) st1) as (st' & Hrun' & Hfcs & Hnil & Hlast).
    { subst st1. cbn [es_used_model_families]. now rewrite Hused, map_app. }
    { exact Hrest. }
    exists st'. split; [exact Hrun'|]. split; [|split].
    + rewrite Hfcs. subst st1. cbn [es_final_components]. rewrite <- app_assoc. f_equal.
      rewrite imap_cons. cbn [take]. rewrite app_nil_r. cbn [app]. f_equal.
      * destruct (component_dict p) as [|entry entries] eqn:Hdict; [contradiction|].
        unfold ensemble_key. now rewrite Hused.
      * apply imap_ext. intros i q _. cbn [take]. now rewrite <- app_assoc.
    + discriminate.
    + intros front q Hsplit. destruct front as [|p0 front].
      * simpl in Hsplit. injection Hsplit as -> ->.
        rewrite (Hnil eq_refl). subst st1. cbn [es_ensemble_y]. eauto.
      * simpl in Hsplit. injection Hsplit as -> ->. exact (Hlast front q eq_refl).
Qed.

Lemma stacked_ensemble_call (PipelineBase : Type)
    (pipeline_class_init : PipelineCall -> Store -> result (PipelineBase * Store))
    (h : Store) ps pt n_jobs cached_data label_encoder_params :
  _make_stacked_ensemble_pipeline handle_component_class last_component_model_family
    pipeline_class_init h ps pt n_jobs cached_data label_encoder_params
  = (built <- assemble_stacked_ensemble handle_component_class
                last_component_model_family h ps pt n_jobs cached_data
                label_encoder_params ;;
     pipeline_class_init (fst built) (snd built))%result.
Proof. reflexivity. Qed.

(** X20: [_make_stacked_ensemble_pipeline].  For a problem type other than
    binary, multiclass and regression, a time series one for instance, it
    raises [KeyError] whatever the pipelines; for those three an empty list of
    pipelines raises [NameError].  Otherwise, on base pipelines whose last
    component has a model family, it arrives at the call of the pipeline
    class, which is all it still does, with a graph whose estimator node, the
    stacked ensemble classifier or regressor, reads the X output of the last
    node of every base pipeline, in the order of the list and under the
    node's new name, and then one target, which is ["y"] when no node of the
    last pipeline reads a target output. *)
Theorem stacked_ensemble_estimator_inputs (h : Store) (ps : list Pipeline)
    (pt : ProblemTypes) (n_jobs : Value)
    (cached_data : option (list (string * list (string * list (string * string)))))
    (label_encoder_params : option positive) :
  Forall (ensemble_well_formed handle_component_class last_component_model_family
            model_family cached_data) ps ->
  (pt <> BINARY -> pt <> MULTICLASS -> pt <> REGRESSION ->
   forall (PipelineBase : Type)
          (pipeline_class_init : PipelineCall -> Store -> result (PipelineBase * Store)),
     _make_stacked_ensemble_pipeline handle_component_class last_component_model_family
       pipeline_class_init h ps pt n_jobs cached_data label_encoder_params
     = Raise KeyError)
  /\ (pt = BINARY \/ pt = MULTICLASS \/ pt = REGRESSION ->
      (ps = [] ->
       forall (PipelineBase : Type)
              (pipeline_class_init : PipelineCall -> Store -> result (PipelineBase * Store)),
         _make_stacked_ensemble_pipeline handle_component_class
           last_component_model_family pipeline_class_init h ps pt n_jobs cached_data
           label_encoder_params = Raise NameError)
      /\ (ps <> [] ->
          exists call h' ensemble_y,
            assemble_stacked_ensemble handle_component_class
              last_component_model_family h ps pt n_jobs cached_data
              label_encoder_params = Ok (call, h')
            /\ (forall (PipelineBase : Type)
                       (pipeline_class_init :
                          PipelineCall -> Store -> result (PipelineBase * Store)),
                  _make_stacked_ensemble_pipeline handle_component_class
                    last_component_model_family pipeline_class_init h ps pt n_jobs
                    cached_data label_encoder_params
                  = pipeline_class_init call h')
            /\ dict_lookup (pipeline_graph call) (ensemble_estimator pt)
               = Some (mkNode (ensemble_estimator pt)
                         (ensemble_outputs model_family ps ++ [ensemble_y]))
            /\ (forall front p, ps = front ++ [p] -> reads_no_target_output p ->
                                ensemble_y = "y"))).
Proof.
  intros Hwf.
  cut ((pt <> BINARY -> pt <> MULTICLASS -> pt <> REGRESSION ->
        assemble_stacked_ensemble handle_component_class last_component_model_family
          h ps pt n_jobs cached_data label_encoder_params = Raise KeyError)
       /\ (pt = BINARY \/ pt = MULTICLASS \/ pt = REGRESSION ->
           (ps = [] ->
            assemble_stacked_ensemble handle_component_class
              last_component_model_family h ps pt n_jobs cached_data
              label_encoder_params = Raise NameError)
           /\ (ps <> [] ->
               exists call h' ensemble_y,
                 assemble_stacked_ensemble handle_component_class
                   last_component_model_family h ps pt n_jobs cached_data
                   label_encoder_params = Ok (call, h')
                 /\ dict_lookup (pipeline_graph call) (ensemble_estimator pt)
                    = Some (mkNode (ensemble_estimator pt)
                              (ensemble_outputs model_family ps ++ [ensemble_y]))
                 /\ (forall front p, ps = front ++ [p] -> reads_no_target_output p ->
                                     ensemble_y = "y")))).
  { intros [Hother Hthree]. split.
    - intros Hb Hm Hr PipelineBase pipeline_class_init.
      rewrite stacked_ensemble_call, (Hother Hb Hm Hr). reflexivity.
    - intros Hpt. destruct (Hthree Hpt) as [Hempty Hrun]. split.
      + intros Hnil PipelineBase pipeline_class_init.
        rewrite stacked_ensemble_call, (Hempty Hnil). reflexivity.
      + intros Hne. destruct (Hrun Hne) as (call & h' & ey & Hcall & Hnode & Hy).
        exists call, h', ey. split; [exact Hcall|]. split; [|split; assumption].
        intros PipelineBase pipeline_class_init.
        rewrite stacked_ensemble_call, Hcall. reflexivity. }
  unfold assemble_stacked_ensemble.
  match goal with
  | |- context [let '(_, _) := ?alloc in _] => destruct alloc as [ref h1]
  end.
  split.
  - intros Hb Hm Hr. destruct pt; try contradiction; reflexivity.
  - intros Hpt.
    assert (Hloop : forall g0 h0 ref0, ps <> [] ->
      exists st ensemble_y,
        add_pipelines handle_component_class last_component_model_family pt
          (default [] cached_data) ref0
          (mkEnsemble g0 h0 [] [] [] None) ps = Ok st
        /\ all_dot_x (es_final_components st) = Ok (ensemble_outputs model_family ps)
        /\ es_ensemble_y st = Some ensemble_y
        /\ (forall front p, ps = front ++ [p] -> reads_no_target_output p ->
                            ensemble_y = "y")).
    { intros g0 h0 ref0 Hne.
      destruct (ensemble_add_pipelines_final pt cached_data ref0 ps []
                  (mkEnsemble g0 h0 [] [] [] None) eq_refl Hwf)
        as (st & Hrun & Hfcs & _ & Hlast).
      cbn [es_final_components app] in Hfcs.
      destruct (exists_last Hne) as (front & p & Hps).
      destruct (Hlast front p Hps) as (ey & Hey & Hplain).
      exists st, ey. split; [exact Hrun|]. split; [|split; [exact Hey|]].
      - rewrite Hfcs, (AssemblerFacts.imap_map Some), AssemblerFacts.all_dot_x_some,
          <- AssemblerFacts.imap_map.
        reflexivity.
      - intros front' p' Hps' Hno. rewrite Hps in Hps'.
        apply app_inj_tail in Hps' as [<- <-]. auto. }
    destruct Hpt as [-> | [-> | ->]];
      cbn [is_classification stacked_ensemble_pipeline_class rbind ensemble_estimator];
      unfold store_alloc;
      (split; [intros ->; reflexivity | intros Hne]);
      match goal with
      | |- context [add_pipelines _ _ _ _ ?r (mkEnsemble ?g ?hh [] [] [] None) ps] =>
          destruct (Hloop g hh r Hne) as (st & ey & Hrun & Hxs & Hey & Hy)
      end;
      rewrite Hrun; cbn [rbind]; rewrite Hxs; cbn [rbind]; rewrite Hey; cbn [rbind];
      eexists _, _, ey;
      (split; [reflexivity | split; [apply AssemblerFacts.dict_lookup_set | exact Hy]]).
Qed.

End WithRegistry.

Lemma stacked_ensemble_estimator_inputs_witness :
  exists call h' ensemble_y,
    example_stacked_ensemble_call = Ok (call, h')
    /\ dict_lookup (pipeline_graph call) "Stacked Ensemble Classifier"
       = Some (mkNode "Stacked Ensemble Classifier"
                 ["Random Forest Pipeline - Random Forest Classifier.x"; ensemble_y]).
Proof.
  destruct (stacked_ensemble_estimator_inputs example_registry example_model_family
              (fun _ => "Random Forest") example_store
              [example_base_pipeline "A"] BINARY (VInt (-1)) None (Some 1%positive))
    as [_ Hreturns].
  - constructor; [|constructor].
    split; [reflexivity|]. split; [discriminate|]. split; [|reflexivity].
    intros entry Hentry. simpl in Hentry.
    destruct Hentry as [<-|[<-|[]]]; eexists; reflexivity.
  - destruct (Hreturns (or_introl eq_refl)) as [_ Hrun].
    destruct (Hrun ltac:(discriminate)) as (call & h' & ey & Hcall & _ & Hnode & _).
    exists call, h', ey. split; [exact Hcall | exact Hnode].
Defined.

(** A base pipeline that does not end on an estimator: the model family of
    its last component cannot be read. *)
Example stacked_ensemble_without_estimator :
  assemble_stacked_ensemble example_registry example_model_family example_store
    [example_pipeline "A"] BINARY (VInt (-1)) None (Some 1%positive)
  = Raise AttributeError.
Proof. reflexivity. Qed.

End EnsembleFacts.

(** ** The selector: order of the result, and a missing estimator class *)

Module SelectorOrder.
Import Selector Heuristics SelectorProofs SelectorFacts.

Section WithOracles.

Context {Target : Type}.
Variable set_iter : list LogicalType -> list LogicalType.
Variable get_time_index_freq : list Column -> Target -> result (option string).
Variable is_freq_valid : string -> bool.
Variable determine_periodicity : list Column -> Target -> Z -> option Z.
Variable estimator_unable_to_handle_nans : option EstimatorClass -> result bool.

Abbreviation rule := (run_rule set_iter get_time_index_freq is_freq_valid
                    determine_periodicity estimator_unable_to_handle_nans).
Abbreviation functions := (run_functions set_iter get_time_index_freq is_freq_valid
                         determine_periodicity estimator_unable_to_handle_nans).
Abbreviation select := (_get_preprocessing_components set_iter get_time_index_freq
                      is_freq_valid determine_periodicity
                      estimator_unable_to_handle_nans).

Lemma fixed_order_NoDup pt : NoDup (fixed_order pt).
Proof. destruct pt; apply (bool_decide_unpack _); vm_compute; exact I. Qed.

Lemma sampler_rule f c :
  c = Undersampler \/ c = Oversampler -> c ∈ rule_components f -> f = get_sampler.
Proof.
  intros Hc Hin.
  destruct f; simpl in Hin; try reflexivity;
    apply list_elem_of_singleton in Hin; destruct Hc; congruence.
Qed.

Lemma sampler_rule_single X (y : Target) pt e s cs :
  rule get_sampler X y pt e s = Ok cs -> cs = [] \/ exists c, cs = [c].
Proof.
  simpl. unfold _get_sampler. destruct s as [name|]; [|intros [= <-]; now left].
  destruct (dict_get sampler_components name) as [c|err]; simpl; [|discriminate].
  intros [= <-]. right. now exists c.
Qed.

(** X22: the components the selector returns follow the fixed order of the
    problem type, none of them appears twice, and at most one of the two
    samplers is among them. *)
Theorem selector_follows_fixed_order X (y : Target) pt e s ex incl comps :
  _get_preprocessing_components set_iter get_time_index_freq is_freq_valid
    determine_periodicity estimator_unable_to_handle_nans X y pt e s ex incl
  = Ok comps ->
  comps `sublist_of` fixed_order pt
  /\ NoDup comps
  /\ ~ (Undersampler ∈ comps /\ Oversampler ∈ comps).
Proof.
  intros Hsel.
  assert (Hsub : comps `sublist_of` fixed_order pt)
    by (eapply functions_sublist; exact Hsel).
  split; [exact Hsub|]. split.
  - eapply sublist_NoDup; [apply fixed_order_NoDup | exact Hsub].
  - intros [Hunder Hover].
    destruct (component_rule _ _ _ _ _ _ _ _ _ _ _ _ _ Undersampler Hsel Hunder)
      as (f1 & cs1 & _ & _ & Hr1 & Hc1 & Hf1).
    destruct (component_rule _ _ _ _ _ _ _ _ _ _ _ _ _ Oversampler Hsel Hover)
      as (f2 & cs2 & _ & _ & Hr2 & Hc2 & Hf2).
    apply (sampler_rule _ _ (or_introl eq_refl)) in Hf1.
    apply (sampler_rule _ _ (or_intror eq_refl)) in Hf2. subst f1 f2.
    assert (cs2 = cs1) as -> by congruence.
    destruct (sampler_rule_single _ _ _ _ _ _ Hr1) as [-> | (c & ->)].
    + inversion Hc1.
    + apply list_elem_of_singleton in Hc1, Hc2. congruence.
Qed.




End WithOracles.

Lemma selector_follows_fixed_order_witness :
  exists comps,
    _get_preprocessing_components (fun l => l) example_freq example_is_freq_valid
      example_periodicity example_unable_to_handle_nans example_X ([] : list Z) BINARY
      (Some example_estimator) (Some "Oversampler") None true
    = Ok comps
    /\ comps `sublist_of` fixed_order BINARY
    /\ NoDup comps.
Proof.
  eexists. split; [vm_compute; reflexivity|].
  destruct (selector_follows_fixed_order (fun l => l) example_freq example_is_freq_valid
              example_periodicity example_unable_to_handle_nans example_X ([] : list Z)
              BINARY (Some example_estimator) (Some "Oversampler") None true _ eq_refl)
    as (Hsub & Hnodup & _).
  split; [exact Hsub | exact Hnodup].
Defined.


End SelectorOrder.

(** ** The baseline pipeline: one gap and one forecast horizon throughout *)

Module BaselineFacts.
Import Assembler Baseline.



End BaselineFacts.

(** ** [rows_of_interest]: argument checks, the rows returned, the categories *)

Module RowsFacts.
Import Metrics Multiseries RowsOfInterest MultiseriesProofs.

Lemma sorts_before_total (a b : float) :
  sorts_before a b = true \/ sorts_before b a = true.
Proof.
  destruct a as [| | |x], b as [| | |y]; simpl; auto.
  rewrite !Qle_bool_iff. destruct (Qlt_le_dec x y) as [Hlt | Hle]; [left | right]; auto.
  now apply Qlt_le_weak.
Qed.

Lemma sorts_before_trans (a b c : float) :
  sorts_before a b = true -> sorts_before b c = true -> sorts_before a c = true.
Proof.
  destruct a as [| | |x], b as [| | |y], c as [| | |z]; simpl; auto; try discriminate.
  rewrite !Qle_bool_iff. apply Qle_trans.
Qed.

Section Sorting.

Context {A : Type}.
Variable key : A -> float.

Lemma insert_sorted_perm (x : A) (l : list A) :
  Permutation (insert_sorted key x l) (x :: l).
Proof.
  induction l as [|y l IH]; simpl; [reflexivity|].
  destruct (sorts_before (key x) (key y)); [reflexivity|].
  rewrite IH. apply perm_swap.
Qed.

Lemma sort_values_perm (l : list A) : Permutation (sort_values key l) l.
Proof.
  induction l as [|x l IH]; simpl; [reflexivity|].
  rewrite insert_sorted_perm. now constructor.
Qed.

End Sorting.

Lemma mask_select_map {A B : Type} (f : A -> B) (mask : list bool) : forall l,
  mask_select mask (map f l) = map f (mask_select mask l).
Proof.
  induction mask as [|b mask IH]; intros [|x l]; simpl; try reflexivity.
  destruct b; simpl; now rewrite IH.
Qed.

Lemma insert_sorted_map {A B : Type} (f : A -> B) (key : B -> float) (x : A) (l : list A) :
  insert_sorted key (f x) (map f l) = map f (insert_sorted (fun a => key (f a)) x l).
Proof.
  induction l as [|y l IH]; simpl; [reflexivity|].
  destruct (sorts_before (key (f x)) (key (f y))); simpl; [reflexivity | now rewrite IH].
Qed.

Lemma sort_values_map {A B : Type} (f : A -> B) (key : B -> float) (l : list A) :
  sort_values key (map f l) = map f (sort_values (fun a => key (f a)) l).
Proof.
  induction l as [|x l IH]; simpl; [reflexivity|].
  fold (sort_values key (map f l)). rewrite IH. apply insert_sorted_map.
Qed.

Lemma filter_map {A B : Type} (f : A -> B) (p : B -> bool) (l : list A) :
  List.filter p (map f l) = map f (List.filter (fun a => p (f a)) l).
Proof.
  induction l as [|x l IH]; simpl; [reflexivity|].
  destruct (p (f x)); simpl; now rewrite IH.
Qed.

Lemma mask_select_sublist {A : Type} (mask : list bool) : forall l : list A,
  mask_select mask l `sublist_of` l.
Proof.
  induction mask as [|b mask IH]; intros [|x l]; simpl; try apply sublist_nil_l.
  destruct b; [apply sublist_skip | apply sublist_cons]; apply IH.
Qed.

Lemma filter_sublist {A : Type} (p : A -> bool) (l : list A) :
  List.filter p l `sublist_of` l.
Proof.
  induction l as [|x l IH]; simpl; [constructor|].
  destruct (p x); [apply sublist_skip | apply sublist_cons]; exact IH.
Qed.

Lemma StronglySorted_sublist {A : Type} (R : A -> A -> Prop) (l k : list A) :
  l `sublist_of` k -> StronglySorted R k -> StronglySorted R l.
Proof.
  induction 1 as [|x l k Hsub IH|x l k Hsub IH]; intros Hsorted.
  - constructor.
  - apply StronglySorted_inv in Hsorted as [Hk Hx]. constructor; [now apply IH|].
    rewrite List.Forall_forall in *. intros y Hy. apply Hx.
    apply list_elem_of_In. apply (elem_of_sublist _ _ _ (proj2 (list_elem_of_In _ _) Hy) Hsub).
  - apply StronglySorted_inv in Hsorted as [Hk _]. now apply IH.
Qed.

Lemma StronglySorted_impl_in {A : Type} (R1 R2 : A -> A -> Prop) (l : list A) :
  (forall x y, In x l -> In y l -> R1 x y -> R2 x y) ->
  StronglySorted R1 l -> StronglySorted R2 l.
Proof.
  induction l as [|x l IH]; intros Himpl Hsorted; [constructor|].
  apply StronglySorted_inv in Hsorted as [Hl Hx]. constructor.
  - apply IH; [|exact Hl]. intros a b Ha Hb. apply Himpl; now right.
  - rewrite List.Forall_forall in *. intros y Hy.
    apply Himpl; [now left | now right | now apply Hx].
Qed.

Lemma seq_sorted (start len : nat) : StronglySorted lt (seq start len).
Proof.
  revert start. induction len as [|len IH]; intros start; simpl; constructor.
  - apply IH.
  - apply List.Forall_forall. intros y Hy. apply in_seq in Hy. lia.
Qed.

Section Positions.

(** Positions sorted by a key, the earlier position first among equals. *)
Variable key : nat -> float.

Lemma insert_sorted_sorted (x : nat) (l : list nat) :
  (forall y, In y l -> x < y) ->
  StronglySorted (by_key key) l -> StronglySorted (by_key key) (insert_sorted key x l).
Proof.
  induction l as [|y l IH]; intros Hlt Hsorted; simpl.
  - repeat constructor.
  - apply StronglySorted_inv in Hsorted as [Hl Hy].
    rewrite List.Forall_forall in Hy.
    destruct (sorts_before (key x) (key y)) eqn:Hxy.
    + constructor; [constructor; [exact Hl | now apply List.Forall_forall]|].
      apply List.Forall_forall. intros z [<- | Hz].
      * split; [exact Hxy | intros _; apply Hlt; now left].
      * split; [|intros _; apply Hlt; now right].
        exact (sorts_before_trans _ _ _ Hxy (proj1 (Hy z Hz))).
    + constructor.
      * apply IH; [|exact Hl]. intros z Hz. apply Hlt. now right.
      * apply List.Forall_forall. intros z Hz.
        apply (Permutation_in _ (insert_sorted_perm key x l)) in Hz.
        destruct Hz as [<- | Hz]; [|now apply Hy].
        split; [|congruence].
        destruct (sorts_before_total (key x) (key y)); [congruence | assumption].
Qed.

Lemma sort_values_sorted (l : list nat) :
  StronglySorted lt l -> StronglySorted (by_key key) (sort_values key l).
Proof.
  induction l as [|x l IH]; intros Hsorted; simpl; [constructor|].
  apply StronglySorted_inv in Hsorted as [Hl Hx]. rewrite List.Forall_forall in Hx.
  apply insert_sorted_sorted; [|now apply IH].
  intros y Hy. apply Hx. exact (Permutation_in _ (sort_values_perm key l) Hy).
Qed.

End Positions.

Lemma lookup_nth {A : Type} (l : list A) (d : A) (i : nat) :
  i < length l -> l !! i = Some (nth i l d).
Proof.
  intros Hi. rewrite nth_lookup.
  destruct (lookup_lt_is_Some_2 l i Hi) as [x ->]. reflexivity.
Qed.

Lemma Forall2_map_in {A B : Type} (P : A -> B -> Prop) (f : A -> B) (l : list A) :
  (forall x, In x l -> P x (f x)) -> Forall2 P l (map f l).
Proof.
  induction l as [|x l IH]; intros Hall; simpl; constructor.
  - apply Hall. now left.
  - apply IH. intros y Hy. apply Hall. now right.
Qed.

Section Results.

Context {Features Label : Type} `{EqDecision Label}.
Variable rnd : Q -> Q.

(** What a call that returns went through: the checks passed, the
    probabilities were predicted, and the rows are the labels of the selected,
    sorted and filtered distances. *)
Lemma rows_of_interest_ok (pipeline : Pipeline) (X : Features)
    (y : option (list (Label * Z))) (threshold : option float) (epsilon : float)
    (sort : bool) (types : string) (rows : list Label) :
  rows_of_interest rnd pipeline X y threshold epsilon sort types = Ok rows ->
  exists pred selected,
    predict_proba pipeline X = Ok pred
    /\ (selected = map (fun r => (fst r, distance rnd (threshold_used pipeline threshold)
                                           (snd r))) pred
        \/ types <> "all"
           /\ exists mask,
                selected
                = mask_select mask
                    (map (fun r => (fst r, distance rnd (threshold_used pipeline threshold)
                                             (snd r))) pred))
    /\ rows = map fst (List.filter (fun r => fle (snd r) epsilon)
                         (if sort then sort_values snd selected else selected)).
Proof.
  unfold rows_of_interest.
  destruct (negb (bool_decide (types ∈ valid_types))); [discriminate|].
  destruct (negb (String.eqb types "all") && bool_decide (y = None)); [discriminate|].
  destruct (negb (is_binary_classification_pipeline pipeline) || negb (_is_fitted pipeline));
    [discriminate|].
  destruct (match threshold with
            | Some t => flt t (Fin 0) || flt (Fin 1) t
            | None => false
            end); [discriminate|].
  intros Hrun.
  apply rbind_ok in Hrun as (pred & Hpred & Hrun).
  apply rbind_ok in Hrun as (mask & Hmask & Hrun).
  apply rbind_ok in Hrun as (selected & Hsel & Hrun).
  injection Hrun as <-.
  exists pred, selected. split; [exact Hpred|]. split; [|reflexivity].
  destruct (bool_decide (types ∈ ["correct"; "true_positive"])) eqn:Hfirst.
  - right. split.
    + intros ->. apply bool_decide_eq_true in Hfirst.
      repeat (apply elem_of_cons in Hfirst as [Hfirst | Hfirst]; [discriminate|]).
      inversion Hfirst.
    + unfold select_by in Hsel. destruct (_ =? _); [|discriminate].
      injection Hsel as <-. now exists mask.
  - destruct (bool_decide (types ∈ ["incorrect"; "true_negative"])) eqn:Hsecond.
    + right. split.
      * intros ->. apply bool_decide_eq_true in Hsecond.
        repeat (apply elem_of_cons in Hsecond as [Hsecond | Hsecond]; [discriminate|]).
        inversion Hsecond.
      * unfold select_by in Hsel. destruct (_ =? _); [|discriminate].
        injection Hsel as <-. now exists (map negb mask).
    + left. now injection Hsel as <-.
Qed.

(** X26: the rows [rows_of_interest] returns.  They are the labels of distinct
    positions of the predicted probabilities, each within [epsilon] of the
    threshold by the distance the code computes; the positions come in
    ascending order, or, when sorting is asked for, by ascending distance with
    the earlier position first among equal distances; and for the type
    ["all"] no position within [epsilon] is left out. *)
Theorem rows_of_interest_result (pipeline : Pipeline) (X : Features)
    (y : option (list (Label * Z))) (threshold : option float) (epsilon : float)
    (sort : bool) (types : string) (rows : list Label) :
  rows_of_interest rnd pipeline X y threshold epsilon sort types = Ok rows ->
  exists pred positions,
    predict_proba pipeline X = Ok pred
    /\ NoDup positions
    /\ Forall2 (fun i row =>
                  exists probability,
                    pred !! i = Some (row, probability)
                    /\ fle (distance rnd (threshold_used pipeline threshold) probability)
                           epsilon = true)
               positions rows
    /\ StronglySorted (listed_before rnd sort pred (threshold_used pipeline threshold))
                      positions
    /\ (types = "all" ->
        forall i row probability,
          pred !! i = Some (row, probability) ->
          fle (distance rnd (threshold_used pipeline threshold) probability) epsilon = true ->
          In i positions).
Proof.
  intros Hrun.
  destruct (rows_of_interest_ok _ _ _ _ _ _ _ _ Hrun) as (pred & selected & Hpred & Hsel & ->).
  exists pred.
  set (t := threshold_used pipeline threshold) in *.
  destruct pred as [|r0 pred'] eqn:Epred.
  { exists []. assert (selected = []) as ->.
    { destruct Hsel as [-> | (_ & mask & ->)]; [reflexivity|]. now destruct mask. }
    split; [exact Hpred|]. split; [constructor|].
    destruct sort; simpl; (split; [constructor|]); (split; [constructor|]);
      intros _ i row probability Hi; rewrite lookup_nil in Hi; discriminate. }
  rewrite <- Epred in *. clear Epred pred'.
  set (g := fun i : nat => (fst (nth i pred r0), distance rnd t (snd (nth i pred r0)))).
  assert (Hpvp : map (fun r => (fst r, distance rnd t (snd r))) pred
                 = map g (seq 0 (length pred))).
  { rewrite <- (map_nth_all pred r0) at 1. now rewrite map_map. }
  assert (Hchain : exists chosen,
             chosen `sublist_of` seq 0 (length pred)
             /\ selected = map g chosen
             /\ (types = "all" -> chosen = seq 0 (length pred))).
  { destruct Hsel as [-> | (Hne & mask & ->)].
    - exists (seq 0 (length pred)). split; [reflexivity|]. split; [exact Hpvp | auto].
    - exists (mask_select mask (seq 0 (length pred))).
      split; [apply mask_select_sublist|]. split; [|contradiction].
      now rewrite Hpvp, mask_select_map. }
  destruct Hchain as (chosen & Hsub & -> & Hall).
  set (key := fun i => snd (g i)).
  set (ordered := if sort then sort_values key chosen else chosen).
  assert (Hordered : (if sort then sort_values snd (map g chosen) else map g chosen)
                     = map g ordered).
  { subst ordered. destruct sort; [exact (sort_values_map g snd chosen) | reflexivity]. }
  rewrite Hordered, filter_map, map_map.
  set (final := List.filter (fun i => fle (snd (g i)) epsilon) ordered).
  assert (Hperm : Permutation ordered chosen).
  { subst ordered. destruct sort; [apply sort_values_perm | reflexivity]. }
  assert (Hrange : forall i, In i ordered -> i < length pred).
  { intros i Hi. apply (Permutation_in _ Hperm) in Hi.
    apply list_elem_of_In in Hi. apply (fun H => elem_of_sublist _ _ _ H Hsub) in Hi.
    apply list_elem_of_In, in_seq in Hi. lia. }
  assert (Hkey : forall i, i < length pred -> distance_at rnd pred t i = key i).
  { intros i Hi. unfold distance_at. now rewrite (lookup_nth pred r0 i Hi). }
  assert (Hchosen : StronglySorted lt chosen).
  { exact (StronglySorted_sublist _ _ _ Hsub (seq_sorted 0 (length pred))). }
  exists final. split; [exact Hpred|]. split; [|split; [|split]].
  - apply (sublist_NoDup final ordered); [|apply filter_sublist].
    rewrite Hperm.
    apply (sublist_NoDup chosen (seq 0 (length pred))); [|exact Hsub].
    apply NoDup_ListNoDup, seq_NoDup.
  - apply Forall2_map_in. intros i Hi. apply filter_In in Hi as [Hi Hle].
    exists (snd (nth i pred r0)). split; [|exact Hle].
    rewrite (lookup_nth pred r0 i (Hrange i Hi)). subst g. cbn [fst snd].
    now destruct (nth i pred r0).
  - apply (StronglySorted_sublist _ final ordered); [apply filter_sublist|].
    subst ordered. unfold listed_before. destruct sort; [|exact Hchosen].
    apply (StronglySorted_impl_in (by_key key)).
    + intros i j Hi Hj [Hij Hji]. unfold by_key.
      rewrite (Hkey i), (Hkey j); [now split | |];
        apply Hrange; assumption.
    + now apply sort_values_sorted.
  - intros Htypes i row probability Hi Hle.
    apply filter_In. split.
    + apply (Permutation_in _ (symmetry Hperm)). rewrite (Hall Htypes).
      apply in_seq. apply lookup_lt_Some in Hi. lia.
    + subst g. cbn [snd]. rewrite nth_lookup, Hi. exact Hle.
Qed.

(** X25: the argument checks of [rows_of_interest] come before any
    prediction.  A type that is not one of the five, a type other than
    ["all"] without target data, a pipeline that is not a fitted binary
    classification pipeline, or a threshold below 0 or above 1 each raise
    [ValueError], whatever [predict_proba] would do.  With a fitted binary
    pipeline and no threshold outside the range, the type ["all"] returns
    whenever the prediction does, and hands on its error otherwise. *)
Theorem rows_of_interest_argument_checks (pipeline : Pipeline) (X : Features)
    (y : option (list (Label * Z))) (threshold : option float) (epsilon : float)
    (sort : bool) (types : string) :
  (~ In types valid_types
   \/ (types <> "all" /\ y = None)
   \/ is_binary_classification_pipeline pipeline = false
   \/ _is_fitted pipeline = false
   \/ (exists t, threshold = Some t /\ (flt t (Fin 0) = true \/ flt (Fin 1) t = true)) ->
   rows_of_interest rnd pipeline X y threshold epsilon sort types = Raise ValueError)
  /\ (is_binary_classification_pipeline pipeline = true ->
      _is_fitted pipeline = true ->
      (forall t, threshold = Some t -> flt t (Fin 0) = false /\ flt (Fin 1) t = false) ->
      (forall pred, predict_proba pipeline X = Ok pred ->
                    exists rows,
                      rows_of_interest rnd pipeline X y threshold epsilon sort "all"
                      = Ok rows)
      /\ (forall e, predict_proba pipeline X = Raise e ->
                    rows_of_interest rnd pipeline X y threshold epsilon sort "all"
                    = Raise e)).
Proof.
  split.
  - intros Hbad. unfold rows_of_interest.
    destruct (bool_decide (types ∈ valid_types)) eqn:Htypes; [|reflexivity].
    apply bool_decide_eq_true, list_elem_of_In in Htypes. cbn [negb].
    destruct (String.eqb_spec types "all") as [Hall | Hall]; cbn [negb andb];
      [|destruct y as [ys|]; [rewrite bool_decide_eq_false_2 by discriminate
                             |rewrite bool_decide_eq_true_2 by reflexivity; reflexivity]];
      (destruct (is_binary_classification_pipeline pipeline) eqn:Hbinary;
       [|reflexivity]);
      (destruct (_is_fitted pipeline) eqn:Hfitted; [|reflexivity]);
      cbn [negb orb];
      (destruct Hbad as [Hbad | [[Hne Hnone] | [Hbad | [Hbad | (t & -> & Hrange)]]]];
       [contradiction | try contradiction; try discriminate | discriminate | discriminate |]);
      (destruct Hrange as [-> | ->]; [reflexivity | now rewrite orb_true_r]).
  - intros Hbinary Hfitted Hrange.
    assert (Hchecks : match threshold with
                      | Some t => flt t (Fin 0) || flt (Fin 1) t
                      | None => false
                      end = false).
    { destruct threshold as [t|]; [|reflexivity].
      destruct (Hrange t eq_refl) as [-> ->]. reflexivity. }
    unfold rows_of_interest.
    rewrite bool_decide_eq_true_2
      by (apply list_elem_of_In; unfold valid_types; simpl; tauto).
    rewrite String.eqb_refl, Hbinary, Hfitted, Hchecks. cbn [negb andb orb].
    split.
    + intros pred ->. cbn [rbind].
      assert (Hmask : exists mask,
                 mask_of "all" (map (fun r => (fst r, fge (snd r)
                                                 (threshold_used pipeline threshold))) pred) y
                 = Ok mask).
      { unfold mask_of. destruct y as [ys|];
          rewrite bool_decide_eq_false_2; eauto;
          intros Hin; repeat (apply elem_of_cons in Hin as [Hin | Hin]; [discriminate|]);
          inversion Hin. }
      destruct Hmask as (mask & ->). cbn [rbind].
      rewrite !bool_decide_eq_false_2; [cbn [rbind]; eauto | |];
        intros Hin; repeat (apply elem_of_cons in Hin as [Hin | Hin]; [discriminate|]);
        inversion Hin.
    + intros e ->. reflexivity.
Qed.

Lemma mask_select_split {A : Type} (mask : list bool) : forall l : list A,
  length mask = length l ->
  Permutation (mask_select mask l ++ mask_select (map negb mask) l) l.
Proof.
  induction mask as [|b mask IH]; intros [|x l] Hlen; simpl in *; try discriminate;
    [reflexivity|].
  destruct b; simpl.
  - constructor. apply IH. lia.
  - rewrite <- Permutation_middle. constructor. apply IH. lia.
Qed.

Lemma filter_perm {A : Type} (p : A -> bool) (l l' : list A) :
  Permutation l l' -> Permutation (List.filter p l) (List.filter p l').
Proof.
  induction 1 as [|x l l' _ IH|x y l|l l' l'' _ IH1 _ IH2]; simpl.
  - reflexivity.
  - destruct (p x); [now constructor | exact IH].
  - destruct (p x), (p y); try reflexivity. apply perm_swap.
  - now rewrite IH1.
Qed.

Abbreviation listed epsilon sort selected :=
  (map fst (List.filter (fun r : Label * float => fle (snd r) epsilon)
              (if sort then sort_values snd selected else selected))).

Lemma listed_split (epsilon : float) (sort : bool) (a b l : list (Label * float)) :
  Permutation (a ++ b) l ->
  Permutation (listed epsilon sort a ++ listed epsilon sort b) (listed epsilon sort l).
Proof.
  intros Hperm. rewrite <- map_app, <- List.filter_app.
  apply Permutation_map, filter_perm.
  destruct sort; [|exact Hperm].
  now rewrite !sort_values_perm.
Qed.

(** X27: the categories of [rows_of_interest] divide the rows.  With target
    data labelled like the predictions, a fitted binary pipeline and a
    threshold within range, the five types all return, and the rows of
    ["correct"] and ["incorrect"] together are the rows of ["all"], each
    counted once, as are those of ["true_positive"] and ["true_negative"]. *)
Theorem rows_of_interest_categories (pipeline : Pipeline) (X : Features)
    (y : list (Label * Z)) (threshold : option float) (epsilon : float) (sort : bool)
    (pred : list (Label * float)) :
  is_binary_classification_pipeline pipeline = true ->
  _is_fitted pipeline = true ->
  (forall t, threshold = Some t -> flt t (Fin 0) = false /\ flt (Fin 1) t = false) ->
  predict_proba pipeline X = Ok pred ->
  map fst pred = map fst y ->
  exists all correct incorrect positive negative,
    rows_of_interest rnd pipeline X (Some y) threshold epsilon sort "all" = Ok all
    /\ rows_of_interest rnd pipeline X (Some y) threshold epsilon sort "correct"
       = Ok correct
    /\ rows_of_interest rnd pipeline X (Some y) threshold epsilon sort "incorrect"
       = Ok incorrect
    /\ rows_of_interest rnd pipeline X (Some y) threshold epsilon sort "true_positive"
       = Ok positive
    /\ rows_of_interest rnd pipeline X (Some y) threshold epsilon sort "true_negative"
       = Ok negative
    /\ Permutation (correct ++ incorrect) all
    /\ Permutation (positive ++ negative) all.
Proof.
  intros Hbinary Hfitted Hrange Hpred Hindex.
  assert (Hchecks : match threshold with
                    | Some t => flt t (Fin 0) || flt (Fin 1) t
                    | None => false
                    end = false).
  { destruct threshold as [t|]; [|reflexivity].
    destruct (Hrange t eq_refl) as [-> ->]. reflexivity. }
  assert (Hlen : length y = length pred).
  { apply (f_equal (@length Label)) in Hindex. rewrite !length_map in Hindex. lia. }
  set (t := threshold_used pipeline threshold).
  set (pvp := map (fun r : Label * float => (fst r, distance rnd t (snd r))) pred).
  set (preds := map (fun r : Label * float => (fst r, fge (snd r) t)) pred).
  set (agree := map (fun py : (Label * bool) * (Label * Z) =>
                       Z.eqb (if snd (fst py) then 1 else 0) (snd (snd py)))
                    (combine preds y)).
  set (truth := map (fun v : Label * Z => negb (Z.eqb (snd v) 0)) y).
  assert (Hagree : length agree = length pvp).
  { subst agree pvp preds. rewrite !length_map, length_combine, length_map. lia. }
  assert (Htruth : length truth = length pvp).
  { subst truth pvp. rewrite !length_map. exact Hlen. }
  assert (Hsame : map fst preds = map fst y).
  { subst preds. rewrite map_map. exact Hindex. }
  exists (listed epsilon sort pvp),
         (listed epsilon sort (mask_select agree pvp)),
         (listed epsilon sort (mask_select (map negb agree) pvp)),
         (listed epsilon sort (mask_select truth pvp)),
         (listed epsilon sort (mask_select (map negb truth) pvp)).
  assert (Hnegb : forall m : list bool, length (map negb m) = length m)
    by (intros m; apply length_map).
  repeat split;
    try (apply listed_split, mask_select_split; assumption);
    unfold rows_of_interest;
    (rewrite bool_decide_eq_true_2
       by (apply list_elem_of_In; unfold valid_types; simpl; tauto));
    rewrite (bool_decide_eq_false_2 (Some y = None)) by discriminate;
    rewrite andb_false_r, Hbinary, Hfitted, Hchecks, Hpred;
    cbn [negb orb rbind]; fold t preds pvp; unfold mask_of.
  - rewrite !bool_decide_eq_false_2
      by (intros Hin; repeat (apply elem_of_cons in Hin as [Hin | Hin]; [discriminate|]);
          inversion Hin).
    reflexivity.
  - rewrite (bool_decide_eq_true_2 ("correct" ∈ ["correct"; "incorrect"]))
      by (apply list_elem_of_In; simpl; tauto).
    rewrite (bool_decide_eq_true_2 (map fst preds = map fst y)) by exact Hsame.
    cbn [rbind]. fold agree.
    rewrite (bool_decide_eq_true_2 ("correct" ∈ ["correct"; "true_positive"]))
      by (apply list_elem_of_In; simpl; tauto).
    unfold select_by. rewrite Hagree, Nat.eqb_refl. reflexivity.
  - rewrite (bool_decide_eq_true_2 ("incorrect" ∈ ["correct"; "incorrect"]))
      by (apply list_elem_of_In; simpl; tauto).
    rewrite (bool_decide_eq_true_2 (map fst preds = map fst y)) by exact Hsame.
    cbn [rbind]. fold agree.
    rewrite (bool_decide_eq_false_2 ("incorrect" ∈ ["correct"; "true_positive"]))
      by (intros Hin; repeat (apply elem_of_cons in Hin as [Hin | Hin]; [discriminate|]);
          inversion Hin).
    rewrite (bool_decide_eq_true_2 ("incorrect" ∈ ["incorrect"; "true_negative"]))
      by (apply list_elem_of_In; simpl; tauto).
    unfold select_by. rewrite Hnegb, Hagree, Nat.eqb_refl. reflexivity.
  - rewrite (bool_decide_eq_false_2 ("true_positive" ∈ ["correct"; "incorrect"]))
      by (intros Hin; repeat (apply elem_of_cons in Hin as [Hin | Hin]; [discriminate|]);
          inversion Hin).
    cbn [rbind]. fold truth.
    rewrite (bool_decide_eq_true_2 ("true_positive" ∈ ["correct"; "true_positive"]))
      by (apply list_elem_of_In; simpl; tauto).
    unfold select_by. rewrite Htruth, Nat.eqb_refl. reflexivity.
  - rewrite (bool_decide_eq_false_2 ("true_negative" ∈ ["correct"; "incorrect"]))
      by (intros Hin; repeat (apply elem_of_cons in Hin as [Hin | Hin]; [discriminate|]);
          inversion Hin).
    cbn [rbind]. fold truth.
    rewrite (bool_decide_eq_false_2 ("true_negative" ∈ ["correct"; "true_positive"]))
      by (intros Hin; repeat (apply elem_of_cons in Hin as [Hin | Hin]; [discriminate|]);
          inversion Hin).
    rewrite (bool_decide_eq_true_2 ("true_negative" ∈ ["incorrect"; "true_negative"]))
      by (apply list_elem_of_In; simpl; tauto).
    unfold select_by. rewrite Hnegb, Htruth, Nat.eqb_refl. reflexivity.
Qed.

End Results.

Lemma rows_of_interest_argument_checks_witness :
  rows_of_interest (fun q => q) example_binary_pipeline tt (Some example_binary_target)
    (Some (Fin (3 # 2))) (Fin (1 # 10)) true "all"
  = Raise ValueError.
Proof.
  apply (proj1 (rows_of_interest_argument_checks (fun q => q) example_binary_pipeline tt
                  (Some example_binary_target) (Some (Fin (3 # 2))) (Fin (1 # 10)) true "all")).
  right. right. right. right. exists (Fin (3 # 2)). split; [reflexivity|].
  right. reflexivity.
Defined.

Lemma rows_of_interest_result_witness :
  exists pred positions,
    predict_proba example_binary_pipeline tt = Ok pred
    /\ NoDup positions
    /\ Forall2 (fun i row =>
                  exists probability,
                    pred !! i = Some (row, probability)
                    /\ fle (distance (fun q => q) (Fin (1 # 2)) probability) (Fin (1 # 10))
                       = true)
               positions [10; 12].
Proof.
  destruct (rows_of_interest_result (fun q => q) example_binary_pipeline tt None None
              (Fin (1 # 10)) true "all" [10; 12] eq_refl)
    as (pred & positions & Hpred & Hnodup & Hrows & _).
  exists pred, positions. split; [exact Hpred|]. split; [exact Hnodup | exact Hrows].
Defined.

Lemma rows_of_interest_categories_witness :
  exists all correct incorrect positive negative,
    rows_of_interest (fun q => q) example_binary_pipeline tt (Some example_binary_target) None
      (Fin (1 # 10)) false "all" = Ok all
    /\ rows_of_interest (fun q => q) example_binary_pipeline tt (Some example_binary_target) None
         (Fin (1 # 10)) false "correct" = Ok correct
    /\ rows_of_interest (fun q => q) example_binary_pipeline tt (Some example_binary_target) None
         (Fin (1 # 10)) false "incorrect" = Ok incorrect
    /\ rows_of_interest (fun q => q) example_binary_pipeline tt (Some example_binary_target) None
         (Fin (1 # 10)) false "true_positive" = Ok positive
    /\ rows_of_interest (fun q => q) example_binary_pipeline tt (Some example_binary_target) None
         (Fin (1 # 10)) false "true_negative" = Ok negative
    /\ Permutation (correct ++ incorrect) all
    /\ Permutation (positive ++ negative) all.
Proof.
  apply (rows_of_interest_categories (fun q => q) example_binary_pipeline tt example_binary_target None
           (Fin (1 # 10)) false
           [(10, Fin (1 # 2)); (11, Fin (9 # 10)); (12, Fin (45 # 100))]).
  - reflexivity.
  - reflexivity.
  - discriminate.
  - reflexivity.
  - reflexivity.
Defined.

End RowsFacts.
